(** * Hikari: bytecode compiler and virtual machine

    A shallow embedding of the Hikari runtime (src/opcodes.js, src/compiler,
    src/vm) and the properties of its specification that concern the unwind
    protocol, truthiness, the call-frame bound, operand ranges, promises,
    AWAIT, prototype lookup and upvalues.

    JavaScript objects that the runtime mutates in place (VM objects, arrays,
    closures, upvalues, promises, call frames) live in stores indexed by
    address, so that aliasing is the aliasing of the source.  Handlers are
    written in a small state monad whose results also record a host exception
    escaping a handler, a host loop that does not terminate, and the places
    where execution leaves the embedded fragment (host interop). *)

From Stdlib Require Import ZArith String List Floats Lia.
From stdpp Require Import gmap strings list pretty.

Local Open Scope string_scope.
Local Open Scope list_scope.
Local Open Scope Z_scope.

(** ** Opcode catalog (src/opcodes.js) *)

Module Opcodes.
Definition OP_CONSTANT : Z := 0x00.
Definition OP_PUSH_NULL : Z := 0x01.
Definition OP_PUSH_TRUE : Z := 0x02.
Definition OP_PUSH_FALSE : Z := 0x03.
Definition OP_POP : Z := 0x04.
Definition OP_DUPLICATE : Z := 0x05.
Definition OP_ADD : Z := 0x10.
Definition OP_SUBTRACT : Z := 0x11.
Definition OP_MULTIPLY : Z := 0x12.
Definition OP_DIVIDE : Z := 0x13.
Definition OP_EQUAL : Z := 0x14.
Definition OP_NOT_EQUAL : Z := 0x15.
Definition OP_GREATER : Z := 0x16.
Definition OP_LESS : Z := 0x17.
Definition OP_GREATER_EQUAL : Z := 0x18.
Definition OP_LESS_EQUAL : Z := 0x19.
Definition OP_MODULO : Z := 0x1A.
Definition OP_POWER : Z := 0x1B.
Definition OP_NEGATE : Z := 0x20.
Definition OP_NOT : Z := 0x21.
Definition OP_GET_GLOBAL : Z := 0x30.
Definition OP_SET_GLOBAL : Z := 0x31.
Definition OP_DEFINE_GLOBAL : Z := 0x3C.
Definition OP_GET_LOCAL : Z := 0x32.
Definition OP_SET_LOCAL : Z := 0x33.
Definition OP_GET_UPVALUE : Z := 0x34.
Definition OP_SET_UPVALUE : Z := 0x35.
Definition OP_INCREMENT_LOCAL : Z := 0x36.
Definition OP_DECREMENT_LOCAL : Z := 0x37.
Definition OP_INCREMENT_GLOBAL : Z := 0x38.
Definition OP_DECREMENT_GLOBAL : Z := 0x39.
Definition OP_INCREMENT_UPVALUE : Z := 0x3A.
Definition OP_DECREMENT_UPVALUE : Z := 0x3B.
Definition OP_JUMP : Z := 0x40.
Definition OP_JUMP_IF_FALSE : Z := 0x41.
Definition OP_LOOP : Z := 0x42.
Definition OP_SETUP_TRY : Z := 0x50.
Definition OP_POP_CATCH : Z := 0x51.
Definition OP_THROW : Z := 0x52.
Definition OP_CALL : Z := 0x60.
Definition OP_RETURN : Z := 0x61.
Definition OP_CLOSURE : Z := 0x62.
Definition OP_CLOSE_UPVALUE : Z := 0x63.
Definition OP_YIELD : Z := 0x69.
Definition OP_AWAIT : Z := 0x6A.
Definition OP_GET_NATIVE : Z := 0x70.
Definition OP_CALL_METHOD : Z := 0x71.
Definition OP_SET_PROTOTYPE : Z := 0x72.
Definition OP_NEW_ARRAY : Z := 0x80.
Definition OP_GET_INDEX : Z := 0x81.
Definition OP_SET_INDEX : Z := 0x82.
Definition OP_NEW_OBJECT : Z := 0x83.
Definition OP_GET_PROPERTY : Z := 0x84.
Definition OP_SET_PROPERTY : Z := 0x85.
Definition OP_GET_PROPERTY_PROTO : Z := 0x86.
Definition OP_SET_PROPERTY_PROTO : Z := 0x87.
Definition OP_OBJECT_CREATE : Z := 0x88.
Definition OP_GET_PROTOTYPE : Z := 0x90.
Definition OP_NEW : Z := 0x91.
Definition OP_INCREMENT_PROPERTY : Z := 0x92.
Definition OP_DECREMENT_PROPERTY : Z := 0x93.
Definition OP_HALT : Z := 0xFF.
End Opcodes.

(** ** Values *)

(** An upvalue descriptor of a compiled function: [{ index, isLocal }]. *)
Module UpvalueDesc.
Record t : Type := mk { index : Z; isLocal : bool }.
End UpvalueDesc.

(** Host (JavaScript) values the VM creates or is handed.  The functions the
    VM itself builds as JavaScript closures are listed by what they capture;
    everything else of the host is opaque. *)
Inductive HostRef : Type :=
| HostPromiseV1                      (* the PromiseV1 class *)
| HostResolve (p : nat)              (* resolve of the PromiseV1 constructor *)
| HostReject (p : nat)               (* reject of the PromiseV1 constructor *)
| HostAwaitResolved (frame : nat)    (* first handler OP_AWAIT passes to then *)
| HostAwaitRejected (frame : nat)    (* second handler OP_AWAIT passes to then *)
| HostAdoptResolve (p : nat)         (* v => this._resolveInternal(v) *)
| HostAdoptReject (p : nat)          (* r => this._rejectInternal(r) *)
| HostOpaqueFunction (name : string)
| HostOpaqueObject (name : string).

(** Runtime values.  Numbers are IEEE-754 doubles.  Arrays, VM objects,
    closures, promises and generator objects are references into the stores
    of the VM. A compiled FunctionObject is an immutable value and may sit in
    a constant pool. *)
Inductive Value : Type :=
| VUndefined
| VNull
| VBool (b : bool)
| VNum (n : float)
| VStr (s : string)
| VArray (a : nat)
| VObject (a : nat)
| VClosure (a : nat)
| VFunctionObject (f : FunctionObject)
| VPromise (a : nat)
| VGenerator (a : nat)
| VBag (a : nat)                      (* the [properties] record of VM object [a] *)
| VNativeObject (name : string) (object : HostRef)
| VHost (h : HostRef)
with FunctionObject : Type :=
| mkFunctionObject (name : string) (arity : Z) (bytecode : list Z)
    (constants : list Value) (upvalueCount : Z)
    (upvalues : list UpvalueDesc.t) (isGenerator isAsync : bool).

Module FunctionObject.
Definition name (f : FunctionObject) : string :=
  match f with mkFunctionObject n _ _ _ _ _ _ _ => n end.
Definition arity (f : FunctionObject) : Z :=
  match f with mkFunctionObject _ a _ _ _ _ _ _ => a end.
Definition bytecode (f : FunctionObject) : list Z :=
  match f with mkFunctionObject _ _ b _ _ _ _ _ => b end.
Definition constants (f : FunctionObject) : list Value :=
  match f with mkFunctionObject _ _ _ c _ _ _ _ => c end.
Definition upvalueCount (f : FunctionObject) : Z :=
  match f with mkFunctionObject _ _ _ _ n _ _ _ => n end.
Definition upvalues (f : FunctionObject) : list UpvalueDesc.t :=
  match f with mkFunctionObject _ _ _ _ _ u _ _ => u end.
Definition isGenerator (f : FunctionObject) : bool :=
  match f with mkFunctionObject _ _ _ _ _ _ g _ => g end.
Definition isAsync (f : FunctionObject) : bool :=
  match f with mkFunctionObject _ _ _ _ _ _ _ a => a end.
(** [new FunctionObject(name, arity, bytecode, constants)] with the
    defaults of the remaining constructor parameters. *)
Definition make4 (n : string) (a : Z) (b : list Z) (c : list Value) : FunctionObject :=
  mkFunctionObject n a b c 0 [] false false.
End FunctionObject.

(** ** Store cells (src/vm/vm-datatypes.js, src/vm/PromiseV1.js) *)

(** A VM object [{ properties: {...}, prototype: ... }]. *)
Module Obj.
Record t : Type := mk { properties : gmap string Value; prototype : Value }.
End Obj.

(** [class Closure]: [prototype] is no field of the constructor; it is
    [VUndefined] until OP_GET_PROTOTYPE or OP_NEW assigns it.  An entry of
    [upvalues] is [None] where the source array holds [undefined]. *)
Module Closure.
Record t : Type := mk { func : FunctionObject; upvalues : list (option nat); prototype : Value }.
End Closure.

Module Upvalue.
Record t : Type := mk { location : Z; closed : Value; next : option nat }.
End Upvalue.

Module CallFrame.
Record t : Type := mk {
  func : FunctionObject;
  ip : Z;
  stackBase : Z;
  closure : nat;
  asyncPromise : option nat
}.
Definition with_ip (i : Z) (f : t) : t :=
  mk (func f) i (stackBase f) (closure f) (asyncPromise f).
Definition with_asyncPromise (p : option nat) (f : t) : t :=
  mk (func f) (ip f) (stackBase f) (closure f) p.
End CallFrame.

Module ExceptionHandler.
Record t : Type := mk { targetIp : Z; stackSize : Z; frameIndex : Z }.
End ExceptionHandler.

Inductive PromiseState : Type := PENDING | FULFILLED | REJECTED.

(** The two closures [then] builds around its arguments. *)
Inductive Callback : Type :=
| scheduleFulfillment (onFulfilled : Value) (newPromise : nat)
| scheduleRejection (onRejected : Value) (newPromise : nat).

Module PromiseV1.
Record t : Type := mk {
  state : PromiseState;
  value : Value;
  reason : Value;
  onFulfilledCallbacks : list Callback;
  onRejectedCallbacks : list Callback
}.
(** The fields after [new PromiseV1(null, vm)]. *)
Definition fresh : t := mk PENDING VUndefined VUndefined [] [].
End PromiseV1.

(** Entries of the microtask queue: an [AsyncCallTask] or one of the arrow
    functions the runtime schedules. *)
Inductive Microtask : Type :=
| AsyncCallTask (callee : nat) (asyncPromise : option nat) (args : list Value)
| ResolveInternalTask (p : nat) (value : Value)   (* () => this._resolveInternal(value) *)
| RejectInternalTask (p : nat) (reason : Value)   (* () => this._rejectInternal(reason) *)
| ThenSettledTask (p : nat) (cb : Callback)       (* () => scheduleFulfillment(this.value), or Rejection(this.reason) *)
| AwaitResumeTask (frame : nat) (resolvedValue : Value)
| AwaitRejectTask (frame : nat) (rejectionReason : Value).

(** What [console.error] is given by the fatal branch of [runtimeError]. *)
Record ErrorReport : Type := mkErrorReport { report_message : Value; report_funcName : string }.

(** ** The VM (src/vm/VM.js) *)

Record VM : Type := mkVM {
  stack : list Value;
  stackProps : gmap Z Value;     (* properties of the stack array that are no indices *)
  globals : gmap string Value;
  callFrames : list nat;         (* addresses into [frames], bottom first *)
  currentFrame : option nat;
  openUpvalues : option nat;
  exceptionHandlers : list ExceptionHandler.t;
  microtaskQueue : list Microtask;
  MAX_CALL_FRAMES : Z;
  pendingHostOps : Z;
  hasError : bool;
  console_error : list ErrorReport;
  (* stores *)
  objects : list Obj.t;
  arrays : list (list Value);
  closures : list Closure.t;
  upvalueCells : list Upvalue.t;
  promises : list PromiseV1.t;
  frames : list CallFrame.t;
  generators : list nat          (* the closure of each GeneratorObject *)
}.

Definition with_stack (x : list Value) (vm : VM) : VM :=
  mkVM x (stackProps vm) (globals vm) (callFrames vm) (currentFrame vm) (openUpvalues vm)
    (exceptionHandlers vm) (microtaskQueue vm) (MAX_CALL_FRAMES vm) (pendingHostOps vm)
    (hasError vm) (console_error vm) (objects vm) (arrays vm) (closures vm)
    (upvalueCells vm) (promises vm) (frames vm) (generators vm).
Definition with_stackProps (x : gmap Z Value) (vm : VM) : VM :=
  mkVM (stack vm) x (globals vm) (callFrames vm) (currentFrame vm) (openUpvalues vm)
    (exceptionHandlers vm) (microtaskQueue vm) (MAX_CALL_FRAMES vm) (pendingHostOps vm)
    (hasError vm) (console_error vm) (objects vm) (arrays vm) (closures vm)
    (upvalueCells vm) (promises vm) (frames vm) (generators vm).
Definition with_globals (x : gmap string Value) (vm : VM) : VM :=
  mkVM (stack vm) (stackProps vm) x (callFrames vm) (currentFrame vm) (openUpvalues vm)
    (exceptionHandlers vm) (microtaskQueue vm) (MAX_CALL_FRAMES vm) (pendingHostOps vm)
    (hasError vm) (console_error vm) (objects vm) (arrays vm) (closures vm)
    (upvalueCells vm) (promises vm) (frames vm) (generators vm).
Definition with_callFrames (x : list nat) (vm : VM) : VM :=
  mkVM (stack vm) (stackProps vm) (globals vm) x (currentFrame vm) (openUpvalues vm)
    (exceptionHandlers vm) (microtaskQueue vm) (MAX_CALL_FRAMES vm) (pendingHostOps vm)
    (hasError vm) (console_error vm) (objects vm) (arrays vm) (closures vm)
    (upvalueCells vm) (promises vm) (frames vm) (generators vm).
Definition with_currentFrame (x : option nat) (vm : VM) : VM :=
  mkVM (stack vm) (stackProps vm) (globals vm) (callFrames vm) x (openUpvalues vm)
    (exceptionHandlers vm) (microtaskQueue vm) (MAX_CALL_FRAMES vm) (pendingHostOps vm)
    (hasError vm) (console_error vm) (objects vm) (arrays vm) (closures vm)
    (upvalueCells vm) (promises vm) (frames vm) (generators vm).
Definition with_openUpvalues (x : option nat) (vm : VM) : VM :=
  mkVM (stack vm) (stackProps vm) (globals vm) (callFrames vm) (currentFrame vm) x
    (exceptionHandlers vm) (microtaskQueue vm) (MAX_CALL_FRAMES vm) (pendingHostOps vm)
    (hasError vm) (console_error vm) (objects vm) (arrays vm) (closures vm)
    (upvalueCells vm) (promises vm) (frames vm) (generators vm).
Definition with_exceptionHandlers (x : list ExceptionHandler.t) (vm : VM) : VM :=
  mkVM (stack vm) (stackProps vm) (globals vm) (callFrames vm) (currentFrame vm) (openUpvalues vm)
    x (microtaskQueue vm) (MAX_CALL_FRAMES vm) (pendingHostOps vm)
    (hasError vm) (console_error vm) (objects vm) (arrays vm) (closures vm)
    (upvalueCells vm) (promises vm) (frames vm) (generators vm).
Definition with_microtaskQueue (x : list Microtask) (vm : VM) : VM :=
  mkVM (stack vm) (stackProps vm) (globals vm) (callFrames vm) (currentFrame vm) (openUpvalues vm)
    (exceptionHandlers vm) x (MAX_CALL_FRAMES vm) (pendingHostOps vm)
    (hasError vm) (console_error vm) (objects vm) (arrays vm) (closures vm)
    (upvalueCells vm) (promises vm) (frames vm) (generators vm).
Definition with_hasError (x : bool) (vm : VM) : VM :=
  mkVM (stack vm) (stackProps vm) (globals vm) (callFrames vm) (currentFrame vm) (openUpvalues vm)
    (exceptionHandlers vm) (microtaskQueue vm) (MAX_CALL_FRAMES vm) (pendingHostOps vm)
    x (console_error vm) (objects vm) (arrays vm) (closures vm)
    (upvalueCells vm) (promises vm) (frames vm) (generators vm).
Definition with_console_error (x : list ErrorReport) (vm : VM) : VM :=
  mkVM (stack vm) (stackProps vm) (globals vm) (callFrames vm) (currentFrame vm) (openUpvalues vm)
    (exceptionHandlers vm) (microtaskQueue vm) (MAX_CALL_FRAMES vm) (pendingHostOps vm)
    (hasError vm) x (objects vm) (arrays vm) (closures vm)
    (upvalueCells vm) (promises vm) (frames vm) (generators vm).
Definition with_objects (x : list Obj.t) (vm : VM) : VM :=
  mkVM (stack vm) (stackProps vm) (globals vm) (callFrames vm) (currentFrame vm) (openUpvalues vm)
    (exceptionHandlers vm) (microtaskQueue vm) (MAX_CALL_FRAMES vm) (pendingHostOps vm)
    (hasError vm) (console_error vm) x (arrays vm) (closures vm)
    (upvalueCells vm) (promises vm) (frames vm) (generators vm).
Definition with_arrays (x : list (list Value)) (vm : VM) : VM :=
  mkVM (stack vm) (stackProps vm) (globals vm) (callFrames vm) (currentFrame vm) (openUpvalues vm)
    (exceptionHandlers vm) (microtaskQueue vm) (MAX_CALL_FRAMES vm) (pendingHostOps vm)
    (hasError vm) (console_error vm) (objects vm) x (closures vm)
    (upvalueCells vm) (promises vm) (frames vm) (generators vm).
Definition with_closures (x : list Closure.t) (vm : VM) : VM :=
  mkVM (stack vm) (stackProps vm) (globals vm) (callFrames vm) (currentFrame vm) (openUpvalues vm)
    (exceptionHandlers vm) (microtaskQueue vm) (MAX_CALL_FRAMES vm) (pendingHostOps vm)
    (hasError vm) (console_error vm) (objects vm) (arrays vm) x
    (upvalueCells vm) (promises vm) (frames vm) (generators vm).
Definition with_upvalueCells (x : list Upvalue.t) (vm : VM) : VM :=
  mkVM (stack vm) (stackProps vm) (globals vm) (callFrames vm) (currentFrame vm) (openUpvalues vm)
    (exceptionHandlers vm) (microtaskQueue vm) (MAX_CALL_FRAMES vm) (pendingHostOps vm)
    (hasError vm) (console_error vm) (objects vm) (arrays vm) (closures vm)
    x (promises vm) (frames vm) (generators vm).
Definition with_promises (x : list PromiseV1.t) (vm : VM) : VM :=
  mkVM (stack vm) (stackProps vm) (globals vm) (callFrames vm) (currentFrame vm) (openUpvalues vm)
    (exceptionHandlers vm) (microtaskQueue vm) (MAX_CALL_FRAMES vm) (pendingHostOps vm)
    (hasError vm) (console_error vm) (objects vm) (arrays vm) (closures vm)
    (upvalueCells vm) x (frames vm) (generators vm).
Definition with_frames (x : list CallFrame.t) (vm : VM) : VM :=
  mkVM (stack vm) (stackProps vm) (globals vm) (callFrames vm) (currentFrame vm) (openUpvalues vm)
    (exceptionHandlers vm) (microtaskQueue vm) (MAX_CALL_FRAMES vm) (pendingHostOps vm)
    (hasError vm) (console_error vm) (objects vm) (arrays vm) (closures vm)
    (upvalueCells vm) (promises vm) x (generators vm).
Definition with_generators (x : list nat) (vm : VM) : VM :=
  mkVM (stack vm) (stackProps vm) (globals vm) (callFrames vm) (currentFrame vm) (openUpvalues vm)
    (exceptionHandlers vm) (microtaskQueue vm) (MAX_CALL_FRAMES vm) (pendingHostOps vm)
    (hasError vm) (console_error vm) (objects vm) (arrays vm) (closures vm)
    (upvalueCells vm) (promises vm) (frames vm) x.

(** [initializeNativeGlobals]: the host objects bound at construction. *)
Definition nativeGlobals : gmap string Value :=
  <["setTimeout" := VNativeObject "setTimeout" (HostOpaqueFunction "setTimeoutWrapper")]>
  (<["clearInterval" := VNativeObject "clearInterval" (HostOpaqueFunction "clearIntervalWrapper")]>
  (<["setInterval" := VNativeObject "setInterval" (HostOpaqueFunction "setIntervalWrapper")]>
  (<["fetch" := VNativeObject "fetch" (HostOpaqueFunction "fetchWrapper")]>
  (<["Promise" := VNativeObject "Promise" HostPromiseV1]>
  (<["Object" := VNativeObject "Object" (HostOpaqueFunction "Object")]>
  (<["console" := VNativeObject "console" (HostOpaqueObject "console")]> ∅)))))).

(** [new VM()]. *)
Definition newVM : VM :=
  mkVM [] ∅ nativeGlobals [] None None [] [] 256 0 false [] [] [] [] [] [] [] [].

(** ** The handler monad *)

Inductive Res (A : Type) : Type :=
| Ok (a : A) (vm : VM)          (* the call returned *)
| Throw (e : string) (vm : VM)  (* a host exception escapes, e.g. a TypeError *)
| Diverge                       (* a host loop does not terminate *)
| Outside (what : string).      (* execution leaves the embedded fragment *)
Arguments Ok {A} a vm.
Arguments Throw {A} e vm.
Arguments Diverge {A}.
Arguments Outside {A} what.

Definition M (A : Type) : Type := VM → Res A.

#[export] Instance M_ret : MRet M := λ A a vm, Ok a vm.
#[export] Instance M_bind : MBind M := λ A B k m vm,
  match m vm with
  | Ok a vm' => k a vm'
  | Throw e vm' => Throw e vm'
  | Diverge => Diverge
  | Outside w => Outside w
  end.

Definition gets {A} (f : VM → A) : M A := λ vm, Ok (f vm) vm.
Definition modify (f : VM → VM) : M unit := λ vm, Ok tt (f vm).
Definition throw {A} (e : string) : M A := λ vm, Throw e vm.
Definition diverge {A} : M A := λ _, Diverge.
Definition outside {A} (what : string) : M A := λ _, Outside what.

(** [try { m } catch (e) { h e }] *)
Definition try_catch {A} (m : M A) (h : string → M A) : M A := λ vm,
  match m vm with
  | Throw e vm' => h e vm'
  | r => r
  end.

(** Reading a JavaScript array at a numeric index; [None] is [undefined]. *)
Definition index {A} (l : list A) (i : Z) : option A :=
  if i <? 0 then None else l !! Z.to_nat i.

(** [array.length = n]: truncates, or pads with holes, which read as
    [undefined]; a negative length is a RangeError. *)
Definition set_length (n : Z) (l : list Value) : option (list Value) :=
  if n <? 0 then None
  else Some (take (Z.to_nat n) l ++ replicate (Z.to_nat n - length l)%nat VUndefined).

(** Following a reference into a store.  The source has no dangling
    references; a state that has one is outside the embedding. *)
Definition deref {A} (what : string) (store : VM → list A) (a : nat) : M A := λ vm,
  match store vm !! a with
  | Some x => Ok x vm
  | None => Outside ("dangling " +:+ what)
  end.
Definition deref_frame : nat → M CallFrame.t := deref "CallFrame" frames.
Definition deref_closure : nat → M Closure.t := deref "Closure" closures.
Definition deref_upvalue : nat → M Upvalue.t := deref "Upvalue" upvalueCells.
Definition deref_promise : nat → M PromiseV1.t := deref "PromiseV1" promises.
Definition deref_object : nat → M Obj.t := deref "object" objects.

Definition set_frame (a : nat) (f : CallFrame.t) : M unit :=
  modify (λ vm, with_frames (<[a := f]> (frames vm)) vm).
Definition set_closure (a : nat) (c : Closure.t) : M unit :=
  modify (λ vm, with_closures (<[a := c]> (closures vm)) vm).
Definition set_upvalue (a : nat) (u : Upvalue.t) : M unit :=
  modify (λ vm, with_upvalueCells (<[a := u]> (upvalueCells vm)) vm).
Definition set_promise (a : nat) (p : PromiseV1.t) : M unit :=
  modify (λ vm, with_promises (<[a := p]> (promises vm)) vm).
Definition set_object (a : nat) (o : Obj.t) : M unit :=
  modify (λ vm, with_objects (<[a := o]> (objects vm)) vm).

(** Allocation: a new cell at the end of its store. *)
Definition new_frame (f : CallFrame.t) : M nat := λ vm,
  Ok (length (frames vm)) (with_frames (frames vm ++ [f]) vm).
Definition new_closure (c : Closure.t) : M nat := λ vm,
  Ok (length (closures vm)) (with_closures (closures vm ++ [c]) vm).
Definition new_upvalue (u : Upvalue.t) : M nat := λ vm,
  Ok (length (upvalueCells vm)) (with_upvalueCells (upvalueCells vm ++ [u]) vm).
Definition new_promise (p : PromiseV1.t) : M nat := λ vm,
  Ok (length (promises vm)) (with_promises (promises vm ++ [p]) vm).
Definition new_object (o : Obj.t) : M nat := λ vm,
  Ok (length (objects vm)) (with_objects (objects vm ++ [o]) vm).
Definition new_array (l : list Value) : M nat := λ vm,
  Ok (length (arrays vm)) (with_arrays (arrays vm ++ [l]) vm).
Definition new_generator (closure : nat) : M nat := λ vm,
  Ok (length (generators vm)) (with_generators (generators vm ++ [closure]) vm).

(** ** Stack primitives and the unwind protocol (VM.js) *)

Definition scheduleMicrotask (task : Microtask) : M unit :=
  modify (λ vm, with_microtaskQueue (microtaskQueue vm ++ [task]) vm).

Definition push (value : Value) : M unit :=
  modify (λ vm, with_stack (stack vm ++ [value]) vm).

(** [PromiseV1.prototype.resolve] and [reject]: the settlement itself is a
    microtask. *)
Definition promise_resolve (p : nat) (value : Value) : M unit :=
  scheduleMicrotask (ResolveInternalTask p value).
Definition promise_reject (p : nat) (reason : Value) : M unit :=
  scheduleMicrotask (RejectInternalTask p reason).

(** The first loop of [runtimeError], over the frames from the top: the
    promise of the first frame with
    [frame.closure.func.isAsync && frame.asyncPromise && rejectPromise]. *)
Fixpoint findAsyncPromise (topFirst : list nat) (rejectPromise : bool) : M (option nat) :=
  match topFirst with
  | [] => mret None
  | a :: below =>
      frame ← deref_frame a;
      cl ← deref_closure (CallFrame.closure frame);
      match CallFrame.asyncPromise frame with
      | Some p =>
          if FunctionObject.isAsync (Closure.func cl) && rejectPromise
          then mret (Some p)
          else findAsyncPromise below rejectPromise
      | None => findAsyncPromise below rejectPromise
      end
  end.

(** [while (this.callFrames.length - 1 > handler.frameIndex) this.callFrames.pop();]
    Popping the empty array changes nothing, so the loop does not end when
    [frameIndex < -1]. *)
Definition unwindFrames (frameIndex : Z) : M unit :=
  frs ← gets callFrames;
  if Z.of_nat (length frs) - 1 >? frameIndex then
    if frameIndex <? -1 then diverge
    else modify (with_callFrames (take (Z.to_nat (frameIndex + 1)) frs))
  else mret tt.

Definition setStackLength (n : Z) : M unit :=
  st ← gets stack;
  match set_length n st with
  | Some st' => modify (with_stack st')
  | None => throw "RangeError: Invalid array length"
  end.

Definition runtimeError (message : Value) (rejectPromise : bool) : M unit :=
  frs ← gets callFrames;
  found ← findAsyncPromise (reverse frs) rejectPromise;
  match found with
  | Some p =>
      (* reject the async function's promise *)
      promise_reject p message;;
      modify (with_hasError true)
  | None =>
      hs ← gets exceptionHandlers;
      match last hs with
      | Some handler =>
          modify (with_exceptionHandlers (removelast hs));;
          unwindFrames (ExceptionHandler.frameIndex handler);;
          frs' ← gets callFrames;
          modify (with_currentFrame (last frs'));;
          setStackLength (ExceptionHandler.stackSize handler);;
          push message;;
          match last frs' with
          | Some a =>
              frame ← deref_frame a;
              set_frame a (CallFrame.with_ip (ExceptionHandler.targetIp handler) frame)
          | None => throw "TypeError: Cannot set properties of undefined (setting 'ip')"
          end
      | None =>
          (* no handler: report a fatal error *)
          activeFrame ← gets currentFrame;
          funcName ← match activeFrame with
                     | Some a =>
                         frame ← deref_frame a;
                         cl ← deref_closure (CallFrame.closure frame);
                         mret (FunctionObject.name (Closure.func cl))
                     | None => mret "<script>"
                     end;
          modify (λ vm, with_console_error (console_error vm ++ [mkErrorReport message funcName]) vm);;
          modify (with_hasError true)
      end
  end.

Definition pop : M Value :=
  st ← gets stack;
  match last st with
  | None =>                          (* this.stack.length === 0 *)
      runtimeError (VStr "Stack underflow!") true;;
      mret VNull
  | Some v =>
      modify (with_stack (removelast st));;
      mret v
  end.

Definition peek (distance : Z) : M Value :=
  st ← gets stack;
  if Z.of_nat (length st) <=? distance then
    runtimeError (VStr "Stack underflow for peek!") true;;
    mret VNull
  else
    mret (default VUndefined (index st (Z.of_nat (length st) - 1 - distance))).

Definition setupTry (catchIp : Z) : M unit :=
  vm ← gets id;
  modify (with_exceptionHandlers
            (exceptionHandlers vm ++
             [ExceptionHandler.mk catchIp (Z.of_nat (length (stack vm)))
                                  (Z.of_nat (length (callFrames vm)) - 1)])).

(** ** Truthiness (instruction-handlers.js) *)

Definition isFalsy (vm : VM) (value : Value) : bool :=
  match value with
  | VNull => true
  | VUndefined => true
  | VBool b => negb b
  | VNum n => PrimFloat.eqb n 0%float
  | VStr s => bool_decide (s = "")
  | VArray a =>
      match arrays vm !! a with
      | Some elems => bool_decide (length elems = 0%nat)
      | None => false
      end
  | _ => false
  end.

(** JavaScript's ToBoolean, as used by [!x], [if (x)] and [while (x)] in the
    source.  It differs from [isFalsy] on the empty array and on NaN. *)
Definition truthy (v : Value) : bool :=
  match v with
  | VUndefined | VNull => false
  | VBool b => b
  | VNum n => negb (PrimFloat.eqb n 0%float) && PrimFloat.eqb n n
  | VStr s => negb (bool_decide (s = ""))
  | _ => true
  end.

(** ** Reading the current frame (class CallFrame) *)

Definition theCurrentFrame : M (nat * CallFrame.t) :=
  cur ← gets currentFrame;
  match cur with
  | Some a => frame ← deref_frame a; mret (a, frame)
  | None => throw "TypeError: Cannot read properties of null"
  end.

(** [readByte() { return this.func.bytecode[this.ip++]; }]; [None] is
    [undefined], read past the end. *)
Definition readByte : M (option Z) :=
  '(a, frame) ← theCurrentFrame;
  set_frame a (CallFrame.with_ip (CallFrame.ip frame + 1) frame);;
  mret (index (FunctionObject.bytecode (CallFrame.func frame)) (CallFrame.ip frame)).

(** An operand byte.  A handler that runs off the end of the bytecode is not
    followed further. *)
Definition readOperand : M Z :=
  b ← readByte;
  match b with
  | Some z => mret z
  | None => outside "operand read past the end of the bytecode"
  end.

(** JavaScript's ToInt32, applied by [<<] and [|]. *)
Definition toInt32 (z : Z) : Z := (z + 2 ^ 31) mod 2 ^ 32 - 2 ^ 31.

(** [readShort() { this.ip += 2;
      return (this.func.bytecode[this.ip - 2] << 8) | this.func.bytecode[this.ip - 1]; }]
    where [undefined] converts to 0. *)
Definition readShort : M Z :=
  '(a, frame) ← theCurrentFrame;
  let ip' := CallFrame.ip frame + 2 in
  set_frame a (CallFrame.with_ip ip' frame);;
  let code := FunctionObject.bytecode (CallFrame.func frame) in
  let hi := default 0 (index code (ip' - 2)) in
  let lo := default 0 (index code (ip' - 1)) in
  mret (toInt32 (Z.lor (toInt32 (Z.shiftl (toInt32 hi) 8)) (toInt32 lo))).

(** [vm.currentFrame.func.constants[i]] *)
Definition constant (i : Z) : M Value :=
  '(_, frame) ← theCurrentFrame;
  mret (default VUndefined (index (FunctionObject.constants (CallFrame.func frame)) i)).

(** A constant used as a name (of a global, a property, a method).  The
    compiler only emits strings there. *)
Definition nameConstant (i : Z) : M string :=
  c ← constant i;
  match c with
  | VStr s => mret s
  | _ => outside "a name constant that is no string"
  end.

(** [vm.currentFrame.ip += offset] *)
Definition jumpBy (offset : Z) : M unit :=
  '(a, frame) ← theCurrentFrame;
  set_frame a (CallFrame.with_ip (CallFrame.ip frame + offset) frame).

(** ** The value stack as a JavaScript array *)

(** [vm.stack[i]] *)
Definition stackRead (i : Z) : M Value :=
  vm ← gets id;
  if i <? 0 then mret (default VUndefined (stackProps vm !! i))
  else mret (default VUndefined (stack vm !! Z.to_nat i)).

(** [vm.stack[i] = v]: a negative [i] names a property of the array object;
    an index beyond the end extends the array with holes. *)
Definition stackWrite (i : Z) (v : Value) : M unit :=
  vm ← gets id;
  if i <? 0 then modify (with_stackProps (<[i := v]> (stackProps vm)))
  else if i <? Z.of_nat (length (stack vm))
  then modify (with_stack (<[Z.to_nat i := v]> (stack vm)))
  else modify (with_stack
                 (stack vm ++ replicate (Z.to_nat i - length (stack vm))%nat VUndefined ++ [v])).

(** ** Upvalues (VM.captureUpvalue, VM.closeUpvalues) *)

(** The search loop of [captureUpvalue]:
    [while (upvalue !== null && upvalue.location > stackLocation)].  It
    changes nothing, so it ends within one pass over the cells or never. *)
Fixpoint captureSearch (fuel : nat) (prevUpvalue upvalue : option nat) (stackLocation : Z)
  : M (option nat * option nat) :=
  match upvalue with
  | None => mret (prevUpvalue, upvalue)
  | Some u =>
      cell ← deref_upvalue u;
      if Upvalue.location cell >? stackLocation then
        match fuel with
        | O => diverge
        | S fuel' => captureSearch fuel' (Some u) (Upvalue.next cell) stackLocation
        end
      else mret (prevUpvalue, upvalue)
  end.

Definition captureUpvalue (stackLocation : Z) : M nat :=
  vm ← gets id;
  '(prevUpvalue, upvalue) ← captureSearch (length (upvalueCells vm)) None (openUpvalues vm) stackLocation;
  found ← match upvalue with
          | Some u => cell ← deref_upvalue u;
                      mret (if Upvalue.location cell =? stackLocation then Some u else None)
          | None => mret None
          end;
  match found with
  | Some u => mret u
  | None =>
      createdUpvalue ← new_upvalue (Upvalue.mk stackLocation VNull upvalue);
      match prevUpvalue with
      | None => modify (with_openUpvalues (Some createdUpvalue))
      | Some pu =>
          pcell ← deref_upvalue pu;
          set_upvalue pu (Upvalue.mk (Upvalue.location pcell) (Upvalue.closed pcell) (Some createdUpvalue))
      end;;
      mret createdUpvalue
  end.

(** [closeUpvalues]: each round invalidates the location of one cell. *)
Fixpoint closeUpvaluesLoop (fuel : nat) (lastStackLocation : Z) : M unit :=
  head ← gets openUpvalues;
  match head with
  | None => mret tt
  | Some u =>
      cell ← deref_upvalue u;
      if Upvalue.location cell >=? lastStackLocation then
        match fuel with
        | O => diverge
        | S fuel' =>
            v ← stackRead (Upvalue.location cell);
            set_upvalue u (Upvalue.mk (-1) v (Upvalue.next cell));;
            modify (with_openUpvalues (Upvalue.next cell));;
            closeUpvaluesLoop fuel' lastStackLocation
        end
      else mret tt
  end.

Definition closeUpvalues (lastStackLocation : Z) : M unit :=
  vm ← gets id;
  closeUpvaluesLoop (length (upvalueCells vm)) lastStackLocation.

(** [vm.currentFrame.closure.upvalues[slot]] *)
Definition frameUpvalue (slot : Z) : M (option nat) :=
  '(_, frame) ← theCurrentFrame;
  cl ← deref_closure (CallFrame.closure frame);
  mret (default None (index (Closure.upvalues cl) slot)).

(** ** Promises (src/vm/PromiseV1.js) *)

Fixpoint forEach {A} (l : list A) (f : A → M unit) : M unit :=
  match l with
  | [] => mret tt
  | x :: rest => f x;; forEach rest f
  end.

(** Recursion that the host bounds by its own means is given fuel; running
    out of it is reported as leaving the fragment. *)
Definition outOfFuel {A} : M A := outside "out of fuel".

(** [then(onFulfilled, onRejected)]; an absent argument is [undefined]. *)
Definition promise_then (p : nat) (onFulfilled onRejected : Value) : M nat :=
  newPromise ← new_promise PromiseV1.fresh;
  cell ← deref_promise p;
  match PromiseV1.state cell with
  | FULFILLED =>
      scheduleMicrotask (ThenSettledTask p (scheduleFulfillment onFulfilled newPromise))
  | REJECTED =>
      scheduleMicrotask (ThenSettledTask p (scheduleRejection onRejected newPromise))
  | PENDING =>
      let fs := if truthy onFulfilled
                then PromiseV1.onFulfilledCallbacks cell ++ [scheduleFulfillment onFulfilled newPromise]
                else PromiseV1.onFulfilledCallbacks cell in
      let rs := if truthy onRejected
                then PromiseV1.onRejectedCallbacks cell ++ [scheduleRejection onRejected newPromise]
                else PromiseV1.onRejectedCallbacks cell in
      set_promise p (PromiseV1.mk (PromiseV1.state cell) (PromiseV1.value cell)
                                  (PromiseV1.reason cell) fs rs)
  end;;
  mret newPromise.

(** [_resolveInternal], [_rejectInternal], the bodies of the two closures of
    [then], and the call [f(arg)] of a handler that is no Closure ([who] is
    the name the host reports if [f] is no function).  The adoption handlers
    re-enter [_resolveInternal] synchronously; every such nested call
    settles another pending promise. *)
Fixpoint resolveInternal (fuel : nat) (p : nat) (value : Value) {struct fuel} : M unit :=
  match fuel with
  | O => outOfFuel
  | S fuel' =>
      cell ← deref_promise p;
      match PromiseV1.state cell with
      | PENDING =>
          match value with
          | VPromise q =>
              promise_then q (VHost (HostAdoptResolve p)) (VHost (HostAdoptReject p));;
              mret tt
          | _ =>
              set_promise p (PromiseV1.mk FULFILLED value (PromiseV1.reason cell)
                               (PromiseV1.onFulfilledCallbacks cell)
                               (PromiseV1.onRejectedCallbacks cell));;
              forEach (PromiseV1.onFulfilledCallbacks cell)
                      (λ cb, invokeCallback fuel' cb value);;
              cell' ← deref_promise p;
              set_promise p (PromiseV1.mk (PromiseV1.state cell') (PromiseV1.value cell')
                               (PromiseV1.reason cell') [] (PromiseV1.onRejectedCallbacks cell'))
          end
      | _ => mret tt
      end
  end
with rejectInternal (fuel : nat) (p : nat) (reason : Value) {struct fuel} : M unit :=
  match fuel with
  | O => outOfFuel
  | S fuel' =>
      cell ← deref_promise p;
      match PromiseV1.state cell with
      | PENDING =>
          set_promise p (PromiseV1.mk REJECTED (PromiseV1.value cell) reason
                           (PromiseV1.onFulfilledCallbacks cell)
                           (PromiseV1.onRejectedCallbacks cell));;
          forEach (PromiseV1.onRejectedCallbacks cell)
                  (λ cb, invokeCallback fuel' cb reason);;
          cell' ← deref_promise p;
          set_promise p (PromiseV1.mk (PromiseV1.state cell') (PromiseV1.value cell')
                           (PromiseV1.reason cell') (PromiseV1.onFulfilledCallbacks cell') [])
      | _ => mret tt
      end
  end
with invokeCallback (fuel : nat) (cb : Callback) (arg : Value) {struct fuel} : M unit :=
  match fuel with
  | O => outOfFuel
  | S fuel' =>
      match cb with
      | scheduleFulfillment onFulfilled newPromise =>
          try_catch
            (if negb (truthy onFulfilled) then promise_resolve newPromise arg
             else match onFulfilled with
                  | VClosure c => scheduleMicrotask (AsyncCallTask c (Some newPromise) [arg])
                  | _ => r ← callHandler fuel' "onFulfilled" onFulfilled arg;
                         promise_resolve newPromise r
                  end)
            (λ e, promise_reject newPromise (VStr e))
      | scheduleRejection onRejected newPromise =>
          try_catch
            (if negb (truthy onRejected) then promise_reject newPromise arg
             else match onRejected with
                  | VClosure c => scheduleMicrotask (AsyncCallTask c (Some newPromise) [arg])
                  | _ => r ← callHandler fuel' "onRejected" onRejected arg;
                         promise_resolve newPromise r
                  end)
            (λ e, promise_reject newPromise (VStr e))
      end
  end
with callHandler (fuel : nat) (who : string) (f : Value) (arg : Value) {struct fuel}
  : M Value :=
  match fuel with
  | O => outOfFuel
  | S fuel' =>
      match f with
      | VHost (HostAwaitResolved frame) =>
          scheduleMicrotask (AwaitResumeTask frame arg);; mret VUndefined
      | VHost (HostAwaitRejected frame) =>
          scheduleMicrotask (AwaitRejectTask frame arg);; mret VUndefined
      | VHost (HostAdoptResolve q) => resolveInternal fuel' q arg;; mret VUndefined
      | VHost (HostAdoptReject q) => rejectInternal fuel' q arg;; mret VUndefined
      | VHost (HostResolve q) => promise_resolve q arg;; mret VUndefined
      | VHost (HostReject q) => promise_reject q arg;; mret VUndefined
      | VHost HostPromiseV1 =>
          throw "Class constructor PromiseV1 cannot be invoked without 'new'"
      | VHost (HostOpaqueFunction name) => outside ("host function " +:+ name)
      | _ => throw (who +:+ " is not a function")
      end
  end.

(** Fuel that the nesting of settlements cannot exhaust: each nested
    settlement takes three calls and settles one more promise. *)
Definition settleFuel (vm : VM) : nat := (4 + 3 * length (promises vm))%nat.

Definition _resolveInternal (p : nat) (value : Value) : M unit :=
  vm ← gets id; resolveInternal (settleFuel vm) p value.
Definition _rejectInternal (p : nat) (reason : Value) : M unit :=
  vm ← gets id; rejectInternal (settleFuel vm) p reason.

(** ** Property lookup along the prototype chain *)

(** Names every JavaScript object answers to through [Object.prototype]. *)
Definition objectPrototypeKeys : list string :=
  ["constructor"; "hasOwnProperty"; "isPrototypeOf"; "propertyIsEnumerable";
   "toLocaleString"; "toString"; "valueOf"; "__proto__";
   "__defineGetter__"; "__defineSetter__"; "__lookupGetter__"; "__lookupSetter__"].

(** [propName in object] for a VM object [{ properties, prototype }]. *)
Definition inVMObject (propName : string) : bool :=
  bool_decide (propName ∈ ["properties"; "prototype"] ++ objectPrototypeKeys).

(** The loop of OP_GET_PROPERTY_PROTO and of OP_CALL_METHOD:
    [while (current) {
       if (current.properties && current.properties.hasOwnProperty(name)) ...found...
       current = current.prototype; }]
    where the variable is [currentObject] in the former and [current] in the
    latter; [who] is that name, which the host puts into the TypeError for a
    [hasOwnProperty] that is no function.  The loop yields the own property of
    the first object that has one.  It changes nothing, so on a chain that
    closes on itself and never finds the name it does not end; [fuel] counts
    the objects and closures there are. *)
Fixpoint lookupChain (who : string) (fuel : nat) (current : Value) (name : string)
  : M (option Value) :=
  if negb (truthy current) then mret None
  else
    match current with
    | VObject a =>
        o ← deref_object a;
        match Obj.properties o !! "hasOwnProperty" with
        | Some (VHost _) => outside "own property hasOwnProperty holding a host value"
        | Some _ => throw ("TypeError: " +:+ who +:+ ".properties.hasOwnProperty is not a function")
        | None =>
            match Obj.properties o !! name with
            | Some v => mret (Some v)
            | None =>
                match fuel with
                | O => diverge
                | S fuel' => lookupChain who fuel' (Obj.prototype o) name
                end
            end
        end
    | VClosure a =>
        (* a Closure has no [properties]; its [prototype] is the class prototype *)
        cl ← deref_closure a;
        match fuel with
        | O => diverge
        | S fuel' => lookupChain who fuel' (Closure.prototype cl) name
        end
    | VBool _ | VNum _ | VStr _ | VArray _ | VPromise _ | VFunctionObject _ | VGenerator _ =>
        (* neither [properties] nor [prototype] *)
        mret None
    | VNativeObject _ _ =>
        (* [properties] is the empty record of the wrapper; no [prototype] *)
        mret None
    | _ => outside "prototype chain through a host object"
    end.

Definition chainFuel (vm : VM) : nat := (length (objects vm) + length (closures vm))%nat.

(** ** Instruction handlers (src/vm/instruction-handlers.js) *)

Inductive InterpretResult : Type := OK | COMPILE_ERROR | RUNTIME_ERROR | YIELD.

(** ** [String(v)], used by OP_THROW *)

(** The part of the host the VM is handed: [Number::toString], as far as
    the host at hand is known; [None] is a number of which it is not. *)
Class Host : Type := { Number_toString : float → option string }.

(** What a conversion by the host comes to: a string, an exception of the
    host, or a step outside the embedded fragment. *)
Inductive Conversion : Type :=
| Converted (s : string)
| Raises (e : string)
| Unmodelled (what : string).

(** [String(o)] of a property record [o], a plain object with the keys the
    program gave it.  Without an own [toString] this is
    [Object.prototype.toString].  An own [toString] that is no function is
    passed over, and so is an own [valueOf]; [Object.prototype.valueOf]
    answers the object itself, which is no primitive. No value of the VM is a
    function of the host, except the host's own. *)
Definition recordToString (properties : gmap string Value) : Conversion :=
  if bool_decide (is_Some (properties !! "__proto__"))
  then Unmodelled "a record with the key __proto__"
  else
    match properties !! "toString" with
    | None => Converted "[object Object]"
    | Some (VHost _) => Unmodelled "toString held by a host value"
    | Some _ =>
        match properties !! "valueOf" with
        | Some (VHost _) => Unmodelled "valueOf held by a host value"
        | _ => Raises "TypeError: Cannot convert object to primitive value"
        end
    end.

(** [String(v)] for a value that is no array.  The wrappers of VM objects
    and the instances of Closure, FunctionObject, PromiseV1, GeneratorObject
    and NativeObject have no [toString] of their own. *)
Definition scalarToString `{Host} (vm : VM) (v : Value) : Conversion :=
  match v with
  | VUndefined => Converted "undefined"
  | VNull => Converted "null"
  | VBool b => Converted (if b then "true" else "false")
  | VNum n =>
      match Number_toString n with
      | Some s => Converted s
      | None => Unmodelled "Number::toString"
      end
  | VStr s => Converted s
  | VArray _ => Unmodelled "String of an array within an array"
  | VObject _ | VClosure _ | VFunctionObject _ | VPromise _ | VGenerator _
  | VNativeObject _ _ => Converted "[object Object]"
  | VBag a =>
      match objects vm !! a with
      | Some o => recordToString (Obj.properties o)
      | None => Unmodelled "dangling object"
      end
  | VHost _ => Unmodelled "String of a host value"
  end.

(** An element in [Array.prototype.join]: [undefined] and [null] give the
    empty string. *)
Definition elementToString `{Host} (vm : VM) (v : Value) : Conversion :=
  match v with
  | VUndefined | VNull => Converted ""
  | _ => scalarToString vm v
  end.

(** The elements are converted from the first on; the first that does not
    come to a string ends the conversion. *)
Fixpoint joinElements `{Host} (vm : VM) (elems : list Value) : Conversion :=
  match elems with
  | [] => Converted ""
  | [x] => elementToString vm x
  | x :: rest =>
      match elementToString vm x with
      | Converted s =>
          match joinElements vm rest with
          | Converted t => Converted (s +:+ "," +:+ t)
          | r => r
          end
      | r => r
      end
  end.

Definition stringOf `{Host} (vm : VM) (v : Value) : Conversion :=
  match v with
  | VArray a =>
      match arrays vm !! a with
      | Some elems => joinElements vm elems
      | None => Unmodelled "dangling array"
      end
  | _ => scalarToString vm v
  end.

(** [String(v)] in a handler. *)
Definition js_String `{Host} (v : Value) : M string := λ vm,
  match stringOf vm v with
  | Converted s => Ok s vm
  | Raises e => Throw e vm
  | Unmodelled what => Outside what
  end.

(** [vm.runtimeError(msg); return InterpretResult.RUNTIME_ERROR;] *)
Definition fail (message : string) : M InterpretResult :=
  runtimeError (VStr message) true;;
  mret RUNTIME_ERROR.

(** The last [n] elements of the stack, [vm.stack.slice(vm.stack.length - n)]. *)
Definition topValues (n : Z) : M (list Value) :=
  st ← gets stack;
  mret (drop (Z.to_nat (Z.of_nat (length st) - n)) st).

(** [vm.stack.length -= n] *)
Definition dropValues (n : Z) : M unit :=
  st ← gets stack;
  setStackLength (Z.of_nat (length st) - n).

(** [vm.callFrames.push(newFrame); vm.currentFrame = newFrame;] *)
Definition pushFrame (f : CallFrame.t) : M unit :=
  a ← new_frame f;
  modify (λ vm, with_callFrames (callFrames vm ++ [a]) vm);;
  modify (with_currentFrame (Some a)).

(** [{ properties: {}, prototype: proto }] *)
Definition emptyObject (proto : Value) : Obj.t := Obj.mk ∅ proto.

(** [if (!closure.prototype) closure.prototype = { properties: {}, prototype: null };]
    and the value of [closure.prototype] afterwards. *)
Definition ensurePrototype (c : nat) : M Value :=
  cl ← deref_closure c;
  if truthy (Closure.prototype cl) then mret (Closure.prototype cl)
  else
    o ← new_object (emptyObject VNull);
    set_closure c (Closure.mk (Closure.func cl) (Closure.upvalues cl) (VObject o));;
    mret (VObject o).

(** [typeof v === 'object'], which holds of [null]. *)
Definition typeofObject (v : Value) : bool :=
  match v with
  | VNull | VArray _ | VObject _ | VClosure _ | VFunctionObject _ | VPromise _
  | VGenerator _ | VBag _ | VNativeObject _ _ | VHost (HostOpaqueObject _) => true
  | _ => false
  end.

(** [typeof v === 'function'] *)
Definition typeofFunction (v : Value) : bool :=
  match v with
  | VHost (HostOpaqueObject _) => false
  | VHost _ => true
  | _ => false
  end.

(** [new PromiseV1(executor, vm)] for an executor OP_NEW has accepted. *)
Definition newPromiseV1 (executor : Value) : M nat :=
  p ← new_promise PromiseV1.fresh;
  match executor with
  | VClosure c =>
      scheduleMicrotask
        (AsyncCallTask c None [VNativeObject "resolve" (HostResolve p);
                               VNativeObject "reject" (HostReject p)]);;
      mret p
  | _ => outside "a host function as promise executor"
  end.

Module InstructionHandlers.

Definition OP_CONSTANT : M InterpretResult :=
  constantIndex ← readOperand;
  c ← constant constantIndex;
  push c;;
  mret OK.

Definition OP_PUSH_NULL : M InterpretResult := push VNull;; mret OK.
Definition OP_PUSH_TRUE : M InterpretResult := push (VBool true);; mret OK.
Definition OP_PUSH_FALSE : M InterpretResult := push (VBool false);; mret OK.
Definition OP_POP : M InterpretResult := pop;; mret OK.
Definition OP_DUPLICATE : M InterpretResult := v ← peek 0; push v;; mret OK.

Definition OP_NOT : M InterpretResult :=
  a ← pop;
  vm ← gets id;
  push (VBool (isFalsy vm a));;
  mret OK.

Definition OP_GET_GLOBAL : M InterpretResult :=
  nameIndex ← readOperand;
  name ← nameConstant nameIndex;
  vm ← gets id;
  match globals vm !! name with
  | None => fail ("Undefined variable '" +:+ name +:+ "'.")
  | Some v => push v;; mret OK
  end.

Definition OP_SET_GLOBAL : M InterpretResult :=
  nameIndex ← readOperand;
  name ← nameConstant nameIndex;
  vm ← gets id;
  match globals vm !! name with
  | None => fail ("Undefined variable '" +:+ name +:+ "'.")
  | Some _ =>
      v ← peek 0;
      modify (λ vm, with_globals (<[name := v]> (globals vm)) vm);;
      mret OK
  end.

Definition OP_DEFINE_GLOBAL : M InterpretResult :=
  nameIndex ← readOperand;
  name ← nameConstant nameIndex;
  v ← peek 0;
  modify (λ vm, with_globals (<[name := v]> (globals vm)) vm);;
  mret OK.

Definition OP_GET_LOCAL : M InterpretResult :=
  slot ← readOperand;
  '(_, frame) ← theCurrentFrame;
  v ← stackRead (CallFrame.stackBase frame + slot);
  push v;;
  mret OK.

Definition OP_SET_LOCAL : M InterpretResult :=
  slot ← readOperand;
  '(_, frame) ← theCurrentFrame;
  v ← peek 0;
  stackWrite (CallFrame.stackBase frame + slot) v;;
  mret OK.

Definition OP_GET_UPVALUE : M InterpretResult :=
  slot ← readOperand;
  upvalue ← frameUpvalue slot;
  match upvalue with
  | None => throw "TypeError: Cannot read properties of undefined (reading 'closed')"
  | Some u =>
      cell ← deref_upvalue u;
      match Upvalue.closed cell with
      | VNull => v ← stackRead (Upvalue.location cell); push v
      | closed => push closed
      end;;
      mret OK
  end.

Definition OP_SET_UPVALUE : M InterpretResult :=
  slot ← readOperand;
  upvalue ← frameUpvalue slot;
  match upvalue with
  | None => throw "TypeError: Cannot read properties of undefined (reading 'closed')"
  | Some u =>
      cell ← deref_upvalue u;
      match Upvalue.closed cell with
      | VNull => v ← peek 0; stackWrite (Upvalue.location cell) v
      | _ =>
          v ← peek 0;
          cell' ← deref_upvalue u;
          set_upvalue u (Upvalue.mk (Upvalue.location cell') v (Upvalue.next cell'))
      end;;
      mret OK
  end.

Definition OP_JUMP : M InterpretResult :=
  offset ← readShort;
  jumpBy offset;;
  mret OK.

Definition OP_JUMP_IF_FALSE : M InterpretResult :=
  offset ← readShort;
  v ← peek 0;
  vm ← gets id;
  (if isFalsy vm v then jumpBy offset else mret tt);;
  mret OK.

Definition OP_LOOP : M InterpretResult :=
  offset ← readShort;
  jumpBy (- offset);;
  mret OK.

(** Calling what a NativeObject wraps, or a host function found on the
    stack: [callee.object(...args)]. *)
Definition callHost (h : HostRef) (args : list Value) : M Value :=
  match h with
  | HostResolve p => promise_resolve p (default VUndefined (args !! 0%nat));; mret VUndefined
  | HostReject p => promise_reject p (default VUndefined (args !! 0%nat));; mret VUndefined
  | _ => outside "a call into the host"
  end.

Definition OP_CALL : M InterpretResult :=
  argCount ← readOperand;
  callee ← peek argCount;
  match callee with
  | VClosure c =>
      cl ← deref_closure c;
      let func := Closure.func cl in
      vm ← gets id;
      if negb (FunctionObject.arity func =? argCount) then
        fail ("Expected " +:+ pretty (FunctionObject.arity func) +:+ " arguments but got "
              +:+ pretty argCount +:+ ".")
      else if Z.of_nat (length (callFrames vm)) =? MAX_CALL_FRAMES vm then
        fail "Stack overflow."
      else if FunctionObject.isGenerator func then
        pop;;
        dropValues argCount;;
        g ← new_generator c;
        push (VGenerator g);;
        mret OK
      else if FunctionObject.isAsync func then
        promise ← new_promise PromiseV1.fresh;
        args ← topValues argCount;
        pop;;
        dropValues argCount;;
        scheduleMicrotask (AsyncCallTask c (Some promise) args);;
        push (VPromise promise);;
        mret OK
      else
        st ← gets stack;
        pushFrame (CallFrame.mk func 0 (Z.of_nat (length st) - argCount - 1) c None);;
        mret OK
  | VNativeObject _ object =>
      args ← topValues argCount;
      dropValues argCount;;
      pop;;
      result ← callHost object args;
      push (match result with VUndefined => VNull | r => r end);;
      mret OK
  | VHost h =>
      if typeofFunction (VHost h) then
        args ← topValues argCount;
        dropValues argCount;;
        pop;;
        result ← callHost h args;
        push (match result with VUndefined => VNull | r => r end);;
        mret OK
      else fail "Can only call functions and classes."
  | _ => fail "Can only call functions and classes."
  end.

Definition OP_RETURN : M InterpretResult :=
  result ← pop;
  frs ← gets callFrames;
  match last frs with
  | None => throw "TypeError: Cannot read properties of undefined (reading 'func')"
  | Some a =>
      frame ← deref_frame a;
      match CallFrame.asyncPromise frame with
      | Some p =>
          if FunctionObject.isAsync (CallFrame.func frame) then promise_resolve p result
          else mret tt
      | None => mret tt
      end;;
      closeUpvalues (CallFrame.stackBase frame);;
      modify (λ vm, with_callFrames (removelast (callFrames vm)) vm);;
      setStackLength (CallFrame.stackBase frame);;
      push result;;
      mret OK
  end.

(** The callback of [Array.from({ length: func.upvalueCount }, ...)]. *)
Fixpoint captureAll (n : nat) : M (list (option nat)) :=
  match n with
  | O => mret []
  | S n' =>
      isLocal ← readByte;
      index ← readOperand;
      '(_, frame) ← theCurrentFrame;
      u ← (if bool_decide (isLocal = Some 1)
           then u ← captureUpvalue (CallFrame.stackBase frame + index); mret (Some u)
           else frameUpvalue index);
      rest ← captureAll n';
      mret (u :: rest)
  end.

Definition OP_CLOSURE : M InterpretResult :=
  funcIndex ← readOperand;
  c ← constant funcIndex;
  match c with
  | VFunctionObject func =>
      upvalues ← captureAll (Z.to_nat (FunctionObject.upvalueCount func));
      closure ← new_closure (Closure.mk func upvalues VUndefined);
      push (VClosure closure);;
      mret OK
  | VUndefined | VNull =>
      throw "TypeError: Cannot read properties of undefined (reading 'upvalueCount')"
  | _ => outside "OP_CLOSURE over a constant that is no FunctionObject"
  end.

Definition OP_CLOSE_UPVALUE : M InterpretResult :=
  st ← gets stack;
  closeUpvalues (Z.of_nat (length st) - 1);;
  pop;;
  mret OK.

Definition OP_GET_NATIVE : M InterpretResult :=
  nameIndex ← readOperand;
  name ← nameConstant nameIndex;
  vm ← gets id;
  match globals vm !! name with
  | Some nativeObject =>
      if truthy nativeObject then push nativeObject;; mret OK
      else fail ("Native object '" +:+ name +:+ "' not found.")
  | None => fail ("Native object '" +:+ name +:+ "' not found.")
  end.

(** The part of OP_CALL_METHOD for a property found on the prototype
    chain of a VM object. *)
Definition callFoundMethod (methodName : string) (argCount : Z) (receiver : Value)
    (args : list Value) (method : Value) : M InterpretResult :=
  match method with
  | VClosure m =>
      cl ← deref_closure m;
      let func := Closure.func cl in
      if negb (argCount =? FunctionObject.arity func) then
        fail ("Expected " +:+ pretty (FunctionObject.arity func) +:+ " args for method '"
              +:+ methodName +:+ "' but got " +:+ pretty argCount +:+ ".")
      else if FunctionObject.isAsync func then
        promise ← new_promise PromiseV1.fresh;
        (* the constructor of AsyncCallTask ignores the receiver it is passed *)
        scheduleMicrotask (AsyncCallTask m (Some promise) args);;
        push (VPromise promise);;
        mret OK
      else if FunctionObject.isGenerator func then
        g ← new_generator m;
        push (VGenerator g);;
        mret OK
      else
        st ← gets stack;
        let newFrameBase := Z.of_nat (length st) in
        push receiver;;
        forEach args push;;
        pushFrame (CallFrame.mk func 0 newFrameBase m None);;
        mret OK
  | _ => fail ("Method '" +:+ methodName +:+ "' not found or not callable on instance.")
  end.

Definition OP_CALL_METHOD : M InterpretResult :=
  methodNameIndex ← readOperand;
  argCount ← readOperand;
  methodName ← nameConstant methodNameIndex;
  receiver ← peek argCount;
  match receiver with
  | VNull | VUndefined =>
      fail ("Cannot read properties of null or undefined (calling method '"
            +:+ methodName +:+ "').")
  | _ =>
      args ← topValues argCount;
      dropValues (argCount + 1);;
      let notFound :=
        fail ("Method '" +:+ methodName +:+ "' not found or not callable on instance.") in
      match receiver with
      | VNativeObject _ _ => outside "NativeObject.getProperty"
      | VPromise p =>
          if bool_decide (methodName = "then") then
            returned ← promise_then p (default VUndefined (args !! 0%nat))
                                      (default VUndefined (args !! 1%nat));
            push (VPromise returned);;
            mret OK
          else if bool_decide (methodName = "resolve") then
            promise_resolve p (default VUndefined (args !! 0%nat));;
            push VNull;;
            mret OK
          else if bool_decide (methodName = "reject") then
            promise_reject p (default VUndefined (args !! 0%nat));;
            push VNull;;
            mret OK
          else if bool_decide (methodName = "_resolveInternal") then
            (* whatever a handler throws is caught inside the callback *)
            _resolveInternal p (default VUndefined (args !! 0%nat));;
            push VNull;;
            mret OK
          else if bool_decide (methodName = "_rejectInternal") then
            _rejectInternal p (default VUndefined (args !! 0%nat));;
            push VNull;;
            mret OK
          else if bool_decide (methodName ∈ objectPrototypeKeys)
          then outside "a method of Object.prototype"
          else notFound
      | VObject _ | VClosure _ =>
          if bool_decide (methodName ∈ objectPrototypeKeys)
          then outside "a method of Object.prototype"
          else
            vm ← gets id;
            found ← lookupChain "current" (chainFuel vm) receiver methodName;
            match found with
            | Some method => callFoundMethod methodName argCount receiver args method
            | None => notFound
            end
      | VBool _ | VNum _ | VStr _ => notFound
      | _ => outside "a method call on a host object"
      end
  end.

(** [vm.stack.splice(vm.stack.length - count, count)]: the removed
    elements and what is left. *)
Definition spliceTop (count : Z) (st : list Value) : list Value * list Value :=
  let len := Z.of_nat (length st) in
  let start := len - count in
  let actualStart := if start <? 0 then Z.max (len + start) 0 else Z.min start len in
  (drop (Z.to_nat actualStart) st, take (Z.to_nat actualStart) st).

Definition OP_NEW_ARRAY : M InterpretResult :=
  count ← readOperand;
  st ← gets stack;
  let '(removed, kept) := spliceTop count st in
  modify (with_stack kept);;
  a ← new_array removed;
  push (VArray a);;
  mret OK.

Fixpoint fillObject (n : nat) (o : nat) : M unit :=
  match n with
  | O => mret tt
  | S n' =>
      value ← pop;
      key ← pop;
      match key with
      | VStr k =>
          if bool_decide (k = "__proto__") then outside "the key __proto__"
          else
            cell ← deref_object o;
            set_object o (Obj.mk (<[k := value]> (Obj.properties cell)) (Obj.prototype cell));;
            fillObject n' o
      | _ => outside "a property key that is no string"
      end
  end.

Definition OP_NEW_OBJECT : M InterpretResult :=
  count ← readOperand;
  o ← new_object (emptyObject VNull);
  fillObject (Z.to_nat count) o;;
  push (VObject o);;
  mret OK.

Definition OP_GET_PROPERTY_PROTO : M InterpretResult :=
  nameIndex ← readOperand;
  propName ← nameConstant nameIndex;
  object ← pop;
  match object with
  | VNull | VUndefined =>
      fail ("Cannot read property '" +:+ propName +:+ "' of null or undefined.")
  | VNativeObject _ _ => outside "NativeObject.getProperty"
  | VObject a =>
      if inVMObject propName then
        (* [propName in object]: the branch written for plain host objects *)
        o ← deref_object a;
        (if bool_decide (propName = "properties") then push (VBag a)
         else if bool_decide (propName = "prototype") then push (Obj.prototype o)
         else if bool_decide (propName = "__proto__")
              then push (VHost (HostOpaqueObject "Object.prototype"))
              else push (VHost (HostOpaqueFunction ("Object.prototype." +:+ propName))));;
        mret OK
      else
        vm ← gets id;
        found ← lookupChain "currentObject" (chainFuel vm) object propName;
        push (default VUndefined found);;
        mret OK
  | VBool _ | VNum _ | VStr _ =>
      (* no object: the loop finds neither [properties] nor [prototype] *)
      vm ← gets id;
      found ← lookupChain "currentObject" (chainFuel vm) object propName;
      push (default VUndefined found);;
      mret OK
  | _ => outside "a property read on a host object"
  end.

Definition OP_SET_PROPERTY_PROTO : M InterpretResult :=
  nameIndex ← readOperand;
  propName ← nameConstant nameIndex;
  value ← pop;
  object ← pop;
  match object with
  | VNativeObject _ _ => outside "NativeObject.setProperty"
  | VObject a =>
      if bool_decide (propName = "__proto__") then outside "the key __proto__"
      else
        o ← deref_object a;
        set_object a (Obj.mk (<[propName := value]> (Obj.properties o)) (Obj.prototype o));;
        push value;;
        mret OK
  | VUndefined | VBool _ | VNum _ | VStr _ | VNull =>
      fail ("Cannot set property '" +:+ propName +:+ "' on a non-object.")
  | VHost h =>
      if typeofObject (VHost h) then outside "a property write on a host object"
      else fail ("Cannot set property '" +:+ propName +:+ "' on a non-object.")
  | _ => outside "a property write on a host object"
  end.

Definition OP_OBJECT_CREATE : M InterpretResult :=
  prototype ← pop;
  if typeofObject prototype then
    o ← new_object (emptyObject prototype);
    push (VObject o);;
    mret OK
  else fail "Prototype must be an object or null.".

Definition OP_GET_PROTOTYPE : M InterpretResult :=
  closure ← peek 0;
  match closure with
  | VClosure c =>
      proto ← ensurePrototype c;
      pop;;
      push proto;;
      mret OK
  | _ => fail "Can only get the prototype of functions/classes."
  end.

Definition OP_SET_PROTOTYPE : M InterpretResult :=
  prototype ← pop;
  object ← pop;
  if negb (typeofObject object) || match object with VNull => true | _ => false end then
    fail "Target must be an object."
  else if negb (typeofObject prototype) then
    fail "Prototype must be an object or null."
  else
    match object with
    | VObject a =>
        o ← deref_object a;
        set_object a (Obj.mk (Obj.properties o) prototype);;
        push object;;
        mret OK
    | VClosure c =>
        cl ← deref_closure c;
        set_closure c (Closure.mk (Closure.func cl) (Closure.upvalues cl) prototype);;
        push object;;
        mret OK
    | _ => outside "a prototype write on a host object"
    end.

Definition OP_NEW : M InterpretResult :=
  argCount ← readOperand;
  constructor ← peek argCount;
  match constructor with
  | VNativeObject _ HostPromiseV1 =>
      if argCount =? 1 then
        executor ← pop;
        pop;;
        match executor with
        | VClosure _ =>
            promise ← newPromiseV1 executor;
            push (VPromise promise);;
            mret OK
        | _ =>
            if typeofFunction executor then
              promise ← newPromiseV1 executor;
              push (VPromise promise);;
              mret OK
            else fail "Promise constructor expects a function."
        end
      else fail "Promise constructor expects exactly one argument."
  | VClosure c =>
      cl ← deref_closure c;
      proto ← ensurePrototype c;
      instance ← new_object (emptyObject proto);
      st ← gets stack;
      let frameBase := Z.of_nat (length st) - 1 - argCount in
      stackWrite frameBase (VObject instance);;
      pushFrame (CallFrame.mk (Closure.func cl) 0 frameBase c None);;
      mret OK
  | _ => fail "Can only instantiate a class (closure)."
  end.

Definition OP_SETUP_TRY : M InterpretResult :=
  offset ← readShort;
  '(_, frame) ← theCurrentFrame;
  let catchIp := CallFrame.ip frame + offset in
  setupTry catchIp;;
  mret OK.

Definition OP_POP_CATCH : M InterpretResult :=
  modify (λ vm, with_exceptionHandlers (removelast (exceptionHandlers vm)) vm);;
  mret OK.

Definition OP_THROW `{Host} : M InterpretResult :=
  message ← pop;
  text ← js_String message;
  runtimeError (VStr text) true;;
  err ← gets hasError;
  mret (if err : bool then RUNTIME_ERROR else OK).

Definition OP_AWAIT : M InterpretResult :=
  value ← peek 0;
  match value with
  | VPromise promise =>
      frs ← gets callFrames;
      match last frs with
      | None => outside "OP_AWAIT without a call frame"
      | Some frameToResume =>
          modify (with_callFrames (removelast frs));;
          (if bool_decide (removelast frs = []) then modify (with_currentFrame None)
           else mret tt);;
          promise_then promise (VHost (HostAwaitResolved frameToResume))
                               (VHost (HostAwaitRejected frameToResume));;
          mret YIELD
      end
  | _ =>
      (* awaiting a non-promise immediately resolves to the value *)
      mret OK
  end.

End InstructionHandlers.

(** ** Dispatch, microtasks and the event loop (VM.js) *)

(** An entry of the table [InstructionHandlers]: a handler of the embedded
    fragment, a handler of the source that is not embedded, or no entry. *)
Inductive TableEntry : Type :=
| Handler (h : M InterpretResult)
| NotEmbedded
| NoHandler.

Definition notEmbeddedOpcodes : list Z :=
  [Opcodes.OP_ADD; Opcodes.OP_SUBTRACT; Opcodes.OP_MULTIPLY; Opcodes.OP_DIVIDE;
   Opcodes.OP_MODULO; Opcodes.OP_POWER; Opcodes.OP_EQUAL; Opcodes.OP_NOT_EQUAL;
   Opcodes.OP_GREATER; Opcodes.OP_LESS; Opcodes.OP_GREATER_EQUAL; Opcodes.OP_LESS_EQUAL;
   Opcodes.OP_NEGATE; Opcodes.OP_INCREMENT_LOCAL; Opcodes.OP_DECREMENT_LOCAL;
   Opcodes.OP_INCREMENT_GLOBAL; Opcodes.OP_DECREMENT_GLOBAL;
   Opcodes.OP_INCREMENT_UPVALUE; Opcodes.OP_DECREMENT_UPVALUE;
   Opcodes.OP_GET_INDEX; Opcodes.OP_SET_INDEX;
   Opcodes.OP_INCREMENT_PROPERTY; Opcodes.OP_DECREMENT_PROPERTY; Opcodes.OP_YIELD].

Definition handlers `{Host} : list (Z * M InterpretResult) :=
  [(Opcodes.OP_CONSTANT, InstructionHandlers.OP_CONSTANT);
   (Opcodes.OP_PUSH_NULL, InstructionHandlers.OP_PUSH_NULL);
   (Opcodes.OP_PUSH_TRUE, InstructionHandlers.OP_PUSH_TRUE);
   (Opcodes.OP_PUSH_FALSE, InstructionHandlers.OP_PUSH_FALSE);
   (Opcodes.OP_POP, InstructionHandlers.OP_POP);
   (Opcodes.OP_DUPLICATE, InstructionHandlers.OP_DUPLICATE);
   (Opcodes.OP_NOT, InstructionHandlers.OP_NOT);
   (Opcodes.OP_GET_GLOBAL, InstructionHandlers.OP_GET_GLOBAL);
   (Opcodes.OP_SET_GLOBAL, InstructionHandlers.OP_SET_GLOBAL);
   (Opcodes.OP_DEFINE_GLOBAL, InstructionHandlers.OP_DEFINE_GLOBAL);
   (Opcodes.OP_GET_LOCAL, InstructionHandlers.OP_GET_LOCAL);
   (Opcodes.OP_SET_LOCAL, InstructionHandlers.OP_SET_LOCAL);
   (Opcodes.OP_GET_UPVALUE, InstructionHandlers.OP_GET_UPVALUE);
   (Opcodes.OP_SET_UPVALUE, InstructionHandlers.OP_SET_UPVALUE);
   (Opcodes.OP_JUMP, InstructionHandlers.OP_JUMP);
   (Opcodes.OP_JUMP_IF_FALSE, InstructionHandlers.OP_JUMP_IF_FALSE);
   (Opcodes.OP_LOOP, InstructionHandlers.OP_LOOP);
   (Opcodes.OP_CALL, InstructionHandlers.OP_CALL);
   (Opcodes.OP_RETURN, InstructionHandlers.OP_RETURN);
   (Opcodes.OP_CLOSURE, InstructionHandlers.OP_CLOSURE);
   (Opcodes.OP_CLOSE_UPVALUE, InstructionHandlers.OP_CLOSE_UPVALUE);
   (Opcodes.OP_GET_NATIVE, InstructionHandlers.OP_GET_NATIVE);
   (Opcodes.OP_CALL_METHOD, InstructionHandlers.OP_CALL_METHOD);
   (Opcodes.OP_NEW_ARRAY, InstructionHandlers.OP_NEW_ARRAY);
   (Opcodes.OP_NEW_OBJECT, InstructionHandlers.OP_NEW_OBJECT);
   (Opcodes.OP_GET_PROPERTY_PROTO, InstructionHandlers.OP_GET_PROPERTY_PROTO);
   (Opcodes.OP_SET_PROPERTY_PROTO, InstructionHandlers.OP_SET_PROPERTY_PROTO);
   (Opcodes.OP_OBJECT_CREATE, InstructionHandlers.OP_OBJECT_CREATE);
   (Opcodes.OP_GET_PROTOTYPE, InstructionHandlers.OP_GET_PROTOTYPE);
   (Opcodes.OP_SET_PROTOTYPE, InstructionHandlers.OP_SET_PROTOTYPE);
   (Opcodes.OP_NEW, InstructionHandlers.OP_NEW);
   (Opcodes.OP_SETUP_TRY, InstructionHandlers.OP_SETUP_TRY);
   (Opcodes.OP_POP_CATCH, InstructionHandlers.OP_POP_CATCH);
   (Opcodes.OP_THROW, InstructionHandlers.OP_THROW);
   (Opcodes.OP_AWAIT, InstructionHandlers.OP_AWAIT)].

Fixpoint assocZ {A} (k : Z) (l : list (Z * A)) : option A :=
  match l with
  | [] => None
  | (k', x) :: rest => if k =? k' then Some x else assocZ k rest
  end.

(** [InstructionHandlers[instruction]] *)
Definition lookupHandler `{Host} (instruction : option Z) : TableEntry :=
  match instruction with
  | None => NoHandler
  | Some i =>
      match assocZ i handlers with
      | Some h => Handler h
      | None => if bool_decide (i ∈ notEmbeddedOpcodes) then NotEmbedded else NoHandler
      end
  end.

Definition unknownOpcode (instruction : option Z) : string :=
  "Unknown opcode: " +:+ match instruction with Some i => pretty i | None => "undefined" end.

(** One round of the [while (true)] loop of [run()]: [Some r] where the
    loop returns [r], [None] where it goes on. *)
Definition dispatch `{Host} : M (option InterpretResult) :=
  err ← gets hasError;
  if err : bool then mret (Some RUNTIME_ERROR)
  else
    frs ← gets callFrames;
    match last frs with
    | None => mret (Some OK)
    | Some top =>
        modify (with_currentFrame (Some top));;
        instruction ← readByte;
        match lookupHandler instruction with
        | Handler handler =>
            result ← handler;
            match result with
            | YIELD => mret (Some YIELD)
            | _ =>
                err' ← gets hasError;
                mret (if err' : bool then Some RUNTIME_ERROR else None)
            end
        | NotEmbedded => outside "an instruction handler that is not embedded"
        | NoHandler =>
            runtimeError (VStr (unknownOpcode instruction)) true;;
            err' ← gets hasError;
            mret (if err' : bool then Some RUNTIME_ERROR else None)
        end
    end.

(** [run()]: the dispatch loop. *)
Fixpoint run `{Host} (fuel : nat) : M InterpretResult :=
  match fuel with
  | O => outOfFuel
  | S fuel' =>
      r ← dispatch;
      match r with
      | Some result => mret result
      | None => run fuel'
      end
  end.

(** A function taken from the microtask queue, called. *)
Definition callTask (task : Microtask) : M unit :=
  match task with
  | AsyncCallTask _ _ _ => mret tt
  | ResolveInternalTask p value => _resolveInternal p value
  | RejectInternalTask p reason => _rejectInternal p reason
  | ThenSettledTask p cb =>
      cell ← deref_promise p;
      vm ← gets id;
      invokeCallback (settleFuel vm) cb
        match cb with
        | scheduleFulfillment _ _ => PromiseV1.value cell
        | scheduleRejection _ _ => PromiseV1.reason cell
        end
  | AwaitResumeTask frameToResume resolvedValue =>
      modify (λ vm, with_callFrames (callFrames vm ++ [frameToResume]) vm);;
      modify (with_currentFrame (Some frameToResume));;
      pop;;                       (* pop the awaited promise *)
      push resolvedValue
  | AwaitRejectTask frameToResume rejectionReason =>
      modify (λ vm, with_callFrames (callFrames vm ++ [frameToResume]) vm);;
      modify (with_currentFrame (Some frameToResume));;
      runtimeError rejectionReason true;;
      modify (λ vm, with_callFrames (removelast (callFrames vm)) vm);;
      modify (λ vm, with_currentFrame (last (callFrames vm)) vm)
  end.

(** One round of the loop of [runMicrotasks], on the task shifted off. *)
Definition runMicrotask (task : Microtask) : M unit :=
  match task with
  | AsyncCallTask callee asyncPromise args =>
      push (VClosure callee);;
      forEach args push;;
      cl ← deref_closure callee;
      st ← gets stack;
      frame ← new_frame (CallFrame.mk (Closure.func cl) 0
                           (Z.of_nat (length st) - 1 - Z.of_nat (length args))
                           callee asyncPromise);
      modify (λ vm, with_callFrames (callFrames vm ++ [frame]) vm)
  | _ =>
      try_catch (callTask task)
        (λ e, runtimeError (VStr ("Error in native microtask: " +:+ e)) false)
  end.

Fixpoint runMicrotasks (fuel : nat) : M unit :=
  queue ← gets microtaskQueue;
  match queue with
  | [] => mret tt
  | task :: rest =>
      err ← gets hasError;
      if err : bool then mret tt
      else
        match fuel with
        | O => outOfFuel
        | S fuel' =>
            modify (with_microtaskQueue rest);;
            runMicrotask task;;
            runMicrotasks fuel'
        end
  end.

(** The result of [interpret]. *)
Record Outcome : Type := mkOutcome { result : InterpretResult; value : Value }.

(** The event loop of [interpret]. *)
Fixpoint eventLoop `{Host} (fuel : nat) : M unit :=
  vm ← gets id;
  if bool_decide (callFrames vm = []) && bool_decide (microtaskQueue vm = [])
     && negb (pendingHostOps vm >? 0)
  then mret tt
  else if hasError vm then mret tt
  else
    match fuel with
    | O => outOfFuel
    | S fuel' =>
        runMicrotasks fuel;;
        frs ← gets callFrames;
        stop ← match frs with
               | [] => mret false
               | _ =>
                   r ← run fuel;
                   err ← gets hasError;
                   mret (match r with YIELD => false | _ => err end)
               end;
        if stop : bool then mret tt
        else
          vm' ← gets id;
          if bool_decide (callFrames vm' = []) && bool_decide (microtaskQueue vm' = [])
             && (pendingHostOps vm' >? 0)
          then outside "waiting for the host"
          else eventLoop fuel'
    end.

Definition interpret `{Host} (fuel : nat) (mainFunction : FunctionObject) : M Outcome :=
  mainFn ← new_closure (Closure.mk mainFunction [] VUndefined);
  scriptExecutionPromise ← new_promise PromiseV1.fresh;
  scheduleMicrotask (AsyncCallTask mainFn (Some scriptExecutionPromise) []);;
  modify (with_hasError false);;
  eventLoop fuel;;
  err ← gets hasError;
  cell ← deref_promise scriptExecutionPromise;
  if err : bool then
    match PromiseV1.state cell with
    | PENDING =>
        st ← gets stack;
        errorMessage ← match st with
                       | [] => mret (VStr "Unknown runtime error.")
                       | _ => pop
                       end;
        promise_reject scriptExecutionPromise errorMessage
    | _ => mret tt
    end;;
    cell' ← deref_promise scriptExecutionPromise;
    mret (mkOutcome RUNTIME_ERROR (PromiseV1.reason cell'))
  else
    match PromiseV1.state cell with
    | FULFILLED =>
        setStackLength 0;;
        mret (mkOutcome OK (PromiseV1.value cell))
    | REJECTED => mret (mkOutcome RUNTIME_ERROR (PromiseV1.reason cell))
    | PENDING =>
        st ← gets stack;
        finalValue ← match st with
                     | [] => mret VNull
                     | _ => pop
                     end;
        setStackLength 0;;
        mret (mkOutcome OK finalValue)
    end.

(** ** Compiler state (src/compiler/CompilerState.js, src/compiler/utils.js) *)

Module Local.
Record t : Type := mk { name : string; depth : Z; isCaptured : bool }.
End Local.

(** [class CompilerState].  The [enclosing] pointer is the rest of the chain
    the compiler holds: the head of the chain is [compiler.current]. *)
Module CompilerState.
Record t : Type := mk {
  functionName : string;
  bytecode : list Z;
  constants : list Value;
  locals : list Local.t;
  upvalues : list UpvalueDesc.t;
  scopeDepth : Z
}.
(** [new CompilerState(enclosing, functionName)]: slot 0 is reserved for
    the function itself. *)
Definition make (functionName : string) : t :=
  mk functionName [] [] [Local.mk functionName 0 false] [] 0.
Definition with_bytecode (x : list Z) (s : t) : t :=
  mk (functionName s) x (constants s) (locals s) (upvalues s) (scopeDepth s).
Definition with_constants (x : list Value) (s : t) : t :=
  mk (functionName s) (bytecode s) x (locals s) (upvalues s) (scopeDepth s).
Definition with_locals (x : list Local.t) (s : t) : t :=
  mk (functionName s) (bytecode s) (constants s) x (upvalues s) (scopeDepth s).
Definition with_upvalues (x : list UpvalueDesc.t) (s : t) : t :=
  mk (functionName s) (bytecode s) (constants s) (locals s) x (scopeDepth s).
Definition with_scopeDepth (x : Z) (s : t) : t :=
  mk (functionName s) (bytecode s) (constants s) (locals s) (upvalues s) x.
End CompilerState.

(** Results of a compiler action: a value and the new state, the [Error]
    the compiler throws, or a step that leaves what the states hold (an
    array with holes). *)
Inductive CRes (S A : Type) : Type :=
| COk (a : A) (s : S)
| CError (message : string)
| COutside (what : string).
Arguments COk {S A} a s.
Arguments CError {S A} message.
Arguments COutside {S A} what.

(** Actions on one compiler state. *)
Definition CS (A : Type) : Type := CompilerState.t → CRes CompilerState.t A.
(** Actions on the compiler: the chain of states, current first. *)
Definition CM (A : Type) : Type := list CompilerState.t → CRes (list CompilerState.t) A.

#[export] Instance CS_ret : MRet CS := λ A a s, COk a s.
#[export] Instance CS_bind : MBind CS := λ A B k m s,
  match m s with
  | COk a s' => k a s'
  | CError e => CError e
  | COutside what => COutside what
  end.
#[export] Instance CM_ret : MRet CM := λ A a s, COk a s.
#[export] Instance CM_bind : MBind CM := λ A B k m s,
  match m s with
  | COk a s' => k a s'
  | CError e => CError e
  | COutside what => COutside what
  end.

(** An action on [compiler.current]. *)
Definition onCurrent {A} (m : CS A) : CM A := λ chain,
  match chain with
  | current :: enclosing =>
      match m current with
      | COk a current' => COk a (current' :: enclosing)
      | CError e => CError e
      | COutside what => COutside what
      end
  | [] => CError "TypeError: Cannot read properties of null"
  end.

Definition compileError {A} (message : string) : CM A := λ _, CError message.
Definition stateError {A} (message : string) : CS A := λ _, CError message.
Definition getState : CS CompilerState.t := λ s, COk s s.

Definition emitByte (byte : Z) : CS unit := λ s,
  COk tt (CompilerState.with_bytecode (CompilerState.bytecode s ++ [byte]) s).

Definition emitBytes (bytes : list Z) : CS unit := λ s,
  COk tt (CompilerState.with_bytecode (CompilerState.bytecode s ++ bytes) s).

Definition emitReturn : CS unit :=
  emitByte Opcodes.OP_PUSH_NULL;;
  emitByte Opcodes.OP_RETURN.

Definition addConstant (value : Value) : CS Z := λ s,
  COk (Z.of_nat (length (CompilerState.constants s ++ [value])) - 1)
      (CompilerState.with_constants (CompilerState.constants s ++ [value]) s).

Definition emitConstant (value : Value) : CS unit :=
  constIndex ← addConstant value;
  if constIndex >? 255 then stateError "Constant pool limit exceeded."
  else emitBytes [Opcodes.OP_CONSTANT; constIndex].

(** The position of the first element that satisfies [p]. *)
Fixpoint findIndex {A} (p : A → bool) (l : list A) : option nat :=
  match l with
  | [] => None
  | x :: rest => if p x then Some 0%nat else S <$> findIndex p rest
  end.

(** [addUpvalue(index, isLocal)]: an existing slot is reused. *)
Definition addUpvalue (index : Z) (isLocal : bool) : CS Z := λ s,
  match findIndex (λ u, (UpvalueDesc.index u =? index)
                        && bool_decide (UpvalueDesc.isLocal u = isLocal))
                  (CompilerState.upvalues s) with
  | Some i => COk (Z.of_nat i) s
  | None =>
      if Z.of_nat (length (CompilerState.upvalues s)) >? 255
      then CError "Too many upvalues in function."
      else COk (Z.of_nat (length (CompilerState.upvalues s)))
               (CompilerState.with_upvalues
                  (CompilerState.upvalues s ++ [UpvalueDesc.mk index isLocal]) s)
  end.

(** [resolveLocal(name)]: the innermost local of that name, or -1. *)
Fixpoint lastIndexOf (name : string) (locals : list Local.t) (i : Z) : Z :=
  match locals with
  | [] => -1
  | l :: rest =>
      let later := lastIndexOf name rest (i + 1) in
      if later =? -1 then (if bool_decide (Local.name l = name) then i else -1) else later
  end.

Definition resolveLocal (s : CompilerState.t) (name : string) : Z :=
  lastIndexOf name (CompilerState.locals s) 0.

Definition addLocal (name : string) : CS unit := λ s,
  if Z.of_nat (length (CompilerState.locals s)) >? 255
  then CError "Too many local variables."
  else COk tt (CompilerState.with_locals
                 (CompilerState.locals s ++ [Local.mk name (CompilerState.scopeDepth s) false]) s).

(** The redeclaration check of [declareVariable], over the locals from the
    innermost outwards. *)
Fixpoint redeclared (name : string) (scopeDepth : Z) (innermostFirst : list Local.t) : bool :=
  match innermostFirst with
  | [] => false
  | local :: rest =>
      if negb (Local.depth local =? -1) && (Local.depth local <? scopeDepth) then false
      else if bool_decide (Local.name local = name) then true
      else redeclared name scopeDepth rest
  end.

Definition declareVariable (name : string) : CS unit := λ s,
  if CompilerState.scopeDepth s =? 0 then COk tt s
  else if redeclared name (CompilerState.scopeDepth s) (reverse (CompilerState.locals s))
  then CError ("Identifier '" +:+ name +:+ "' has already been declared.")
  else addLocal name s.

Definition defineVariable (name : string) : CS unit :=
  s ← getState;
  let localSlot := resolveLocal s name in
  if negb (localSlot =? -1) then emitBytes [Opcodes.OP_SET_LOCAL; localSlot]
  else
    constIndex ← addConstant (VStr name);
    emitBytes [Opcodes.OP_DEFINE_GLOBAL; constIndex].

(** [enclosing.locals[local].isCaptured = true] *)
Definition markCaptured (local : Z) (s : CompilerState.t) : CompilerState.t :=
  CompilerState.with_locals
    (alter (λ l, Local.mk (Local.name l) (Local.depth l) true) (Z.to_nat local)
           (CompilerState.locals s)) s.

(** [resolveUpvalue(name, currentCompilerState)], on the chain that starts
    at [currentCompilerState]. *)
Fixpoint resolveUpvalue (name : string) (chain : list CompilerState.t)
  : CRes (list CompilerState.t) Z :=
  match chain with
  | [] => COk (-1) chain
  | current :: enclosingChain =>
      match enclosingChain with
      | [] => COk (-1) chain                 (* enclosing === null *)
      | enclosing :: outer =>
          let local := resolveLocal enclosing name in
          if negb (local =? -1) then
            match addUpvalue local true current with
            | COk i current' => COk i (current' :: markCaptured local enclosing :: outer)
            | CError e => CError e
            | COutside what => COutside what
            end
          else
            match resolveUpvalue name enclosingChain with
            | COk upvalue enclosingChain' =>
                if negb (upvalue =? -1) then
                  match addUpvalue upvalue false current with
                  | COk i current' => COk i (current' :: enclosingChain')
                  | CError e => CError e
                  | COutside what => COutside what
                  end
                else COk (-1) (current :: enclosingChain')
            | CError e => CError e
            | COutside what => COutside what
            end
      end
  end.

(** Globals that are handled specially in the VM via OP_GET_NATIVE. *)
Definition NATIVE_GLOBALS : list string :=
  ["console"; "Math"; "performance"; "Date"; "Object"; "Promise"].

Definition currentState : CM CompilerState.t := λ chain,
  match chain with
  | current :: _ => COk current chain
  | [] => CError "TypeError: Cannot read properties of null"
  end.

Definition emitGetVariable (name : string) : CM unit :=
  current ← currentState;
  let localSlot := resolveLocal current name in
  if negb (localSlot =? -1) then onCurrent (emitBytes [Opcodes.OP_GET_LOCAL; localSlot])
  else
    upvalueSlot ← resolveUpvalue name;
    if negb (upvalueSlot =? -1) then onCurrent (emitBytes [Opcodes.OP_GET_UPVALUE; upvalueSlot])
    else
      constIndex ← onCurrent (addConstant (VStr name));
      if bool_decide (name ∈ NATIVE_GLOBALS)
      then onCurrent (emitBytes [Opcodes.OP_GET_NATIVE; constIndex])
      else onCurrent (emitBytes [Opcodes.OP_GET_GLOBAL; constIndex]).

Definition emitSetVariable (name : string) : CM unit :=
  current ← currentState;
  let localSlot := resolveLocal current name in
  if negb (localSlot =? -1) then onCurrent (emitBytes [Opcodes.OP_SET_LOCAL; localSlot])
  else
    upvalueSlot ← resolveUpvalue name;
    if negb (upvalueSlot =? -1) then onCurrent (emitBytes [Opcodes.OP_SET_UPVALUE; upvalueSlot])
    else
      constIndex ← onCurrent (addConstant (VStr name));
      onCurrent (emitBytes [Opcodes.OP_SET_GLOBAL; constIndex]).

(** [emitJump]: the position of the placeholder. *)
Definition emitJump (instruction : Z) : CS Z :=
  emitByte instruction;;
  emitBytes [0xff; 0xff];;
  s ← getState;
  mret (Z.of_nat (length (CompilerState.bytecode s)) - 2).

(** [bytecode[index] = byte]: an element in range is replaced, the index
    [bytecode.length] extends the array by one, and any other index leaves
    the arrays of bytes (a hole before the new element, or a property that
    is no element). *)
Definition storeByte (index byte : Z) (bytecode : list Z) : option (list Z) :=
  if index <? 0 then None
  else if index <? Z.of_nat (length bytecode) then Some (<[Z.to_nat index := byte]> bytecode)
  else if index =? Z.of_nat (length bytecode) then Some (bytecode ++ [byte])
  else None.

(** [patchJump]: [(jump >> 8) & 0xFF] and [jump & 0xFF] at the placeholder. *)
Definition patchJump (offset : Z) : CS unit := λ s,
  let jump := Z.of_nat (length (CompilerState.bytecode s)) - offset - 2 in
  if jump >? 0xFFFF then CError "Jump too large."
  else
    match storeByte offset (Z.land (Z.shiftr jump 8) 0xFF) (CompilerState.bytecode s) with
    | Some bytecode =>
        match storeByte (offset + 1) (Z.land jump 0xFF) bytecode with
        | Some bytecode' => COk tt (CompilerState.with_bytecode bytecode' s)
        | None => COutside "a byte stored outside the bytecode"
        end
    | None => COutside "a byte stored outside the bytecode"
    end.

(** [popLocalsToDepth] (statements.js): locals are taken off the end while
    their depth exceeds the target. *)
Fixpoint popLocalsOf (targetDepth : Z) (innermostFirst : list Local.t)
  : list Z * list Local.t :=
  match innermostFirst with
  | [] => ([], [])
  | local :: rest =>
      if Local.depth local >? targetDepth then
        let '(ops, kept) := popLocalsOf targetDepth rest in
        ((if Local.isCaptured local then Opcodes.OP_CLOSE_UPVALUE else Opcodes.OP_POP) :: ops,
         kept)
      else ([], innermostFirst)
  end.

Definition popLocalsToDepth (targetDepth : Z) : CS unit := λ s,
  let '(ops, kept) := popLocalsOf targetDepth (reverse (CompilerState.locals s)) in
  emitBytes ops (CompilerState.with_locals (reverse kept) s).

Fixpoint forEachCS {A} (l : list A) (f : A → CS unit) : CS unit :=
  match l with
  | [] => mret tt
  | x :: rest => f x;; forEachCS rest f
  end.

Definition addScopeDepth (d : Z) : CS unit := λ s,
  COk tt (CompilerState.with_scopeDepth (CompilerState.scopeDepth s + d) s).

(** ** The compiler (src/compiler/Compiler.js, src/compiler/visitors) *)

Local Set Warnings "-register-all".

(** The part of the ECMAScript AST the embedded visitors cover.  A member
    expression [o.p] carries the name of its property; [o[e]] carries the
    expression. *)
Inductive Expr : Type :=
| NumericLiteral (value : float)
| StringLiteral (value : string)
| BooleanLiteral (value : bool)
| NullLiteral
| ThisExpression
| Identifier (name : string)
| UnaryExpression (operator : string) (argument : Expr)
| BinaryExpression (operator : string) (left right : Expr)
| NewExpression (callee : Expr) (arguments : list Expr)
| CallExpression (callee : Expr) (arguments : list Expr)
| MemberExpression (object : Expr) (property : string)
| ComputedMemberExpression (object : Expr) (property : Expr)
| ArrayExpression (elements : list Expr)
| AwaitExpression (argument : Expr)
| AssignIdentifier (operator : string) (left : string) (right : Expr)
| AssignMember (operator : string) (object : Expr) (property : string) (right : Expr).

(** A class member is [(kind, key, params, body)]; a catch clause is its
    optional parameter and its body. *)
Inductive Statement : Type :=
| ExpressionStatement (expression : Expr)
| VariableDeclaration (id : string) (init : option Expr)
| ReturnStatement (argument : option Expr)
| ThrowStatement (argument : Expr)
| BlockStatement (body : list Statement)
| IfStatement (test : Expr) (consequent : Statement) (alternate : option Statement)
| TryStatement (block : list Statement) (handler : option (option string * list Statement))
| FunctionDeclaration (id : string) (params : list string) (body : list Statement)
    (generator async : bool)
| ClassDeclaration (id : string)
    (body : list (string * string * list string * list Statement)).

Definition binaryOpcode (operator : string) : option Z :=
  if bool_decide (operator = "+") then Some Opcodes.OP_ADD
  else if bool_decide (operator = "-") then Some Opcodes.OP_SUBTRACT
  else if bool_decide (operator = "*") then Some Opcodes.OP_MULTIPLY
  else if bool_decide (operator = "/") then Some Opcodes.OP_DIVIDE
  else if bool_decide (operator = "%") then Some Opcodes.OP_MODULO
  else if bool_decide (operator = "**") then Some Opcodes.OP_POWER
  else if bool_decide (operator = "==") then Some Opcodes.OP_EQUAL
  else if bool_decide (operator = "===") then Some Opcodes.OP_EQUAL
  else if bool_decide (operator = "!=") then Some Opcodes.OP_NOT_EQUAL
  else if bool_decide (operator = "!==") then Some Opcodes.OP_NOT_EQUAL
  else if bool_decide (operator = ">") then Some Opcodes.OP_GREATER
  else if bool_decide (operator = "<") then Some Opcodes.OP_LESS
  else if bool_decide (operator = ">=") then Some Opcodes.OP_GREATER_EQUAL
  else if bool_decide (operator = "<=") then Some Opcodes.OP_LESS_EQUAL
  else None.

(** The [opMap] of the AssignmentExpression visitor. *)
Definition compoundOpcode (operator : string) : option Z :=
  if bool_decide (operator = "+=") then Some Opcodes.OP_ADD
  else if bool_decide (operator = "-=") then Some Opcodes.OP_SUBTRACT
  else if bool_decide (operator = "*=") then Some Opcodes.OP_MULTIPLY
  else if bool_decide (operator = "/=") then Some Opcodes.OP_DIVIDE
  else if bool_decide (operator = "**=") then Some Opcodes.OP_POWER
  else None.

Definition emitOptional (op : option Z) : CM unit :=
  match op with
  | Some o => onCurrent (emitByte o)
  | None => mret tt
  end.

(** The expression visitors (expressions.js): children in the order of the
    traversal, then the [exit] of the node. *)
Fixpoint compileExpr (e : Expr) : CM unit :=
  let compileAll := fix go (l : list Expr) : CM unit :=
    match l with
    | [] => mret tt
    | x :: rest => compileExpr x;; go rest
    end in
  match e with
  | NumericLiteral value => onCurrent (emitConstant (VNum value))
  | StringLiteral value => onCurrent (emitConstant (VStr value))
  | BooleanLiteral value =>
      onCurrent (emitByte (if value then Opcodes.OP_PUSH_TRUE else Opcodes.OP_PUSH_FALSE))
  | NullLiteral => onCurrent (emitByte Opcodes.OP_PUSH_NULL)
  | ThisExpression => onCurrent (emitBytes [Opcodes.OP_GET_LOCAL; 0])
  | Identifier name => emitGetVariable name
  | UnaryExpression operator argument =>
      compileExpr argument;;
      if bool_decide (operator = "-") then onCurrent (emitByte Opcodes.OP_NEGATE)
      else if bool_decide (operator = "!") then onCurrent (emitByte Opcodes.OP_NOT)
      else compileError ("Unsupported unary operator: " +:+ operator)
  | BinaryExpression operator lhs rhs =>
      compileExpr lhs;;
      compileExpr rhs;;
      match binaryOpcode operator with
      | Some opcode => onCurrent (emitByte opcode)
      | None => compileError ("Unsupported binary operator: " +:+ operator)
      end
  | NewExpression callee arguments =>
      compileExpr callee;;
      compileAll arguments;;
      onCurrent (emitBytes [Opcodes.OP_NEW; Z.of_nat (length arguments)])
  | CallExpression callee arguments =>
      match callee with
      | MemberExpression object methodName =>
          (* the callee leaves its object; the member visitor emits nothing *)
          compileExpr object;;
          compileAll arguments;;
          nameIndex ← onCurrent (addConstant (VStr methodName));
          onCurrent (emitBytes [Opcodes.OP_CALL_METHOD; nameIndex; Z.of_nat (length arguments)])
      | _ =>
          compileExpr callee;;
          compileAll arguments;;
          onCurrent (emitBytes [Opcodes.OP_CALL; Z.of_nat (length arguments)])
      end
  | MemberExpression object property =>
      compileExpr object;;
      nameIndex ← onCurrent (addConstant (VStr property));
      onCurrent (emitBytes [Opcodes.OP_GET_PROPERTY_PROTO; nameIndex])
  | ComputedMemberExpression object property =>
      compileExpr object;;
      compileExpr property;;
      onCurrent (emitByte Opcodes.OP_GET_INDEX)
  | ArrayExpression elements =>
      compileAll elements;;
      onCurrent (emitBytes [Opcodes.OP_NEW_ARRAY; Z.of_nat (length elements)])
  | AwaitExpression argument =>
      compileExpr argument;;
      onCurrent (emitByte Opcodes.OP_AWAIT)
  | AssignIdentifier operator target rhs =>
      (match compoundOpcode operator with
       | Some _ => emitGetVariable target
       | None => mret tt
       end);;
      compileExpr rhs;;
      emitOptional (compoundOpcode operator);;
      emitSetVariable target
  | AssignMember operator object property rhs =>
      compileExpr object;;
      (match compoundOpcode operator with
       | Some _ =>
           onCurrent (emitByte Opcodes.OP_DUPLICATE);;
           nameIndex ← onCurrent (addConstant (VStr property));
           onCurrent (emitBytes [Opcodes.OP_GET_PROPERTY_PROTO; nameIndex])
       | None => mret tt
       end);;
      compileExpr rhs;;
      emitOptional (compoundOpcode operator);;
      nameIndex ← onCurrent (addConstant (VStr property));
      onCurrent (emitBytes [Opcodes.OP_SET_PROPERTY_PROTO; nameIndex])
  end.

Fixpoint forEach_CM {A} (l : list A) (f : A → CM unit) : CM unit :=
  match l with
  | [] => mret tt
  | x :: rest => f x;; forEach_CM rest f
  end.

(** [compiler.current = new CompilerState(compiler.current, name)] *)
Definition enterFunction (name : string) : CM unit := λ chain,
  COk tt (CompilerState.make name :: chain).

(** [compiler.current = functionCompiler.enclosing], handing back the state
    that was current. *)
Definition leaveFunction : CM CompilerState.t := λ chain,
  match chain with
  | functionCompiler :: enclosing => COk functionCompiler enclosing
  | [] => CError "TypeError: Cannot read properties of null"
  end.

(** The bytes after OP_CLOSURE: [(isLocal ? 1 : 0, index)] per upvalue. *)
Definition upvalueBytes (upvalues : list UpvalueDesc.t) : list Z :=
  flat_map (λ u, [if UpvalueDesc.isLocal u then 1 else 0; UpvalueDesc.index u]) upvalues.

Definition emitClosure (compiled : FunctionObject) : CM unit :=
  constIndex ← onCurrent (addConstant (VFunctionObject compiled));
  onCurrent (emitBytes [Opcodes.OP_CLOSURE; constIndex]);;
  onCurrent (emitBytes (upvalueBytes (FunctionObject.upvalues compiled))).

Definition lastOp (s : CompilerState.t) : option Z := last (CompilerState.bytecode s).

(** [compileFunctionBody] (functions.js) for a block body, given the
    traversal of the body. *)
Definition compileFunctionBody (funcName : string) (params : list string)
    (traverseBody : CM unit) (generator async : bool) : CM unit :=
  enterFunction funcName;;
  onCurrent (addScopeDepth 1);;
  onCurrent (forEachCS params declareVariable);;
  traverseBody;;
  s ← currentState;
  (if bool_decide (lastOp s = Some Opcodes.OP_RETURN)
      || bool_decide (lastOp s = Some Opcodes.OP_THROW)
   then mret tt
   else if generator
        then onCurrent (emitByte Opcodes.OP_PUSH_NULL;; emitByte Opcodes.OP_RETURN)
        else onCurrent emitReturn);;
  functionCompiler ← leaveFunction;
  emitClosure
    (mkFunctionObject funcName (Z.of_nat (length params))
       (CompilerState.bytecode functionCompiler) (CompilerState.constants functionCompiler)
       (Z.of_nat (length (CompilerState.upvalues functionCompiler)))
       (CompilerState.upvalues functionCompiler) generator async).

(** [compileMethod] (classes.js), given the traversal of the body. *)
Definition compileMethod (kind key defaultName : string) (params : list string)
    (traverseBody : CM unit) : CM unit :=
  let methodName := if bool_decide (key = "") then defaultName else key in
  enterFunction methodName;;
  (* in methods, local slot 0 is reserved for [this] *)
  onCurrent (λ s, COk tt (CompilerState.with_locals
                            (alter (λ l, Local.mk "this" (Local.depth l) (Local.isCaptured l))
                                   0%nat (CompilerState.locals s)) s));;
  onCurrent (addScopeDepth 1);;
  onCurrent (forEachCS params declareVariable);;
  traverseBody;;
  s ← currentState;
  (if bool_decide (lastOp s = Some Opcodes.OP_RETURN) then mret tt
   else if bool_decide (kind = "constructor")
        then onCurrent (emitBytes [Opcodes.OP_GET_LOCAL; 0];; emitByte Opcodes.OP_RETURN)
        else onCurrent emitReturn);;
  functionCompiler ← leaveFunction;
  emitClosure
    (mkFunctionObject methodName (Z.of_nat (length params))
       (CompilerState.bytecode functionCompiler) (CompilerState.constants functionCompiler)
       (Z.of_nat (length (CompilerState.upvalues functionCompiler)))
       (CompilerState.upvalues functionCompiler) false false).

Definition memberKind (m : string * string * list string * list Statement) : string :=
  match m with (kind, _, _, _) => kind end.

(** The statement, declaration, function and class visitors. *)
Fixpoint compileStatement (s : Statement) : CM unit :=
  let traverse := fix go (l : list Statement) : CM unit :=
    match l with
    | [] => mret tt
    | x :: rest => compileStatement x;; go rest
    end in
  (* a BlockStatement node: enter, body, exit *)
  let block := λ (body : CM unit),
    onCurrent (addScopeDepth 1);;
    body;;
    onCurrent (addScopeDepth (-1));;
    st ← currentState;
    onCurrent (popLocalsToDepth (CompilerState.scopeDepth st)) in
  match s with
  | ExpressionStatement expression =>
      compileExpr expression;;
      onCurrent (emitByte Opcodes.OP_POP)
  | VariableDeclaration id init =>
      match init with
      | Some e => compileExpr e
      | None => onCurrent (emitByte Opcodes.OP_PUSH_NULL)
      end;;
      onCurrent (declareVariable id);;
      onCurrent (defineVariable id)
  | ReturnStatement argument =>
      match argument with
      | Some e => compileExpr e
      | None => onCurrent (emitByte Opcodes.OP_PUSH_NULL)
      end;;
      onCurrent (emitByte Opcodes.OP_RETURN)
  | ThrowStatement argument =>
      compileExpr argument;;
      onCurrent (emitByte Opcodes.OP_THROW)
  | BlockStatement body => block (traverse body)
  | IfStatement test consequent alternate =>
      compileExpr test;;
      thenJump ← onCurrent (emitJump Opcodes.OP_JUMP_IF_FALSE);
      onCurrent (emitByte Opcodes.OP_POP);;
      compileStatement consequent;;
      match alternate with
      | Some alt =>
          elseJump ← onCurrent (emitJump Opcodes.OP_JUMP);
          onCurrent (patchJump thenJump);;
          onCurrent (emitByte Opcodes.OP_POP);;
          compileStatement alt;;
          onCurrent (patchJump elseJump)
      | None =>
          onCurrent (patchJump thenJump);;
          onCurrent (emitByte Opcodes.OP_POP)
      end
  | TryStatement tryBlock handler =>
      tryJump ← onCurrent (emitJump Opcodes.OP_SETUP_TRY);
      block (traverse tryBlock);;
      onCurrent (emitByte Opcodes.OP_POP_CATCH);;
      exitJump ← onCurrent (emitJump Opcodes.OP_JUMP);
      onCurrent (patchJump tryJump);;
      match handler with
      | Some (errorParam, catchBody) =>
          onCurrent (addScopeDepth 1);;
          match errorParam with
          | Some name =>
              onCurrent (declareVariable name);;
              onCurrent (defineVariable name)
          | None => onCurrent (emitByte Opcodes.OP_POP)
          end;;
          block (traverse catchBody);;
          onCurrent (addScopeDepth (-1))
      | None => mret tt
      end;;
      onCurrent (patchJump exitJump)
  | FunctionDeclaration funcName params body generator async =>
      compileFunctionBody funcName params (traverse body) generator async;;
      onCurrent (declareVariable funcName);;
      onCurrent (defineVariable funcName)
  | ClassDeclaration className members =>
      onCurrent (declareVariable className);;
      (* 1. the constructor, which leaves its closure on the stack *)
      (fix findConstructor (l : list (string * string * list string * list Statement))
         : CM unit :=
         match l with
         | [] =>
             (* a default empty constructor: constructor() { return this; } *)
             let bytecode := [Opcodes.OP_GET_LOCAL; 0; Opcodes.OP_RETURN] in
             let emptyConstructor := FunctionObject.make4 className 0 bytecode [] in
             onCurrent (emitConstant (VFunctionObject emptyConstructor))
         | (kind, key, params, body) :: rest =>
             if bool_decide (kind = "constructor")
             then compileMethod kind key className params (traverse body)
             else findConstructor rest
         end) members;;
      (* 2. the class variable *)
      onCurrent (defineVariable className);;
      (* 3. the other methods, attached to the prototype *)
      (fix attach (l : list (string * string * list string * list Statement)) : CM unit :=
         match l with
         | [] => mret tt
         | (kind, key, params, body) :: rest =>
             (if bool_decide (kind = "constructor") then mret tt
              else
                classIndex ← onCurrent (addConstant (VStr className));
                onCurrent (emitBytes [Opcodes.OP_GET_GLOBAL; classIndex]);;
                onCurrent (emitByte Opcodes.OP_GET_PROTOTYPE);;
                compileMethod kind key "<anonymous>" params (traverse body);;
                nameIndex ← onCurrent (addConstant (VStr key));
                onCurrent (emitBytes [Opcodes.OP_SET_PROPERTY_PROTO; nameIndex]);;
                onCurrent (emitByte Opcodes.OP_POP));;
             attach rest
         end) members
  end.

(** [Compiler.compile], from the parsed program on. *)
Definition compile (program : list Statement) : CRes (list CompilerState.t) FunctionObject :=
  (forEach_CM program compileStatement;;
   s ← currentState;
   (if bool_decide (CompilerState.bytecode s = [])
       || negb (bool_decide (lastOp s = Some Opcodes.OP_RETURN))
    then onCurrent emitReturn else mret tt);;
   s' ← currentState;
   mret (mkFunctionObject (CompilerState.functionName s') 0
           (CompilerState.bytecode s') (CompilerState.constants s')
           (Z.of_nat (length (CompilerState.upvalues s'))) (CompilerState.upvalues s')
           false false))
    [CompilerState.make "<script>"].

(** Compiling and interpreting a program. *)
Definition runProgram `{Host} (fuel : nat) (program : list Statement) : option (Res Outcome) :=
  match compile program with
  | COk mainFunction _ => Some (interpret fuel mainFunction newVM)
  | _ => None
  end.

(** ** More of the compiler (src/compiler/utils.js) *)

(** [emitLoop]: a backward jump to [loopStart], over the three bytes of the
    instruction itself. *)
Definition emitLoop (loopStart : Z) : CS unit := λ s,
  let offset := Z.of_nat (length (CompilerState.bytecode s)) - loopStart + 3 in
  if offset >? 0xFFFF then CError "Loop body too large."
  else emitBytes [Opcodes.OP_LOOP; Z.land (Z.shiftr offset 8) 0xff; Z.land offset 0xff] s.

(** * Vocabulary of the statements, and the example programs and states *)

(** A host that knows [Number::toString] of the integers up to 2^53 in
    absolute value, which print as their decimal digits, and of NaN and the
    infinities; of other numbers it is not known. *)
Definition integerOf (n : float) : option Z :=
  match Prim2SF n with
  | S754_zero _ => Some 0
  | S754_finite s m e =>
      let magnitude :=
        if 0 <=? e then Some (Z.pos m * 2 ^ e)
        else if Z.pos m mod 2 ^ (- e) =? 0 then Some (Z.pos m / 2 ^ (- e)) else None in
      (λ z, if s : bool then - z else z) <$> magnitude
  | _ => None
  end.

Definition exampleNumber (n : float) : option string :=
  match Prim2SF n with
  | S754_nan => Some "NaN"
  | S754_infinity s => Some (if s then "-Infinity" else "Infinity")
  | _ =>
      match integerOf n with
      | Some z => if Z.abs z <? 2 ^ 53 then Some (pretty z) else None
      | None => None
      end
  end.

Definition exampleHost : Host := {| Number_toString := exampleNumber |}.

(** ** The unwind protocol *)

(** The promise of the frame at [a] if that is a frame of an async function
    with a live promise: [frame.closure.func.isAsync && frame.asyncPromise]. *)
Definition asyncPromiseOf (vm : VM) (a : nat) : option nat :=
  match frames vm !! a with
  | Some fr =>
      match closures vm !! CallFrame.closure fr with
      | Some cl =>
          if FunctionObject.isAsync (Closure.func cl) then CallFrame.asyncPromise fr else None
      | None => None
      end
  | None => None
  end.

(** The frame at [a] and its closure exist. *)
Definition frameResolves (vm : VM) (a : nat) : Prop :=
  ∃ fr cl, frames vm !! a = Some fr ∧ closures vm !! CallFrame.closure fr = Some cl.

Fixpoint firstAsync (vm : VM) (topFirst : list nat) : option nat :=
  match topFirst with
  | [] => None
  | a :: below =>
      match asyncPromiseOf vm a with
      | Some p => Some p
      | None => firstAsync vm below
      end
  end.

(** [p] is the promise of the topmost async frame with a live promise. *)
Definition topmostAsync (vm : VM) (p : nat) : Prop :=
  ∃ i a, callFrames vm !! i = Some a ∧ asyncPromiseOf vm a = Some p
         ∧ ∀ j b, (i < j)%nat → callFrames vm !! j = Some b → asyncPromiseOf vm b = None.

(** The state after the promise [p] was rejected with [message]: the
    rejection is queued and the VM is marked errored; stack, frames and
    handlers are as before. *)
Definition rejected (p : nat) (message : Value) (vm : VM) : VM :=
  with_hasError true
    (with_microtaskQueue (microtaskQueue vm ++ [RejectInternalTask p message]) vm).

(** [async function f() { try { throw "boom"; } catch (e) { return e; } }]
    as the compiler lowers it: SETUP_TRY, the constant, THROW, POP_CATCH,
    JUMP, and the catch block. *)
Definition asyncTryFunction : FunctionObject :=
  mkFunctionObject "f" 0
    [Opcodes.OP_SETUP_TRY; 0; 7; Opcodes.OP_CONSTANT; 0; Opcodes.OP_THROW;
     Opcodes.OP_POP_CATCH; Opcodes.OP_JUMP; 0; 5;
     Opcodes.OP_SET_LOCAL; 1; Opcodes.OP_GET_LOCAL; 1; Opcodes.OP_RETURN]
    [VStr "boom"] 0 [] false true.

(** The VM inside [f], about to execute THROW: the frame of [f] holds the
    promise of the call and the handler of the try block is installed. *)
Definition vmInAsyncTry : VM :=
  mkVM [VClosure 0; VStr "boom"] ∅ nativeGlobals [0%nat] (Some 0%nat) None
    [ExceptionHandler.mk 10 1 0] [] 256 0 false []
    [] [] [Closure.mk asyncTryFunction [] VUndefined] [] [PromiseV1.fresh]
    [CallFrame.mk asyncTryFunction 6 0 0 (Some 0%nat)] [].

(** [async function f() { throw "boom"; } f();] *)
Definition asyncThrows : list Statement :=
  [FunctionDeclaration "f" [] [ThrowStatement (StringLiteral "boom")] false true;
   ExpressionStatement (CallExpression (Identifier "f") [])].

(** ** Truthiness *)

(** The falsy values the specification lists: null, false, 0, the empty
    string and the empty array. *)
Definition listedFalsy (vm : VM) (v : Value) : Prop :=
  v = VNull ∨ v = VBool false ∨ (∃ n, v = VNum n ∧ PrimFloat.eqb n 0%float = true)
  ∨ v = VStr "" ∨ (∃ a, v = VArray a ∧ arrays vm !! a = Some []).

(** The two-byte operand at [ip], as [readShort] decodes it. *)
Definition shortAt (code : list Z) (ip : Z) : Z :=
  toInt32 (Z.lor (toInt32 (Z.shiftl (toInt32 (default 0 (index code ip))) 8))
                 (toInt32 (default 0 (index code (ip + 1))))).

(** The frame [a] of [vm] with its instruction pointer moved to [ip]. *)
Definition atIp (a : nat) (fr : CallFrame.t) (ip : Z) (vm : VM) : VM :=
  with_frames (<[a := CallFrame.with_ip ip fr]> (frames vm)) vm.

(** A frame about to read the operand of JUMP_IF_FALSE, with [undefined]
    on the stack. *)
Definition vmUndefinedOnTop : VM :=
  mkVM [VClosure 0; VUndefined] ∅ nativeGlobals [0%nat] (Some 0%nat) None [] [] 256 0 false []
    [] [] [Closure.mk (FunctionObject.make4 "<script>" 0
                         [Opcodes.OP_JUMP_IF_FALSE; 0; 3; Opcodes.OP_NOT] []) [] VUndefined]
    [] []
    [CallFrame.mk (FunctionObject.make4 "<script>" 0
                     [Opcodes.OP_JUMP_IF_FALSE; 0; 3; Opcodes.OP_NOT] []) 1 0 0 None] [].

(** ** Catching *)

(** [array.length = n] on a stack, for [0 <= n]. *)
Definition resized (n : Z) (st : list Value) : list Value :=
  take (Z.to_nat n) st ++ replicate (Z.to_nat n - length st)%nat VUndefined.

(** No frame on the call-frame stack is an async frame with a live promise. *)
Definition noAsyncFrame (vm : VM) : Prop :=
  ∀ a, a ∈ callFrames vm → asyncPromiseOf vm a = None.

(** The handler [h] is installed on top of the handlers [hs]; it was set up
    in the frame at [a], which is still on the call-frame stack. *)
Definition handlerOnTop (vm : VM) (hs : list ExceptionHandler.t) (h : ExceptionHandler.t)
    (a : nat) (fr : CallFrame.t) : Prop :=
  exceptionHandlers vm = hs ++ [h]
  ∧ 0 ≤ ExceptionHandler.stackSize h
  ∧ 0 ≤ ExceptionHandler.frameIndex h
  ∧ callFrames vm !! Z.to_nat (ExceptionHandler.frameIndex h) = Some a
  ∧ frames vm !! a = Some fr.

(** The state after the handler [h] caught [message]: the frames above the
    handler's are unwound, the stack is cut to the handler's depth and holds
    the message on top, and the handler's frame continues at the catch. *)
Definition caught (hs : list ExceptionHandler.t) (h : ExceptionHandler.t) (a : nat)
    (fr : CallFrame.t) (message : Value) (vm vm' : VM) : Prop :=
  exceptionHandlers vm' = hs
  ∧ callFrames vm' = take (Z.to_nat (ExceptionHandler.frameIndex h + 1)) (callFrames vm)
  ∧ currentFrame vm' = Some a
  ∧ stack vm' = resized (ExceptionHandler.stackSize h) (stack vm) ++ [message]
  ∧ frames vm' = <[a := CallFrame.with_ip (ExceptionHandler.targetIp h) fr]> (frames vm)
  ∧ hasError vm' = hasError vm
  ∧ microtaskQueue vm' = microtaskQueue vm.

(** [function g() { try { throw null; } catch (e) { return e; } }], in its
    frame and about to execute THROW. *)
Definition tryFunction : FunctionObject :=
  mkFunctionObject "g" 0
    [Opcodes.OP_SETUP_TRY; 0; 6; Opcodes.OP_PUSH_NULL; Opcodes.OP_THROW;
     Opcodes.OP_POP_CATCH; Opcodes.OP_JUMP; 0; 5;
     Opcodes.OP_SET_LOCAL; 1; Opcodes.OP_GET_LOCAL; 1; Opcodes.OP_RETURN]
    [] 0 [] false false.

Definition vmInTry : VM :=
  mkVM [VClosure 0; VNull] ∅ nativeGlobals [0%nat] (Some 0%nat) None
    [ExceptionHandler.mk 9 1 0] [] 256 0 false []
    [] [] [Closure.mk tryFunction [] VUndefined] [] []
    [CallFrame.mk tryFunction 5 0 0 None] [].



(** ** Upvalues *)

(** The current frame is [fr] at [a], its next byte is the operand [slot],
    and slot [slot] of its closure holds the upvalue [u] with cell [cell]. *)
Definition upvalueOperand (vm : VM) (a : nat) (fr : CallFrame.t) (slot : Z) (u : nat)
    (cell : Upvalue.t) : Prop :=
  currentFrame vm = Some a
  ∧ frames vm !! a = Some fr
  ∧ index (FunctionObject.bytecode (CallFrame.func fr)) (CallFrame.ip fr) = Some slot
  ∧ (∃ cl, closures vm !! CallFrame.closure fr = Some cl
           ∧ index (Closure.upvalues cl) slot = Some (Some u))
  ∧ upvalueCells vm !! u = Some cell.

(** The upvalue cell [u] with its closed value replaced. *)
Definition withClosed (u : nat) (cell : Upvalue.t) (v : Value) (vm : VM) : VM :=
  with_upvalueCells
    (<[u := Upvalue.mk (Upvalue.location cell) v (Upvalue.next cell)]> (upvalueCells vm)) vm.

(** [function outer() { let x = null; function inner() { return x; } return inner; }
     let f = outer(); return f();] *)
Definition closedOverNull : list Statement :=
  [FunctionDeclaration "outer" []
     [VariableDeclaration "x" (Some NullLiteral);
      FunctionDeclaration "inner" [] [ReturnStatement (Some (Identifier "x"))] false false;
      ReturnStatement (Some (Identifier "inner"))] false false;
   VariableDeclaration "f" (Some (CallExpression (Identifier "outer") []));
   ReturnStatement (Some (CallExpression (Identifier "f") []))].

(** The same with [let x = "v"]. *)
Definition closedOverString : list Statement :=
  [FunctionDeclaration "outer" []
     [VariableDeclaration "x" (Some (StringLiteral "v"));
      FunctionDeclaration "inner" [] [ReturnStatement (Some (Identifier "x"))] false false;
      ReturnStatement (Some (Identifier "inner"))] false false;
   VariableDeclaration "f" (Some (CallExpression (Identifier "outer") []));
   ReturnStatement (Some (CallExpression (Identifier "f") []))].

(** The outcome of a run that came to an end. *)
Definition outcomeOf (r : option (Res Outcome)) : option Outcome :=
  match r with
  | Some (Ok o _) => Some o
  | _ => None
  end.

(** [inner], entered with its upvalue closed over null; the byte at its
    instruction pointer is the operand of GET_UPVALUE or SET_UPVALUE. *)
Definition vmClosedOverNull : VM :=
  mkVM [VClosure 0; VStr "w"] ∅ nativeGlobals [0%nat] (Some 0%nat) None [] [] 256 0 false []
    [] []
    [Closure.mk (mkFunctionObject "inner" 0
                   [Opcodes.OP_GET_UPVALUE; 0; Opcodes.OP_RETURN] [] 1
                   [UpvalueDesc.mk 1 true] false false) [Some 0%nat] VUndefined]
    [Upvalue.mk (-1) VNull None] []
    [CallFrame.mk (mkFunctionObject "inner" 0
                     [Opcodes.OP_GET_UPVALUE; 0; Opcodes.OP_RETURN] [] 1
                     [UpvalueDesc.mk 1 true] false false) 1 0 0 None] [].

(** ** Running programs *)

(** [interpret] up to its loop and through the first [runMicrotasks], which
    enters the script. *)
Definition boot (mainFunction : FunctionObject) : M unit :=
  mainFn ← new_closure (Closure.mk mainFunction [] VUndefined);
  scriptExecutionPromise ← new_promise PromiseV1.fresh;
  scheduleMicrotask (AsyncCallTask mainFn (Some scriptExecutionPromise) []);;
  modify (with_hasError false);;
  runMicrotasks 1.

(** [n] rounds of the loop of [run()], or fewer if it returns. *)
Fixpoint rounds `{Host} (n : nat) : M unit :=
  match n with
  | O => mret tt
  | S n' =>
      r ← dispatch;
      match r with
      | None => rounds n'
      | Some _ => mret tt
      end
  end.

(** The VM after the script [program] ran for [n] instructions. *)
Definition vmAfter `{Host} (n : nat) (program : list Statement) : option VM :=
  match compile program with
  | COk mainFunction _ =>
      match (boot mainFunction;; rounds n) newVM with
      | Ok _ vm => Some vm
      | _ => None
      end
  | _ => None
  end.

(** The VM a finished run leaves. *)
Definition finalVM (r : option (Res Outcome)) : option VM :=
  match r with
  | Some (Ok _ vm) => Some vm
  | _ => None
  end.

Definition compiled (program : list Statement) : option FunctionObject :=
  match compile program with
  | COk mainFunction _ => Some mainFunction
  | _ => None
  end.

(** ** The call-frame bound *)

(** [class A { constructor() { new A(); } } new A();] *)
Definition constructorRecursion : list Statement :=
  [ClassDeclaration "A"
     [("constructor", "constructor", [],
       [ExpressionStatement (NewExpression (Identifier "A") [])])];
   ExpressionStatement (NewExpression (Identifier "A") [])].

(** [class B { constructor() {} f() { return this.f(); } } let b = new B(); b.f();] *)
Definition methodRecursion : list Statement :=
  [ClassDeclaration "B"
     [("constructor", "constructor", [], []);
      ("method", "f", [],
       [ReturnStatement (Some (CallExpression (MemberExpression ThisExpression "f") []))])];
   VariableDeclaration "b" (Some (NewExpression (Identifier "B") []));
   ExpressionStatement (CallExpression (MemberExpression (Identifier "b") "f") [])].

(** [function r() { return r(); } r();] *)
Definition callRecursion : list Statement :=
  [FunctionDeclaration "r" [] [ReturnStatement (Some (CallExpression (Identifier "r") []))]
     false false;
   ExpressionStatement (CallExpression (Identifier "r") [])].

(** ** Classes *)

(** [class P { greet() { return "hi"; } } let p = new P(); p.greet()] *)
Definition classWithoutConstructor : list Statement :=
  [ClassDeclaration "P"
     [("method", "greet", [], [ReturnStatement (Some (StringLiteral "hi"))])];
   VariableDeclaration "p" (Some (NewExpression (Identifier "P") []));
   ExpressionStatement (CallExpression (MemberExpression (Identifier "p") "greet") [])].

(** [class P { constructor() {} greet() { return "hi"; } } let p = new P();
     return p.greet();] *)
Definition classWithConstructor : list Statement :=
  [ClassDeclaration "P"
     [("constructor", "constructor", [], []);
      ("method", "greet", [], [ReturnStatement (Some (StringLiteral "hi"))])];
   VariableDeclaration "p" (Some (NewExpression (Identifier "P") []));
   ReturnStatement (Some (CallExpression (MemberExpression (Identifier "p") "greet") []))].

(** ** Operand ranges *)

(** [x; x; ... x;], 257 times. *)
Definition manyGlobalReads : list Statement :=
  replicate 257 (ExpressionStatement (Identifier "x")).

(** ** Prototype lookup *)

(** [class P { constructor() { this.NAME = "own"; } } let p = new P(); return p.NAME;] *)
Definition ownProperty (name : string) : list Statement :=
  [ClassDeclaration "P"
     [("constructor", "constructor", [],
       [ExpressionStatement (AssignMember "=" ThisExpression name (StringLiteral "own"))])];
   VariableDeclaration "p" (Some (NewExpression (Identifier "P") []));
   ReturnStatement (Some (MemberExpression (Identifier "p") name))].

(** ** Promises *)

(** The handler a callback of [then] closes over. *)
Definition handlerOf (cb : Callback) : Value :=
  match cb with
  | scheduleFulfillment f _ => f
  | scheduleRejection f _ => f
  end.

(** Handlers whose call only queues microtasks: everything a program can
    hand to [then] and the two handlers of OP_AWAIT.  The adoption handlers
    of [_resolveInternal] settle another promise on the spot, and what an
    opaque host function does is not known. *)
Definition queuing (f : Value) : bool :=
  match f with
  | VHost (HostAdoptResolve _) | VHost (HostAdoptReject _) | VHost (HostOpaqueFunction _) => false
  | _ => true
  end.

Definition queuingCallback (cb : Callback) : Prop := queuing (handlerOf cb) = true.

(** The microtasks one call of a truthy handler leaves in the queue, in
    order, for the promise [newPromise] that [then] returned. *)
Definition calling (who : string) (f : Value) (newPromise : nat) (arg : Value) : list Microtask :=
  match f with
  | VClosure c => [AsyncCallTask c (Some newPromise) [arg]]
  | VHost (HostAwaitResolved frame) =>
      [AwaitResumeTask frame arg; ResolveInternalTask newPromise VUndefined]
  | VHost (HostAwaitRejected frame) =>
      [AwaitRejectTask frame arg; ResolveInternalTask newPromise VUndefined]
  | VHost (HostResolve q) => [ResolveInternalTask q arg; ResolveInternalTask newPromise VUndefined]
  | VHost (HostReject q) => [RejectInternalTask q arg; ResolveInternalTask newPromise VUndefined]
  | VHost HostPromiseV1 =>
      [RejectInternalTask newPromise
         (VStr "Class constructor PromiseV1 cannot be invoked without 'new'")]
  | _ => [RejectInternalTask newPromise (VStr (who +:+ " is not a function"))]
  end.

(** The microtasks one firing of a callback leaves in the queue. *)
Definition firing (cb : Callback) (arg : Value) : list Microtask :=
  match cb with
  | scheduleFulfillment onFulfilled newPromise =>
      if truthy onFulfilled then calling "onFulfilled" onFulfilled newPromise arg
      else [ResolveInternalTask newPromise arg]
  | scheduleRejection onRejected newPromise =>
      if truthy onRejected then calling "onRejected" onRejected newPromise arg
      else [RejectInternalTask newPromise arg]
  end.

(** [vm] with [tasks] at the end of its microtask queue. *)
Definition queued (tasks : list Microtask) (vm : VM) : VM :=
  with_microtaskQueue (microtaskQueue vm ++ tasks) vm.

Definition isPromise (v : Value) : bool :=
  match v with VPromise _ => true | _ => false end.

(** A pending promise after its fulfilment, and after its rejection. *)
Definition fulfilledCell (v : Value) (cell : PromiseV1.t) : PromiseV1.t :=
  PromiseV1.mk FULFILLED v (PromiseV1.reason cell) [] (PromiseV1.onRejectedCallbacks cell).

Definition rejectedCell (r : Value) (cell : PromiseV1.t) : PromiseV1.t :=
  PromiseV1.mk REJECTED (PromiseV1.value cell) r (PromiseV1.onFulfilledCallbacks cell) [].

Definition withPromise (p : nat) (cell : PromiseV1.t) (vm : VM) : VM :=
  with_promises (<[p := cell]> (promises vm)) vm.

(** [vm] with the promise [then] creates. *)
Definition allocated (vm : VM) : VM := with_promises (promises vm ++ [PromiseV1.fresh]) vm.

(** What [then] adds to a callback list for one of its arguments. *)
Definition registrations (handler : Value) (cb : Callback) : list Callback :=
  if truthy handler then [cb] else [].

(** A pending promise after [then(f, g)] returned [newPromise]. *)
Definition registeredCell (f g : Value) (newPromise : nat) (cell : PromiseV1.t) : PromiseV1.t :=
  PromiseV1.mk PENDING (PromiseV1.value cell) (PromiseV1.reason cell)
    (PromiseV1.onFulfilledCallbacks cell ++ registrations f (scheduleFulfillment f newPromise))
    (PromiseV1.onRejectedCallbacks cell ++ registrations g (scheduleRejection g newPromise)).

(** The callback [then(f, g)] schedules on a settled promise, and the
    argument it is fired with. *)
Definition settledCallback (f g : Value) (newPromise : nat) (cell : PromiseV1.t) : Callback :=
  match PromiseV1.state cell with
  | REJECTED => scheduleRejection g newPromise
  | _ => scheduleFulfillment f newPromise
  end.

Definition settledWith (cb : Callback) (cell : PromiseV1.t) : Value :=
  match cb with
  | scheduleFulfillment _ _ => PromiseV1.value cell
  | scheduleRejection _ _ => PromiseV1.reason cell
  end.

(** Two cells agree on state, value and reason. *)
Definition sameSettlement (c c' : PromiseV1.t) : Prop :=
  PromiseV1.state c' = PromiseV1.state c
  ∧ PromiseV1.value c' = PromiseV1.value c
  ∧ PromiseV1.reason c' = PromiseV1.reason c.

(** Every promise settled in [vm] is in [vm'] what it was. *)
Definition settledStay (vm vm' : VM) : Prop :=
  ∀ p c, promises vm !! p = Some c → PromiseV1.state c ≠ PENDING →
         ∃ c', promises vm' !! p = Some c' ∧ sameSettlement c c'.

Definition samePromises (vm vm' : VM) : Prop := promises vm' = promises vm.

(** [P] holds of the state a computation ends in, normally or by a throw. *)
Definition lands {A} (P : VM → Prop) (r : Res A) : Prop :=
  match r with
  | Ok _ vm' => P vm'
  | Throw _ vm' => P vm'
  | _ => True
  end.

(** [P] relates every state [m] starts in to the state it ends in. *)
Definition after {A} (P : VM → VM → Prop) (m : M A) : Prop :=
  ∀ vm, lands (P vm) (m vm).

(** A store of four promises: one fulfilled with "done", one pending with
    the handlers of an OP_AWAIT of frame 0 and a closure registered, and the
    two promises [then] returned for them. *)
Definition settledPromise : PromiseV1.t :=
  PromiseV1.mk FULFILLED (VStr "done") VUndefined [] [scheduleRejection (VClosure 0) 2].

Definition awaitedPromise : PromiseV1.t :=
  PromiseV1.mk PENDING VUndefined VUndefined
    [scheduleFulfillment (VHost (HostAwaitResolved 0)) 2; scheduleFulfillment (VClosure 0) 3]
    [scheduleRejection (VHost (HostAwaitRejected 0)) 2].

Definition vmWithPromises : VM :=
  with_promises [settledPromise; awaitedPromise; PromiseV1.fresh; PromiseV1.fresh] newVM.

(** ** Settlement through adoption handlers *)

(** What [then] leaves in the list of fulfilment: closures of
    [scheduleFulfillment] around a handler that queues, or around the first
    adoption handler of [_resolveInternal], for a promise of the store. *)
Definition fulfilmentCallback (vm : VM) (cb : Callback) : Prop :=
  match cb with
  | scheduleFulfillment (VHost (HostAdoptResolve q)) _ => (q < length (promises vm))%nat
  | scheduleFulfillment onFulfilled _ => queuing onFulfilled = true
  | scheduleRejection _ _ => False
  end.

(** What [then] leaves in the list of rejection. *)
Definition rejectionCallback (vm : VM) (cb : Callback) : Prop :=
  match cb with
  | scheduleRejection (VHost (HostAdoptReject q)) _ => (q < length (promises vm))%nat
  | scheduleRejection onRejected _ => queuing onRejected = true
  | scheduleFulfillment _ _ => False
  end.

(** Every callback list of the store holds what [then] leaves there. *)
Definition wellRegistered (vm : VM) : Prop :=
  Forall (λ cell, Forall (fulfilmentCallback vm) (PromiseV1.onFulfilledCallbacks cell)
                  ∧ Forall (rejectionCallback vm) (PromiseV1.onRejectedCallbacks cell))
         (promises vm).

(** One firing of a callback.  An adoption handler settles its promise on
    the spot ([fulfil] and [reject] say how), after which
    [newPromise.resolve(undefined)] is queued; any other handler leaves its
    microtasks. *)
Definition afterFiring (fulfil reject : nat → Value → VM → VM)
    (cb : Callback) (arg : Value) (vm : VM) : VM :=
  match cb with
  | scheduleFulfillment (VHost (HostAdoptResolve q)) newPromise =>
      queued [ResolveInternalTask newPromise VUndefined] (fulfil q arg vm)
  | scheduleRejection (VHost (HostAdoptReject q)) newPromise =>
      queued [ResolveInternalTask newPromise VUndefined] (reject q arg vm)
  | _ => queued (firing cb arg) vm
  end.

(** A pending promise while the callbacks of its settlement fire. *)
Definition fulfillingCell (v : Value) (cell : PromiseV1.t) : PromiseV1.t :=
  PromiseV1.mk FULFILLED v (PromiseV1.reason cell)
    (PromiseV1.onFulfilledCallbacks cell) (PromiseV1.onRejectedCallbacks cell).

Definition rejectingCell (r : Value) (cell : PromiseV1.t) : PromiseV1.t :=
  PromiseV1.mk REJECTED (PromiseV1.value cell) r
    (PromiseV1.onFulfilledCallbacks cell) (PromiseV1.onRejectedCallbacks cell).

(** The VM after the fulfilment of [p] with a value that is no promise, and
    after its rejection: a settled promise is left alone; a pending one is
    settled, each callback registered for the outcome fires once, in the
    order of registration, and the list is emptied.  [depth] bounds the
    nesting of settlements through adoption handlers, which the number of
    pending promises cannot exceed. *)
Fixpoint afterFulfilment (depth p : nat) (v : Value) (vm : VM) {struct depth} : VM :=
  match depth with
  | O => vm
  | S depth' =>
      match promises vm !! p with
      | Some cell =>
          match PromiseV1.state cell with
          | PENDING =>
              withPromise p (fulfilledCell v cell)
                (fold_left
                   (λ vm' cb, afterFiring (afterFulfilment depth') (afterRejection depth') cb v vm')
                   (PromiseV1.onFulfilledCallbacks cell)
                   (withPromise p (fulfillingCell v cell) vm))
          | _ => vm
          end
      | None => vm
      end
  end
with afterRejection (depth p : nat) (r : Value) (vm : VM) {struct depth} : VM :=
  match depth with
  | O => vm
  | S depth' =>
      match promises vm !! p with
      | Some cell =>
          match PromiseV1.state cell with
          | PENDING =>
              withPromise p (rejectedCell r cell)
                (fold_left
                   (λ vm' cb, afterFiring (afterFulfilment depth') (afterRejection depth') cb r vm')
                   (PromiseV1.onRejectedCallbacks cell)
                   (withPromise p (rejectingCell r cell) vm))
          | _ => vm
          end
      | None => vm
      end
  end.

(** The number of pending promises. *)
Fixpoint countPending (cells : list PromiseV1.t) : nat :=
  match cells with
  | [] => 0
  | cell :: rest =>
      match PromiseV1.state cell with
      | PENDING => S (countPending rest)
      | _ => countPending rest
      end
  end.

(** From [vm] to [vm'] promises were settled and callbacks fired, and
    nothing else happened to the store of promises: it has the promises it
    had, no more of them pending, every promise settled before is as it was,
    callback lists included, and the lists hold what [then] leaves. *)
Definition settlesOnly (vm vm' : VM) : Prop :=
  length (promises vm') = length (promises vm)
  ∧ (countPending (promises vm') ≤ countPending (promises vm))%nat
  ∧ (∀ q cell, promises vm !! q = Some cell → PromiseV1.state cell ≠ PENDING →
               promises vm' !! q = Some cell)
  ∧ (wellRegistered vm → wellRegistered vm').

(** A store in which promise 0 waits for promise 1: promise 1 holds the
    adoption handlers of promise 0 and a closure of the program, promise 0 a
    closure of its own; promises 2, 3 and 4 are the ones [then] returned. *)
Definition adoptedPromise : PromiseV1.t :=
  PromiseV1.mk PENDING VUndefined VUndefined
    [scheduleFulfillment (VHost (HostAdoptResolve 0)) 2; scheduleFulfillment (VClosure 0) 3]
    [scheduleRejection (VHost (HostAdoptReject 0)) 2].

Definition adoptingPromise : PromiseV1.t :=
  PromiseV1.mk PENDING VUndefined VUndefined [scheduleFulfillment (VClosure 1) 4] [].

Definition vmAdopting : VM :=
  with_promises [adoptingPromise; adoptedPromise; PromiseV1.fresh; PromiseV1.fresh;
                 PromiseV1.fresh] newVM.

(** [async function g() { return "v"; }
     async function f() { return g(); }
     return f();] *)
Definition adoptsResult : list Statement :=
  [FunctionDeclaration "g" [] [ReturnStatement (Some (StringLiteral "v"))] false true;
   FunctionDeclaration "f" []
     [ReturnStatement (Some (CallExpression (Identifier "g") []))] false true;
   ReturnStatement (Some (CallExpression (Identifier "f") []))].

(** The VM after [p._resolveInternal(q)] for a pending [p] and a promise
    [q]: [q.then] is given the adoption handlers of [p]. *)
Definition adopting (p q : nat) (vm : VM) : VM :=
  match promises vm !! q with
  | Some cell =>
      match PromiseV1.state cell with
      | PENDING =>
          withPromise q
            (registeredCell (VHost (HostAdoptResolve p)) (VHost (HostAdoptReject p))
               (length (promises vm)) cell)
            (allocated vm)
      | _ =>
          queued [ThenSettledTask q
                    (settledCallback (VHost (HostAdoptResolve p)) (VHost (HostAdoptReject p))
                       (length (promises vm)) cell)]
            (allocated vm)
      end
  | None => vm
  end.

(** ** OP_AWAIT *)

(** [vm] after OP_AWAIT popped the top frame, [frs] being the frames below. *)
Definition suspended (frs : list nat) (vm : VM) : VM :=
  if bool_decide (frs = []) then with_currentFrame None (with_callFrames frs vm)
  else with_callFrames frs vm.

(** [vm] with the frame [a] pushed back and made current. *)
Definition resumed (a : nat) (vm : VM) : VM :=
  with_currentFrame (Some a) (with_callFrames (callFrames vm ++ [a]) vm).

(** [vm] with its top frame popped and the frame below made current. *)
Definition leaving (vm : VM) : VM :=
  with_currentFrame (last (removelast (callFrames vm)))
    (with_callFrames (removelast (callFrames vm)) vm).

(** The handlers registered for the fulfilment of the promise [p]. *)
Definition awaiters (vm : VM) (p : nat) : list Value :=
  match promises vm !! p with
  | Some cell => handlerOf <$> PromiseV1.onFulfilledCallbacks cell
  | None => []
  end.

(** [async function f() { return "one"; }
     function g(x) { return x; }
     async function a() { return g(await f()); }
     return a();] *)
Definition awaitArgument : list Statement :=
  [FunctionDeclaration "f" [] [ReturnStatement (Some (StringLiteral "one"))] false true;
   FunctionDeclaration "g" ["x"] [ReturnStatement (Some (Identifier "x"))] false false;
   FunctionDeclaration "a" []
     [ReturnStatement (Some (CallExpression (Identifier "g")
        [AwaitExpression (CallExpression (Identifier "f") [])]))] false true;
   ReturnStatement (Some (CallExpression (Identifier "a") []))].

(** The same with [f] not async, so that [a] awaits the string. *)
Definition awaitPlainArgument : list Statement :=
  [FunctionDeclaration "f" [] [ReturnStatement (Some (StringLiteral "one"))] false false;
   FunctionDeclaration "g" ["x"] [ReturnStatement (Some (Identifier "x"))] false false;
   FunctionDeclaration "a" []
     [ReturnStatement (Some (CallExpression (Identifier "g")
        [AwaitExpression (CallExpression (Identifier "f") [])]))] false true;
   ReturnStatement (Some (CallExpression (Identifier "a") []))].

(** One round of the event loop of [interpret] with work to do. *)
Definition eventRound `{Host} (fuel : nat) : M unit :=
  runMicrotasks fuel;; run fuel;; mret tt.

(** One round of the loop of [runMicrotasks]. *)
Definition nextMicrotask : M unit :=
  queue ← gets microtaskQueue;
  match queue with
  | [] => mret tt
  | task :: rest => modify (with_microtaskQueue rest);; runMicrotask task
  end.

(** The VM of the script [program] after its frame was pushed and [m] ran. *)
Definition scriptAt (program : list Statement) (m : M unit) : option VM :=
  match compile program with
  | COk mainFunction _ =>
      match (boot mainFunction;; m) newVM with
      | Ok _ vm => Some vm
      | _ => None
      end
  | _ => None
  end.

(** The script runs to its end, then [a] up to its OP_AWAIT. *)
Definition untilAwait `{Host} : M unit := run 100;; eventRound 100.

(** Then [f] runs to its end and its promise is fulfilled, which queues the
    microtask that resumes [a]. *)
Definition untilResume `{Host} : M unit := untilAwait;; eventRound 100;; nextMicrotask.

(** * Vocabulary of the further properties *)

(** The message of [declareVariable] for a name that its scope already has. *)
Definition redeclarationError (name : string) : string :=
  "Identifier '" +:+ name +:+ "' has already been declared.".

(** The compiler state at the start of the body of a function [f]. *)
Definition functionScope : CompilerState.t :=
  CompilerState.with_scopeDepth 1 (CompilerState.make "f").

(** The instruction [popLocalsToDepth] emits for a local that leaves its scope. *)
Definition scopeExitOp (local : Local.t) : Z :=
  if Local.isCaptured local then Opcodes.OP_CLOSE_UPVALUE else Opcodes.OP_POP.

(** ** Jump operands *)

(** The two bytes [patchJump] and [emitLoop] write for a distance, and the
    number [CallFrame.readShort] makes of two bytes. *)
Definition highByte (n : Z) : Z := Z.land (Z.shiftr n 8) 0xFF.
Definition lowByte (n : Z) : Z := Z.land n 0xFF.
Definition decodeShort (hi lo : Z) : Z :=
  toInt32 (Z.lor (toInt32 (Z.shiftl (toInt32 hi) 8)) (toInt32 lo)).

(** A machine in the middle of [func], called with [locals]: one frame, whose
    instruction pointer is [ip]. *)
Definition vmRunning (func : FunctionObject) (ip : Z) (locals : list Value) : VM :=
  mkVM (VClosure 0 :: locals) ∅ nativeGlobals [0%nat] (Some 0%nat) None [] [] 256 0 false []
    [] [] [Closure.mk func [] VUndefined] [] [] [CallFrame.mk func ip 0 0 None] [].

(** [emitJump] for OP_JUMP in an empty function, then an OP_POP to jump over,
    and the function with the jump patched. *)
Definition jumpEmitted : CompilerState.t :=
  CompilerState.with_bytecode [Opcodes.OP_JUMP; 0xff; 0xff] (CompilerState.make "f").
Definition jumpOverPop : CompilerState.t :=
  CompilerState.with_bytecode [Opcodes.OP_JUMP; 0xff; 0xff; Opcodes.OP_POP]
    (CompilerState.make "f").
Definition jumpFunction : FunctionObject :=
  FunctionObject.make4 "f" 0 [Opcodes.OP_JUMP; 0; 1; Opcodes.OP_POP; Opcodes.OP_PUSH_NULL;
                              Opcodes.OP_RETURN] [].

(** A loop body of two bytes, and the function whose loop goes back to its
    first byte. *)
Definition loopBody : CompilerState.t :=
  CompilerState.with_bytecode [Opcodes.OP_PUSH_TRUE; Opcodes.OP_POP] (CompilerState.make "f").
Definition loopFunction : FunctionObject :=
  FunctionObject.make4 "f" 0 [Opcodes.OP_PUSH_TRUE; Opcodes.OP_POP; Opcodes.OP_LOOP; 0; 5] [].

(** ** The end of a script *)

(** [var x = null;], [n] times: the visitor does not look at the kind of a
    declaration, and each one adds the name to the constants. *)
Definition manyDeclarations (n : nat) : list Statement :=
  replicate n (VariableDeclaration "x" (Some NullLiteral)).

(** The traversal of a program, before [compile] looks at the last byte. *)
Definition traversed (program : list Statement) : CRes (list CompilerState.t) unit :=
  forEach_CM program compileStatement [CompilerState.make "<script>"].

(** What [console.error] was given, of a run that came to an end. *)
Definition reportsOf (r : option (Res Outcome)) : list ErrorReport :=
  match r with
  | Some (Ok _ vm) => console_error vm
  | _ => []
  end.

(** ** The dispatch loop and the microtask loop *)

(** What a result of [run] says about the state [run] leaves. *)
Definition reported (r : InterpretResult) (vm : VM) : Prop :=
  match r with
  | OK => hasError vm = false ∧ callFrames vm = []
  | RUNTIME_ERROR => hasError vm = true
  | YIELD => True
  | COMPILE_ERROR => False
  end.

(** The machine is at rest: no frame, no microtask, no host operation
    pending. *)
Definition quiescent (vm : VM) : Prop :=
  callFrames vm = [] ∧ microtaskQueue vm = [] ∧ pendingHostOps vm ≤ 0.

(** The function [compile] makes of the empty program. *)
Definition emptyScript : FunctionObject :=
  mkFunctionObject "<script>" 0 [Opcodes.OP_PUSH_NULL; Opcodes.OP_RETURN] [] 0 [] false false.

(** A machine with the call of the empty script queued. *)
Definition vmScriptQueued : VM :=
  with_microtaskQueue [AsyncCallTask 0 None []]
    (with_closures [Closure.mk emptyScript [] VUndefined] newVM).

(** [runMicrotasks], started in the first VM, runs the tasks of the list in
    this order and leaves the second VM: each task is the head of the queue
    at its turn and is run on the VM with the queue shortened by it, the next
    turn starts from what the task left, and the turns end where the queue
    is empty or the error flag is set. *)
Inductive drains : list Microtask → VM → VM → Prop :=
| drains_empty (vm : VM) : microtaskQueue vm = [] → drains [] vm vm
| drains_error (vm : VM) : hasError vm = true → drains [] vm vm
| drains_task (task : Microtask) (rest ran : list Microtask) (vm vm1 vm' : VM) :
    microtaskQueue vm = task :: rest →
    hasError vm = false →
    runMicrotask task (with_microtaskQueue rest vm) = Ok tt vm1 →
    drains ran vm1 vm' →
    drains (task :: ran) vm vm'.

(** A promise with a closure registered for its fulfilment, and the
    fulfilment with ["v"] queued. *)
Definition vmSettling : VM :=
  with_microtaskQueue [ResolveInternalTask 0 (VStr "v")]
    (with_promises [PromiseV1.mk PENDING VUndefined VUndefined
                      [scheduleFulfillment (VClosure 0) 1] [];
                    PromiseV1.fresh]
       (with_closures [Closure.mk emptyScript [] VUndefined] newVM)).

(** ** The list of open upvalues *)

(** The cells linked by [next] from [head] on are those of [l], in this
    order. *)
Inductive openList (cells : list Upvalue.t) : option nat → list nat → Prop :=
| openList_nil : openList cells None []
| openList_cons (u : nat) (cell : Upvalue.t) (rest : list nat) :
    cells !! u = Some cell →
    openList cells (Upvalue.next cell) rest →
    openList cells (Some u) (u :: rest).

(** The stack slot of the cell at [u]. *)
Definition locationOf (cells : list Upvalue.t) (u : nat) : Z :=
  default 0 (Upvalue.location <$> cells !! u).

(** Each number is above all that follow it. *)
Fixpoint decreasing (locations : list Z) : Prop :=
  match locations with
  | [] => True
  | x :: rest => Forall (λ y, y < x) rest ∧ decreasing rest
  end.

(** The open upvalues of [vm] are the cells of [l], from the highest stack
    slot down, as [captureUpvalue] keeps them. *)
Definition openSorted (vm : VM) (l : list nat) : Prop :=
  openList (upvalueCells vm) (openUpvalues vm) l
  ∧ decreasing (locationOf (upvalueCells vm) <$> l).

(** The two machines differ in their upvalue cells and in the head of the
    open list at most, and each cell of the first is a cell of the second
    with the same slot and the same closed value. *)
Definition upvaluesExtended (vm vm' : VM) : Prop :=
  (∃ cells head, vm' = with_openUpvalues head (with_upvalueCells cells vm))
  ∧ ∀ u cell, upvalueCells vm !! u = Some cell →
      ∃ cell', upvalueCells vm' !! u = Some cell'
               ∧ Upvalue.location cell' = Upvalue.location cell
               ∧ Upvalue.closed cell' = Upvalue.closed cell.

(** A machine with one open upvalue, for stack slot 2. *)
Definition vmOneOpen : VM :=
  with_openUpvalues (Some 0%nat) (with_upvalueCells [Upvalue.mk 2 VNull None] newVM).

(** [vm.stack[i]], as [closeUpvalues] reads it. *)
Definition slotValue (vm : VM) (i : Z) : Value :=
  if i <? 0 then default VUndefined (stackProps vm !! i)
  else default VUndefined (stack vm !! Z.to_nat i).

(** The cell [c] closed over the value of its slot. *)
Definition closedOver (vm : VM) (c : Upvalue.t) : Upvalue.t :=
  Upvalue.mk (-1) (slotValue vm (Upvalue.location c)) (Upvalue.next c).

(** A machine with three values on the stack and two open upvalues, for the
    slots 2 and 0. *)
Definition vmTwoOpen : VM :=
  with_stack [VStr "a"; VStr "b"; VStr "c"]
    (with_openUpvalues (Some 1%nat)
       (with_upvalueCells [Upvalue.mk 0 VNull None; Upvalue.mk 2 VNull (Some 0%nat)] newVM)).

(** A function that calls what is on the stack, without arguments, and
    returns the result; and a machine in the middle of it, about to read the
    operand of the call, with the function itself as the callee. *)
Definition callFunction : FunctionObject :=
  FunctionObject.make4 "f" 0 [Opcodes.OP_CALL; 0; Opcodes.OP_RETURN] [].
Definition vmCalling : VM := vmRunning callFunction 1 [VClosure 0].

(** ** Errors with and without a handler *)



(** A machine in a function [f], after [setupTry 9], and after a value was
    pushed in the try block. *)
Definition vmAtTry : VM := vmRunning jumpFunction 0 [].
Definition vmErrorInTry : VM :=
  with_stack [VClosure 0; VNull]
    (with_exceptionHandlers [ExceptionHandler.mk 9 1 0] vmAtTry).

(** ** Properties and the prototype chain *)

(** The objects on the prototype chain of [v], nearest first; the chain ends
    with a prototype that is falsy, as [null] is. *)
Inductive protoChain (objs : list Obj.t) : Value → list nat → Prop :=
| protoChain_end (v : Value) : truthy v = false → protoChain objs v []
| protoChain_object (a : nat) (o : Obj.t) (rest : list nat) :
    objs !! a = Some o →
    protoChain objs (Obj.prototype o) rest →
    protoChain objs (VObject a) (a :: rest).

(** The own property [name] of the first object of the chain that has one. *)
Fixpoint inherited (objs : list Obj.t) (chain : list nat) (name : string) : option Value :=
  match chain with
  | [] => None
  | a :: rest =>
      match objs !! a with
      | Some o =>
          match Obj.properties o !! name with
          | Some v => Some v
          | None => inherited objs rest name
          end
      | None => None
      end
  end.

(** The object at [a] has no own property of the name. *)
Definition lacks (objs : list Obj.t) (name : string) (a : nat) : Prop :=
  ∀ o, objs !! a = Some o → Obj.properties o !! name = None.

(** The current frame is [fr] at [a]; its next byte is the index of the
    constant [name]. *)
Definition nameOperand (vm : VM) (a : nat) (fr : CallFrame.t) (name : string) : Prop :=
  currentFrame vm = Some a
  ∧ frames vm !! a = Some fr
  ∧ ∃ i, index (FunctionObject.bytecode (CallFrame.func fr)) (CallFrame.ip fr) = Some i
         ∧ index (FunctionObject.constants (CallFrame.func fr)) i = Some (VStr name).

(** [vm] after its current frame read one operand. *)
Definition operandRead (a : nat) (fr : CallFrame.t) (vm : VM) : VM :=
  atIp a fr (CallFrame.ip fr + 1) vm.

(** The objects after [objs !! o] got [value] as its own property [name]. *)
Definition propertySet (o : nat) (name : string) (value : Value) (objs : list Obj.t)
  : list Obj.t :=
  match objs !! o with
  | Some obj => <[o := Obj.mk (<[name := value]> (Obj.properties obj)) (Obj.prototype obj)]> objs
  | None => objs
  end.

(** What the host raises when [hasOwnProperty] is called on a property
    record whose own property of that name is no function; [who] is the
    variable of the loop, [currentObject] in OP_GET_PROPERTY_PROTO and
    [current] in OP_CALL_METHOD. *)
Definition notAFunction (who : string) : string :=
  "TypeError: " +:+ who +:+ ".properties.hasOwnProperty is not a function".

(** The value is no function of the host. *)
Definition noHostValue (v : Value) : Prop := ∀ h, v ≠ VHost h.

(** Two objects, the second inheriting from the first, which has a property
    [x]; a function that reads [x], writes [x] and writes [hasOwnProperty];
    and machines in the middle of it, with object 1 on the stack and about to
    read the operand of the read, and with object 1 and a value on the stack
    and about to read the operand of a write. *)
Definition twoObjects : list Obj.t :=
  [Obj.mk {["x" := VStr "inherited"]} VNull; Obj.mk ∅ (VObject 0)].
Definition propertyFunction : FunctionObject :=
  FunctionObject.make4 "f" 0
    [Opcodes.OP_GET_PROPERTY_PROTO; 0; Opcodes.OP_SET_PROPERTY_PROTO; 0;
     Opcodes.OP_SET_PROPERTY_PROTO; 1]
    [VStr "x"; VStr "hasOwnProperty"].
Definition vmReading (objs : list Obj.t) : VM :=
  with_objects objs (vmRunning propertyFunction 1 [VObject 1]).
Definition vmWriting (ip : Z) (target : nat) : VM :=
  with_objects twoObjects (vmRunning propertyFunction ip [VObject target; VStr "own"]).

(** ** Variables of enclosing functions *)

(** [s'] is [s] with upvalues added or locals marked as captured at most:
    the code, the constants, the scope depth and the names and depths of the
    locals are those of [s]. *)
Definition sameCode (s s' : CompilerState.t) : Prop :=
  CompilerState.functionName s' = CompilerState.functionName s
  ∧ CompilerState.bytecode s' = CompilerState.bytecode s
  ∧ CompilerState.constants s' = CompilerState.constants s
  ∧ CompilerState.scopeDepth s' = CompilerState.scopeDepth s
  ∧ Local.name <$> CompilerState.locals s' = Local.name <$> CompilerState.locals s
  ∧ Local.depth <$> CompilerState.locals s' = Local.depth <$> CompilerState.locals s
  ∧ CompilerState.upvalues s `prefix_of` CompilerState.upvalues s'.

(** Upvalue [slot] of the first function of the chain stands for the
    variable [name] of an enclosing function: it refers to the local of that
    name in the function next in the chain, which is marked as captured, or,
    where that function has no such local, to an upvalue of it that stands
    for the variable in turn. *)
Inductive capturedFrom (name : string) : list CompilerState.t → Z → Prop :=
| capturedFrom_local (current enclosing : CompilerState.t) (outer : list CompilerState.t)
    (slot i : Z) (l : Local.t) :
    0 ≤ slot →
    CompilerState.upvalues current !! Z.to_nat slot = Some (UpvalueDesc.mk i true) →
    resolveLocal enclosing name = i →
    0 ≤ i →
    CompilerState.locals enclosing !! Z.to_nat i = Some l →
    Local.name l = name →
    Local.isCaptured l = true →
    capturedFrom name (current :: enclosing :: outer) slot
| capturedFrom_outer (current enclosing : CompilerState.t) (outer : list CompilerState.t)
    (slot i : Z) :
    0 ≤ slot →
    CompilerState.upvalues current !! Z.to_nat slot = Some (UpvalueDesc.mk i false) →
    resolveLocal enclosing name = -1 →
    capturedFrom name (enclosing :: outer) i →
    capturedFrom name (current :: enclosing :: outer) slot.

(** The compiler states of [function f() { let x; function g() { function
    h() { x } } }] when [h] mentions [x]: those of [h], [g] and [f]. *)
Definition nestedStates : list CompilerState.t :=
  [CompilerState.with_scopeDepth 1 (CompilerState.make "h");
   CompilerState.with_scopeDepth 1 (CompilerState.make "g");
   CompilerState.with_locals [Local.mk "f" 0 false; Local.mk "x" 1 false]
     (CompilerState.with_scopeDepth 1 (CompilerState.make "f"))].

(** ** Object literals and instances *)

(** Keys and values as an object literal leaves them on the stack: each key
    below its value, in the order of the literal. *)
Definition pairValues (pairs : list (string * Value)) : list Value :=
  flat_map (λ kv, [VStr kv.1; kv.2]) pairs.

(** The properties [fillObject] makes of the pairs, on top of [props]: set
    from the last pair to the first. *)
Definition filled (pairs : list (string * Value)) (props : gmap string Value)
  : gmap string Value :=
  foldr (λ kv m, <[kv.1 := kv.2]> m) props pairs.

(** A function that builds an object of two pairs, and a machine about to
    read the operand of OP_NEW_OBJECT with the key [a] on the stack twice. *)
Definition literalFunction : FunctionObject :=
  FunctionObject.make4 "f" 0 [Opcodes.OP_NEW_OBJECT; 2] [].
Definition vmLiteral : VM :=
  vmRunning literalFunction 1 [VStr "a"; VStr "first"; VStr "a"; VStr "second"].

(** The prototype [ensurePrototype] answers for the closure [cl] in [vm]:
    the one it has, or a new object. *)
Definition prototypeFor (vm : VM) (cl : Closure.t) : Value :=
  if truthy (Closure.prototype cl) then Closure.prototype cl
  else VObject (length (objects vm)).

(** A function that instantiates what is on the stack, without arguments,
    and a machine about to read the operand of OP_NEW with the closure of
    the function as the class. *)
Definition newFunction : FunctionObject :=
  FunctionObject.make4 "C" 0 [Opcodes.OP_NEW; 0; Opcodes.OP_RETURN] [].
Definition vmInstantiating : VM := vmRunning newFunction 1 [VClosure 0].

(** ** Locals and globals *)

(** [st] after [st[i] = v] for an index that is not negative: an index
    beyond the end extends the array with holes. *)
Definition written (i : Z) (v : Value) (st : list Value) : list Value :=
  if i <? Z.of_nat (length st) then <[Z.to_nat i := v]> st
  else st ++ replicate (Z.to_nat i - length st)%nat VUndefined ++ [v].

(** The message for a global that was never defined. *)
Definition undefinedVariable (name : string) : string :=
  "Undefined variable '" +:+ name +:+ "'.".

(** The current frame is [fr] at [a]; its next byte is [operand]. *)
Definition byteOperand (vm : VM) (a : nat) (fr : CallFrame.t) (operand : Z) : Prop :=
  currentFrame vm = Some a
  ∧ frames vm !! a = Some fr
  ∧ index (FunctionObject.bytecode (CallFrame.func fr)) (CallFrame.ip fr) = Some operand.

(** A function that writes and reads the local in slot 3, and machines
    about to read the two operands: the first with one value above the
    callee, the second on the stack the write leaves. *)
Definition localFunction : FunctionObject :=
  FunctionObject.make4 "f" 0
    [Opcodes.OP_SET_LOCAL; 3; Opcodes.OP_GET_LOCAL; 3] [].
Definition vmLocalWrite : VM := vmRunning localFunction 1 [VStr "v"].
Definition vmLocalRead : VM := vmRunning localFunction 3 [VStr "v"; VUndefined; VStr "v"].

(** A function that defines and reads the global [g], and machines about to
    read the two operands. *)
Definition globalFunction : FunctionObject :=
  FunctionObject.make4 "f" 0
    [Opcodes.OP_DEFINE_GLOBAL; 0; Opcodes.OP_GET_GLOBAL; 0] [VStr "g"].
Definition vmGlobalDefine : VM := vmRunning globalFunction 1 [VStr "v"].
Definition vmGlobalRead : VM :=
  with_globals (<["g" := VStr "v"]> nativeGlobals) (vmRunning globalFunction 3 [VStr "v"]).

(** ** Native names *)

(** The names of [NATIVE_GLOBALS] that a new VM binds. *)
Definition boundNatives : list string := ["console"; "Object"; "Promise"].

(** The message of OP_GET_NATIVE for a name that is not bound. *)
Definition nativeNotFound (name : string) : string :=
  "Native object '" +:+ name +:+ "' not found.".

(** [Math;] *)
Definition mentionsMath : list Statement := [ExpressionStatement (Identifier "Math")].

(** [async function af() {}], and a machine in the middle of
    [callFunction], about to read the operand of the call, with the closure
    of [af] as the callee. *)
Definition asyncFunction : FunctionObject :=
  mkFunctionObject "af" 0 [Opcodes.OP_PUSH_NULL; Opcodes.OP_RETURN] [] 0 [] false true.
Definition vmCallingAsync : VM :=
  with_closures [Closure.mk callFunction [] VUndefined; Closure.mk asyncFunction [] VUndefined]
    (vmRunning callFunction 1 [VClosure 1]).

(** ** Closures and the variables they capture *)

(** [vm] while OP_CLOSURE reads the descriptors of the upvalues: the frame at
    [a] has come to [ip], and the upvalue cells and the head of the open list
    are [cells] and [h]. *)
Definition capturing (a : nat) (fr : CallFrame.t) (ip : Z) (cells : list Upvalue.t)
    (h : option nat) (vm : VM) : VM :=
  with_openUpvalues h (with_upvalueCells cells (atIp a fr ip vm)).

(** What the closure gets for the descriptor [d]: for a local of the frame
    an open cell of its stack slot, otherwise the upvalue of the closure of
    the frame at the index of the descriptor. *)
Definition capturedBy (cells : list Upvalue.t) (open : list nat) (fr : CallFrame.t)
    (cl : Closure.t) (d : UpvalueDesc.t) (u : option nat) : Prop :=
  if UpvalueDesc.isLocal d then
    ∃ c, u = Some c ∧ c ∈ open
         ∧ Upvalue.location <$> cells !! c = Some (CallFrame.stackBase fr + UpvalueDesc.index d)
  else u = default None (index (Closure.upvalues cl) (UpvalueDesc.index d)).

(** Each cell of [cells] is a cell of [cells'] with the same slot and the
    same closed value. *)
Definition cellsExtended (cells cells' : list Upvalue.t) : Prop :=
  ∀ u c, cells !! u = Some c →
         ∃ c', cells' !! u = Some c'
               ∧ Upvalue.location c' = Upvalue.location c
               ∧ Upvalue.closed c' = Upvalue.closed c.

(** A function that makes a closure of [innerFunction], which captures the
    local in slot 1 and the first upvalue of the function around it; and a
    machine in the middle of it, about to read the operand of OP_CLOSURE,
    whose own closure holds the closed cell 0. *)
Definition innerFunction : FunctionObject :=
  mkFunctionObject "inner" 0 [Opcodes.OP_PUSH_NULL; Opcodes.OP_RETURN] [] 2
    [UpvalueDesc.mk 1 true; UpvalueDesc.mk 0 false] false false.
Definition outerFunction : FunctionObject :=
  FunctionObject.make4 "outer" 0 [Opcodes.OP_CLOSURE; 0; 1; 1; 0; 0; Opcodes.OP_RETURN]
    [VFunctionObject innerFunction].
Definition vmClosing : VM :=
  with_upvalueCells [Upvalue.mk (-1) (VStr "x") None]
    (with_closures [Closure.mk outerFunction [Some 0%nat] VUndefined]
       (vmRunning outerFunction 1 [VStr "y"])).

(** ** The code of an if statement *)

(** The compiler state in which the consequent of an [if] is compiled, [s1]
    being the state behind the test: the jump with its placeholder and the
    OP_POP of the condition are emitted. *)
Definition consequentStart (s1 : CompilerState.t) : CompilerState.t :=
  CompilerState.with_bytecode
    (CompilerState.bytecode s1 ++ [Opcodes.OP_JUMP_IF_FALSE; 0xff; 0xff; Opcodes.OP_POP]) s1.

(** The code of [if (test) consequent], without [else], from the code of
    its parts. *)
Definition ifCode (testCode consCode : list Z) : list Z :=
  let distance := Z.of_nat (length consCode) + 1 in
  testCode ++ [Opcodes.OP_JUMP_IF_FALSE; highByte distance; lowByte distance; Opcodes.OP_POP]
  ++ consCode ++ [Opcodes.OP_POP].

(** [function f() { var a = "kept"; if (cond) {} return a; } return f();] *)
Definition returnsLocalAfterIf (cond : bool) : list Statement :=
  [FunctionDeclaration "f" []
     [VariableDeclaration "a" (Some (StringLiteral "kept"));
      IfStatement (BooleanLiteral cond) (BlockStatement []) None;
      ReturnStatement (Some (Identifier "a"))] false false;
   ReturnStatement (Some (CallExpression (Identifier "f") []))].

(** What the script returned. *)
Definition returned (r : option (Res Outcome)) : option Value :=
  match r with
  | Some (Ok o _) => Some (value o)
  | _ => None
  end.

(** ** Open upvalues and the locals they stand for *)

(** A function that assigns to its first upvalue, and a machine in the
    middle of it, about to read the operand of OP_SET_UPVALUE: the upvalue is
    the open cell of stack slot 1, which holds ["old"], and ["new"] is on
    top of the stack. *)
Definition assignFunction : FunctionObject :=
  mkFunctionObject "assign" 0 [Opcodes.OP_SET_UPVALUE; 0; Opcodes.OP_RETURN] [] 1
    [UpvalueDesc.mk 1 true] false false.
Definition vmAssigning : VM :=
  with_openUpvalues (Some 0%nat)
    (with_upvalueCells [Upvalue.mk 1 VNull None]
       (with_closures [Closure.mk assignFunction [Some 0%nat] VUndefined]
          (vmRunning assignFunction 1 [VStr "old"; VStr "new"]))).

(** ** Method calls *)

(** The current frame is [fr] at [a]; its next two bytes are the index of
    the constant [name] and [argCount]. *)
Definition methodOperands (vm : VM) (a : nat) (fr : CallFrame.t) (name : string)
    (argCount : Z) : Prop :=
  currentFrame vm = Some a
  ∧ frames vm !! a = Some fr
  ∧ index (FunctionObject.bytecode (CallFrame.func fr)) (CallFrame.ip fr + 1) = Some argCount
  ∧ ∃ i, index (FunctionObject.bytecode (CallFrame.func fr)) (CallFrame.ip fr) = Some i
         ∧ index (FunctionObject.constants (CallFrame.func fr)) i = Some (VStr name).

(** The messages of OP_CALL_METHOD. *)
Definition methodNotFound (name : string) : string :=
  "Method '" +:+ name +:+ "' not found or not callable on instance.".
Definition methodArity (name : string) (arity argCount : Z) : string :=
  "Expected " +:+ pretty arity +:+ " args for method '" +:+ name +:+ "' but got "
  +:+ pretty argCount +:+ ".".

(** [vm] with the frame [f] pushed and made current. *)
Definition framePushed (f : CallFrame.t) (vm : VM) : VM :=
  with_currentFrame (Some (length (frames vm)))
    (with_callFrames (callFrames vm ++ [length (frames vm)])
       (with_frames (frames vm ++ [f]) vm)).

(** An instance whose prototype has the method [m], a function of one
    parameter; a function that calls [m] on what is on the stack; and a
    machine in the middle of it, about to read the operands of the call,
    with the instance and [argCount] arguments on the stack. *)
Definition methodFunction : FunctionObject :=
  FunctionObject.make4 "m" 1 [Opcodes.OP_GET_LOCAL; 0; Opcodes.OP_RETURN] [].
Definition callerFunction (argCount : Z) : FunctionObject :=
  FunctionObject.make4 "caller" 0 [Opcodes.OP_CALL_METHOD; 0; argCount; Opcodes.OP_RETURN]
    [VStr "m"].
Definition instanceAndPrototype : list Obj.t :=
  [Obj.mk ∅ (VObject 1); Obj.mk {["m" := VClosure 1]} VNull].
Definition vmCallingMethod (args : list Value) : VM :=
  with_objects instanceAndPrototype
    (with_closures [Closure.mk (callerFunction (Z.of_nat (length args))) [] VUndefined;
                    Closure.mk methodFunction [] VUndefined]
       (vmRunning (callerFunction (Z.of_nat (length args))) 1 (VObject 0 :: args))).

(** * Theorems *)

Ltac unfold_m :=
  unfold mbind, mret, M_bind, M_ret, gets, modify, deref_frame, deref_closure, deref_promise,
    deref_upvalue, deref_object, deref, throw, outside, diverge in *.

(** Case analysis on the comparisons of [Z] a goal decides on. *)
Ltac zcases :=
  repeat match goal with
  | |- context [Z.gtb ?a ?b] => rewrite (Z.gtb_ltb a b)
  | |- context [Z.geb ?a ?b] => rewrite (Z.geb_leb a b)
  | |- context [Z.leb ?a ?b] => destruct (Z.leb_spec a b); try lia
  | |- context [Z.ltb ?a ?b] => destruct (Z.ltb_spec a b); try lia
  | |- context [Z.eqb ?a ?b] => destruct (Z.eqb_spec a b); try lia
  end.

Lemma mbind_ok {A B} (m : M A) (k : A → M B) (vm vm' : VM) (a : A) :
  m vm = Ok a vm' → (m ≫= k) vm = k a vm'.
Proof. intros Hm. unfold mbind, M_bind. by rewrite Hm. Qed.

(** One step of a handler: the first action of a bind is run by
    computation, or by the equation given. *)
Tactic Notation "mstep" :=
  (erewrite mbind_ok; [ | solve [reflexivity] ]); cbv beta iota.
Tactic Notation "mstep" "by" tactic3(t) :=
  (erewrite mbind_ok; [ | solve [t] ]); cbv beta iota.

(** ** The unwind protocol *)

Lemma findAsyncPromise_found (vm : VM) (l : list nat) (rp : bool) :
  Forall (frameResolves vm) l →
  findAsyncPromise l rp vm = Ok (if rp then firstAsync vm l else None) vm.
Proof.
  induction l as [|a l IH]; intros Hl.
  - simpl. unfold_m. by destruct rp.
  - inversion Hl as [|? ? (fr & cl & Hfr & Hcl) Hrest]; subst.
    simpl. unfold_m. rewrite Hfr, Hcl.
    unfold asyncPromiseOf. rewrite Hfr, Hcl.
    destruct (CallFrame.asyncPromise fr) as [p|] eqn:Hp.
    + destruct (FunctionObject.isAsync (Closure.func cl)); simpl.
      * destruct rp; simpl; [done|]. rewrite IH by done. done.
      * rewrite IH by done. destruct rp; done.
    + rewrite IH by done. destruct rp; [|done].
      by destruct (FunctionObject.isAsync (Closure.func cl)).
Qed.

Lemma firstAsync_Some (vm : VM) (l : list nat) (p : nat) :
  firstAsync vm l = Some p ↔
  ∃ i a, l !! i = Some a ∧ asyncPromiseOf vm a = Some p
         ∧ ∀ j b, (j < i)%nat → l !! j = Some b → asyncPromiseOf vm b = None.
Proof.
  induction l as [|x l IH]; simpl.
  - split; [done|]. intros (i & a & H & _). by rewrite lookup_nil in H.
  - destruct (asyncPromiseOf vm x) as [q|] eqn:Hx.
    + split.
      * intros [= ->]. exists 0%nat, x. split_and!; [done|done|]. intros j b Hj. lia.
      * intros (i & a & Hi & Ha & Hbelow). destruct i as [|i].
        -- simpl in Hi. injection Hi as ->. congruence.
        -- specialize (Hbelow 0%nat x ltac:(lia) eq_refl). congruence.
    + rewrite IH. split.
      * intros (i & a & Hi & Ha & Hbelow). exists (S i), a. split_and!; [done|done|].
        intros [|j] b Hj Hb; simpl in Hb.
        -- injection Hb as <-. done.
        -- apply (Hbelow j b); [lia|done].
      * intros (i & a & Hi & Ha & Hbelow). destruct i as [|i].
        -- simpl in Hi. injection Hi as ->. congruence.
        -- exists i, a. split_and!; [done|done|].
           intros j b Hj Hb. apply (Hbelow (S j) b); [lia|done].
Qed.

Lemma firstAsync_exists (vm : VM) (l : list nat) (a q : nat) :
  a ∈ l → asyncPromiseOf vm a = Some q → ∃ p, firstAsync vm l = Some p.
Proof.
  induction l as [|x l IH]; intros Hin Ha.
  - by apply elem_of_nil in Hin.
  - simpl. destruct (asyncPromiseOf vm x) as [p|] eqn:Hx; [by eexists|].
    apply elem_of_cons in Hin as [->|Hin]; [congruence|]. by apply IH.
Qed.

Lemma firstAsync_reverse (vm : VM) (p : nat) :
  firstAsync vm (reverse (callFrames vm)) = Some p ↔ topmostAsync vm p.
Proof.
  rewrite firstAsync_Some. unfold topmostAsync.
  set (l := callFrames vm).
  split.
  - intros (i & a & Hi & Ha & Hb).
    assert (Hlt : (i < length l)%nat).
    { apply lookup_lt_Some in Hi. by rewrite length_reverse in Hi. }
    rewrite reverse_lookup in Hi by done.
    exists (length l - S i)%nat, a. split_and!; [done|done|].
    intros j b Hj Hjb.
    assert (Hjl : (j < length l)%nat) by by eapply lookup_lt_Some.
    apply (Hb (length l - S j)%nat b); [lia|].
    rewrite reverse_lookup by lia.
    replace (length l - S (length l - S j))%nat with j by lia. done.
  - intros (i & a & Hi & Ha & Hb).
    assert (Hlt : (i < length l)%nat) by by eapply lookup_lt_Some.
    exists (length l - S i)%nat, a. split_and!; [|done|].
    + rewrite reverse_lookup by lia.
      replace (length l - S (length l - S i))%nat with i by lia. done.
    + intros j b Hj Hjb.
      assert (Hjl : (j < length l)%nat).
      { apply lookup_lt_Some in Hjb. by rewrite length_reverse in Hjb. }
      rewrite reverse_lookup in Hjb by done.
      apply (Hb (length l - S j)%nat b); [lia|done].
Qed.

Lemma firstAsync_ext (vm vm' : VM) (l : list nat) :
  frames vm' = frames vm → closures vm' = closures vm →
  firstAsync vm' l = firstAsync vm l.
Proof.
  intros Hf Hc. induction l as [|a l IH]; [done|].
  simpl. unfold asyncPromiseOf. rewrite Hf, Hc, IH. done.
Qed.

Lemma runtimeError_rejects (vm : VM) (message : Value) (p : nat) :
  Forall (frameResolves vm) (callFrames vm) →
  firstAsync vm (reverse (callFrames vm)) = Some p →
  runtimeError message true vm = Ok tt (rejected p message vm).
Proof.
  intros Hres Hfirst. unfold runtimeError.
  unfold_m. rewrite findAsyncPromise_found by by apply Forall_reverse.
  rewrite Hfirst. reflexivity.
Qed.

Lemma pop_snoc (vm : VM) (st : list Value) (v : Value) :
  stack vm = st ++ [v] → pop vm = Ok v (with_stack st vm).
Proof.
  intros Hst. unfold pop. unfold_m. rewrite Hst, last_snoc.
  by rewrite removelast_last.
Qed.

Lemma runMicrotasks_errored (fuel : nat) (vm : VM) :
  hasError vm = true → runMicrotasks fuel vm = Ok tt vm.
Proof.
  intros He. destruct fuel; simpl; unfold_m; destruct (microtaskQueue vm); by rewrite ?He.
Qed.

Lemma run_errored `{Host} (fuel : nat) (vm : VM) :
  hasError vm = true → run (S fuel) vm = Ok RUNTIME_ERROR vm.
Proof. intros He. simpl. unfold dispatch. unfold_m. by rewrite He. Qed.

Lemma eventLoop_errored `{Host} (fuel : nat) (vm : VM) :
  hasError vm = true → microtaskQueue vm ≠ [] → eventLoop fuel vm = Ok tt vm.
Proof.
  intros He Hq.
  assert (bool_decide (callFrames vm = []) && bool_decide (microtaskQueue vm = [])
          && negb (pendingHostOps vm >? 0) = false) as Hrest.
  { rewrite (bool_decide_eq_false_2 _ Hq). by rewrite andb_false_r. }
  destruct fuel; simpl; unfold_m; unfold id; by rewrite Hrest, He.
Qed.

(** C1 fails on the code.  A runtime error raised with promise rejection
    enabled (the default of [runtimeError], which OP_THROW and every
    instruction handler use), while some frame on the call-frame stack
    belongs to an async function with a live promise, marks the VM errored
    and executes no catch: stack, frames, instruction pointers and the
    exception-handler stack stay as they were, whatever handlers are
    installed.  But the promise of the topmost such frame is not rejected.
    [reject] only queues the rejection; every promise is in the state it
    was, and with the error flag set [runMicrotasks], [run] and the event
    loop of [interpret] return at once with the VM as it is, so the queued
    rejection is never run. *)
Theorem async_error_leaves_the_promise_pending `{Host} (vm : VM) (message : Value) :
  Forall (frameResolves vm) (callFrames vm) →
  (∃ a q, a ∈ callFrames vm ∧ asyncPromiseOf vm a = Some q) →
  ∃ p, topmostAsync vm p
       ∧ runtimeError message true vm = Ok tt (rejected p message vm)
       ∧ promises (rejected p message vm) = promises vm
       ∧ (∀ fuel, runMicrotasks fuel (rejected p message vm) = Ok tt (rejected p message vm))
       ∧ (∀ fuel, run (S fuel) (rejected p message vm)
                  = Ok RUNTIME_ERROR (rejected p message vm))
       ∧ (∀ fuel, eventLoop fuel (rejected p message vm) = Ok tt (rejected p message vm))
       ∧ ∀ st v text, stack vm = st ++ [v] →
           stringOf (with_stack st vm) v = Converted text →
           InstructionHandlers.OP_THROW vm
           = Ok RUNTIME_ERROR (rejected p (VStr text) (with_stack st vm)).
Proof.
  intros Hres (a & q & Hin & Ha).
  destruct (firstAsync_exists vm (reverse (callFrames vm)) a q) as [p Hp];
    [by apply elem_of_reverse|done|].
  exists p. split_and!.
  - by apply firstAsync_reverse.
  - by apply runtimeError_rejects.
  - reflexivity.
  - intros fuel. by apply runMicrotasks_errored.
  - intros fuel. by apply run_errored.
  - intros fuel. apply eventLoop_errored; [done|]. simpl. by destruct (microtaskQueue vm).
  - intros st v text Hst Htext. unfold InstructionHandlers.OP_THROW.
    mstep by (by apply pop_snoc).
    mstep by (unfold js_String; rewrite Htext; reflexivity).
    mstep by (apply runtimeError_rejects; [exact Hres | by rewrite (firstAsync_ext vm)]).
    reflexivity.
Qed.

Lemma async_error_leaves_the_promise_pending_witness :
  ∃ p, topmostAsync vmInAsyncTry p
       ∧ runtimeError (VStr "boom") true vmInAsyncTry
         = Ok tt (rejected p (VStr "boom") vmInAsyncTry)
       ∧ promises (rejected p (VStr "boom") vmInAsyncTry) = [PromiseV1.fresh]
       ∧ @run exampleHost 1 (rejected p (VStr "boom") vmInAsyncTry)
         = Ok RUNTIME_ERROR (rejected p (VStr "boom") vmInAsyncTry)
       ∧ @InstructionHandlers.OP_THROW exampleHost vmInAsyncTry
         = Ok RUNTIME_ERROR (rejected p (VStr "boom") (with_stack [VClosure 0] vmInAsyncTry)).
Proof.
  destruct (@async_error_leaves_the_promise_pending exampleHost vmInAsyncTry (VStr "boom"))
    as (p & Htop & Herr & Hsame & _ & Hrun & _ & Hthrow).
  - repeat constructor. eexists _, _. split; reflexivity.
  - exists 0%nat, 0%nat. split; [apply list_elem_of_here | reflexivity].
  - exists p. split_and!; [exact Htop|exact Herr|exact Hsame|exact (Hrun 0%nat)|].
    exact (Hthrow [VClosure 0] (VStr "boom") "boom" eq_refl eq_refl).
Defined.

(** [async function f() { throw "boom"; } f();] ends in RUNTIME_ERROR with
    the promise of the call of [f] still pending and its rejection still in
    the queue. *)
Example async_throw_is_never_delivered :
  outcomeOf (@runProgram exampleHost 100 asyncThrows) = Some (mkOutcome RUNTIME_ERROR VUndefined)
  ∧ ∃ vm, finalVM (@runProgram exampleHost 100 asyncThrows) = Some vm
          ∧ (PromiseV1.state <$> promises vm !! 1%nat) = Some PENDING
          ∧ head (microtaskQueue vm) = Some (RejectInternalTask 1 (VStr "boom")).
Proof. split; [vm_compute; reflexivity|]. eexists. split; [vm_compute; reflexivity|]. by split. Qed.

(** Where the runtime raises the error with promise rejection disabled (a
    failing native microtask, a synchronous native callback), the async
    frames are passed over by design: inside the async function, with its
    promise live, the error is delivered to the handler of the try block. *)
Lemma async_error_caught_when_rejection_disabled :
  (∃ a q, a ∈ callFrames vmInAsyncTry ∧ asyncPromiseOf vmInAsyncTry a = Some q)
  ∧ ∃ vm', runtimeError (VStr "boom") false vmInAsyncTry = Ok tt vm'
           ∧ hasError vm' = false
           ∧ microtaskQueue vm' = []
           ∧ exceptionHandlers vm' = []
           ∧ stack vm' = [VClosure 0; VStr "boom"]
           ∧ (CallFrame.ip <$> frames vm' !! 0%nat) = Some 10.
Proof.
  split.
  - exists 0%nat, 0%nat. split; [apply list_elem_of_here | reflexivity].
  - eexists. split; [reflexivity|]. repeat split.
Qed.

(** ** Truthiness *)

Lemma peek0_snoc (vm : VM) (st : list Value) (v : Value) :
  stack vm = st ++ [v] → peek 0 vm = Ok v vm.
Proof.
  intros Hst. unfold peek. unfold_m. rewrite Hst.
  rewrite length_app. simpl. unfold index. zcases.
  replace (Z.to_nat (Z.of_nat (length st + 1) - 1 - 0)) with (length st) by lia.
  by rewrite list_lookup_middle.
Qed.

Lemma isFalsy_spec (vm : VM) (v : Value) :
  isFalsy vm v = true ↔ listedFalsy vm v ∨ v = VUndefined.
Proof.
  unfold listedFalsy. split.
  - destruct v; simpl; intros Hf; try discriminate.
    + by right.
    + by left; left.
    + destruct b; [discriminate|]. by left; right; left.
    + left. right. right. left. by exists n.
    + apply bool_decide_eq_true in Hf as ->. by left; right; right; right; left.
    + destruct (arrays vm !! a) as [elems|] eqn:Ha; [|discriminate].
      apply bool_decide_eq_true in Hf. apply length_zero_iff_nil in Hf as ->.
      left. do 4 right. by exists a.
  - intros [[->|[->|[(n & -> & Hn)|[->|(a & -> & Ha)]]]]| ->]; simpl; try done.
    by rewrite Ha.
Qed.

Lemma isFalsy_arrays (vm vm' : VM) (v : Value) :
  arrays vm' = arrays vm → isFalsy vm' v = isFalsy vm v.
Proof. intros Ha. destruct v; simpl; try done. by rewrite Ha. Qed.

(** C3, as amended.  NOT pops its operand and pushes true iff the operand
    is null, undefined, false, 0, the empty string or the empty array;
    JUMP_IF_FALSE leaves the stack as it is and adds its offset to the
    instruction pointer iff the top of the stack is one of exactly these
    values. Every other value is truthy. *)
Theorem truthiness (vm : VM) (st : list Value) (v : Value) :
  stack vm = st ++ [v] →
  ∃ b : bool,
    (b = true ↔ listedFalsy vm v ∨ v = VUndefined)
    ∧ InstructionHandlers.OP_NOT vm = Ok OK (with_stack (st ++ [VBool b]) vm)
    ∧ ∀ a fr, currentFrame vm = Some a → frames vm !! a = Some fr →
        InstructionHandlers.OP_JUMP_IF_FALSE vm
        = Ok OK (atIp a fr (CallFrame.ip fr + 2
                            + (if b then shortAt (FunctionObject.bytecode (CallFrame.func fr))
                                                 (CallFrame.ip fr)
                               else 0)) vm).
Proof.
  intros Hst. exists (isFalsy vm v). split_and!.
  - apply isFalsy_spec.
  - unfold InstructionHandlers.OP_NOT. unfold mbind at 1. unfold M_bind.
    rewrite (pop_snoc vm st v Hst). unfold push. unfold_m. simpl.
    by rewrite (isFalsy_arrays vm).
  - intros a fr Hcur Hfr.
    assert (Hlt : (a < length (frames vm))%nat) by by eapply lookup_lt_Some.
    unfold InstructionHandlers.OP_JUMP_IF_FALSE, readShort, theCurrentFrame, set_frame, jumpBy,
      theCurrentFrame, set_frame.
    unfold_m. rewrite Hcur, Hfr. simpl.
    rewrite (peek0_snoc _ st v) by done.
    rewrite (isFalsy_arrays vm) by done.
    destruct (isFalsy vm v) eqn:Hf; simpl.
    + rewrite Hcur. simpl. rewrite list_lookup_insert_eq by done. simpl.
      rewrite list_insert_insert_eq. unfold atIp, shortAt, CallFrame.with_ip. simpl.
      replace (CallFrame.ip fr + 2 - 2) with (CallFrame.ip fr) by lia.
      replace (CallFrame.ip fr + 2 - 1) with (CallFrame.ip fr + 1) by lia.
      reflexivity.
    + unfold atIp. by rewrite Z.add_0_r.
Qed.

Lemma truthiness_witness :
  ∃ b : bool,
    (b = true ↔ listedFalsy vmUndefinedOnTop VUndefined ∨ VUndefined = VUndefined)
    ∧ InstructionHandlers.OP_NOT vmUndefinedOnTop
      = Ok OK (with_stack ([VClosure 0] ++ [VBool b]) vmUndefinedOnTop)
    ∧ ∀ a fr, currentFrame vmUndefinedOnTop = Some a → frames vmUndefinedOnTop !! a = Some fr →
        InstructionHandlers.OP_JUMP_IF_FALSE vmUndefinedOnTop
        = Ok OK (atIp a fr (CallFrame.ip fr + 2
                            + (if b then shortAt (FunctionObject.bytecode (CallFrame.func fr))
                                                 (CallFrame.ip fr)
                               else 0)) vmUndefinedOnTop).
Proof.
  apply (truthiness vmUndefinedOnTop [VClosure 0] VUndefined). reflexivity.
Defined.

(** C3, as stated, fails on undefined, which OP_GET_PROPERTY_PROTO pushes
    for a missing property: it is none of the listed values, yet NOT pushes
    true for it and JUMP_IF_FALSE takes the jump. *)
Lemma undefined_is_falsy :
  ¬ listedFalsy vmUndefinedOnTop VUndefined
  ∧ InstructionHandlers.OP_NOT vmUndefinedOnTop
    = Ok OK (with_stack [VClosure 0; VBool true] vmUndefinedOnTop)
  ∧ ∃ vm', InstructionHandlers.OP_JUMP_IF_FALSE vmUndefinedOnTop = Ok OK vm'
           ∧ stack vm' = [VClosure 0; VUndefined]
           ∧ (CallFrame.ip <$> frames vm' !! 0%nat) = Some 6.
Proof.
  split_and!.
  - intros [H|[H|[(n & H & _)|[H|(a & H & _)]]]]; discriminate.
  - reflexivity.
  - eexists. split; [reflexivity|]. split; reflexivity.
Qed.

(** ** Catching *)

Lemma firstAsync_None (vm : VM) (l : list nat) :
  (∀ a, a ∈ l → asyncPromiseOf vm a = None) → firstAsync vm l = None.
Proof.
  induction l as [|x l IH]; intros Hl; [done|].
  simpl. rewrite (Hl x) by apply list_elem_of_here.
  apply IH. intros a Ha. apply Hl. by apply list_elem_of_further.
Qed.

Lemma unwindFrames_take (vm : VM) (frameIndex : Z) :
  0 ≤ frameIndex < Z.of_nat (length (callFrames vm)) →
  unwindFrames frameIndex vm
  = Ok tt (with_callFrames (take (Z.to_nat (frameIndex + 1)) (callFrames vm)) vm).
Proof.
  intros Hfi. unfold unwindFrames. mstep.
  rewrite Z.gtb_ltb.
  destruct (Z.ltb_spec frameIndex (Z.of_nat (length (callFrames vm)) - 1)).
  - destruct (Z.ltb_spec frameIndex (-1)); [lia|]. reflexivity.
  - rewrite take_ge by lia. by destruct vm.
Qed.

Lemma setStackLength_resized (vm : VM) (n : Z) :
  0 ≤ n → setStackLength n vm = Ok tt (with_stack (resized n (stack vm)) vm).
Proof.
  intros Hn. unfold setStackLength. mstep. unfold set_length.
  destruct (Z.ltb_spec n 0); [lia|]. reflexivity.
Qed.

Lemma runtimeError_caught (vm : VM) (message : Value) (rejectPromise : bool)
    (hs : list ExceptionHandler.t) (h : ExceptionHandler.t) (a : nat) (fr : CallFrame.t) :
  Forall (frameResolves vm) (callFrames vm) →
  (rejectPromise = true → noAsyncFrame vm) →
  handlerOnTop vm hs h a fr →
  ∃ vm', runtimeError message rejectPromise vm = Ok tt vm' ∧ caught hs h a fr message vm vm'.
Proof.
  intros Hres Hno (Hh & Hsz & Hfi & Ha & Hfr).
  destruct h as [tip ssz fi]. simpl in *.
  assert (Hlen : (Z.to_nat fi < length (callFrames vm))%nat) by by eapply lookup_lt_Some.
  assert (Hfound : (if rejectPromise then firstAsync vm (reverse (callFrames vm)) else None)
                   = None).
  { destruct rejectPromise; [|done]. apply firstAsync_None. intros b Hb.
    apply Hno; [done|]. by apply elem_of_reverse. }
  assert (Htop : last (take (Z.to_nat (fi + 1)) (callFrames vm)) = Some a).
  { rewrite last_lookup, length_take_le by lia.
    rewrite lookup_take_lt by lia.
    replace (Init.Nat.pred (Z.to_nat (fi + 1))) with (Z.to_nat fi) by lia. done. }
  eexists. split.
  - unfold runtimeError. mstep.
    mstep by (apply findAsyncPromise_found; by apply Forall_reverse).
    rewrite Hfound. mstep. rewrite Hh, last_snoc, removelast_last.
    mstep. simpl ExceptionHandler.frameIndex.
    mstep by (apply unwindFrames_take; simpl; lia).
    mstep. simpl callFrames. mstep.
    mstep by (by apply setStackLength_resized).
    mstep. rewrite Htop. unfold deref_frame, deref.
    mstep by (simpl; rewrite Hfr; reflexivity).
    reflexivity.
  - unfold caught. cbn [exceptionHandlers callFrames currentFrame stack frames hasError
                        microtaskQueue with_frames with_stack with_currentFrame
                        with_callFrames with_exceptionHandlers set_frame modify
                        ExceptionHandler.frameIndex ExceptionHandler.stackSize
                        ExceptionHandler.targetIp].
    by repeat split.
Qed.



(** In the try block of [g], [throw null] hands the catch the string
    ["null"], not the value null. *)
Example throw_null_delivers_a_string :
  ∃ vm', @InstructionHandlers.OP_THROW exampleHost vmInTry = Ok OK vm'
         ∧ stack vm' = [VClosure 0; VStr "null"]
         ∧ (CallFrame.ip <$> frames vm' !! 0%nat) = Some 9.
Proof. eexists. split; [reflexivity|]. split; reflexivity. Qed.


(** ** Upvalues *)

Lemma readOperand_at (vm : VM) (a : nat) (fr : CallFrame.t) (b : Z) :
  currentFrame vm = Some a →
  frames vm !! a = Some fr →
  index (FunctionObject.bytecode (CallFrame.func fr)) (CallFrame.ip fr) = Some b →
  readOperand vm = Ok b (atIp a fr (CallFrame.ip fr + 1) vm).
Proof.
  intros Hcur Hfr Hb. unfold readOperand, readByte, theCurrentFrame.
  unfold_m. rewrite Hcur. simpl. rewrite Hfr. simpl. rewrite Hb. reflexivity.
Qed.

Lemma frameUpvalue_at (vm : VM) (a : nat) (fr : CallFrame.t) (slot : Z) (u : nat)
    (cell : Upvalue.t) (ip : Z) :
  upvalueOperand vm a fr slot u cell →
  frameUpvalue slot (atIp a fr ip vm) = Ok (Some u) (atIp a fr ip vm).
Proof.
  intros (Hcur & Hfr & _ & (cl & Hcl & Hu) & _).
  assert (Hlt : (a < length (frames vm))%nat) by by eapply lookup_lt_Some.
  unfold frameUpvalue, theCurrentFrame. unfold_m. simpl. rewrite Hcur. simpl.
  rewrite list_lookup_insert_eq by done. simpl. rewrite Hcl, Hu. reflexivity.
Qed.

Lemma closeUpvaluesLoop_unfold (fuel : nat) (lastStackLocation : Z) :
  closeUpvaluesLoop fuel lastStackLocation
  = (head ← gets openUpvalues;
     match head with
     | None => mret tt
     | Some u =>
         cell ← deref_upvalue u;
         if Upvalue.location cell >=? lastStackLocation then
           match fuel with
           | O => diverge
           | S fuel' =>
               v ← stackRead (Upvalue.location cell);
               set_upvalue u (Upvalue.mk (-1) v (Upvalue.next cell));;
               modify (with_openUpvalues (Upvalue.next cell));;
               closeUpvaluesLoop fuel' lastStackLocation
           end
         else mret tt
     end).
Proof. by destruct fuel. Qed.

(** C9.  GET_UPVALUE and SET_UPVALUE test [closed !== null].  For an upvalue
    whose closed value is not null they read and write the closed cell.  An
    upvalue closed over null, which [closeUpvalues] leaves with [closed = null]
    and [location = -1], is treated as open: they read and write
    [vm.stack[-1]], a property of the stack array, and leave the cell alone. *)
Theorem upvalue_closed_test (vm : VM) (a : nat) (fr : CallFrame.t) (slot : Z) (u : nat)
    (cell : Upvalue.t) :
  upvalueOperand vm a fr slot u cell →
  let vm1 := atIp a fr (CallFrame.ip fr + 1) vm in
  (Upvalue.closed cell ≠ VNull →
     InstructionHandlers.OP_GET_UPVALUE vm
     = Ok OK (with_stack (stack vm ++ [Upvalue.closed cell]) vm1)
     ∧ ∀ st v, stack vm = st ++ [v] →
         InstructionHandlers.OP_SET_UPVALUE vm = Ok OK (withClosed u cell v vm1))
  ∧ (Upvalue.closed cell = VNull → Upvalue.location cell = -1 →
     InstructionHandlers.OP_GET_UPVALUE vm
     = Ok OK (with_stack (stack vm ++ [default VUndefined (stackProps vm !! (-1))]) vm1)
     ∧ ∀ st v, stack vm = st ++ [v] →
         InstructionHandlers.OP_SET_UPVALUE vm
         = Ok OK (with_stackProps (<[-1 := v]> (stackProps vm)) vm1))
  ∧ (∀ last k, openUpvalues vm = Some u → Upvalue.location cell = k → Upvalue.next cell = None →
       0 ≤ k → last ≤ k →
       closeUpvalues last vm
       = Ok tt (with_openUpvalues None
                  (with_upvalueCells
                     (<[u := Upvalue.mk (-1) (default VUndefined (stack vm !! Z.to_nat k)) None]>
                        (upvalueCells vm)) vm))).
Proof.
  intros Hop vm1.
  pose proof Hop as (Hcur & Hfr & Hslot & (cl & Hcl & Hu) & Hcell).
  assert (Hread : readOperand vm = Ok slot vm1) by by apply readOperand_at.
  assert (Hup : frameUpvalue slot vm1 = Ok (Some u) vm1) by by eapply frameUpvalue_at.
  assert (Hderef : deref_upvalue u vm1 = Ok cell vm1).
  { unfold deref_upvalue, deref. simpl. by rewrite Hcell. }
  split_and!.
  - intros Hclosed. split.
    + unfold InstructionHandlers.OP_GET_UPVALUE.
      mstep by exact Hread. mstep by exact Hup. mstep by exact Hderef.
      destruct (Upvalue.closed cell); try done.
    + intros st v Hst.
      unfold InstructionHandlers.OP_SET_UPVALUE.
      mstep by exact Hread. mstep by exact Hup. mstep by exact Hderef.
      assert (Hpeek : peek 0 vm1 = Ok v vm1) by by apply (peek0_snoc vm1 st v).
      assert (Hset :
                (peek 0 ≫= λ v0, deref_upvalue u ≫= λ cell',
                   set_upvalue u (Upvalue.mk (Upvalue.location cell') v0 (Upvalue.next cell')))
                  vm1 = Ok tt (withClosed u cell v vm1)).
      { mstep by (exact Hpeek). mstep by (exact Hderef). reflexivity. }
      destruct (Upvalue.closed cell) eqn:E; try (exfalso; by apply Hclosed);
        (mstep by (exact Hset)); reflexivity.
  - intros Hclosed Hloc. split.
    + unfold InstructionHandlers.OP_GET_UPVALUE.
      mstep by exact Hread. mstep by exact Hup. mstep by exact Hderef.
      rewrite Hclosed, Hloc. reflexivity.
    + intros st v Hst.
      unfold InstructionHandlers.OP_SET_UPVALUE.
      mstep by exact Hread. mstep by exact Hup. mstep by exact Hderef.
      assert (Hpeek : peek 0 vm1 = Ok v vm1) by by apply (peek0_snoc vm1 st v).
      rewrite Hclosed, Hloc. cbv beta iota.
      mstep by (mstep by (exact Hpeek); reflexivity).
      reflexivity.
  - intros last k Hopen Hloc Hnext Hk Hlast.
    assert (Hlt : (u < length (upvalueCells vm))%nat) by by eapply lookup_lt_Some.
    unfold closeUpvalues. mstep. unfold id.
    destruct (length (upvalueCells vm)) as [|n] eqn:Hn; [lia|].
    rewrite closeUpvaluesLoop_unfold.
    mstep. rewrite Hopen. unfold deref_upvalue, deref.
    mstep by (rewrite Hcell; reflexivity).
    rewrite Hloc, Z.geb_leb. destruct (Z.leb_spec last k); [|lia].
    cbv beta iota. unfold stackRead.
    mstep by (mstep; destruct (Z.ltb_spec k 0); [lia|reflexivity]).
    mstep. mstep. rewrite Hnext.
    rewrite closeUpvaluesLoop_unfold. mstep. reflexivity.
Qed.

Lemma upvalue_closed_test_witness :
  let vm := vmClosedOverNull in
  let cell := Upvalue.mk (-1) VNull None in
  ∃ fr, frames vm !! 0%nat = Some fr ∧
  let vm1 := atIp 0 fr (CallFrame.ip fr + 1) vm in
  (Upvalue.closed cell ≠ VNull →
     InstructionHandlers.OP_GET_UPVALUE vm
     = Ok OK (with_stack (stack vm ++ [Upvalue.closed cell]) vm1)
     ∧ ∀ st v, stack vm = st ++ [v] →
         InstructionHandlers.OP_SET_UPVALUE vm = Ok OK (withClosed 0 cell v vm1))
  ∧ (Upvalue.closed cell = VNull → Upvalue.location cell = -1 →
     InstructionHandlers.OP_GET_UPVALUE vm
     = Ok OK (with_stack (stack vm ++ [default VUndefined (stackProps vm !! (-1))]) vm1)
     ∧ ∀ st v, stack vm = st ++ [v] →
         InstructionHandlers.OP_SET_UPVALUE vm
         = Ok OK (with_stackProps (<[-1 := v]> (stackProps vm)) vm1))
  ∧ (∀ last k, openUpvalues vm = Some 0%nat → Upvalue.location cell = k →
       Upvalue.next cell = None → 0 ≤ k → last ≤ k →
       closeUpvalues last vm
       = Ok tt (with_openUpvalues None
                  (with_upvalueCells
                     (<[0%nat := Upvalue.mk (-1) (default VUndefined (stack vm !! Z.to_nat k)) None]>
                        (upvalueCells vm)) vm))).
Proof.
  eexists. split; [reflexivity|].
  apply (upvalue_closed_test vmClosedOverNull 0 _ 0 0 (Upvalue.mk (-1) VNull None)).
  repeat split. eexists. split; reflexivity.
Defined.

(** A variable that holds null when its scope ends reads as undefined
    through the closure that captured it; one that holds a string reads as
    that string. *)
Example closed_over_null_reads_undefined :
  outcomeOf (@runProgram exampleHost 100 closedOverNull) = Some (mkOutcome OK VUndefined)
  ∧ outcomeOf (@runProgram exampleHost 100 closedOverString) = Some (mkOutcome OK (VStr "v")).
Proof. split; vm_compute; reflexivity. Qed.

(** ** The call-frame bound *)

(** C4 fails on the code: OP_NEW and OP_CALL_METHOD push a frame without
    comparing the frame count with MAX_CALL_FRAMES, which OP_CALL does.  A
    constructor that instantiates its own class, and a method that calls
    itself, reach 257 frames with no error raised; the same recursion through
    OP_CALL stops at 256 frames with "Stack overflow.". *)
Theorem frame_bound_not_enforced_by_new_and_call_method :
  (∃ vm, @vmAfter exampleHost 514 constructorRecursion = Some vm
         ∧ MAX_CALL_FRAMES vm = 256
         ∧ length (callFrames vm) = 257%nat
         ∧ hasError vm = false)
  ∧ (∃ vm, @vmAfter exampleHost 524 methodRecursion = Some vm
           ∧ MAX_CALL_FRAMES vm = 256
           ∧ length (callFrames vm) = 257%nat
           ∧ hasError vm = false)
  ∧ (∃ vm, finalVM (@runProgram exampleHost 2000 callRecursion) = Some vm
           ∧ length (callFrames vm) = 256%nat
           ∧ hasError vm = true
           ∧ console_error vm = [mkErrorReport (VStr "Stack overflow.") "r"]).
Proof.
  split_and!.
  - eexists. split; [vm_compute; reflexivity|]. by vm_compute.
  - eexists. split; [vm_compute; reflexivity|]. by vm_compute.
  - eexists. split; [vm_compute; reflexivity|]. by vm_compute.
Qed.

(** ** Classes *)

(** C2 fails on the code: for a class without a constructor the compiler
    emits OP_CONSTANT, not OP_CLOSURE, so the class is bound to a bare
    FunctionObject; OP_GET_PROTOTYPE then raises a runtime error and the
    program ends in RUNTIME_ERROR.  With an explicit empty constructor the
    same class is compiled with OP_CLOSURE and [p.greet()] is "hi". *)
Theorem default_constructor_is_pushed_as_constant :
  (∃ main, compiled classWithoutConstructor = Some main
           ∧ take 4 (FunctionObject.bytecode main)
             = [Opcodes.OP_CONSTANT; 0; Opcodes.OP_DEFINE_GLOBAL; 1]
           ∧ FunctionObject.constants main !! 0%nat
             = Some (VFunctionObject
                       (FunctionObject.make4 "P" 0
                          [Opcodes.OP_GET_LOCAL; 0; Opcodes.OP_RETURN] [])))
  ∧ outcomeOf (@runProgram exampleHost 100 classWithoutConstructor)
    = Some (mkOutcome RUNTIME_ERROR VUndefined)
  ∧ (console_error <$> finalVM (@runProgram exampleHost 100 classWithoutConstructor))
    = Some [mkErrorReport (VStr "Can only get the prototype of functions/classes.") "<script>"]
  ∧ (∃ main, compiled classWithConstructor = Some main
             ∧ take 2 (FunctionObject.bytecode main) = [Opcodes.OP_CLOSURE; 0])
  ∧ outcomeOf (@runProgram exampleHost 100 classWithConstructor)
    = Some (mkOutcome OK (VStr "hi")).
Proof.
  split_and!.
  - eexists. split; [vm_compute; reflexivity|]. split; reflexivity.
  - vm_compute. reflexivity.
  - vm_compute. reflexivity.
  - eexists. split; [vm_compute; reflexivity|]. reflexivity.
  - vm_compute. reflexivity.
Qed.

(** ** Operand ranges *)

(** C5 fails on the code: only [emitConstant] compares the index with 255.
    [emitGetVariable] (as [emitSetVariable], [defineVariable] and the call,
    member and class visitors) emits the index [addConstant] returns as it
    is, and [addConstant] adds an entry per use: the 257th read of a global
    compiles to OP_GET_GLOBAL with operand 256. *)
Theorem constant_operand_beyond_255 :
  ∃ main, compiled manyGlobalReads = Some main
          ∧ length (FunctionObject.constants main) = 257%nat
          ∧ FunctionObject.bytecode main !! 768%nat = Some Opcodes.OP_GET_GLOBAL
          ∧ FunctionObject.bytecode main !! 769%nat = Some 256.
Proof.
  eexists. split; [vm_compute; reflexivity|]. by vm_compute.
Qed.

(** What the compiler does keep in range: a local slot, and the operand of
    OP_CONSTANT. *)
Lemma lastIndexOf_bound (name : string) (locals : list Local.t) (i : Z) :
  lastIndexOf name locals i = -1
  ∨ i ≤ lastIndexOf name locals i < i + Z.of_nat (length locals).
Proof.
  revert i. induction locals as [|l locals IH]; intros i; [by left|].
  change (lastIndexOf name (l :: locals) i)
    with (if lastIndexOf name locals (i + 1) =? -1
          then (if bool_decide (Local.name l = name) then i else -1)
          else lastIndexOf name locals (i + 1)).
  change (length (l :: locals)) with (S (length locals)).
  destruct (IH (i + 1)) as [E|Hin].
  - rewrite E. simpl. case_bool_decide; [right; lia|by left].
  - destruct (Z.eqb_spec (lastIndexOf name locals (i + 1)) (-1)) as [E|_]; [|right; lia].
    case_bool_decide; [right; lia|by left].
Qed.

Lemma local_slot_in_range (name declared : string) (s s' : CompilerState.t) :
  addLocal declared s = COk tt s' →
  (length (CompilerState.locals s') ≤ 256)%nat
  ∧ (resolveLocal s' name = -1 ∨ 0 ≤ resolveLocal s' name ≤ 255).
Proof.
  unfold addLocal. rewrite Z.gtb_ltb.
  destruct (Z.ltb_spec 255 (Z.of_nat (length (CompilerState.locals s)))); [done|].
  intros [= <-]. simpl. rewrite length_app. simpl. split; [lia|].
  unfold resolveLocal. simpl.
  destruct (lastIndexOf_bound name
              (CompilerState.locals s ++ [Local.mk declared (CompilerState.scopeDepth s) false])
              0) as [->|Hin]; [by left|].
  right. rewrite length_app in Hin. simpl in Hin. lia.
Qed.

Lemma emitConstant_in_range (value : Value) (s s' : CompilerState.t) :
  emitConstant value s = COk tt s' →
  ∃ i, 0 ≤ i ≤ 255
       ∧ CompilerState.bytecode s' = CompilerState.bytecode s ++ [Opcodes.OP_CONSTANT; i].
Proof.
  unfold emitConstant, addConstant, emitBytes, stateError.
  unfold mbind, CS_bind. rewrite Z.gtb_ltb.
  destruct (Z.ltb_spec 255 (Z.of_nat (length (CompilerState.constants s ++ [value])) - 1));
    [done|].
  intros [= <-]. eexists. split; [|reflexivity].
  rewrite length_app in *. simpl in *. lia.
Qed.

(** ** Prototype lookup *)

(** C8 fails on the code: before the walk along the prototype chain,
    OP_GET_PROPERTY_PROTO answers [propName in object] from the host object
    that represents the VM object, which has the fields [properties] and
    [prototype].  An own property named "prototype" is therefore never read:
    the instance's prototype object is pushed instead.  Under any other
    name the own property is found. *)
Theorem own_property_named_prototype_is_not_read :
  outcomeOf (@runProgram exampleHost 100 (ownProperty "prototype"))
  = Some (mkOutcome OK (VObject 0))
  ∧ (∃ vm o, finalVM (@runProgram exampleHost 100 (ownProperty "prototype")) = Some vm
             ∧ objects vm !! 1%nat = Some o
             ∧ Obj.prototype o = VObject 0
             ∧ Obj.properties o !! "prototype" = Some (VStr "own"))
  ∧ outcomeOf (@runProgram exampleHost 100 (ownProperty "x")) = Some (mkOutcome OK (VStr "own")).
Proof.
  split_and!.
  - vm_compute. reflexivity.
  - eexists _, _. split; [vm_compute; reflexivity|]. split; [reflexivity|]. by vm_compute.
  - vm_compute. reflexivity.
Qed.

(** ** Promise settlement *)

Lemma queued_queued (t1 t2 : list Microtask) (vm : VM) :
  queued t2 (queued t1 vm) = queued (t1 ++ t2) vm.
Proof. unfold queued. simpl. by rewrite app_assoc. Qed.

Lemma queued_nil (vm : VM) : queued [] vm = vm.
Proof. unfold queued. rewrite app_nil_r. by destruct vm. Qed.

Lemma invokeCallback_queues (n : nat) (cb : Callback) (arg : Value) (vm : VM) :
  queuing (handlerOf cb) = true →
  invokeCallback (S (S n)) cb arg vm = Ok tt (queued (firing cb arg) vm).
Proof.
  intros Hq.
  destruct cb as [f np|f np]; simpl in Hq; simpl; unfold try_catch;
    (destruct (truthy f) eqn:Ht; simpl; [|reflexivity]);
    (destruct f as [| | | | | | | | | | | | |h]; try discriminate; try reflexivity);
    (destruct h; try discriminate; try reflexivity);
    unfold queued; simpl; by rewrite <- app_assoc.
Qed.

Lemma forEach_invoke (n : nat) (cbs : list Callback) (arg : Value) (vm : VM) :
  Forall queuingCallback cbs →
  forEach cbs (λ cb, invokeCallback (S (S n)) cb arg) vm
  = Ok tt (queued (flat_map (λ cb, firing cb arg) cbs) vm).
Proof.
  intros Hq. revert vm. induction Hq as [|cb cbs Hcb Hcbs IH]; intros vm.
  - simpl. by rewrite queued_nil.
  - cbn [forEach flat_map].
    mstep by (by apply invokeCallback_queues).
    rewrite IH. by rewrite queued_queued.
Qed.

Lemma resolve_fires (vm : VM) (p : nat) (cell : PromiseV1.t) (v : Value) :
  promises vm !! p = Some cell →
  PromiseV1.state cell = PENDING →
  isPromise v = false →
  Forall queuingCallback (PromiseV1.onFulfilledCallbacks cell) →
  _resolveInternal p v vm
  = Ok tt (queued (flat_map (λ cb, firing cb v) (PromiseV1.onFulfilledCallbacks cell))
             (withPromise p (fulfilledCell v cell) vm)).
Proof.
  intros Hp Hst Hv Hq.
  assert (Hlt : (p < length (promises vm))%nat) by by eapply lookup_lt_Some.
  unfold _resolveInternal. mstep. unfold id, settleFuel.
  cbn [Nat.add resolveInternal]. unfold deref_promise, deref.
  mstep by (rewrite Hp; reflexivity). rewrite Hst.
  assert (Hgo :
    (set_promise p (PromiseV1.mk FULFILLED v (PromiseV1.reason cell)
                      (PromiseV1.onFulfilledCallbacks cell)
                      (PromiseV1.onRejectedCallbacks cell));;
     forEach (PromiseV1.onFulfilledCallbacks cell)
       (λ cb, invokeCallback (S (S (S (3 * length (promises vm))))) cb v);;
     cell' ← deref "PromiseV1" promises p;
     set_promise p (PromiseV1.mk (PromiseV1.state cell') (PromiseV1.value cell')
                      (PromiseV1.reason cell') [] (PromiseV1.onRejectedCallbacks cell'))) vm
    = Ok tt (queued (flat_map (λ cb, firing cb v) (PromiseV1.onFulfilledCallbacks cell))
               (withPromise p (fulfilledCell v cell) vm))).
  { mstep. mstep by (by apply forEach_invoke).
    unfold deref.
    mstep by (simpl; rewrite list_lookup_insert_eq by done; reflexivity).
    unfold set_promise, modify, queued, withPromise, fulfilledCell. simpl.
    by rewrite list_insert_insert_eq. }
  destruct v; try discriminate; exact Hgo.
Qed.

Section After.
Context (P : VM → VM → Prop).
Hypothesis P_refl : ∀ vm, P vm vm.
Hypothesis P_trans : ∀ a b c, P a b → P b c → P a c.

Lemma after_ret {A} (a : A) : after P (mret a).
Proof. intros vm. apply P_refl. Qed.

Lemma after_gets {A} (f : VM → A) : after P (gets f).
Proof. intros vm. apply P_refl. Qed.

Lemma after_throw {A} (e : string) : after P (@throw A e).
Proof. intros vm. apply P_refl. Qed.

Lemma after_outside {A} (w : string) : after P (@outside A w).
Proof. by intros vm. Qed.

Lemma after_diverge {A} : after P (@diverge A).
Proof. by intros vm. Qed.

Lemma after_deref {A} (what : string) (store : VM → list A) (a : nat) :
  after P (deref what store a).
Proof. intros vm. unfold deref. destruct (store vm !! a); [apply P_refl|done]. Qed.

Lemma after_bind {A B} (m : M A) (k : A → M B) :
  after P m → (∀ a, after P (k a)) → after P (m ≫= k).
Proof.
  intros Hm Hk vm. unfold mbind, M_bind. specialize (Hm vm).
  destruct (m vm) as [a vm'| | |]; try done.
  specialize (Hk a vm'). unfold lands in *.
  destruct (k a vm'); try done; by eapply P_trans.
Qed.

Lemma after_try_catch {A} (m : M A) (h : string → M A) :
  after P m → (∀ e, after P (h e)) → after P (try_catch m h).
Proof.
  intros Hm Hh vm. unfold try_catch. specialize (Hm vm).
  destruct (m vm) as [a vm'|e vm'| |]; try done.
  specialize (Hh e vm'). unfold lands in *.
  destruct (h e vm'); try done; by eapply P_trans.
Qed.

Lemma after_forEach {A} (l : list A) (f : A → M unit) :
  (∀ x, after P (f x)) → after P (forEach l f).
Proof.
  intros Hf. induction l as [|x l IH]; simpl; [apply after_ret|].
  apply after_bind; [apply Hf|]. intros _. apply IH.
Qed.

Lemma after_modify (f : VM → VM) : (∀ vm, P vm (f vm)) → after P (modify f).
Proof. intros Hf vm. apply Hf. Qed.
End After.

Lemma settledStay_refl (vm : VM) : settledStay vm vm.
Proof. intros p c Hp _. exists c. by repeat split. Qed.

Lemma settledStay_trans (a b c : VM) : settledStay a b → settledStay b c → settledStay a c.
Proof.
  intros Hab Hbc p x Hp Hx.
  destruct (Hab p x Hp Hx) as (y & Hy & Sy1 & Sy2 & Sy3).
  destruct (Hbc p y Hy) as (z & Hz & Sz1 & Sz2 & Sz3); [congruence|].
  exists z. split; [done|]. unfold sameSettlement. split_and!; congruence.
Qed.

Lemma samePromises_refl (vm : VM) : samePromises vm vm.
Proof. reflexivity. Qed.

Lemma samePromises_trans (a b c : VM) : samePromises a b → samePromises b c → samePromises a c.
Proof. unfold samePromises. congruence. Qed.

Lemma samePromises_stay {A} (m : M A) : after samePromises m → after settledStay m.
Proof.
  intros Hm vm. specialize (Hm vm).
  destruct (m vm) as [a vm'|e vm'| |]; try done;
    intros p c Hp _; exists c; unfold samePromises in Hm; rewrite Hm; by repeat split.
Qed.

Create HintDb quiet.

Ltac quiet :=
  repeat first
    [ solve [auto 1 with quiet nocore]
    | apply after_ret; [exact samePromises_refl]
    | apply after_gets; [exact samePromises_refl]
    | apply after_throw; [exact samePromises_refl]
    | apply after_outside
    | apply after_diverge
    | apply after_deref; [exact samePromises_refl]
    | apply after_modify; intros ?; reflexivity
    | apply after_bind; [exact samePromises_trans| |intros ?]
    | apply after_forEach; [exact samePromises_refl|exact samePromises_trans|intros ?]
    | match goal with
      | |- after _ (match ?x with _ => _ end) => destruct x
      | |- after _ (let '(_, _) := ?x in _) => destruct x
      end ].

Lemma quiet_scheduleMicrotask (t : Microtask) : after samePromises (scheduleMicrotask t).
Proof. unfold scheduleMicrotask. quiet. Qed.

Lemma quiet_push (v : Value) : after samePromises (push v).
Proof. unfold push. quiet. Qed.

#[local] Hint Resolve quiet_scheduleMicrotask quiet_push : quiet.

Lemma quiet_findAsyncPromise (l : list nat) (rp : bool) : after samePromises (findAsyncPromise l rp).
Proof.
  induction l as [|a l IH]; simpl; [quiet|].
  unfold deref_frame, deref_closure. quiet; apply IH.
Qed.

Lemma quiet_runtimeError (message : Value) (rp : bool) : after samePromises (runtimeError message rp).
Proof.
  unfold runtimeError, promise_reject, unwindFrames, setStackLength, set_frame, deref_frame,
    deref_closure.
  apply after_bind; [exact samePromises_trans|quiet|intros frs].
  apply after_bind; [exact samePromises_trans|apply quiet_findAsyncPromise|intros found].
  quiet.
Qed.

#[local] Hint Resolve quiet_findAsyncPromise quiet_runtimeError : quiet.

Lemma quiet_pop : after samePromises pop.
Proof. unfold pop. quiet. Qed.

Lemma quiet_peek (distance : Z) : after samePromises (peek distance).
Proof. unfold peek. quiet. Qed.

#[local] Hint Resolve quiet_pop quiet_peek : quiet.

Lemma after_deref_promise {A} (P : VM → VM → Prop) (p : nat) (k : PromiseV1.t → M A) :
  (∀ vm cell, promises vm !! p = Some cell → lands (P vm) (k cell vm)) →
  after P (deref_promise p ≫= k).
Proof.
  intros Hk vm. unfold mbind, M_bind, deref_promise, deref.
  destruct (promises vm !! p) as [cell|] eqn:Hp; [|done]. by apply Hk.
Qed.

Lemma settledStay_set (vm : VM) (p : nat) (cell c' : PromiseV1.t) :
  promises vm !! p = Some cell →
  PromiseV1.state cell = PENDING ∨ sameSettlement cell c' →
  settledStay vm (withPromise p c' vm).
Proof.
  intros Hp Hc q c Hq Hs. unfold withPromise. simpl.
  destruct (decide (p = q)) as [->|Hne].
  - rewrite Hq in Hp. injection Hp as ->. destruct Hc as [Hc|Hc]; [done|].
    exists c'. split; [|done]. apply list_lookup_insert_eq. by eapply lookup_lt_Some.
  - exists c. rewrite list_lookup_insert_ne by done. split; [done|by repeat split].
Qed.

Lemma settledStay_new (vm : VM) (c : PromiseV1.t) :
  settledStay vm (with_promises (promises vm ++ [c]) vm).
Proof.
  intros q x Hq _. exists x. simpl. split; [|by repeat split].
  by apply lookup_app_l_Some.
Qed.

Lemma stay_new_promise (c : PromiseV1.t) : after settledStay (new_promise c).
Proof. intros vm. apply settledStay_new. Qed.

Lemma stay_set_pending {A} (vm : VM) (p : nat) (cell c' : PromiseV1.t) (rest : M A) :
  promises vm !! p = Some cell →
  PromiseV1.state cell = PENDING ∨ sameSettlement cell c' →
  after settledStay rest →
  lands (settledStay vm) ((set_promise p c';; rest) vm).
Proof.
  intros Hp Hc Hrest. unfold mbind, M_bind, set_promise, modify.
  specialize (Hrest (withPromise p c' vm)). unfold withPromise in Hrest.
  pose proof (settledStay_set vm p cell c' Hp Hc) as Hset. unfold withPromise in Hset.
  unfold lands in *. destruct (rest _); try done; by eapply settledStay_trans.
Qed.

Ltac stay :=
  repeat first
    [ apply after_ret; [exact settledStay_refl]
    | apply after_gets; [exact settledStay_refl]
    | apply after_throw; [exact settledStay_refl]
    | apply after_outside
    | apply after_diverge
    | apply stay_new_promise
    | apply samePromises_stay; apply quiet_scheduleMicrotask
    | apply after_try_catch; [exact settledStay_trans| |intros ?]
    | apply after_bind; [exact settledStay_trans| |intros ?]
    | apply after_forEach; [exact settledStay_refl|exact settledStay_trans|intros ?] ].

Ltac at_state :=
  match goal with
  | |- lands (?P ?vm) (?m ?vm) => revert vm; change (after P m)
  end.

Lemma stay_promise_then (p : nat) (f r : Value) : after settledStay (promise_then p f r).
Proof.
  unfold promise_then.
  apply after_bind; [exact settledStay_trans|stay|intros np].
  apply after_deref_promise. intros vm cell Hp.
  destruct (PromiseV1.state cell) eqn:Hs.
  - eapply stay_set_pending; [done|by left|stay].
  - clear Hp. at_state. stay.
  - clear Hp. at_state. stay.
Qed.

Lemma stay_deref_set (p : nat) (f : PromiseV1.t → PromiseV1.t) :
  (∀ c, sameSettlement c (f c)) →
  after settledStay (cell ← deref_promise p; set_promise p (f cell)).
Proof.
  intros Hf. apply after_deref_promise. intros vm cell Hp.
  apply (settledStay_set vm p cell (f cell) Hp). right. apply Hf.
Qed.

Lemma stay_settlement (fuel : nat) :
  (∀ p v, after settledStay (resolveInternal fuel p v))
  ∧ (∀ p r, after settledStay (rejectInternal fuel p r))
  ∧ (∀ cb arg, after settledStay (invokeCallback fuel cb arg))
  ∧ (∀ who f arg, after settledStay (callHandler fuel who f arg)).
Proof.
  induction fuel as [|fuel (IHres & IHrej & IHinv & IHcall)].
  { split_and!; intros; simpl; apply after_outside. }
  split_and!.
  - intros p v. simpl. apply after_deref_promise. intros vm cell Hp.
    destruct (PromiseV1.state cell) eqn:Hs; [|clear Hp; at_state; stay..].
    assert (Hgo : ∀ w, lands (settledStay vm)
      ((set_promise p (PromiseV1.mk FULFILLED w (PromiseV1.reason cell)
                          (PromiseV1.onFulfilledCallbacks cell) (PromiseV1.onRejectedCallbacks cell));;
        forEach (PromiseV1.onFulfilledCallbacks cell) (λ cb, invokeCallback fuel cb w);;
        cell' ← deref_promise p;
        set_promise p (PromiseV1.mk (PromiseV1.state cell') (PromiseV1.value cell')
                         (PromiseV1.reason cell') [] (PromiseV1.onRejectedCallbacks cell'))) vm)).
    { intros w. eapply stay_set_pending; [done|by left|].
      apply after_bind; [exact settledStay_trans| |intros _].
      - apply after_forEach; [exact settledStay_refl|exact settledStay_trans|]. intros cb. apply IHinv.
      - by apply (stay_deref_set p (λ c, PromiseV1.mk _ _ _ _ _)). }
    destruct v; try apply Hgo.
    clear Hp Hgo. at_state. apply after_bind; [exact settledStay_trans|apply stay_promise_then|stay].
  - intros p r. simpl. apply after_deref_promise. intros vm cell Hp.
    destruct (PromiseV1.state cell) eqn:Hs; [|clear Hp; at_state; stay..].
    eapply stay_set_pending; [done|by left|].
    apply after_bind; [exact settledStay_trans| |intros _].
    + apply after_forEach; [exact settledStay_refl|exact settledStay_trans|]. intros cb. apply IHinv.
    + by apply (stay_deref_set p (λ c, PromiseV1.mk _ _ _ _ _)).
  - intros cb arg. simpl. unfold promise_resolve, promise_reject.
    destruct cb as [f np|f np]; stay;
      (destruct (negb (truthy f)); [stay|]);
      destruct f; stay; apply IHcall.
  - intros who f arg. simpl. unfold promise_resolve, promise_reject.
    destruct f as [| | | | | | | | | | | | |h]; stay.
    destruct h; stay; [apply IHres|apply IHrej].
Qed.

Lemma stay_resolveInternal (p : nat) (v : Value) : after settledStay (_resolveInternal p v).
Proof.
  unfold _resolveInternal.
  apply after_bind; [exact settledStay_trans|stay|intros vm; apply stay_settlement].
Qed.

Lemma stay_rejectInternal (p : nat) (r : Value) : after settledStay (_rejectInternal p r).
Proof.
  unfold _rejectInternal.
  apply after_bind; [exact settledStay_trans|stay|intros vm; apply stay_settlement].
Qed.

Lemma stay_callTask (task : Microtask) : after settledStay (callTask task).
Proof.
  destruct task; unfold callTask.
  - stay.
  - apply stay_resolveInternal.
  - apply stay_rejectInternal.
  - apply after_bind; [exact settledStay_trans|apply samePromises_stay; quiet|intros cell].
    apply after_bind; [exact settledStay_trans|stay|intros vm; apply stay_settlement].
  - apply samePromises_stay.
    quiet.
  - apply samePromises_stay.
    quiet.
Qed.

Lemma stay_runMicrotask (task : Microtask) : after settledStay (runMicrotask task).
Proof.
  assert (Hdefault : after settledStay
    (try_catch (callTask task)
       (λ e, runtimeError (VStr ("Error in native microtask: " +:+ e)) false))).
  { apply after_try_catch; [exact settledStay_trans|apply stay_callTask|].
    intros e. apply samePromises_stay, quiet_runtimeError. }
  destruct task; try exact Hdefault.
  apply samePromises_stay. unfold runMicrotask, new_frame, deref_closure.
  quiet.
Qed.

Lemma stay_runMicrotasks (fuel : nat) : after settledStay (runMicrotasks fuel).
Proof.
  induction fuel as [|fuel IH]; simpl.
  - apply after_bind; [exact settledStay_trans|stay|intros [|task rest]]; [stay|].
    apply after_bind; [exact settledStay_trans|stay|intros []]; stay.
  - apply after_bind; [exact settledStay_trans|stay|intros [|task rest]]; [stay|].
    apply after_bind; [exact settledStay_trans|stay|intros []]; [stay|].
    apply after_bind; [exact settledStay_trans|apply samePromises_stay; quiet|intros _].
    apply after_bind; [exact settledStay_trans|apply stay_runMicrotask|intros _]. apply IH.
Qed.

Lemma stay_modify (f : VM → VM) :
  (∀ vm, promises (f vm) = promises vm) → after settledStay (modify f).
Proof. intros Hf. apply samePromises_stay, after_modify. exact Hf. Qed.

Lemma stay_quiet_result {A} (m : M A) :
  (∀ vm, lands (samePromises vm) (m vm)) → after settledStay m.
Proof. intros Hm. by apply samePromises_stay. Qed.

Create HintDb stay.

#[local] Hint Resolve stay_promise_then stay_resolveInternal stay_rejectInternal
  stay_new_promise stay_runMicrotask stay_runMicrotasks : stay.

Ltac stays :=
  repeat first
    [ solve [auto 1 with stay nocore]
    | solve [apply samePromises_stay; auto 1 with quiet nocore]
    | apply after_ret; [exact settledStay_refl]
    | apply after_gets; [exact settledStay_refl]
    | apply after_throw; [exact settledStay_refl]
    | apply after_outside
    | apply after_diverge
    | apply after_deref; [exact settledStay_refl]
    | apply stay_modify; intros ?; reflexivity
    | apply stay_quiet_result; intros ?; reflexivity
    | apply after_try_catch; [exact settledStay_trans| |intros ?]
    | apply after_bind; [exact settledStay_trans| |intros ?]
    | apply after_forEach; [exact settledStay_refl|exact settledStay_trans|intros ?]
    | match goal with
      | |- after _ (match ?x with _ => _ end) => destruct x
      | |- after _ (let '(_, _) := ?x in _) => destruct x
      end ].

Lemma stay_captureSearch fuel prev u loc : after settledStay (captureSearch fuel prev u loc).
Proof.
  revert prev u. induction fuel as [|fuel IH]; intros prev [u|]; simpl; stays.
Qed.
#[local] Hint Resolve stay_captureSearch : stay.

Lemma stay_captureUpvalue loc : after settledStay (captureUpvalue loc).
Proof. unfold captureUpvalue. stays. Qed.
#[local] Hint Resolve stay_captureUpvalue : stay.

Lemma stay_stackRead i : after settledStay (stackRead i).
Proof. unfold stackRead. stays. Qed.
#[local] Hint Resolve stay_stackRead : stay.

Lemma stay_closeUpvaluesLoop fuel loc : after settledStay (closeUpvaluesLoop fuel loc).
Proof.
  induction fuel as [|fuel IH]; simpl; stays.
Qed.
#[local] Hint Resolve stay_closeUpvaluesLoop : stay.

Lemma stay_closeUpvalues loc : after settledStay (closeUpvalues loc).
Proof. unfold closeUpvalues. stays. Qed.
#[local] Hint Resolve stay_closeUpvalues : stay.

Lemma stay_lookupChain who fuel current name :
  after settledStay (lookupChain who fuel current name).
Proof.
  revert current. induction fuel as [|fuel IH]; intros current; simpl; stays.
Qed.
#[local] Hint Resolve stay_lookupChain : stay.

Lemma stay_captureAll n : after settledStay (InstructionHandlers.captureAll n).
Proof. induction n as [|n IH]; simpl; stays. Qed.
#[local] Hint Resolve stay_captureAll : stay.

Lemma stay_fillObject n o : after settledStay (InstructionHandlers.fillObject n o).
Proof. induction n as [|n IH]; simpl; stays. Qed.
#[local] Hint Resolve stay_fillObject : stay.

Lemma stay_fail message : after settledStay (fail message).
Proof. unfold fail. stays. Qed.
Lemma stay_topValues n : after settledStay (topValues n).
Proof. unfold topValues. stays. Qed.
Lemma stay_dropValues n : after settledStay (dropValues n).
Proof. unfold dropValues, setStackLength. stays. Qed.
Lemma stay_pushFrame f : after settledStay (pushFrame f).
Proof. unfold pushFrame. stays. Qed.
Lemma stay_readOperand : after settledStay readOperand.
Proof. unfold readOperand. stays. Qed.
Lemma stay_nameConstant i : after settledStay (nameConstant i).
Proof. unfold nameConstant. stays. Qed.
#[local] Hint Resolve stay_fail stay_topValues stay_dropValues stay_pushFrame
  stay_readOperand stay_nameConstant : stay.

Lemma stay_callHost h args : after settledStay (InstructionHandlers.callHost h args).
Proof. unfold InstructionHandlers.callHost, promise_resolve, promise_reject. stays. Qed.
#[local] Hint Resolve stay_callHost : stay.

Lemma stay_callFoundMethod name argCount receiver args method :
  after settledStay (InstructionHandlers.callFoundMethod name argCount receiver args method).
Proof. unfold InstructionHandlers.callFoundMethod. stays. Qed.
#[local] Hint Resolve stay_callFoundMethod : stay.

Lemma stay_OP_CALL : after settledStay InstructionHandlers.OP_CALL.
Proof. unfold InstructionHandlers.OP_CALL. stays. Qed.

Lemma stay_OP_CALL_METHOD : after settledStay InstructionHandlers.OP_CALL_METHOD.
Proof.
  unfold InstructionHandlers.OP_CALL_METHOD, promise_resolve, promise_reject. stays.
Qed.
#[local] Hint Resolve stay_OP_CALL stay_OP_CALL_METHOD : stay.

Lemma stay_js_String `{Host} (v : Value) : after settledStay (js_String v).
Proof.
  intros vm. unfold js_String, lands.
  destruct (stringOf vm v); try done; apply settledStay_refl.
Qed.
#[local] Hint Resolve stay_js_String : stay.

Lemma stay_handlers `{Host} (h : M InterpretResult) :
  h ∈ (handlers).*2 → after settledStay h.
Proof.
  unfold handlers. cbn [fmap list_fmap snd].
  intros Hin. repeat (apply elem_of_cons in Hin as [->|Hin]).
  all: try by apply elem_of_nil in Hin.
  all: solve [stays].
Qed.

Lemma assocZ_elem {A} (k : Z) (l : list (Z * A)) (x : A) :
  assocZ k l = Some x → x ∈ l.*2.
Proof.
  induction l as [|[k' y] l IH]; simpl; [done|].
  destruct (k =? k').
  - intros [= ->]. apply list_elem_of_here.
  - intros Hx. apply list_elem_of_further. by apply IH.
Qed.

Lemma stay_dispatch `{Host} : after settledStay dispatch.
Proof.
  unfold dispatch.
  apply after_bind; [exact settledStay_trans|stays|intros []]; [stays|].
  apply after_bind; [exact settledStay_trans|stays|intros frs].
  destruct (last frs) as [top|]; [|stays].
  apply after_bind; [exact settledStay_trans|stays|intros _].
  apply after_bind; [exact settledStay_trans|unfold readByte; stays|intros instruction].
  destruct (lookupHandler instruction) as [handler| |] eqn:Hh; [|stays..].
  apply after_bind; [exact settledStay_trans| |intros r; stays].
  apply stay_handlers. unfold lookupHandler in Hh.
  destruct instruction as [i|]; [|done].
  destruct (assocZ i handlers) as [h|] eqn:Hi.
  - injection Hh as <-. by eapply assocZ_elem.
  - by destruct (bool_decide _).
Qed.
#[local] Hint Resolve stay_dispatch : stay.

Lemma stay_run `{Host} (fuel : nat) : after settledStay (run fuel).
Proof. induction fuel as [|fuel IH]; simpl; stays. Qed.
#[local] Hint Resolve stay_run : stay.

Lemma stay_eventLoop `{Host} (fuel : nat) : after settledStay (eventLoop fuel).
Proof.
  induction fuel as [|fuel IH]; simpl.
  - stays.
  - apply after_bind; [exact settledStay_trans|stays|intros vm].
    destruct (_ && _); [stays|]. destruct (hasError vm); [stays|].
    apply after_bind; [exact settledStay_trans|apply (stay_runMicrotasks (S fuel))|intros _].
    apply after_bind; [exact settledStay_trans|stays|intros frs].
    apply after_bind; [exact settledStay_trans| |intros stop].
    + destruct frs; [stays|].
      apply after_bind; [exact settledStay_trans|apply (stay_run (S fuel))|intros r]. stays.
    + destruct stop; [stays|].
      apply after_bind; [exact settledStay_trans|stays|intros vm'].
      destruct (_ && _); stays.
Qed.
#[local] Hint Resolve stay_eventLoop : stay.

Lemma stay_interpret `{Host} (fuel : nat) (mainFunction : FunctionObject) :
  after settledStay (interpret fuel mainFunction).
Proof. unfold interpret, new_closure, promise_reject, setStackLength. stays. Qed.

Lemma reject_fires (vm : VM) (p : nat) (cell : PromiseV1.t) (r : Value) :
  promises vm !! p = Some cell → PromiseV1.state cell = PENDING →
  Forall queuingCallback (PromiseV1.onRejectedCallbacks cell) →
  _rejectInternal p r vm
  = Ok tt (queued (flat_map (λ cb, firing cb r) (PromiseV1.onRejectedCallbacks cell))
             (withPromise p (rejectedCell r cell) vm)).
Proof.
  intros Hp Hst Hq.
  assert (Hlt : (p < length (promises vm))%nat) by by eapply lookup_lt_Some.
  unfold _rejectInternal. mstep. unfold id, settleFuel.
  cbn [Nat.add rejectInternal]. unfold deref_promise, deref.
  mstep by (rewrite Hp; reflexivity). rewrite Hst.
  mstep. mstep by (by apply forEach_invoke).
  mstep by (simpl; rewrite list_lookup_insert_eq by done; reflexivity).
  unfold set_promise, modify, queued, withPromise, rejectedCell. simpl.
  by rewrite list_insert_insert_eq.
Qed.

Lemma settled_ignores (vm : VM) (p : nat) (cell : PromiseV1.t) (x : Value) :
  promises vm !! p = Some cell → PromiseV1.state cell ≠ PENDING →
  _resolveInternal p x vm = Ok tt vm ∧ _rejectInternal p x vm = Ok tt vm.
Proof.
  intros Hp Hst. unfold _resolveInternal, _rejectInternal.
  split; mstep; unfold id, settleFuel; cbn [Nat.add resolveInternal rejectInternal];
    unfold deref_promise, deref; (mstep by (rewrite Hp; reflexivity));
    by destruct (PromiseV1.state cell).
Qed.

Lemma then_pending (vm : VM) (p : nat) (cell : PromiseV1.t) (f g : Value) :
  promises vm !! p = Some cell → PromiseV1.state cell = PENDING →
  promise_then p f g vm
  = Ok (length (promises vm))
       (withPromise p (registeredCell f g (length (promises vm)) cell) (allocated vm)).
Proof.
  intros Hp Hst. unfold promise_then. unfold new_promise at 1.
  mstep. unfold deref_promise, deref.
  mstep by (simpl; rewrite lookup_app_l by (by eapply lookup_lt_Some); rewrite Hp; reflexivity).
  rewrite Hst. unfold registeredCell, registrations, withPromise, allocated.
  by destruct (truthy f), (truthy g); rewrite ?app_nil_r.
Qed.

Lemma then_settled (vm : VM) (p : nat) (cell : PromiseV1.t) (f g : Value) :
  promises vm !! p = Some cell → PromiseV1.state cell ≠ PENDING →
  promise_then p f g vm
  = Ok (length (promises vm))
       (queued [ThenSettledTask p (settledCallback f g (length (promises vm)) cell)]
          (allocated vm)).
Proof.
  intros Hp Hst. unfold promise_then. unfold new_promise at 1.
  mstep. unfold deref_promise, deref.
  mstep by (simpl; rewrite lookup_app_l by (by eapply lookup_lt_Some); rewrite Hp; reflexivity).
  unfold settledCallback. by destruct (PromiseV1.state cell).
Qed.

Lemma thenSettled_fires (vm : VM) (p : nat) (cell : PromiseV1.t) (cb : Callback) :
  promises vm !! p = Some cell → queuingCallback cb →
  runMicrotask (ThenSettledTask p cb) vm = Ok tt (queued (firing cb (settledWith cb cell)) vm).
Proof.
  intros Hp Hq. unfold runMicrotask, try_catch, callTask, deref_promise, deref.
  mstep by (rewrite Hp; reflexivity). mstep. unfold id, settleFuel.
  change (4 + ?n)%nat with (S (S (S (S n)))).
  rewrite invokeCallback_queues by done. reflexivity.
Qed.


(** The microtasks [resolve] and [reject] queue do nothing to a settled
    promise. *)
Lemma settled_task_ignored (vm : VM) (p : nat) (cell : PromiseV1.t) (x : Value) :
  promises vm !! p = Some cell → PromiseV1.state cell ≠ PENDING →
  runMicrotask (ResolveInternalTask p x) vm = Ok tt vm
  ∧ runMicrotask (RejectInternalTask p x) vm = Ok tt vm.
Proof.
  intros Hp Hst. destruct (settled_ignores vm p cell x Hp Hst) as [Hres Hrej].
  unfold runMicrotask, try_catch, callTask. by rewrite Hres, Hrej.
Qed.

(** ** Settlement through adoption handlers *)

Lemma countPending_insert (cells : list PromiseV1.t) (p : nat) (cell cell' : PromiseV1.t) :
  cells !! p = Some cell → PromiseV1.state cell = PENDING →
  (countPending (<[p := cell']> cells)
   + (match PromiseV1.state cell' with PENDING => 0 | _ => 1 end)
   = countPending cells)%nat.
Proof.
  revert p. induction cells as [|c cells IH]; intros p Hp Hst; [done|].
  destruct p as [|p]; simpl in *.
  - injection Hp as ->. rewrite Hst. destruct (PromiseV1.state cell'); lia.
  - specialize (IH p Hp Hst). destruct (PromiseV1.state c); lia.
Qed.

Lemma countPending_insert_settled (cells : list PromiseV1.t) (p : nat) (cell cell' : PromiseV1.t) :
  cells !! p = Some cell → PromiseV1.state cell' = PromiseV1.state cell →
  countPending (<[p := cell']> cells) = countPending cells.
Proof.
  revert p. induction cells as [|c cells IH]; intros p Hp Hst; [done|].
  destruct p as [|p]; simpl in *.
  - injection Hp as ->. by rewrite Hst.
  - by rewrite (IH p Hp Hst).
Qed.

Lemma countPending_pending (cells : list PromiseV1.t) (p : nat) (cell : PromiseV1.t) :
  cells !! p = Some cell → PromiseV1.state cell = PENDING → (0 < countPending cells)%nat.
Proof.
  revert p. induction cells as [|c cells IH]; intros p Hp Hst; [done|].
  destruct p as [|p]; simpl in *.
  - injection Hp as ->. rewrite Hst. lia.
  - specialize (IH p Hp Hst). destruct (PromiseV1.state c); lia.
Qed.

Lemma countPending_length (cells : list PromiseV1.t) :
  (countPending cells ≤ length cells)%nat.
Proof. induction cells as [|c cells IH]; simpl; [lia|]. destruct (PromiseV1.state c); lia. Qed.

Lemma fulfilmentCallback_length (vm vm' : VM) (cb : Callback) :
  length (promises vm') = length (promises vm) →
  fulfilmentCallback vm cb → fulfilmentCallback vm' cb.
Proof. intros Hlen. unfold fulfilmentCallback. by rewrite Hlen. Qed.

Lemma rejectionCallback_length (vm vm' : VM) (cb : Callback) :
  length (promises vm') = length (promises vm) →
  rejectionCallback vm cb → rejectionCallback vm' cb.
Proof. intros Hlen. unfold rejectionCallback. by rewrite Hlen. Qed.

Lemma wellRegistered_lookup (vm : VM) (p : nat) (cell : PromiseV1.t) :
  wellRegistered vm → promises vm !! p = Some cell →
  Forall (fulfilmentCallback vm) (PromiseV1.onFulfilledCallbacks cell)
  ∧ Forall (rejectionCallback vm) (PromiseV1.onRejectedCallbacks cell).
Proof. intros Hwf Hp. exact (proj1 (Forall_lookup _ _) Hwf p cell Hp). Qed.

(** Replacing a cell by one whose lists are registered keeps the store
    registered. *)
Lemma wellRegistered_insert (vm : VM) (p : nat) (cell : PromiseV1.t) :
  wellRegistered vm →
  Forall (fulfilmentCallback vm) (PromiseV1.onFulfilledCallbacks cell) →
  Forall (rejectionCallback vm) (PromiseV1.onRejectedCallbacks cell) →
  wellRegistered (withPromise p cell vm).
Proof.
  intros Hwf Hfs Hrs. unfold wellRegistered in *.
  assert (Hlen : length (promises (withPromise p cell vm)) = length (promises vm))
    by (simpl; apply length_insert).
  set (vm' := withPromise p cell vm) in *.
  assert (promises vm' = <[p := cell]> (promises vm)) as -> by reflexivity.
  apply Forall_insert.
  - eapply Forall_impl; [exact Hwf|]. intros c [Hf Hr]. split.
    + eapply Forall_impl; [exact Hf|]. intros cb. by apply fulfilmentCallback_length.
    + eapply Forall_impl; [exact Hr|]. intros cb. by apply rejectionCallback_length.
  - split.
    + eapply Forall_impl; [exact Hfs|]. intros cb. by apply fulfilmentCallback_length.
    + eapply Forall_impl; [exact Hrs|]. intros cb. by apply rejectionCallback_length.
Qed.

Lemma wellRegistered_queued (tasks : list Microtask) (vm : VM) :
  wellRegistered vm → wellRegistered (queued tasks vm).
Proof. done. Qed.

Lemma settlesOnly_refl (vm : VM) : settlesOnly vm vm.
Proof. by split_and!. Qed.

Lemma settlesOnly_trans (a b c : VM) : settlesOnly a b → settlesOnly b c → settlesOnly a c.
Proof.
  intros (Hl1 & Hc1 & Hs1 & Hw1) (Hl2 & Hc2 & Hs2 & Hw2). split_and!.
  - congruence.
  - lia.
  - intros q cell Hq Hst. apply Hs2; [|done]. by apply Hs1.
  - intros Hwf. by apply Hw2, Hw1.
Qed.

Lemma settlesOnly_queued (tasks : list Microtask) (vm : VM) : settlesOnly vm (queued tasks vm).
Proof. by split_and!. Qed.

(** A pending promise that starts to settle, and a settling promise whose
    list is emptied. *)
Lemma settlesOnly_settling (vm : VM) (p : nat) (cell cell' : PromiseV1.t) :
  promises vm !! p = Some cell → PromiseV1.state cell = PENDING →
  Forall (fulfilmentCallback vm) (PromiseV1.onFulfilledCallbacks cell') →
  Forall (rejectionCallback vm) (PromiseV1.onRejectedCallbacks cell') →
  settlesOnly vm (withPromise p cell' vm).
Proof.
  intros Hp Hst Hfs Hrs. split_and!.
  - simpl. apply length_insert.
  - simpl. pose proof (countPending_insert (promises vm) p cell cell' Hp Hst). lia.
  - intros q c Hq Hc. simpl.
    destruct (decide (q = p)) as [->|Hne]; [congruence|].
    by rewrite list_lookup_insert_ne.
  - intros Hwf. by apply wellRegistered_insert.
Qed.

Lemma afterFiring_queuing (fulfil reject : nat → Value → VM → VM) (cb : Callback)
    (arg : Value) (vm : VM) :
  queuingCallback cb → afterFiring fulfil reject cb arg vm = queued (firing cb arg) vm.
Proof.
  unfold queuingCallback.
  destruct cb as [f np|f np]; simpl;
    (destruct f as [| | | | | | | | | | | | |h]; try reflexivity);
    by destruct h.
Qed.

(** One callback of the list of fulfilment fires, given what the nested
    settlements do. *)
Lemma invoke_fulfilment (fuel depth : nat) (cb : Callback) (v : Value) (vm : VM) :
  (∀ q s, (q < length (promises s))%nat → wellRegistered s →
          (countPending (promises s) ≤ depth)%nat →
          resolveInternal fuel q v s = Ok tt (afterFulfilment depth q v s)
          ∧ settlesOnly s (afterFulfilment depth q v s)) →
  fulfilmentCallback vm cb → wellRegistered vm →
  (countPending (promises vm) ≤ depth)%nat →
  invokeCallback (S (S fuel)) cb v vm
  = Ok tt (afterFiring (afterFulfilment depth) (afterRejection depth) cb v vm)
  ∧ settlesOnly vm (afterFiring (afterFulfilment depth) (afterRejection depth) cb v vm).
Proof.
  intros IH Hcb Hwf Hcount.
  assert (Hqueues : queuingCallback cb →
    invokeCallback (S (S fuel)) cb v vm
    = Ok tt (afterFiring (afterFulfilment depth) (afterRejection depth) cb v vm)
    ∧ settlesOnly vm (afterFiring (afterFulfilment depth) (afterRejection depth) cb v vm)).
  { intros Hq. rewrite afterFiring_queuing by done. split; [|apply settlesOnly_queued].
    by apply invokeCallback_queues. }
  destruct cb as [f np|f np]; [|done].
  destruct f as [| | | | | | | | | | | | |h]; try (by apply Hqueues).
  destruct h as [| | | | |q| | |]; try (by apply Hqueues); try done.
  simpl in Hcb. destruct (IH q vm Hcb Hwf Hcount) as [Hrun Honly].
  split.
  - cbn [invokeCallback callHandler truthy negb]. unfold try_catch.
    unfold mbind, M_bind. rewrite Hrun. reflexivity.
  - cbn [afterFiring]. eapply settlesOnly_trans; [exact Honly|apply settlesOnly_queued].
Qed.

Lemma invoke_rejection (fuel depth : nat) (cb : Callback) (r : Value) (vm : VM) :
  (∀ q s, (q < length (promises s))%nat → wellRegistered s →
          (countPending (promises s) ≤ depth)%nat →
          rejectInternal fuel q r s = Ok tt (afterRejection depth q r s)
          ∧ settlesOnly s (afterRejection depth q r s)) →
  rejectionCallback vm cb → wellRegistered vm →
  (countPending (promises vm) ≤ depth)%nat →
  invokeCallback (S (S fuel)) cb r vm
  = Ok tt (afterFiring (afterFulfilment depth) (afterRejection depth) cb r vm)
  ∧ settlesOnly vm (afterFiring (afterFulfilment depth) (afterRejection depth) cb r vm).
Proof.
  intros IH Hcb Hwf Hcount.
  assert (Hqueues : queuingCallback cb →
    invokeCallback (S (S fuel)) cb r vm
    = Ok tt (afterFiring (afterFulfilment depth) (afterRejection depth) cb r vm)
    ∧ settlesOnly vm (afterFiring (afterFulfilment depth) (afterRejection depth) cb r vm)).
  { intros Hq. rewrite afterFiring_queuing by done. split; [|apply settlesOnly_queued].
    by apply invokeCallback_queues. }
  destruct cb as [f np|f np]; [done|].
  destruct f as [| | | | | | | | | | | | |h]; try (by apply Hqueues).
  destruct h as [| | | | | |q| |]; try (by apply Hqueues); try done.
  simpl in Hcb. destruct (IH q vm Hcb Hwf Hcount) as [Hrun Honly].
  split.
  - cbn [invokeCallback callHandler truthy negb]. unfold try_catch.
    unfold mbind, M_bind. rewrite Hrun. reflexivity.
  - cbn [afterFiring]. eapply settlesOnly_trans; [exact Honly|apply settlesOnly_queued].
Qed.

(** The callbacks of a list fire one after the other. *)
Lemma forEach_fulfilment (fuel depth : nat) (v : Value) (cbs : list Callback) :
  (∀ q s, (q < length (promises s))%nat → wellRegistered s →
          (countPending (promises s) ≤ depth)%nat →
          resolveInternal fuel q v s = Ok tt (afterFulfilment depth q v s)
          ∧ settlesOnly s (afterFulfilment depth q v s)) →
  ∀ vm, Forall (fulfilmentCallback vm) cbs → wellRegistered vm →
        (countPending (promises vm) ≤ depth)%nat →
        forEach cbs (λ cb, invokeCallback (S (S fuel)) cb v) vm
        = Ok tt (fold_left
                   (λ vm' cb, afterFiring (afterFulfilment depth) (afterRejection depth) cb v vm')
                   cbs vm)
        ∧ settlesOnly vm
            (fold_left
               (λ vm' cb, afterFiring (afterFulfilment depth) (afterRejection depth) cb v vm')
               cbs vm).
Proof.
  intros IH. induction cbs as [|cb cbs IHcbs]; intros vm Hcbs Hwf Hcount.
  - split; [reflexivity|apply settlesOnly_refl].
  - inversion Hcbs as [|? ? Hcb Hrest]; subst.
    destruct (invoke_fulfilment fuel depth cb v vm IH Hcb Hwf Hcount) as [Hrun Honly].
    destruct Honly as (Hlen & Hle & Hsettled & Hreg).
    destruct (IHcbs (afterFiring (afterFulfilment depth) (afterRejection depth) cb v vm))
      as [Hruns Honlys].
    + eapply Forall_impl; [exact Hrest|]. intros c. by apply fulfilmentCallback_length.
    + by apply Hreg.
    + lia.
    + cbn [forEach fold_left]. split.
      * by mstep by (exact Hrun).
      * eapply settlesOnly_trans; [|exact Honlys]. by split_and!.
Qed.

Lemma forEach_rejection (fuel depth : nat) (r : Value) (cbs : list Callback) :
  (∀ q s, (q < length (promises s))%nat → wellRegistered s →
          (countPending (promises s) ≤ depth)%nat →
          rejectInternal fuel q r s = Ok tt (afterRejection depth q r s)
          ∧ settlesOnly s (afterRejection depth q r s)) →
  ∀ vm, Forall (rejectionCallback vm) cbs → wellRegistered vm →
        (countPending (promises vm) ≤ depth)%nat →
        forEach cbs (λ cb, invokeCallback (S (S fuel)) cb r) vm
        = Ok tt (fold_left
                   (λ vm' cb, afterFiring (afterFulfilment depth) (afterRejection depth) cb r vm')
                   cbs vm)
        ∧ settlesOnly vm
            (fold_left
               (λ vm' cb, afterFiring (afterFulfilment depth) (afterRejection depth) cb r vm')
               cbs vm).
Proof.
  intros IH. induction cbs as [|cb cbs IHcbs]; intros vm Hcbs Hwf Hcount.
  - split; [reflexivity|apply settlesOnly_refl].
  - inversion Hcbs as [|? ? Hcb Hrest]; subst.
    destruct (invoke_rejection fuel depth cb r vm IH Hcb Hwf Hcount) as [Hrun Honly].
    destruct Honly as (Hlen & Hle & Hsettled & Hreg).
    destruct (IHcbs (afterFiring (afterFulfilment depth) (afterRejection depth) cb r vm))
      as [Hruns Honlys].
    + eapply Forall_impl; [exact Hrest|]. intros c. by apply rejectionCallback_length.
    + by apply Hreg.
    + lia.
    + cbn [forEach fold_left]. split.
      * by mstep by (exact Hrun).
      * eapply settlesOnly_trans; [|exact Honlys]. by split_and!.
Qed.

(** [_resolveInternal] with a value that is no promise, on a store whose
    lists hold what [then] leaves: the fuel suffices for every nesting of
    adoptions, and the VM it returns is the one the settlement describes. *)
Lemma fulfilment_settles (depth : nat) : ∀ (fuel p : nat) (v : Value) (vm : VM),
  (3 * depth + 1 ≤ fuel)%nat → isPromise v = false →
  (p < length (promises vm))%nat → wellRegistered vm →
  (countPending (promises vm) ≤ depth)%nat →
  resolveInternal fuel p v vm = Ok tt (afterFulfilment depth p v vm)
  ∧ settlesOnly vm (afterFulfilment depth p v vm).
Proof.
  induction depth as [|depth IH]; intros fuel p v vm Hfuel Hv Hp Hwf Hcount.
  - destruct fuel as [|fuel]; [lia|].
    destruct (lookup_lt_is_Some_2 _ _ Hp) as [cell Hcell].
    cbn [resolveInternal afterFulfilment]. unfold deref_promise, deref.
    mstep by (rewrite Hcell; reflexivity).
    destruct (PromiseV1.state cell) eqn:Hst.
    + pose proof (countPending_pending _ _ _ Hcell Hst). lia.
    + split; [reflexivity|apply settlesOnly_refl].
    + split; [reflexivity|apply settlesOnly_refl].
  - destruct fuel as [|[|[|fuel]]]; try lia.
    destruct (lookup_lt_is_Some_2 _ _ Hp) as [cell Hcell].
    cbn [resolveInternal afterFulfilment]. unfold deref_promise, deref.
    mstep by (rewrite Hcell; reflexivity). rewrite Hcell.
    destruct (PromiseV1.state cell) eqn:Hst;
      [|split; [reflexivity|apply settlesOnly_refl]..].
    destruct (wellRegistered_lookup vm p cell Hwf Hcell) as [Hfs Hrs].
    pose proof (settlesOnly_settling vm p cell (fulfillingCell v cell) Hcell Hst Hfs Hrs)
      as (Hlen1 & Hle1 & Hsettled1 & Hreg1).
    pose proof (countPending_insert (promises vm) p cell (fulfillingCell v cell) Hcell Hst)
      as Hless.
    destruct (forEach_fulfilment fuel depth v (PromiseV1.onFulfilledCallbacks cell)
                (λ q s Hq Hs Hc, IH fuel q v s ltac:(lia) Hv Hq Hs Hc)
                (withPromise p (fulfillingCell v cell) vm)) as [Hrun Honly].
    { eapply Forall_impl; [exact Hfs|]. intros c. by apply fulfilmentCallback_length. }
    { by apply Hreg1. }
    { simpl in *. lia. }
    set (vm1 := fold_left _ _ _) in *.
    destruct Honly as (Hlen2 & Hle2 & Hsettled2 & Hreg2).
    assert (Hcell1 : promises vm1 !! p = Some (fulfillingCell v cell)).
    { apply Hsettled2; [|done]. simpl. by apply list_lookup_insert_eq. }
    assert (Hgo :
      (set_promise p (PromiseV1.mk FULFILLED v (PromiseV1.reason cell)
                        (PromiseV1.onFulfilledCallbacks cell)
                        (PromiseV1.onRejectedCallbacks cell));;
       forEach (PromiseV1.onFulfilledCallbacks cell)
         (λ cb, invokeCallback (S (S fuel)) cb v);;
       cell' ← deref "PromiseV1" promises p;
       set_promise p (PromiseV1.mk (PromiseV1.state cell') (PromiseV1.value cell')
                        (PromiseV1.reason cell') [] (PromiseV1.onRejectedCallbacks cell'))) vm
      = Ok tt (withPromise p (fulfilledCell v cell) vm1)).
    { mstep. mstep by (exact Hrun). unfold deref.
      mstep by (rewrite Hcell1; reflexivity). reflexivity. }
    split; [destruct v; try discriminate; exact Hgo|].
    split_and!.
    + simpl. rewrite length_insert. congruence.
    + simpl. rewrite (countPending_insert_settled _ _ _ _ Hcell1) by done. lia.
    + intros q c Hq Hc. simpl.
      destruct (decide (q = p)) as [->|Hne]; [congruence|].
      rewrite list_lookup_insert_ne by done. apply Hsettled2; [|done]. by apply Hsettled1.
    + intros _. apply wellRegistered_insert; [by apply Hreg2, Hreg1|constructor|].
      simpl. eapply Forall_impl; [exact Hrs|]. intros c.
      apply rejectionCallback_length. congruence.
Qed.

Lemma rejection_settles (depth : nat) : ∀ (fuel p : nat) (r : Value) (vm : VM),
  (3 * depth + 1 ≤ fuel)%nat →
  (p < length (promises vm))%nat → wellRegistered vm →
  (countPending (promises vm) ≤ depth)%nat →
  rejectInternal fuel p r vm = Ok tt (afterRejection depth p r vm)
  ∧ settlesOnly vm (afterRejection depth p r vm).
Proof.
  induction depth as [|depth IH]; intros fuel p r vm Hfuel Hp Hwf Hcount.
  - destruct fuel as [|fuel]; [lia|].
    destruct (lookup_lt_is_Some_2 _ _ Hp) as [cell Hcell].
    cbn [rejectInternal afterRejection]. unfold deref_promise, deref.
    mstep by (rewrite Hcell; reflexivity).
    destruct (PromiseV1.state cell) eqn:Hst.
    + pose proof (countPending_pending _ _ _ Hcell Hst). lia.
    + split; [reflexivity|apply settlesOnly_refl].
    + split; [reflexivity|apply settlesOnly_refl].
  - destruct fuel as [|[|[|fuel]]]; try lia.
    destruct (lookup_lt_is_Some_2 _ _ Hp) as [cell Hcell].
    cbn [rejectInternal afterRejection]. unfold deref_promise, deref.
    mstep by (rewrite Hcell; reflexivity). rewrite Hcell.
    destruct (PromiseV1.state cell) eqn:Hst;
      [|split; [reflexivity|apply settlesOnly_refl]..].
    destruct (wellRegistered_lookup vm p cell Hwf Hcell) as [Hfs Hrs].
    pose proof (settlesOnly_settling vm p cell (rejectingCell r cell) Hcell Hst Hfs Hrs)
      as (Hlen1 & Hle1 & Hsettled1 & Hreg1).
    pose proof (countPending_insert (promises vm) p cell (rejectingCell r cell) Hcell Hst)
      as Hless.
    destruct (forEach_rejection fuel depth r (PromiseV1.onRejectedCallbacks cell)
                (λ q s Hq Hs Hc, IH fuel q r s ltac:(lia) Hq Hs Hc)
                (withPromise p (rejectingCell r cell) vm)) as [Hrun Honly].
    { eapply Forall_impl; [exact Hrs|]. intros c. by apply rejectionCallback_length. }
    { by apply Hreg1. }
    { simpl in *. lia. }
    set (vm1 := fold_left _ _ _) in *.
    destruct Honly as (Hlen2 & Hle2 & Hsettled2 & Hreg2).
    assert (Hcell1 : promises vm1 !! p = Some (rejectingCell r cell)).
    { apply Hsettled2; [|done]. simpl. by apply list_lookup_insert_eq. }
    split.
    { mstep. mstep by (exact Hrun). unfold deref.
      mstep by (rewrite Hcell1; reflexivity). reflexivity. }
    split_and!.
    + simpl. rewrite length_insert. congruence.
    + simpl. rewrite (countPending_insert_settled _ _ _ _ Hcell1) by done. lia.
    + intros q c Hq Hc. simpl.
      destruct (decide (q = p)) as [->|Hne]; [congruence|].
      rewrite list_lookup_insert_ne by done. apply Hsettled2; [|done]. by apply Hsettled1.
    + intros _. apply wellRegistered_insert; [by apply Hreg2, Hreg1| |constructor].
      simpl. eapply Forall_impl; [exact Hfs|]. intros c.
      apply fulfilmentCallback_length. congruence.
Qed.

(** The cell of a promise the settlement found pending. *)
Lemma afterFulfilment_cell (depth p : nat) (v : Value) (vm : VM) (cell : PromiseV1.t) :
  promises vm !! p = Some cell → PromiseV1.state cell = PENDING →
  settlesOnly vm (afterFulfilment (S depth) p v vm) →
  promises (afterFulfilment (S depth) p v vm) !! p = Some (fulfilledCell v cell).
Proof.
  intros Hp Hst (Hlen & _). revert Hlen. cbn [afterFulfilment]. rewrite Hp, Hst.
  intros Hlen. simpl in *. rewrite length_insert in Hlen.
  apply list_lookup_insert_eq. rewrite Hlen. by eapply lookup_lt_Some.
Qed.

Lemma afterRejection_cell (depth p : nat) (r : Value) (vm : VM) (cell : PromiseV1.t) :
  promises vm !! p = Some cell → PromiseV1.state cell = PENDING →
  settlesOnly vm (afterRejection (S depth) p r vm) →
  promises (afterRejection (S depth) p r vm) !! p = Some (rejectedCell r cell).
Proof.
  intros Hp Hst (Hlen & _). revert Hlen. cbn [afterRejection]. rewrite Hp, Hst.
  intros Hlen. simpl in *. rewrite length_insert in Hlen.
  apply list_lookup_insert_eq. rewrite Hlen. by eapply lookup_lt_Some.
Qed.

Lemma resolve_settles (vm : VM) (p : nat) (cell : PromiseV1.t) (v : Value) :
  promises vm !! p = Some cell → PromiseV1.state cell = PENDING →
  isPromise v = false → wellRegistered vm →
  _resolveInternal p v vm = Ok tt (afterFulfilment (length (promises vm)) p v vm)
  ∧ promises (afterFulfilment (length (promises vm)) p v vm) !! p = Some (fulfilledCell v cell)
  ∧ settlesOnly vm (afterFulfilment (length (promises vm)) p v vm).
Proof.
  intros Hp Hst Hv Hwf.
  assert (Hlt : (p < length (promises vm))%nat) by by eapply lookup_lt_Some.
  destruct (fulfilment_settles (length (promises vm)) (settleFuel vm) p v vm)
    as [Hrun Honly]; [unfold settleFuel; lia|done|done|done|apply countPending_length|].
  split_and!; [|destruct (length (promises vm)) eqn:Hl; [lia|by apply afterFulfilment_cell]|done].
  unfold _resolveInternal. by mstep.
Qed.

Lemma reject_settles (vm : VM) (p : nat) (cell : PromiseV1.t) (r : Value) :
  promises vm !! p = Some cell → PromiseV1.state cell = PENDING → wellRegistered vm →
  _rejectInternal p r vm = Ok tt (afterRejection (length (promises vm)) p r vm)
  ∧ promises (afterRejection (length (promises vm)) p r vm) !! p = Some (rejectedCell r cell)
  ∧ settlesOnly vm (afterRejection (length (promises vm)) p r vm).
Proof.
  intros Hp Hst Hwf.
  assert (Hlt : (p < length (promises vm))%nat) by by eapply lookup_lt_Some.
  destruct (rejection_settles (length (promises vm)) (settleFuel vm) p r vm)
    as [Hrun Honly]; [unfold settleFuel; lia|done|done|apply countPending_length|].
  split_and!; [|destruct (length (promises vm)) eqn:Hl; [lia|by apply afterRejection_cell]|done].
  unfold _rejectInternal. by mstep.
Qed.

(** The microtask [then] queues on a settled promise fires its callback,
    adoption handlers included. *)
Lemma thenSettled_settles (vm : VM) (p : nat) (cell : PromiseV1.t) (cb : Callback) :
  promises vm !! p = Some cell → wellRegistered vm →
  (fulfilmentCallback vm cb ∧ isPromise (PromiseV1.value cell) = false)
  ∨ rejectionCallback vm cb →
  runMicrotask (ThenSettledTask p cb) vm
  = Ok tt (afterFiring (afterFulfilment (length (promises vm)))
             (afterRejection (length (promises vm))) cb (settledWith cb cell) vm)
  ∧ settlesOnly vm
      (afterFiring (afterFulfilment (length (promises vm)))
         (afterRejection (length (promises vm))) cb (settledWith cb cell) vm).
Proof.
  intros Hp Hwf Hcb.
  assert (Hrun :
    invokeCallback (settleFuel vm) cb (settledWith cb cell) vm
    = Ok tt (afterFiring (afterFulfilment (length (promises vm)))
               (afterRejection (length (promises vm))) cb (settledWith cb cell) vm)
    ∧ settlesOnly vm
        (afterFiring (afterFulfilment (length (promises vm)))
           (afterRejection (length (promises vm))) cb (settledWith cb cell) vm)).
  { unfold settleFuel. change (4 + ?n)%nat with (S (S (2 + n))).
    destruct Hcb as [[Hcb Hv]|Hcb].
    - apply invoke_fulfilment; [|done|done|apply countPending_length].
      intros q s Hq Hs Hc. destruct cb; [|done]. cbn [settledWith].
      apply fulfilment_settles; [lia|done|done|done|done].
    - apply invoke_rejection; [|done|done|apply countPending_length].
      intros q s Hq Hs Hc. apply rejection_settles; [lia|done|done|done]. }
  destruct Hrun as [Hrun Honly]. split; [|done].
  unfold runMicrotask, try_catch, callTask, deref_promise, deref.
  mstep by (rewrite Hp; reflexivity). mstep. unfold id.
  fold (settledWith cb cell). by rewrite Hrun.
Qed.

Lemma fulfilmentCallback_grows (vm vm' : VM) (cb : Callback) :
  (length (promises vm) ≤ length (promises vm'))%nat →
  fulfilmentCallback vm cb → fulfilmentCallback vm' cb.
Proof.
  intros Hlen. destruct cb as [f np|f np]; [|done].
  destruct f as [| | | | | | | | | | | | |h]; try done.
  destruct h; try done. simpl. lia.
Qed.

Lemma rejectionCallback_grows (vm vm' : VM) (cb : Callback) :
  (length (promises vm) ≤ length (promises vm'))%nat →
  rejectionCallback vm cb → rejectionCallback vm' cb.
Proof.
  intros Hlen. destruct cb as [f np|f np]; [done|].
  destruct f as [| | | | | | | | | | | | |h]; try done.
  destruct h; try done. simpl. lia.
Qed.

Lemma wellRegistered_allocated (vm : VM) : wellRegistered vm → wellRegistered (allocated vm).
Proof.
  intros Hwf. unfold wellRegistered in *.
  assert (Hlen : (length (promises vm) ≤ length (promises (allocated vm)))%nat)
    by (simpl; rewrite length_app; lia).
  set (vm' := allocated vm) in *.
  assert (promises vm' = promises vm ++ [PromiseV1.fresh]) as -> by reflexivity.
  apply Forall_app. split; [|by repeat constructor].
  eapply Forall_impl; [exact Hwf|]. intros c [Hf Hr]. split.
  - eapply Forall_impl; [exact Hf|]. intros cb. by apply fulfilmentCallback_grows.
  - eapply Forall_impl; [exact Hr|]. intros cb. by apply rejectionCallback_grows.
Qed.

(** [then] keeps the lists registered, for handlers that may be registered. *)
Lemma wellRegistered_registered (vm : VM) (p : nat) (cell : PromiseV1.t) (f g : Value) :
  promises vm !! p = Some cell → wellRegistered vm →
  fulfilmentCallback vm (scheduleFulfillment f (length (promises vm))) →
  rejectionCallback vm (scheduleRejection g (length (promises vm))) →
  wellRegistered (withPromise p (registeredCell f g (length (promises vm)) cell) (allocated vm)).
Proof.
  intros Hp Hwf Hf Hg.
  destruct (wellRegistered_lookup vm p cell Hwf Hp) as [Hfs Hrs].
  assert (Hlen : (length (promises vm) ≤ length (promises (allocated vm)))%nat)
    by (simpl; rewrite length_app; lia).
  apply wellRegistered_insert; [by apply wellRegistered_allocated| |]; simpl;
    apply Forall_app; split.
  - eapply Forall_impl; [exact Hfs|]. intros cb. by apply fulfilmentCallback_grows.
  - unfold registrations. destruct (truthy f); [|constructor].
    repeat constructor. by eapply fulfilmentCallback_grows.
  - eapply Forall_impl; [exact Hrs|]. intros cb. by apply rejectionCallback_grows.
  - unfold registrations. destruct (truthy g); [|constructor].
    repeat constructor. by eapply rejectionCallback_grows.
Qed.

(** A pending promise resolved with a promise hands its adoption handlers
    to [then] and stays pending. *)
Lemma resolve_adopts (vm : VM) (p q : nat) (cell cell' : PromiseV1.t) :
  promises vm !! p = Some cell → PromiseV1.state cell = PENDING →
  promises vm !! q = Some cell' →
  _resolveInternal p (VPromise q) vm = Ok tt (adopting p q vm)
  ∧ (wellRegistered vm → wellRegistered (adopting p q vm)).
Proof.
  intros Hp Hst Hq.
  assert (Hlt : (p < length (promises vm))%nat) by by eapply lookup_lt_Some.
  unfold adopting. rewrite Hq. split.
  - unfold _resolveInternal. mstep. unfold id, settleFuel.
    cbn [Nat.add resolveInternal]. unfold deref_promise, deref.
    mstep by (rewrite Hp; reflexivity). rewrite Hst.
    destruct (PromiseV1.state cell') eqn:Hst'.
    + by mstep by (by apply then_pending).
    + mstep by (apply (then_settled vm q cell'); [done|by rewrite Hst']).
      unfold settledCallback. by rewrite Hst'.
    + mstep by (apply (then_settled vm q cell'); [done|by rewrite Hst']).
      unfold settledCallback. by rewrite Hst'.
  - intros Hwf. destruct (PromiseV1.state cell') eqn:Hst'.
    + by apply wellRegistered_registered.
    + by apply wellRegistered_queued, wellRegistered_allocated.
    + by apply wellRegistered_queued, wellRegistered_allocated.
Qed.

(** C6.  Promise settlement is one-shot.
    Never changes again: whatever the VM does (a method of PromiseV1, a
    microtask, an instruction, [run], the event loop, [interpret]), every
    promise settled before has the same state, value and reason after.
    No effect: on a settled promise [_resolveInternal] and [_rejectInternal],
    called directly or from the microtask [resolve] and [reject] queue,
    return with the VM unchanged, callback lists and queue included.
    Exactly once: [then] on a pending promise adds one callback per handler
    given; the settlement fires each callback registered for it once, in
    order of registration, and empties the list, and the callbacks
    registered for the other outcome can never fire, the promise staying as
    it is; [then] on a settled promise queues one microtask, which fires the
    one callback once.
    A firing is read off the VM it leaves.  For a handler whose call only
    queues microtasks, these are the microtasks queued.  The adoption
    handlers that [_resolveInternal] hands to [then] when a promise is
    resolved with a promise settle the adopting promise on the spot: their
    firing is that one settlement, which in turn fires each callback of the
    adopting promise once, followed by [newPromise.resolve(undefined)].
    With them the lists of the store are to hold what [then] leaves there
    (no opaque host function as a handler, and an adoption handler in the
    list of its outcome, for a promise of the store); [then] and every
    settlement keep the store so. *)
Theorem promise_settlement_is_one_shot `{Host} (vm : VM) (p : nat) (cell : PromiseV1.t) :
  promises vm !! p = Some cell →
  let newPromise := length (promises vm) in
  let fulfil := afterFulfilment (length (promises vm)) in
  let reject := afterRejection (length (promises vm)) in
  ((∀ q f g, after settledStay (promise_then q f g))
   ∧ (∀ q x, after settledStay (_resolveInternal q x))
   ∧ (∀ q x, after settledStay (_rejectInternal q x))
   ∧ (∀ task, after settledStay (runMicrotask task))
   ∧ (∀ fuel, after settledStay (runMicrotasks fuel))
   ∧ after settledStay dispatch
   ∧ (∀ fuel, after settledStay (run fuel))
   ∧ (∀ fuel, after settledStay (eventLoop fuel))
   ∧ (∀ fuel mainFunction, after settledStay (interpret fuel mainFunction)))
  ∧ (PromiseV1.state cell ≠ PENDING →
     (∀ x, _resolveInternal p x vm = Ok tt vm
           ∧ _rejectInternal p x vm = Ok tt vm
           ∧ runMicrotask (ResolveInternalTask p x) vm = Ok tt vm
           ∧ runMicrotask (RejectInternalTask p x) vm = Ok tt vm)
     ∧ (∀ f g, promise_then p f g vm
               = Ok newPromise
                    (queued [ThenSettledTask p (settledCallback f g newPromise cell)]
                       (allocated vm)))
     ∧ (∀ cb, queuingCallback cb →
              runMicrotask (ThenSettledTask p cb) vm
              = Ok tt (queued (firing cb (settledWith cb cell)) vm))
     ∧ (∀ cb, wellRegistered vm →
              (fulfilmentCallback vm cb ∧ isPromise (PromiseV1.value cell) = false)
              ∨ rejectionCallback vm cb →
              runMicrotask (ThenSettledTask p cb) vm
              = Ok tt (afterFiring fulfil reject cb (settledWith cb cell) vm)
              ∧ settlesOnly vm (afterFiring fulfil reject cb (settledWith cb cell) vm)))
  ∧ (PromiseV1.state cell = PENDING →
     (∀ f g, promise_then p f g vm
             = Ok newPromise (withPromise p (registeredCell f g newPromise cell) (allocated vm)))
     ∧ (∀ v, isPromise v = false →
             Forall queuingCallback (PromiseV1.onFulfilledCallbacks cell) →
             _resolveInternal p v vm
             = Ok tt (queued (flat_map (λ cb, firing cb v) (PromiseV1.onFulfilledCallbacks cell))
                        (withPromise p (fulfilledCell v cell) vm)))
     ∧ (∀ r, Forall queuingCallback (PromiseV1.onRejectedCallbacks cell) →
             _rejectInternal p r vm
             = Ok tt (queued (flat_map (λ cb, firing cb r) (PromiseV1.onRejectedCallbacks cell))
                        (withPromise p (rejectedCell r cell) vm)))
     ∧ (∀ v, isPromise v = false → wellRegistered vm →
             _resolveInternal p v vm = Ok tt (fulfil p v vm)
             ∧ promises (fulfil p v vm) !! p = Some (fulfilledCell v cell)
             ∧ settlesOnly vm (fulfil p v vm))
     ∧ (∀ r, wellRegistered vm →
             _rejectInternal p r vm = Ok tt (reject p r vm)
             ∧ promises (reject p r vm) !! p = Some (rejectedCell r cell)
             ∧ settlesOnly vm (reject p r vm))
     ∧ (∀ q awaited, promises vm !! q = Some awaited →
             _resolveInternal p (VPromise q) vm = Ok tt (adopting p q vm)
             ∧ (wellRegistered vm → wellRegistered (adopting p q vm)))
     ∧ (∀ f g, wellRegistered vm →
               fulfilmentCallback vm (scheduleFulfillment f newPromise) →
               rejectionCallback vm (scheduleRejection g newPromise) →
               wellRegistered (withPromise p (registeredCell f g newPromise cell)
                                 (allocated vm)))).
Proof.
  intros Hp newPromise fulfil reject. split_and!.
  - apply stay_promise_then.
  - apply stay_resolveInternal.
  - apply stay_rejectInternal.
  - apply stay_runMicrotask.
  - apply stay_runMicrotasks.
  - apply stay_dispatch.
  - apply stay_run.
  - apply stay_eventLoop.
  - apply stay_interpret.
  - intros Hst. split_and!.
    + intros x. destruct (settled_ignores vm p cell x Hp Hst).
      destruct (settled_task_ignored vm p cell x Hp Hst). by split_and!.
    + intros f g. by apply then_settled.
    + intros cb Hcb. by apply thenSettled_fires.
    + intros cb Hwf Hcb. by apply thenSettled_settles.
  - intros Hst. split_and!.
    + intros f g. by apply then_pending.
    + intros v Hv Hq. by apply resolve_fires.
    + intros r Hq. by apply reject_fires.
    + intros v Hv Hwf. by apply resolve_settles.
    + intros r Hwf. by apply reject_settles.
    + intros q awaited Hq. by eapply resolve_adopts.
    + intros f g Hwf Hf Hg. by apply wellRegistered_registered.
Qed.

Lemma promise_settlement_is_one_shot_witness :
  (_resolveInternal 0 (VStr "again") vmWithPromises = Ok tt vmWithPromises
   ∧ _rejectInternal 0 (VStr "again") vmWithPromises = Ok tt vmWithPromises)
  ∧ _resolveInternal 1 (VStr "v") vmWithPromises
    = Ok tt (queued [AwaitResumeTask 0 (VStr "v"); ResolveInternalTask 2 VUndefined;
                     AsyncCallTask 0 (Some 3%nat) [VStr "v"]]
               (withPromise 1 (fulfilledCell (VStr "v") awaitedPromise) vmWithPromises))
  ∧ _resolveInternal 1 (VStr "v") vmAdopting
    = Ok tt (queued [AsyncCallTask 1 (Some 4%nat) [VStr "v"]; ResolveInternalTask 2 VUndefined;
                     AsyncCallTask 0 (Some 3%nat) [VStr "v"]]
               (withPromise 1 (fulfilledCell (VStr "v") adoptedPromise)
                  (withPromise 0 (fulfilledCell (VStr "v") adoptingPromise) vmAdopting))).
Proof.
  split; [|split].
  - destruct (@promise_settlement_is_one_shot exampleHost vmWithPromises 0 settledPromise eq_refl)
      as (_ & Hsettled & _).
    destruct (Hsettled ltac:(discriminate)) as (Hignored & _).
    destruct (Hignored (VStr "again")) as (Hres & Hrej & _). by split.
  - destruct (@promise_settlement_is_one_shot exampleHost vmWithPromises 1 awaitedPromise eq_refl)
      as (_ & _ & Hpending).
    destruct (Hpending eq_refl) as (_ & Hres & _).
    apply (Hres (VStr "v") eq_refl). repeat constructor.
  - destruct (@promise_settlement_is_one_shot exampleHost vmAdopting 1 adoptedPromise eq_refl)
      as (_ & _ & Hpending).
    destruct (Hpending eq_refl) as (_ & _ & _ & Hres & _).
    assert (Hwf : wellRegistered vmAdopting).
    { unfold wellRegistered. simpl. repeat (constructor; simpl; try lia). }
    destruct (Hres (VStr "v") eq_refl Hwf) as (Hrun & _).
    etransitivity; [exact Hrun|]. reflexivity.
Defined.

(** An async function that returns the promise of another: when the inner
    function has returned, its promise (2) holds the adoption handlers of the
    outer promise (1), the store is registered, and the fulfilment of the
    inner promise fulfils both with the same value and queues the one
    [resolve(undefined)] of the promise [then] returned (3). *)
Example adoption_in_a_run :
  ∃ vm awaited vm',
    scriptAt adoptsResult
      (@rounds exampleHost 20;; @eventRound exampleHost 50;; @eventRound exampleHost 50)
    = Some vm
    ∧ microtaskQueue vm = [ResolveInternalTask 2 (VStr "v")]
    ∧ promises vm !! 2%nat = Some awaited
    ∧ PromiseV1.state awaited = PENDING
    ∧ PromiseV1.onFulfilledCallbacks awaited
      = [scheduleFulfillment (VHost (HostAdoptResolve 1)) 3]
    ∧ PromiseV1.onRejectedCallbacks awaited
      = [scheduleRejection (VHost (HostAdoptReject 1)) 3]
    ∧ wellRegistered vm
    ∧ _resolveInternal 2 (VStr "v") vm = Ok tt vm'
    ∧ vm' = afterFulfilment 4 2 (VStr "v") vm
    ∧ promises vm' !! 1%nat = Some (PromiseV1.mk FULFILLED (VStr "v") VUndefined [] [])
    ∧ promises vm' !! 2%nat = Some (fulfilledCell (VStr "v") awaited)
    ∧ microtaskQueue vm' = microtaskQueue vm ++ [ResolveInternalTask 3 VUndefined].
Proof.
  eexists _, _, _. split; [vm_compute; reflexivity|].
  split; [reflexivity|]. split; [reflexivity|]. split; [reflexivity|].
  split; [reflexivity|]. split; [reflexivity|].
  split; [unfold wellRegistered; simpl; repeat (constructor; simpl; try lia)|].
  split; [vm_compute; reflexivity|].
  split; [vm_compute; reflexivity|]. by split_and!.
Qed.

(** ** OP_AWAIT *)

(** With a value that is no promise on top of the stack, OP_AWAIT changes
    nothing and the dispatch loop goes on. *)
Lemma await_passes_non_promise (vm : VM) (st : list Value) (v : Value) :
  stack vm = st ++ [v] → isPromise v = false →
  InstructionHandlers.OP_AWAIT vm = Ok OK vm.
Proof.
  intros Hst Hv. unfold InstructionHandlers.OP_AWAIT.
  mstep by (by eapply peek0_snoc). by destruct v.
Qed.

(** With a promise on top, OP_AWAIT pops the top frame, hands [then] the
    two handlers that close over it, and yields. *)
Lemma await_suspends (vm : VM) (st : list Value) (p : nat) (frs : list nat) (a : nat)
    (cell : PromiseV1.t) :
  stack vm = st ++ [VPromise p] → callFrames vm = frs ++ [a] →
  promises vm !! p = Some cell →
  let newPromise := length (promises vm) in
  InstructionHandlers.OP_AWAIT vm
  = Ok YIELD
      match PromiseV1.state cell with
      | PENDING =>
          withPromise p (registeredCell (VHost (HostAwaitResolved a))
                           (VHost (HostAwaitRejected a)) newPromise cell)
            (allocated (suspended frs vm))
      | _ =>
          queued [ThenSettledTask p (settledCallback (VHost (HostAwaitResolved a))
                                       (VHost (HostAwaitRejected a)) newPromise cell)]
            (allocated (suspended frs vm))
      end.
Proof.
  intros Hst Hfrs Hp newPromise. unfold InstructionHandlers.OP_AWAIT.
  mstep by (by eapply peek0_snoc). mstep. rewrite Hfrs, last_snoc, removelast_last.
  mstep.
  assert (Hsusp : (if bool_decide (frs = []) then modify (with_currentFrame None) else mret tt)
                    (with_callFrames frs vm) = Ok tt (suspended frs vm)).
  { unfold suspended. by destruct (bool_decide (frs = [])). }
  mstep by (exact Hsusp).
  assert (Hp' : promises (suspended frs vm) !! p = Some cell).
  { unfold suspended. by destruct (bool_decide (frs = [])). }
  assert (Hlen : length (promises (suspended frs vm)) = newPromise).
  { unfold suspended. by destruct (bool_decide (frs = [])). }
  destruct (PromiseV1.state cell) eqn:Hs.
  - mstep by (by apply then_pending). by rewrite Hlen.
  - mstep by (apply then_settled; [done|by rewrite Hs]).
    unfold settledCallback. by rewrite Hlen, Hs.
  - mstep by (apply then_settled; [done|by rewrite Hs]).
    unfold settledCallback. by rewrite Hlen, Hs.
Qed.

(** The microtask of the first handler pushes the frame back and replaces
    the value on top of the stack, whatever it is, with the resolved value. *)
Lemma await_resume_replaces_top (vm : VM) (st : list Value) (top : Value) (a : nat) (x : Value) :
  stack vm = st ++ [top] →
  runMicrotask (AwaitResumeTask a x) vm = Ok tt (with_stack (st ++ [x]) (resumed a vm)).
Proof.
  intros Hst. unfold runMicrotask, try_catch, callTask.
  mstep. mstep. mstep by (by apply (pop_snoc _ st top)). reflexivity.
Qed.

(** The microtask of the second handler raises the runtime error with the
    frame pushed back and current, then pops the frame. *)
Lemma await_reject_raises_in_frame (vm vm' : VM) (a : nat) (r : Value) :
  runtimeError r true (resumed a vm) = Ok tt vm' →
  runMicrotask (AwaitRejectTask a r) vm = Ok tt (leaving vm').
Proof.
  intros Herr. unfold runMicrotask, try_catch, callTask.
  mstep. mstep. mstep by (exact Herr). reflexivity.
Qed.

Lemma await_reject_rejects_async (vm : VM) (a q : nat) (r : Value) :
  Forall (frameResolves vm) (callFrames vm ++ [a]) →
  asyncPromiseOf vm a = Some q →
  runMicrotask (AwaitRejectTask a r) vm
  = Ok tt (with_currentFrame (last (callFrames vm)) (rejected q r vm)).
Proof.
  intros Hres Ha.
  rewrite (await_reject_raises_in_frame vm (rejected q r (resumed a vm))).
  - unfold leaving, rejected, resumed. simpl. by rewrite removelast_last.
  - apply runtimeError_rejects; [done|].
    unfold resumed. simpl. rewrite reverse_snoc. simpl.
    by replace (asyncPromiseOf _ a) with (Some q).
Qed.

(** C7 fails on the code where the awaited promise is that of an async call.
    In [return g(await f())], OP_AWAIT finds the promise of [f()] on top of
    the stack, pops the frame of [a] and registers its handlers.  When [f]
    returns, OP_RETURN pushes its result on the stack, above the awaited
    promise; the microtask that resumes [a] pops that result, not the
    promise, and pushes the resolved value.  The promise stays where the
    argument of [g] was to be, the call of [g] finds it as its callee, and
    the program ends in "Can only call functions and classes.".  Awaiting
    the string itself, the program returns "one". *)
Theorem await_resume_pops_the_result_of_the_callee :
  (∃ vm, scriptAt awaitArgument (@untilAwait exampleHost) = Some vm
         ∧ stack vm = [VPromise 1; VClosure 3; VClosure 2; VPromise 2]
         ∧ callFrames vm = []
         ∧ awaiters vm 2 = [VHost (HostAwaitResolved 1)])
  ∧ (∃ vm vm', scriptAt awaitArgument (@untilResume exampleHost) = Some vm
               ∧ microtaskQueue vm
                 = [AwaitResumeTask 1 (VStr "one"); ResolveInternalTask 3 VUndefined]
               ∧ stack vm = [VPromise 1; VClosure 3; VClosure 2; VPromise 2; VStr "one"]
               ∧ nextMicrotask vm = Ok tt vm'
               ∧ stack vm' = [VPromise 1; VClosure 3; VClosure 2; VPromise 2; VStr "one"]
               ∧ callFrames vm' = [1%nat])
  ∧ (∃ vm, @runProgram exampleHost 200 awaitArgument
           = Some (Ok (mkOutcome RUNTIME_ERROR VUndefined) vm)
           ∧ RejectInternalTask 1 (VStr "Can only call functions and classes.")
             ∈ microtaskQueue vm)
  ∧ outcomeOf (@runProgram exampleHost 200 awaitPlainArgument)
    = Some (mkOutcome OK (VStr "one")).
Proof.
  split_and!.
  - eexists. split; [vm_compute; reflexivity|]. by vm_compute.
  - eexists _, _. split; [vm_compute; reflexivity|].
    split; [by vm_compute|]. split; [by vm_compute|].
    split; [vm_compute; reflexivity|]. by vm_compute.
  - eexists. split; [vm_compute; reflexivity|]. apply list_elem_of_here.
  - vm_compute. reflexivity.
Qed.

(** * Further properties of the compiler and the VM *)

(** ** Locals, scopes and upvalues of the compiler *)

(** [lastIndexOf] counts the slots from [i] on: it answers the last slot whose
    local has the name, or -1. *)
Lemma lastIndexOf_spec (name : string) (locals : list Local.t) (i : Z) :
  0 ≤ i →
  let r := lastIndexOf name locals i in
  (r = -1 ∧ Forall (λ l, Local.name l ≠ name) locals) ∨
  (i ≤ r ∧ ∃ l, locals !! Z.to_nat (r - i) = Some l ∧ Local.name l = name
          ∧ Forall (λ l', Local.name l' ≠ name) (drop (S (Z.to_nat (r - i))) locals)).
Proof.
  revert i. induction locals as [|l locals IH]; intros i Hi; [left; by split|].
  cbn zeta.
  change (lastIndexOf name (l :: locals) i)
    with (if lastIndexOf name locals (i + 1) =? -1
          then (if bool_decide (Local.name l = name) then i else -1)
          else lastIndexOf name locals (i + 1)).
  destruct (IH (i + 1) ltac:(lia)) as [[E Hnone]|(Hle & l' & Hl' & Hname & Hafter)].
  - cbn zeta in E. rewrite E. simpl. case_bool_decide as Hl.
    + right. split; [lia|]. exists l. replace (i - i) with 0 by lia.
      change (Z.to_nat 0) with 0%nat. split_and!; [done|done|exact Hnone].
    + left. split; [done|]. by constructor.
  - cbn zeta in *. destruct (Z.eqb_spec (lastIndexOf name locals (i + 1)) (-1)) as [E|_]; [lia|].
    right. split; [lia|]. exists l'.
    replace (Z.to_nat (lastIndexOf name locals (i + 1) - i))
      with (S (Z.to_nat (lastIndexOf name locals (i + 1) - (i + 1)))) by lia.
    split_and!; [exact Hl'|done|exact Hafter].
Qed.

(** X1. [resolveLocal] answers -1 exactly when no local has the name, and
    otherwise the slot of the local declared last under that name: the slot is
    within the locals, holds the name, and no later slot does. *)
Theorem resolveLocal_finds_the_innermost (s : CompilerState.t) (name : string) :
  let slot := resolveLocal s name in
  (slot = -1 ∧ ∀ l, l ∈ CompilerState.locals s → Local.name l ≠ name)
  ∨ (0 ≤ slot < Z.of_nat (length (CompilerState.locals s))
     ∧ (Local.name <$> CompilerState.locals s !! Z.to_nat slot) = Some name
     ∧ ∀ j l, (Z.to_nat slot < j)%nat → CompilerState.locals s !! j = Some l →
              Local.name l ≠ name).
Proof.
  cbn zeta. unfold resolveLocal.
  destruct (lastIndexOf_spec name (CompilerState.locals s) 0 ltac:(lia))
    as [[E Hnone]|(Hle & l & Hl & Hname & Hafter)]; cbn zeta in *.
  - left. split; [done|]. intros l Hl. by eapply Forall_forall in Hnone.
  - right. rewrite Z.sub_0_r in *. split_and!.
    + done.
    + apply lookup_lt_Some in Hl. lia.
    + by rewrite Hl, <- Hname.
    + intros j l' Hj Hl'. rewrite Forall_forall in Hafter. apply Hafter.
      apply list_elem_of_lookup. exists (j - S (Z.to_nat (lastIndexOf name (CompilerState.locals s) 0)))%nat.
      rewrite lookup_drop. rewrite <- Hl'. f_equal. lia.
Qed.

Lemma lastIndexOf_app_hit (name : string) (locals : list Local.t) (d : Z) (c : bool) (i : Z) :
  0 ≤ i →
  lastIndexOf name (locals ++ [Local.mk name d c]) i = i + Z.of_nat (length locals).
Proof.
  revert i. induction locals as [|l locals IH]; intros i Hi.
  - simpl. rewrite bool_decide_eq_true_2 by done. lia.
  - change (lastIndexOf name ((l :: locals) ++ [Local.mk name d c]) i)
      with (if lastIndexOf name (locals ++ [Local.mk name d c]) (i + 1) =? -1
            then (if bool_decide (Local.name l = name) then i else -1)
            else lastIndexOf name (locals ++ [Local.mk name d c]) (i + 1)).
    rewrite IH by lia.
    destruct (Z.eqb_spec (i + 1 + Z.of_nat (length locals)) (-1)); [lia|].
    simpl length. lia.
Qed.

(** X2. Inside a function or block, a declaration that [declareVariable]
    accepts adds the name as the last local, at the current depth and not yet
    captured, so that [resolveLocal] finds it in the new slot; declaring the
    name once more in the same scope is refused with the message of a
    redeclaration, while a scope nested in this one may declare it again, and
    then the name resolves to the inner local. *)
Theorem declareVariable_scopes (name : string) (s s' : CompilerState.t) :
  0 < CompilerState.scopeDepth s →
  declareVariable name s = COk tt s' →
  (* the variable is the innermost local of its name *)
  CompilerState.locals s'
  = CompilerState.locals s ++ [Local.mk name (CompilerState.scopeDepth s) false]
  ∧ resolveLocal s' name = Z.of_nat (length (CompilerState.locals s))
  (* declaring it again in the same scope is refused *)
  ∧ declareVariable name s' = CError (redeclarationError name)
  (* declaring it in a scope nested in this one shadows it *)
  ∧ ((length (CompilerState.locals s') ≤ 255)%nat →
     ∃ s'', (addScopeDepth 1;; declareVariable name) s' = COk tt s''
            ∧ resolveLocal s'' name = Z.of_nat (length (CompilerState.locals s'))).
Proof.
  intros Hd Hdecl. unfold declareVariable in Hdecl.
  destruct (Z.eqb_spec (CompilerState.scopeDepth s) 0) as [E|_]; [lia|].
  destruct (redeclared _ _ _) eqn:Hre; [done|].
  unfold addLocal in Hdecl. destruct (_ >? 255) eqn:Hlen; [done|].
  injection Hdecl as <-. split_and!.
  - reflexivity.
  - unfold resolveLocal. simpl. rewrite lastIndexOf_app_hit by lia. lia.
  - unfold declareVariable. simpl.
    destruct (Z.eqb_spec (CompilerState.scopeDepth s) 0) as [E|_]; [lia|].
    rewrite reverse_snoc. simpl.
    destruct (Z.eqb_spec (CompilerState.scopeDepth s) (-1)) as [E|_]; [lia|].
    rewrite Z.ltb_irrefl. simpl. by rewrite bool_decide_eq_true_2.
  - intros Hroom. simpl in Hroom. eexists. split.
    + unfold mbind, CS_bind, addScopeDepth, declareVariable. simpl.
      destruct (Z.eqb_spec (CompilerState.scopeDepth s + 1) 0) as [E|_]; [lia|].
      rewrite reverse_snoc. simpl.
      destruct (Z.eqb_spec (CompilerState.scopeDepth s) (-1)) as [E|_]; [lia|].
      destruct (Z.ltb_spec (CompilerState.scopeDepth s) (CompilerState.scopeDepth s + 1)); [|lia].
      simpl. unfold addLocal. simpl.
      destruct (Z.gtb_spec (Z.of_nat (length (CompilerState.locals s ++
                  [Local.mk name (CompilerState.scopeDepth s) false]))) 255); [lia|].
      reflexivity.
    + unfold resolveLocal. simpl. rewrite lastIndexOf_app_hit by lia. lia.
Qed.

Lemma declareVariable_scopes_witness :
  ∃ s', declareVariable "x" functionScope = COk tt s'
        ∧ resolveLocal s' "x" = 1
        ∧ declareVariable "x" s' = CError "Identifier 'x' has already been declared."
        ∧ ∃ s'', (addScopeDepth 1;; declareVariable "x") s' = COk tt s''
                 ∧ resolveLocal s'' "x" = 2.
Proof.
  eexists. split; [reflexivity|].
  destruct (declareVariable_scopes "x" functionScope _ ltac:(reflexivity) eq_refl)
    as (_ & Hslot & Hagain & Hinner).
  split_and!; [exact Hslot|exact Hagain|]. apply Hinner. simpl. lia.
Defined.

Lemma findIndex_Some {A} (p : A → bool) (l : list A) (i : nat) :
  findIndex p l = Some i →
  ∃ x, l !! i = Some x ∧ p x = true ∧ ∀ j y, (j < i)%nat → l !! j = Some y → p y = false.
Proof.
  revert i. induction l as [|x l IH]; intros i; simpl; [done|].
  destruct (p x) eqn:Hx.
  - intros [= <-]. exists x. split_and!; [done|done|]. intros j y Hj. lia.
  - destruct (findIndex p l) as [k|] eqn:Hk; [|done]. simpl. intros [= <-].
    destruct (IH k eq_refl) as (y & Hy & Hpy & Hbefore). exists y. split_and!; [done|done|].
    intros [|j] z Hj Hz; simpl in Hz; [by injection Hz as <-|]. eapply Hbefore; [|done]. lia.
Qed.

Lemma findIndex_None {A} (p : A → bool) (l : list A) :
  findIndex p l = None → Forall (λ x, p x = false) l.
Proof.
  induction l as [|x l IH]; simpl; [by constructor|].
  destruct (p x) eqn:Hx; [done|]. destruct (findIndex p l); [done|].
  intros _. constructor; [done|]. by apply IH.
Qed.

Lemma findIndex_app_hit {A} (p : A → bool) (l : list A) (x : A) :
  Forall (λ y, p y = false) l → p x = true → findIndex p (l ++ [x]) = Some (length l).
Proof.
  induction 1 as [|y l Hy _ IH]; intros Hx; simpl.
  - by rewrite Hx.
  - rewrite Hy, IH by done. reflexivity.
Qed.

(** X3. With at most 256 upvalues recorded, an [addUpvalue] that succeeds
    answers a slot between 0 and 255 that holds the pair asked for, only ever
    appends to the upvalues, keeps them at 256 at most, and asked again for
    the same pair answers the same slot without adding anything. *)
Theorem addUpvalue_reuses_slots (index : Z) (isLocal : bool) (s s' : CompilerState.t) (slot : Z) :
  (length (CompilerState.upvalues s) ≤ 256)%nat →
  addUpvalue index isLocal s = COk slot s' →
  0 ≤ slot ≤ 255
  ∧ CompilerState.upvalues s' !! Z.to_nat slot = Some (UpvalueDesc.mk index isLocal)
  ∧ (∃ added, CompilerState.upvalues s' = CompilerState.upvalues s ++ added)
  ∧ (length (CompilerState.upvalues s') ≤ 256)%nat
  ∧ addUpvalue index isLocal s' = COk slot s'.
Proof.
  intros Hlen Hadd. unfold addUpvalue in *.
  set (p := λ u, (UpvalueDesc.index u =? index) && bool_decide (UpvalueDesc.isLocal u = isLocal)) in *.
  destruct (findIndex p (CompilerState.upvalues s)) as [i|] eqn:Hi.
  - injection Hadd as <- <-.
    destruct (findIndex_Some _ _ _ Hi) as ([ui ul] & Hu & Hp & _).
    pose proof (lookup_lt_Some _ _ _ Hu) as Hlt.
    unfold p in Hp. simpl in Hp. apply andb_true_iff in Hp as [Hpi Hpl].
    apply Z.eqb_eq in Hpi. apply bool_decide_eq_true in Hpl. subst.
    rewrite Nat2Z.id. split_and!; [lia|lia|done|by exists []; rewrite app_nil_r|done|].
    by rewrite Hi.
  - destruct (Z.gtb_spec (Z.of_nat (length (CompilerState.upvalues s))) 255); [done|].
    injection Hadd as <- <-. simpl. rewrite Nat2Z.id.
    assert (Hhit : p (UpvalueDesc.mk index isLocal) = true).
    { unfold p. simpl. rewrite Z.eqb_refl. by rewrite bool_decide_eq_true_2. }
    split_and!.
    + lia.
    + lia.
    + by rewrite lookup_app_r, Nat.sub_diag.
    + by eexists.
    + rewrite length_app. simpl. lia.
    + rewrite findIndex_app_hit; [done| |done]. by apply findIndex_None.
Qed.

Lemma addUpvalue_reuses_slots_witness :
  ∃ s', addUpvalue 3 true (CompilerState.make "f") = COk 0 s'
        ∧ CompilerState.upvalues s' = [UpvalueDesc.mk 3 true]
        ∧ addUpvalue 3 true s' = COk 0 s'.
Proof.
  eexists. split; [reflexivity|]. split; [reflexivity|].
  refine (proj2 (proj2 (proj2 (proj2
    (addUpvalue_reuses_slots 3 true (CompilerState.make "f") _ 0 _ eq_refl))))).
  simpl. lia.
Defined.

Lemma popLocalsOf_spec (targetDepth : Z) (innermostFirst : list Local.t) :
  let '(ops, kept) := popLocalsOf targetDepth innermostFirst in
  ∃ popped, innermostFirst = popped ++ kept
            ∧ ops = scopeExitOp <$> popped
            ∧ Forall (λ l, targetDepth < Local.depth l) popped
            ∧ (∀ l, head kept = Some l → Local.depth l ≤ targetDepth).
Proof.
  induction innermostFirst as [|l rest IH]; simpl.
  - exists []. split_and!; [done|done|by constructor|done].
  - destruct (Z.gtb_spec (Local.depth l) targetDepth) as [Hgt|Hle].
    + destruct (popLocalsOf targetDepth rest) as [ops kept].
      destruct IH as (popped & -> & -> & Hall & Hhead).
      exists (l :: popped). split_and!; [done|done|constructor; [lia|done]|done].
    + exists []. split_and!; [done|done|by constructor|]. intros l' [= <-]. lia.
Qed.

(** X4. [popLocalsToDepth] always succeeds. It removes the longest run of
    locals at the end of the list that are deeper than the target depth, and
    nothing else: the local left last, if any, is at the target depth or
    above it. For each removed local it emits one instruction, innermost
    first: OP_CLOSE_UPVALUE for a captured local, OP_POP otherwise.
    Constants, upvalues and the scope depth are untouched. *)
Theorem popLocalsToDepth_leaves_the_scope (targetDepth : Z) (s : CompilerState.t) :
  ∃ s' popped,
    popLocalsToDepth targetDepth s = COk tt s'
    ∧ CompilerState.locals s = CompilerState.locals s' ++ popped
    ∧ Forall (λ l, targetDepth < Local.depth l) popped
    ∧ (∀ l, last (CompilerState.locals s') = Some l → Local.depth l ≤ targetDepth)
    ∧ CompilerState.bytecode s'
      = CompilerState.bytecode s ++ (scopeExitOp <$> reverse popped)
    ∧ CompilerState.constants s' = CompilerState.constants s
    ∧ CompilerState.upvalues s' = CompilerState.upvalues s
    ∧ CompilerState.scopeDepth s' = CompilerState.scopeDepth s.
Proof.
  unfold popLocalsToDepth.
  pose proof (popLocalsOf_spec targetDepth (reverse (CompilerState.locals s))) as Hspec.
  destruct (popLocalsOf targetDepth (reverse (CompilerState.locals s))) as [ops kept].
  destruct Hspec as (popped & Hsplit & -> & Hall & Hhead).
  eexists _, (reverse popped). split; [reflexivity|]. simpl.
  split_and!; try reflexivity.
  - rewrite <- reverse_app, <- Hsplit. by rewrite reverse_involutive.
  - by apply Forall_reverse.
  - intros l Hl. apply Hhead. by rewrite last_reverse in Hl.
  - by rewrite reverse_involutive.
Qed.

(** ** Jumps: what the compiler writes, the machine reads *)

Lemma lor_shifted (h l : Z) : 0 ≤ l < 256 → Z.lor (Z.shiftl h 8) l = h * 256 + l.
Proof.
  intros Hl.
  assert (Hland : Z.land (Z.shiftl h 8) l = 0).
  { apply Z.bits_inj'. intros n Hn. rewrite Z.land_spec, Z.bits_0.
    destruct (Z.lt_ge_cases n 8) as [Hlow|Hhigh].
    - by rewrite Z.shiftl_spec_low.
    - rewrite (Z.bits_above_log2 l n); [apply andb_false_r|lia|].
      destruct (Z.eq_dec l 0) as [->|Hne]; [simpl; lia|].
      apply Z.log2_lt_pow2; [lia|]. eapply Z.lt_le_trans; [apply Hl|].
      change 256 with (2 ^ 8). apply Z.pow_le_mono_r; lia. }
  pose proof (Z.add_lor_land (Z.shiftl h 8) l) as Hadd.
  rewrite Hland, Z.shiftl_mul_pow2 in Hadd by lia. change (2 ^ 8) with 256 in Hadd.
  rewrite Z.shiftl_mul_pow2 by lia. change (2 ^ 8) with 256. lia.
Qed.

Lemma toInt32_small (z : Z) : -2147483648 ≤ z < 2147483648 → toInt32 z = z.
Proof.
  intros Hz. unfold toInt32. change (2 ^ 31) with 2147483648.
  change (2 ^ 32) with 4294967296. rewrite Z.mod_small; lia.
Qed.

Lemma short_coding (j : Z) :
  0 ≤ j ≤ 0xFFFF →
  decodeShort (highByte j) (lowByte j) = j
  ∧ 0 ≤ highByte j ≤ 255 ∧ 0 ≤ lowByte j ≤ 255.
Proof.
  intros Hj. unfold decodeShort, highByte, lowByte.
  change 0xFF with (Z.ones 8). rewrite !Z.land_ones by lia.
  rewrite Z.shiftr_div_pow2 by lia. change (2 ^ 8) with 256.
  assert (Hsmall : j / 256 mod 256 = j / 256).
  { apply Z.mod_small. split; [apply Z.div_pos; lia|]. apply Z.div_lt_upper_bound; lia. }
  rewrite Hsmall.
  assert (Hq : 0 ≤ j / 256 < 256).
  { split; [apply Z.div_pos; lia|]. apply Z.div_lt_upper_bound; lia. }
  pose proof (Z.mod_pos_bound j 256 ltac:(lia)) as Hl.
  pose proof (Z.div_mod j 256 ltac:(lia)) as Hdm.
  set (q := j / 256) in *. set (l := j mod 256) in *.
  rewrite (toInt32_small q) by lia.
  rewrite (toInt32_small l) by lia.
  rewrite Z.shiftl_mul_pow2 by lia. change (2 ^ 8) with 256.
  rewrite (toInt32_small (q * 256)) by lia.
  rewrite <- (Z.shiftl_mul_pow2 _ 8) by lia. rewrite lor_shifted by lia.
  rewrite toInt32_small by lia. change (Z.ones 8) with 255. lia.
Qed.

Lemma readShort_at (vm : VM) (a : nat) (fr : CallFrame.t) :
  currentFrame vm = Some a → frames vm !! a = Some fr →
  readShort vm
  = Ok (shortAt (FunctionObject.bytecode (CallFrame.func fr)) (CallFrame.ip fr))
       (atIp a fr (CallFrame.ip fr + 2) vm).
Proof.
  intros Hcur Hfr. unfold readShort, theCurrentFrame. unfold_m. rewrite Hcur, Hfr.
  unfold set_frame, modify, shortAt, atIp.
  replace (CallFrame.ip fr + 2 - 2) with (CallFrame.ip fr) by lia.
  replace (CallFrame.ip fr + 2 - 1) with (CallFrame.ip fr + 1) by lia.
  reflexivity.
Qed.

Lemma shortAt_app (before : list Z) (hi lo : Z) (after : list Z) :
  shortAt (before ++ [hi; lo] ++ after) (Z.of_nat (length before)) = decodeShort hi lo.
Proof.
  unfold shortAt, decodeShort, index.
  destruct (Z.ltb_spec (Z.of_nat (length before)) 0); [lia|].
  destruct (Z.ltb_spec (Z.of_nat (length before) + 1) 0); [lia|].
  rewrite Nat2Z.id. replace (Z.to_nat (Z.of_nat (length before) + 1)) with (S (length before)) by lia.
  rewrite !(lookup_app_r before) by lia. rewrite Nat.sub_diag.
  by replace (S (length before) - length before)%nat with 1%nat by lia.
Qed.

Lemma jumpBy_at (vm : VM) (a : nat) (fr : CallFrame.t) (ip offset : Z) :
  currentFrame vm = Some a → frames vm !! a = Some fr →
  jumpBy offset (atIp a fr ip vm) = Ok tt (atIp a fr (ip + offset) vm).
Proof.
  intros Hcur Hfr.
  assert (Hlt : (a < length (frames vm))%nat) by by eapply lookup_lt_Some.
  unfold jumpBy, theCurrentFrame, set_frame, atIp. unfold_m. simpl. rewrite Hcur. simpl.
  rewrite list_lookup_insert_eq by done. simpl. by rewrite list_insert_insert_eq.
Qed.

Lemma jump_at (vm : VM) (a : nat) (fr : CallFrame.t) :
  currentFrame vm = Some a → frames vm !! a = Some fr →
  InstructionHandlers.OP_JUMP vm
  = Ok OK (atIp a fr (CallFrame.ip fr + 2
                      + shortAt (FunctionObject.bytecode (CallFrame.func fr)) (CallFrame.ip fr)) vm).
Proof.
  intros Hcur Hfr. unfold InstructionHandlers.OP_JUMP.
  mstep by (by apply readShort_at). by mstep by (by apply jumpBy_at).
Qed.

Lemma loop_at (vm : VM) (a : nat) (fr : CallFrame.t) :
  currentFrame vm = Some a → frames vm !! a = Some fr →
  InstructionHandlers.OP_LOOP vm
  = Ok OK (atIp a fr (CallFrame.ip fr + 2
                      - shortAt (FunctionObject.bytecode (CallFrame.func fr)) (CallFrame.ip fr)) vm).
Proof.
  intros Hcur Hfr. unfold InstructionHandlers.OP_LOOP.
  mstep by (by apply readShort_at). by mstep by (by apply jumpBy_at).
Qed.

(** A jump whose two bytes lie inside the code: [patchJump] replaces them. *)
Lemma storeByte_inside (index byte : Z) (bytecode : list Z) :
  0 ≤ index < Z.of_nat (length bytecode) →
  storeByte index byte bytecode = Some (<[Z.to_nat index := byte]> bytecode).
Proof.
  intros Hin. unfold storeByte.
  destruct (Z.ltb_spec index 0); [lia|].
  destruct (Z.ltb_spec index (Z.of_nat (length bytecode))); [done|lia].
Qed.

Lemma patchJump_inside (offset : Z) (s : CompilerState.t) :
  0 ≤ offset → offset + 1 < Z.of_nat (length (CompilerState.bytecode s)) →
  patchJump offset s
  = let jump := Z.of_nat (length (CompilerState.bytecode s)) - offset - 2 in
    if jump >? 0xFFFF then CError "Jump too large."
    else COk tt (CompilerState.with_bytecode
                   (<[Z.to_nat (offset + 1) := Z.land jump 0xFF]>
                      (<[Z.to_nat offset := Z.land (Z.shiftr jump 8) 0xFF]>
                         (CompilerState.bytecode s))) s).
Proof.
  intros Hlow Hhigh. unfold patchJump. cbv zeta.
  destruct (_ >? _); [done|].
  rewrite storeByte_inside by lia.
  rewrite storeByte_inside by (rewrite length_insert; lia).
  reflexivity.
Qed.

(** X5. A jump emitted by [emitJump] and patched by [patchJump] after further
    code was emitted: when that code is longer than 0xFFFF bytes the patch is
    refused with the message of a jump too large; otherwise the placeholder
    is replaced by the two bytes of the length, and the code before and after
    it is as it was. A frame that executes OP_JUMP there, its instruction
    pointer on the operand, continues at the first byte behind the code that
    was emitted in between. *)
Theorem patched_jump_lands_behind_the_code (instruction : Z) (s s1 s2 : CompilerState.t)
    (position : Z) (emitted : list Z) :
  emitJump instruction s = COk position s1 →
  CompilerState.bytecode s2 = CompilerState.bytecode s1 ++ emitted →
  let distance := Z.of_nat (length emitted) in
  if distance >? 0xFFFF then patchJump position s2 = CError "Jump too large."
  else
    ∃ s3, patchJump position s2 = COk tt s3
      ∧ CompilerState.bytecode s3
        = CompilerState.bytecode s ++ [instruction; highByte distance; lowByte distance] ++ emitted
      ∧ 0 ≤ highByte distance ≤ 255 ∧ 0 ≤ lowByte distance ≤ 255
      ∧ ∀ vm a fr later,
          currentFrame vm = Some a → frames vm !! a = Some fr →
          FunctionObject.bytecode (CallFrame.func fr) = CompilerState.bytecode s3 ++ later →
          CallFrame.ip fr = position →
          InstructionHandlers.OP_JUMP vm
          = Ok OK (atIp a fr (Z.of_nat (length (CompilerState.bytecode s3))) vm).
Proof.
  intros Hemit Hcode distance.
  unfold emitJump, emitByte, emitBytes, getState in Hemit.
  unfold mbind, mret, CS_bind, CS_ret in Hemit. simpl in Hemit.
  injection Hemit as <- <-. simpl in Hcode.
  rewrite <- !app_assoc in Hcode. simpl in Hcode.
  set (code := CompilerState.bytecode s) in *.
  assert (Hpos : Z.of_nat (length ((code ++ [instruction]) ++ [255; 255])) - 2
                 = Z.of_nat (length code) + 1).
  { rewrite !length_app. simpl. lia. }
  rewrite Hpos.
  assert (Hjump : Z.of_nat (length (CompilerState.bytecode s2)) - (Z.of_nat (length code) + 1) - 2
                  = distance).
  { rewrite Hcode. repeat (rewrite ?length_app; simpl). unfold distance. lia. }
  rewrite patchJump_inside
    by (rewrite ?Hcode; repeat (rewrite ?length_app; simpl); lia).
  cbv zeta. rewrite Hjump.
  destruct (Z.gtb_spec distance 65535) as [Hbig|Hfit]; [done|].
  destruct (short_coding distance ltac:(unfold distance in *; lia)) as (Hdec & Hhi & Hlo).
  assert (Hpatched :
    <[Z.to_nat (Z.of_nat (length code) + 1 + 1) := Z.land distance 255]>
      (<[Z.to_nat (Z.of_nat (length code) + 1) := Z.land (Z.shiftr distance 8) 255]>
         (CompilerState.bytecode s2))
    = code ++ [instruction; highByte distance; lowByte distance] ++ emitted).
  { rewrite Hcode.
    replace (Z.to_nat (Z.of_nat (length code) + 1 + 1)) with (length code + 2)%nat by lia.
    replace (Z.to_nat (Z.of_nat (length code) + 1)) with (length code + 1)%nat by lia.
    rewrite !insert_app_r. reflexivity. }
  eexists. split; [reflexivity|]. simpl. rewrite Hpatched.
  split_and!; [done|lia|lia|lia|lia|].
  intros vm a fr later Hcur Hfr Hfunc Hip.
  rewrite (jump_at vm a fr) by done. f_equal. f_equal.
  rewrite Hfunc, Hip.
  replace (code ++ [instruction; highByte distance; lowByte distance] ++ emitted)
    with ((code ++ [instruction]) ++ [highByte distance; lowByte distance] ++ emitted)
    by by rewrite <- app_assoc.
  rewrite <- app_assoc.
  replace (Z.of_nat (length code) + 1) with (Z.of_nat (length (code ++ [instruction])))
    by (rewrite length_app; simpl; lia).
  rewrite <- (app_assoc [_; _]). rewrite shortAt_app, Hdec.
  repeat (rewrite ?length_app; simpl). unfold distance. lia.
Qed.

Lemma patched_jump_lands_behind_the_code_witness :
  ∃ s3, patchJump 1 jumpOverPop = COk tt s3
        ∧ CompilerState.bytecode s3 = [Opcodes.OP_JUMP; 0; 1; Opcodes.OP_POP]
        ∧ InstructionHandlers.OP_JUMP (vmRunning jumpFunction 1 [])
          = Ok OK (atIp 0 (CallFrame.mk jumpFunction 1 0 0 None) 4 (vmRunning jumpFunction 1 [])).
Proof.
  pose proof (patched_jump_lands_behind_the_code Opcodes.OP_JUMP (CompilerState.make "f")
                jumpEmitted jumpOverPop 1 [Opcodes.OP_POP] eq_refl eq_refl) as Hpatch.
  cbv zeta in Hpatch. change (Z.of_nat (length [Opcodes.OP_POP]) >? 65535) with false in Hpatch.
  cbv iota in Hpatch. destruct Hpatch as (s3 & Hs3 & Hcode & _ & _ & Hrun).
  exists s3. split; [exact Hs3|]. split; [exact Hcode|].
  rewrite (Hrun (vmRunning jumpFunction 1 []) 0%nat (CallFrame.mk jumpFunction 1 0 0 None)
             [Opcodes.OP_PUSH_NULL; Opcodes.OP_RETURN] eq_refl eq_refl).
  - rewrite Hcode. reflexivity.
  - rewrite Hcode. reflexivity.
  - reflexivity.
Defined.

(** X6. [emitLoop] for a loop that starts within the code emitted so far:
    when the distance back, the three bytes of the instruction included, is
    above 0xFFFF the loop is refused as too large; otherwise OP_LOOP and the
    two bytes of the distance are appended, and a frame that executes the
    OP_LOOP, its instruction pointer on the operand, continues at the start of
    the loop. *)
Theorem emitted_loop_returns_to_its_start (loopStart : Z) (s : CompilerState.t) :
  0 ≤ loopStart ≤ Z.of_nat (length (CompilerState.bytecode s)) →
  let offset := Z.of_nat (length (CompilerState.bytecode s)) - loopStart + 3 in
  if offset >? 0xFFFF then emitLoop loopStart s = CError "Loop body too large."
  else
    ∃ s', emitLoop loopStart s = COk tt s'
      ∧ CompilerState.bytecode s'
        = CompilerState.bytecode s ++ [Opcodes.OP_LOOP; highByte offset; lowByte offset]
      ∧ 0 ≤ highByte offset ≤ 255 ∧ 0 ≤ lowByte offset ≤ 255
      ∧ ∀ vm a fr later,
          currentFrame vm = Some a → frames vm !! a = Some fr →
          FunctionObject.bytecode (CallFrame.func fr) = CompilerState.bytecode s' ++ later →
          CallFrame.ip fr = Z.of_nat (length (CompilerState.bytecode s)) + 1 →
          InstructionHandlers.OP_LOOP vm = Ok OK (atIp a fr loopStart vm).
Proof.
  intros Hstart offset. unfold emitLoop. fold offset.
  destruct (Z.gtb_spec offset 65535) as [Hbig|Hfit]; [done|].
  destruct (short_coding offset ltac:(unfold offset in *; lia)) as (Hdec & Hhi & Hlo).
  eexists. split; [reflexivity|]. simpl. split_and!; [done|lia|lia|lia|lia|].
  intros vm a fr later Hcur Hfr Hfunc Hip.
  rewrite (loop_at vm a fr) by done. f_equal. f_equal.
  rewrite Hfunc, Hip. simpl. set (code := CompilerState.bytecode s) in *.
  change (Z.land (Z.shiftr offset 8) 255) with (highByte offset).
  change (Z.land offset 255) with (lowByte offset).
  replace ((code ++ [Opcodes.OP_LOOP; highByte offset; lowByte offset]) ++ later)
    with ((code ++ [Opcodes.OP_LOOP]) ++ [highByte offset; lowByte offset] ++ later)
    by by rewrite <- !app_assoc.
  replace (Z.of_nat (length code) + 1) with (Z.of_nat (length (code ++ [Opcodes.OP_LOOP])))
    by (rewrite length_app; simpl; lia).
  rewrite shortAt_app, Hdec. rewrite length_app. simpl. unfold offset. lia.
Qed.

Lemma emitted_loop_returns_to_its_start_witness :
  ∃ s', emitLoop 0 loopBody = COk tt s'
        ∧ CompilerState.bytecode s'
          = [Opcodes.OP_PUSH_TRUE; Opcodes.OP_POP; Opcodes.OP_LOOP; 0; 5]
        ∧ InstructionHandlers.OP_LOOP (vmRunning loopFunction 3 [])
          = Ok OK (atIp 0 (CallFrame.mk loopFunction 3 0 0 None) 0 (vmRunning loopFunction 3 [])).
Proof.
  pose proof (emitted_loop_returns_to_its_start 0 loopBody ltac:(simpl; lia)) as Hloop.
  cbv zeta in Hloop.
  change (Z.of_nat (length (CompilerState.bytecode loopBody)) - 0 + 3 >? 65535)
    with false in Hloop.
  cbv iota in Hloop. destruct Hloop as (s' & Hs' & Hcode & _ & _ & Hrun).
  exists s'. split; [exact Hs'|]. split; [exact Hcode|].
  apply (Hrun (vmRunning loopFunction 3 []) 0%nat (CallFrame.mk loopFunction 3 0 0 None) []
           eq_refl eq_refl).
  - rewrite Hcode. reflexivity.
  - reflexivity.
Defined.

(** ** The end of a script *)

(** X7. When the traversal of a program succeeds, [compile] succeeds; it
    appends OP_PUSH_NULL, OP_RETURN exactly when the code is empty or its last
    byte is not the byte of OP_RETURN, and leaves the code as it is otherwise,
    so the last byte of a script is always the byte of OP_RETURN. The test is
    on the byte, which may be an operand: in a script whose last statement
    defines the global of constant 97 no return is appended, and the machine
    runs off its end. *)
Theorem trailing_return_is_decided_by_the_last_byte (program : list Statement)
    (s : CompilerState.t) (enclosing : list CompilerState.t) :
  traversed program = COk tt (s :: enclosing) →
  ∃ main chain,
    compile program = COk main chain
    ∧ FunctionObject.bytecode main
      = (if bool_decide (last (CompilerState.bytecode s) = Some Opcodes.OP_RETURN)
         then CompilerState.bytecode s
         else CompilerState.bytecode s ++ [Opcodes.OP_PUSH_NULL; Opcodes.OP_RETURN])
    ∧ last (FunctionObject.bytecode main) = Some Opcodes.OP_RETURN
    ∧ FunctionObject.constants main = CompilerState.constants s.
Proof.
  unfold traversed, compile. intros Htrav.
  unfold mbind at 1. unfold CM_bind. rewrite Htrav.
  unfold mbind, mret, CM_bind, CM_ret, currentState, lastOp.
  destruct (CompilerState.bytecode s) as [|b code] eqn:Hcode.
  - simpl. rewrite Hcode. simpl. eexists _, _. split; [reflexivity|]. done.
  - rewrite bool_decide_eq_false_2 by done. rewrite orb_false_l.
    case_bool_decide as Hlast; simpl.
    + eexists _, _. split; [reflexivity|]. simpl. rewrite ?Hcode. done.
    + rewrite Hcode. simpl. eexists _, _. split; [reflexivity|]. simpl.
      split_and!; [by rewrite <- app_assoc| |done].
      change (b :: (code ++ [Opcodes.OP_PUSH_NULL]) ++ [Opcodes.OP_RETURN])
        with ((b :: code ++ [Opcodes.OP_PUSH_NULL]) ++ [Opcodes.OP_RETURN]).
      by rewrite last_snoc.
Qed.

Lemma trailing_return_is_decided_by_the_last_byte_witness :
  ∃ main, compiled (manyDeclarations 98) = Some main
          ∧ drop 291 (FunctionObject.bytecode main)
            = [Opcodes.OP_PUSH_NULL; Opcodes.OP_DEFINE_GLOBAL; 97]
          ∧ reportsOf (@runProgram exampleHost 500 (manyDeclarations 98))
            = [mkErrorReport (VStr "Unknown opcode: undefined") "<script>"].
Proof.
  assert (Htrav : ∃ s, traversed (manyDeclarations 98) = COk tt [s]
                       ∧ bool_decide (last (CompilerState.bytecode s) = Some Opcodes.OP_RETURN)
                         = true
                       ∧ drop 291 (CompilerState.bytecode s)
                         = [Opcodes.OP_PUSH_NULL; Opcodes.OP_DEFINE_GLOBAL; 97]).
  { eexists. split; [vm_compute; reflexivity|]. split; vm_compute; reflexivity. }
  destruct Htrav as (s & Htrav & Hlast & Hdrop).
  destruct (trailing_return_is_decided_by_the_last_byte _ _ _ Htrav)
    as (main & chain & Hmain & Hcode & _).
  exists main. unfold compiled. rewrite Hmain. split; [reflexivity|].
  rewrite Hcode, Hlast. split; [exact Hdrop|]. vm_compute. reflexivity.
Defined.

(** ** The dispatch loop and the microtask loop *)

Ltac split_match H :=
  repeat match type of H with
  | context [match ?x with _ => _ end] => destruct x eqn:?; try discriminate H
  end.

Lemma dispatch_reported `{Host} (vm vm' : VM) (r : InterpretResult) :
  dispatch vm = Ok (Some r) vm' → reported r vm'.
Proof.
  unfold dispatch. unfold_m. intros Hd.
  destruct (hasError vm) eqn:Herr.
  { injection Hd as <- <-. exact Herr. }
  destruct (last (callFrames vm)) as [top|] eqn:Htop.
  2:{ injection Hd as <- <-. split; [exact Herr|]. by apply last_None. }
  split_match Hd; injection Hd as <- <-; try exact I; simpl; done.
Qed.

(** X8. Whatever [run] answers tells the state it leaves: OK only with no
    frame left and no error flagged, RUNTIME_ERROR only with the error flag
    set, and never COMPILE_ERROR. *)
Theorem run_reports_the_state `{Host} (fuel : nat) (vm vm' : VM) (r : InterpretResult) :
  run fuel vm = Ok r vm' → reported r vm'.
Proof.
  revert vm. induction fuel as [|fuel IH]; intros vm; simpl; [done|].
  unfold mbind, M_bind. destruct (dispatch vm) as [[r'|] vm1| | |] eqn:Hd; try done.
  - intros [= <- <-]. by eapply dispatch_reported.
  - apply IH.
Qed.

(** X9. [runMicrotasks] takes the task at the head of the queue, runs it on
    the VM with the queue shortened by that task, and goes on with the queue
    the task leaves: the tasks queued meanwhile are run in the same call,
    after those queued before. It returns when the queue is empty or the
    error flag is set, whichever comes first, with the tasks that remain
    still in the queue; and whenever the turns come to such an end, it
    returns. *)
Theorem runMicrotasks_drains :
  (∀ ran vm vm', drains ran vm vm' →
     ∀ fuel, (length ran ≤ fuel)%nat → runMicrotasks fuel vm = Ok tt vm')
  ∧ (∀ fuel vm vm', runMicrotasks fuel vm = Ok tt vm' →
       ∃ ran, drains ran vm vm' ∧ (length ran ≤ fuel)%nat
              ∧ (microtaskQueue vm' = [] ∨ hasError vm' = true)).
Proof.
  split.
  - induction 1 as [vm Hq|vm He|task rest ran vm vm1 vm' Hq He Hrun _ IH]; intros fuel Hfuel.
    + destruct fuel; simpl; unfold_m; by rewrite Hq.
    + by apply runMicrotasks_errored.
    + destruct fuel as [|fuel]; [simpl in Hfuel; lia|].
      simpl. unfold_m. rewrite Hq, He. simpl. rewrite Hrun.
      apply IH. simpl in Hfuel. lia.
  - intros fuel. induction fuel as [|fuel IH]; intros vm vm'; simpl; unfold_m.
    + destruct (microtaskQueue vm) eqn:Hq.
      { intros [= <-]. exists []. split_and!; [by constructor|done|by left]. }
      destruct (hasError vm) eqn:He; [|done].
      intros [= <-]. exists []. split_and!; [by apply drains_error|done|by right].
    + destruct (microtaskQueue vm) as [|task rest] eqn:Hq.
      { intros [= <-]. exists []. split_and!; [by constructor|simpl; lia|by left]. }
      destruct (hasError vm) eqn:He.
      { intros [= <-]. exists []. split_and!; [by apply drains_error|simpl; lia|by right]. }
      simpl. destruct (runMicrotask task (with_microtaskQueue rest vm)) as [[] vm1| | |] eqn:Hrun;
        try done.
      intros Hloop. destruct (IH vm1 vm' Hloop) as (ran & Hran & Hlen & Hend).
      exists (task :: ran). split_and!; [by eapply drains_task|simpl; lia|done].
Qed.

Lemma eventLoop_ends `{Host} (fuel : nat) (vm vm' : VM) :
  eventLoop fuel vm = Ok tt vm' → hasError vm' = true ∨ quiescent vm'.
Proof.
  revert vm. induction fuel as [|fuel IH]; intros vm Hloop.
  - simpl in Hloop. unfold_m. simpl in Hloop.
    destruct (bool_decide (callFrames vm = []) && bool_decide (microtaskQueue vm = [])
              && negb (pendingHostOps vm >? 0)) eqn:Hrest.
    + injection Hloop as <-. right.
      apply andb_true_iff in Hrest as [Hrest Hp]. apply andb_true_iff in Hrest as [Hf Hq].
      apply bool_decide_eq_true in Hf, Hq. apply negb_true_iff in Hp.
      split_and!; [done|done|]. rewrite Z.gtb_ltb in Hp. by apply Z.ltb_ge in Hp.
    + destruct (hasError vm) eqn:He; [|done]. injection Hloop as <-. by left.
  - cbn [eventLoop] in Hloop. unfold mbind at 1 in Hloop. unfold M_bind, gets in Hloop.
    cbv beta iota in Hloop. change (id vm) with vm in Hloop.
    destruct (bool_decide (callFrames vm = []) && bool_decide (microtaskQueue vm = [])
              && negb (pendingHostOps vm >? 0)) eqn:Hrest.
    + unfold mret, M_ret in Hloop. injection Hloop as <-. right.
      apply andb_true_iff in Hrest as [Hrest Hp]. apply andb_true_iff in Hrest as [Hf Hq].
      apply bool_decide_eq_true in Hf, Hq. apply negb_true_iff in Hp.
      split_and!; [done|done|]. rewrite Z.gtb_ltb in Hp. by apply Z.ltb_ge in Hp.
    + destruct (hasError vm) eqn:He; [unfold mret, M_ret in Hloop; injection Hloop as <-; by left|].
      unfold mbind, M_bind in Hloop.
      destruct (runMicrotasks (S fuel) vm) as [[] vm1| | |]; try done.
      unfold gets in Hloop. cbv beta iota in Hloop.
      destruct (callFrames vm1) as [|a frs] eqn:Hfrs.
      * unfold mret, M_ret in Hloop. cbv beta iota in Hloop. unfold id in Hloop.
        match type of Hloop with (if ?c then _ else _) _ = _ => destruct c; [done|] end.
           by apply IH in Hloop.
      * destruct (run (S fuel) vm1) as [r vm2| | |]; try done.
        unfold mret, M_ret in Hloop. cbv beta iota in Hloop.
        destruct (match r with YIELD => false | _ => hasError vm2 end) eqn:Hstop.
        -- injection Hloop as <-. left. by destruct r.
        -- cbv beta iota in Hloop. unfold id in Hloop.
           match type of Hloop with (if ?c then _ else _) _ = _ => destruct c; [done|] end.
           by apply IH in Hloop.
Qed.

Lemma pop_nonempty (vm : VM) (v : Value) (st : list Value) :
  stack vm = v :: st →
  ∃ top, pop vm = Ok top (with_stack (removelast (v :: st)) vm).
Proof.
  intros Hst. unfold pop. unfold_m. rewrite Hst.
  destruct (last (v :: st)) as [top|] eqn:Hlast.
  - by exists top.
  - by apply last_None in Hlast.
Qed.

(** X10. [interpret] answers OK or RUNTIME_ERROR and nothing else. It
    answers OK only from a machine at rest, with no frame, no microtask, no
    pending host operation and no error flagged, whose script promise is not
    rejected; it leaves the stack empty, and the value is the value of the
    script promise where that is fulfilled. With RUNTIME_ERROR the value is
    the reason the script promise has at that moment, and the error flag is
    set or the script promise is rejected. *)
Theorem interpret_outcome `{Host} (fuel : nat) (mainFunction : FunctionObject)
    (vm vm' : VM) (out : Outcome) :
  interpret fuel mainFunction vm = Ok out vm' →
  ∃ cell, promises vm' !! length (promises vm) = Some cell
    ∧ match result out with
      | OK => hasError vm' = false ∧ quiescent vm' ∧ stack vm' = []
              ∧ PromiseV1.state cell ≠ REJECTED
              ∧ (PromiseV1.state cell = FULFILLED → value out = PromiseV1.value cell)
      | RUNTIME_ERROR => value out = PromiseV1.reason cell
                         ∧ (hasError vm' = true ∨ PromiseV1.state cell = REJECTED)
      | _ => False
      end.
Proof.
  unfold interpret. intros Hrun.
  unfold new_closure, new_promise, scheduleMicrotask in Hrun.
  unfold mbind at 1 2 3 4 5 in Hrun. unfold M_bind, modify in Hrun. cbv beta iota in Hrun.
  match type of Hrun with
  | match eventLoop fuel ?start with _ => _ end = _ =>
      destruct (eventLoop fuel start) as [[] vm1| | |] eqn:Hloop; try done
  end.
  apply eventLoop_ends in Hloop.
  simpl promises in Hrun. set (p := length (promises vm)) in *.
  unfold mbind at 1 2 in Hrun. unfold M_bind, gets, deref_promise, deref in Hrun.
  cbv beta iota in Hrun.
  destruct (promises vm1 !! p) as [cell|] eqn:Hcell; [|done].
  destruct (hasError vm1) eqn:Herr.
  - unfold mbind at 1 in Hrun. unfold M_bind in Hrun.
    destruct (PromiseV1.state cell) eqn:Hstate.
    + unfold mbind at 1 2 in Hrun. unfold M_bind, gets in Hrun. cbv beta iota in Hrun.
      destruct (stack vm1) as [|v st] eqn:Hst.
      * unfold mret, M_ret, promise_reject, scheduleMicrotask, modify in Hrun.
        unfold mbind, M_bind, deref in Hrun. simpl in Hrun. rewrite Hcell in Hrun.
        injection Hrun as <- <-. exists cell. simpl. split_and!; [done|done|by left].
      * destruct (pop_nonempty vm1 v st Hst) as (top & Hpop).
        unfold mbind at 1 in Hrun. unfold M_bind in Hrun. rewrite Hpop in Hrun.
        unfold mret, M_ret, promise_reject, scheduleMicrotask, modify in Hrun.
        unfold mbind, M_bind, deref in Hrun. simpl in Hrun. rewrite Hcell in Hrun.
        injection Hrun as <- <-. exists cell. simpl. split_and!; [done|done|by left].
    + unfold mret, M_ret, mbind, M_bind, deref in Hrun. rewrite Hcell in Hrun.
      injection Hrun as <- <-. exists cell. simpl. split_and!; [done|done|by left].
    + unfold mret, M_ret, mbind, M_bind, deref in Hrun. rewrite Hcell in Hrun.
      injection Hrun as <- <-. exists cell. simpl. split_and!; [done|done|by left].
  - destruct Hloop as [Hloop|Hrest]; [congruence|].
    destruct (PromiseV1.state cell) eqn:Hstate.
    + unfold mbind at 1 2 in Hrun. unfold M_bind, gets in Hrun. cbv beta iota in Hrun.
      destruct (stack vm1) as [|v st] eqn:Hst.
      * unfold mret, M_ret, mbind, M_bind, setStackLength, gets, modify in Hrun.
        simpl in Hrun. injection Hrun as <- <-. exists cell. simpl.
        rewrite Hstate. by split_and!.
      * destruct (pop_nonempty vm1 v st Hst) as (top & Hpop).
        unfold mbind at 1 in Hrun. unfold M_bind in Hrun. rewrite Hpop in Hrun.
        unfold mret, M_ret, mbind, M_bind, setStackLength, gets, modify in Hrun.
        simpl in Hrun. injection Hrun as <- <-. exists cell. simpl.
        rewrite Hstate. by split_and!.
    + unfold mret, M_ret, mbind, M_bind, setStackLength, gets, modify in Hrun.
      simpl in Hrun. injection Hrun as <- <-. exists cell. simpl.
      rewrite Hstate. by split_and!.
    + unfold mret, M_ret in Hrun. injection Hrun as <- <-. exists cell. simpl.
      split_and!; [done|done|by right].
Qed.

Lemma run_reports_the_state_witness :
  ∃ vm', run (H := exampleHost) 5 (vmRunning emptyScript 0 []) = Ok OK vm'
         ∧ hasError vm' = false ∧ callFrames vm' = [].
Proof.
  eexists. split; [vm_compute; reflexivity|].
  match goal with
  | |- hasError ?v = _ ∧ _ =>
      apply (run_reports_the_state (H := exampleHost) 5 (vmRunning emptyScript 0 []) v OK)
  end.
  vm_compute. reflexivity.
Defined.

Lemma runMicrotasks_drains_witness :
  ∃ vm', runMicrotasks 2 vmSettling = Ok tt vm'
         ∧ callFrames vm' = [0%nat]
         ∧ stack vm' = [VClosure 0; VStr "v"]
         ∧ microtaskQueue vm' = [].
Proof.
  destruct runMicrotasks_drains as [Hreturns _].
  eexists. split.
  - apply (Hreturns [ResolveInternalTask 0 (VStr "v"); AsyncCallTask 0 (Some 1%nat) [VStr "v"]]);
      [|simpl; lia].
    eapply drains_task; [reflexivity|reflexivity|vm_compute; reflexivity|].
    eapply drains_task; [reflexivity|reflexivity|vm_compute; reflexivity|].
    by apply drains_empty.
  - by split_and!.
Defined.

Lemma interpret_outcome_witness :
  ∃ out vm', interpret (H := exampleHost) 5 emptyScript newVM = Ok out vm'
    ∧ result out = OK
    ∧ ∃ cell, promises vm' !! 0%nat = Some cell
        ∧ hasError vm' = false ∧ quiescent vm' ∧ stack vm' = []
        ∧ PromiseV1.state cell ≠ REJECTED
        ∧ (PromiseV1.state cell = FULFILLED → value out = PromiseV1.value cell).
Proof.
  eexists _, _. split; [vm_compute; reflexivity|]. split; [reflexivity|].
  match goal with
  | |- ∃ cell, promises ?v !! _ = _ ∧ _ =>
      apply (interpret_outcome (H := exampleHost) 5 emptyScript newVM v
               (mkOutcome OK VNull))
  end.
  vm_compute. reflexivity.
Defined.

(** ** The list of open upvalues *)

Lemma openList_lookup (cells : list Upvalue.t) (h : option nat) (l : list nat) (u : nat) :
  openList cells h l → u ∈ l → is_Some (cells !! u).
Proof.
  induction 1 as [|v cell rest Hv _ IH]; intros Hu; [by apply elem_of_nil in Hu|].
  apply elem_of_cons in Hu as [->|Hu]; [by eexists|by apply IH].
Qed.

Lemma openList_head (cells : list Upvalue.t) (h : option nat) (l : list nat) :
  openList cells h l → h = head l.
Proof. by destruct 1. Qed.

Lemma openList_ext (cells cells' : list Upvalue.t) (h : option nat) (l : list nat) :
  openList cells h l →
  (∀ u, u ∈ l → cells' !! u = cells !! u) →
  openList cells' h l.
Proof.
  induction 1 as [|v cell rest Hv _ IH]; intros Hsame; [constructor|].
  econstructor.
  - rewrite Hsame; [exact Hv|]. apply elem_of_cons. by left.
  - apply IH. intros u Hu. apply Hsame. apply elem_of_cons. by right.
Qed.

Lemma decreasing_NoDup (cells : list Upvalue.t) (l : list nat) :
  decreasing (locationOf cells <$> l) → NoDup l.
Proof.
  induction l as [|u l IH]; simpl; [constructor|]. intros [Hall Hdec].
  constructor; [|by apply IH]. intros Hu.
  rewrite Forall_fmap, Forall_forall in Hall. specialize (Hall u Hu). simpl in Hall. lia.
Qed.

Lemma openList_length (cells : list Upvalue.t) (h : option nat) (l : list nat) :
  openList cells h l → NoDup l → (length l ≤ length cells)%nat.
Proof.
  intros Hopen Hnd.
  assert (Hsub : l ⊆+ seq 0 (length cells)).
  { apply NoDup_submseteq; [done|]. intros u Hu.
    destruct (openList_lookup _ _ _ _ Hopen Hu) as [c Hc].
    apply lookup_lt_Some in Hc. apply elem_of_seq. lia. }
  apply submseteq_length in Hsub. by rewrite length_seq in Hsub.
Qed.

Lemma decreasing_app (xs ys : list Z) :
  decreasing (xs ++ ys)
  ↔ decreasing xs ∧ decreasing ys ∧ ∀ x y, x ∈ xs → y ∈ ys → y < x.
Proof.
  induction xs as [|x xs IH]; simpl.
  - split; [intros H; split_and!; [done|done|]|tauto].
    intros x y Hx. by apply elem_of_nil in Hx.
  - rewrite Forall_app, IH. split.
    + intros ((Hxs & Hys) & Hdx & Hdy & Hcross). split_and!; try done.
      intros x' y Hx' Hy. apply elem_of_cons in Hx' as [->|Hx'].
      * rewrite Forall_forall in Hys. by apply Hys.
      * by apply Hcross.
    + intros ((Hxs & Hdx) & Hdy & Hcross). split_and!; try done.
      * apply Forall_forall. intros y Hy. apply Hcross; [|done]. apply elem_of_cons. by left.
      * intros x' y Hx' Hy. apply Hcross; [|done]. apply elem_of_cons. by right.
Qed.

(** The search of [captureUpvalue] stops behind the cells above the slot. *)
Lemma captureSearch_spec (vm : VM) (loc : Z) (l : list nat) :
  ∀ (h prev : option nat) (fuel : nat),
    openList (upvalueCells vm) h l →
    decreasing (locationOf (upvalueCells vm) <$> l) →
    (length l ≤ fuel)%nat →
    ∃ above below,
      l = above ++ below
      ∧ Forall (λ u, loc < locationOf (upvalueCells vm) u) above
      ∧ Forall (λ u, locationOf (upvalueCells vm) u ≤ loc) below
      ∧ captureSearch fuel prev h loc vm
        = Ok (from_option Some prev (last above), head below) vm.
Proof.
  induction l as [|u l IH]; intros h prev fuel Hopen Hdec Hfuel.
  - inversion Hopen; subst. exists [], []. split_and!; try done. by destruct fuel.
  - inversion Hopen as [|u' cell rest Hu Hrest]; subst.
    simpl in Hdec. destruct Hdec as [Hbelow Hdec].
    assert (Hloc : locationOf (upvalueCells vm) u = Upvalue.location cell).
    { unfold locationOf. by rewrite Hu. }
    destruct (Z.ltb_spec loc (Upvalue.location cell)) as [Habove|Hle].
    + destruct fuel as [|fuel]; [simpl in Hfuel; lia|].
      destruct (IH (Upvalue.next cell) (Some u) fuel Hrest Hdec ltac:(simpl in Hfuel; lia))
        as (above & below & -> & Ha & Hb & Hsearch).
      exists (u :: above), below. split_and!; try done.
      * constructor; [lia|done].
      * simpl. unfold mbind, M_bind, deref_upvalue, deref. rewrite Hu.
        rewrite Z.gtb_ltb. destruct (Z.ltb_spec loc (Upvalue.location cell)); [|lia].
        rewrite Hsearch. f_equal. f_equal.
        rewrite last_cons. by destruct (last above).
    + exists [], (u :: l). split_and!; try done.
      * constructor; [lia|]. rewrite Forall_fmap in Hbelow.
        eapply Forall_impl; [exact Hbelow|]. simpl. intros x Hx. lia.
      * destruct fuel; simpl; unfold mbind, M_bind, deref_upvalue, deref; rewrite Hu;
          rewrite Z.gtb_ltb; by destruct (Z.ltb_spec loc (Upvalue.location cell)); [lia|].
Qed.

Lemma locationOf_app (cells : list Upvalue.t) (new : Upvalue.t) (u : nat) :
  (u < length cells)%nat → locationOf (cells ++ [new]) u = locationOf cells u.
Proof. intros Hu. unfold locationOf. by rewrite lookup_app_l. Qed.

Lemma openList_link (cells : list Upvalue.t) (new pcell : Upvalue.t) (pu : nat)
    (below : list nat) :
  ∀ (above : list nat) (h : option nat),
    openList cells h (above ++ pu :: below) →
    NoDup (above ++ pu :: below) →
    cells !! pu = Some pcell →
    Upvalue.next new = head below →
    openList (<[pu := Upvalue.mk (Upvalue.location pcell) (Upvalue.closed pcell)
                        (Some (length cells))]> (cells ++ [new]))
      h (above ++ pu :: length cells :: below).
Proof.
  induction above as [|a above IH]; intros h Hopen Hnd Hpu Hnext.
  - simpl in *. inversion Hopen as [|u' cell rest Hu Hrest]; subst.
    assert (cell = pcell) as -> by congruence.
    pose proof (lookup_lt_Some _ _ _ Hpu) as Hlt.
    apply NoDup_cons in Hnd as [Hnotin _].
    econstructor.
    { apply list_lookup_insert_eq. rewrite length_app. simpl. lia. }
    simpl. econstructor.
    { rewrite list_lookup_insert_ne by lia. by rewrite lookup_app_r, Nat.sub_diag. }
    rewrite Hnext. rewrite <- (openList_head _ _ _ Hrest).
    eapply openList_ext; [exact Hrest|]. intros u Hu'.
    destruct (openList_lookup _ _ _ _ Hrest Hu') as [c Hc].
    pose proof (lookup_lt_Some _ _ _ Hc).
    rewrite list_lookup_insert_ne by (intros ->; done). by rewrite lookup_app_l.
  - simpl in *. inversion Hopen as [|u' cell rest Hu Hrest]; subst.
    apply NoDup_cons in Hnd as [Hnotin Hnd].
    pose proof (lookup_lt_Some _ _ _ Hu) as Hlt.
    econstructor.
    + rewrite list_lookup_insert_ne.
      * rewrite lookup_app_l by done. exact Hu.
      * intros ->. apply Hnotin. apply elem_of_app. right. apply elem_of_cons. by left.
    + by apply IH.
Qed.

Lemma Forall_locationOf_ext (P : Z → Prop) (cells cells' : list Upvalue.t) (l : list nat) :
  (∀ u, u ∈ l → locationOf cells' u = locationOf cells u) →
  Forall (λ u, P (locationOf cells u)) l → Forall (λ u, P (locationOf cells' u)) l.
Proof.
  intros Hsame Hall. apply Forall_forall. intros u Hu. rewrite Hsame by done.
  by eapply Forall_forall in Hall.
Qed.

Lemma fmap_locationOf_ext (cells cells' : list Upvalue.t) (l : list nat) :
  (∀ u, u ∈ l → locationOf cells' u = locationOf cells u) →
  locationOf cells' <$> l = locationOf cells <$> l.
Proof.
  intros Hsame. apply list_fmap_ext. intros i u Hu. apply Hsame.
  by eapply list_elem_of_lookup_2.
Qed.

(** [captureUpvalue]: the cell of the slot is found in the open list, or a
    new one is linked in at its place. *)
Lemma captureUpvalue_spec (vm : VM) (l : list nat) (loc : Z) :
  openSorted vm l →
  (∃ u, u ∈ l ∧ locationOf (upvalueCells vm) u = loc ∧ captureUpvalue loc vm = Ok u vm)
  ∨ (Forall (λ u, locationOf (upvalueCells vm) u ≠ loc) l
     ∧ ∃ vm' above below,
         l = above ++ below
         ∧ captureUpvalue loc vm = Ok (length (upvalueCells vm)) vm'
         ∧ openSorted vm' (above ++ length (upvalueCells vm) :: below)
         ∧ upvaluesExtended vm vm'
         ∧ upvalueCells vm' !! length (upvalueCells vm)
           = Some (Upvalue.mk loc VNull (head below))).
Proof.
  intros [Hopen Hdec].
  pose proof (decreasing_NoDup _ _ Hdec) as Hnd.
  pose proof (openList_length _ _ _ Hopen Hnd) as Hlen.
  destruct (captureSearch_spec vm loc l (openUpvalues vm) None (length (upvalueCells vm))
              Hopen Hdec Hlen) as (above & below & -> & Habove & Hbelow & Hsearch).
  set (cells := upvalueCells vm) in *. set (n := length cells) in *.
  assert (Hold : ∀ u, u ∈ above ++ below → (u < n)%nat).
  { intros u Hu. destruct (openList_lookup _ _ _ _ Hopen Hu) as [c Hc].
    by apply lookup_lt_Some in Hc. }
  (* is the cell the search stopped at the cell of the slot? *)
  assert (Hcase : (∃ u rest c, below = u :: rest ∧ cells !! u = Some c
                               ∧ Upvalue.location c = loc)
                  ∨ Forall (λ u, locationOf cells u < loc) below).
  { destruct below as [|u rest]; [right; constructor|].
    assert (Hu : u ∈ above ++ u :: rest) by (apply elem_of_app; right; apply elem_of_cons; by left).
    destruct (openList_lookup _ _ _ _ Hopen Hu) as [c Hc].
    assert (Hlocu : locationOf cells u = Upvalue.location c) by (unfold locationOf; by rewrite Hc).
    destruct (Z.eq_dec (Upvalue.location c) loc) as [Heq|Hne]; [left; by exists u, rest, c|].
    right. pose proof Hdec as Hd2. rewrite fmap_app in Hd2.
    apply decreasing_app in Hd2 as (_ & Hdb & _). rewrite fmap_cons in Hdb.
    destruct Hdb as [Hrest _]. rewrite Forall_fmap in Hrest.
    pose proof (Forall_inv Hbelow) as Hle. simpl in Hle.
    constructor; [lia|]. eapply Forall_impl; [exact Hrest|]. simpl. intros x Hx. lia. }
  destruct Hcase as [(u & rest & c & -> & Hc & Hlocc)|Hlow].
  - left. exists u. split_and!.
    + apply elem_of_app. right. apply elem_of_cons. by left.
    + unfold locationOf. by rewrite Hc.
    + unfold captureUpvalue. mstep. mstep by (exact Hsearch).
      change (head (u :: rest)) with (Some u). cbv beta iota.
      assert (Hfound : (cell ← deref_upvalue u;
                        mret (if Upvalue.location cell =? loc then Some u else None)) vm
                       = Ok (Some u) vm).
      { unfold deref_upvalue, deref. mstep by (fold cells; rewrite Hc; reflexivity).
        rewrite Hlocc, Z.eqb_refl. reflexivity. }
      mstep by (exact Hfound). reflexivity.
  - right. split.
    { apply Forall_app. split.
      - eapply Forall_impl; [exact Habove|]. simpl. intros x Hx. lia.
      - eapply Forall_impl; [exact Hlow|]. simpl. intros x Hx. lia. }
    assert (Hfound : (match head below with
                      | Some u => cell ← deref_upvalue u;
                                  mret (if Upvalue.location cell =? loc then Some u else None)
                      | None => mret None
                      end) vm = Ok None vm).
    { destruct below as [|u rest]; [done|]. change (head (u :: rest)) with (Some u).
      cbv beta iota.
      assert (Hu : u ∈ above ++ u :: rest)
        by (apply elem_of_app; right; apply elem_of_cons; by left).
      destruct (openList_lookup _ _ _ _ Hopen Hu) as [c Hc].
      unfold mbind, M_bind, deref_upvalue, deref. fold cells. rewrite Hc.
      pose proof (Forall_inv Hlow) as Hlt. unfold locationOf in Hlt. rewrite Hc in Hlt.
      simpl in Hlt. unfold mret, M_ret.
      destruct (Z.eqb_spec (Upvalue.location c) loc); [lia|done]. }
    unfold captureUpvalue. mstep. mstep by (exact Hsearch). mstep by (exact Hfound).
    unfold new_upvalue. mstep. fold cells. fold n.
    set (new := Upvalue.mk loc VNull (head below)).
    assert (Hdecs := Hdec). rewrite fmap_app in Hdecs.
    apply decreasing_app in Hdecs as (Hda & Hdb & Hcross).
    destruct above as [|a above0 _] using rev_ind.
    + (* the new cell becomes the head of the list *)
      simpl from_option. cbv beta iota. mstep.
      eexists _, [], below. split; [done|]. split; [reflexivity|].
      assert (Hsame : ∀ u, u ∈ below → locationOf (cells ++ [new]) u = locationOf cells u).
      { intros u Hu. apply locationOf_app. by apply Hold. }
      split_and!.
      * split; simpl.
        -- econstructor; [by rewrite lookup_app_r, Nat.sub_diag|]. simpl.
           simpl in Hopen. rewrite <- (openList_head _ _ _ Hopen).
           eapply openList_ext; [exact Hopen|]. intros u Hu.
           rewrite lookup_app_l; [done|]. by apply Hold.
        -- split.
           ++ assert (locationOf (cells ++ [new]) n = loc) as ->.
              { unfold locationOf. by rewrite lookup_app_r, Nat.sub_diag. }
              rewrite Forall_fmap.
              by apply (Forall_locationOf_ext (λ z, z < loc) cells).
           ++ by rewrite (fmap_locationOf_ext cells).
      * split; [by eexists _, _|]. intros u cell Hu. exists cell. simpl.
        rewrite lookup_app_l by by eapply lookup_lt_Some. done.
      * simpl. by rewrite lookup_app_r, Nat.sub_diag.
    + (* the new cell follows the last cell above the slot *)
      rewrite last_snoc. simpl from_option.
      assert (Ha : a ∈ (above0 ++ [a]) ++ below).
      { apply elem_of_app. left. apply elem_of_app. right. apply elem_of_cons. by left. }
      destruct (openList_lookup _ _ _ _ Hopen Ha) as [pcell Hpcell].
      set (cells' := <[a := Upvalue.mk (Upvalue.location pcell) (Upvalue.closed pcell) (Some n)]>
                       (cells ++ [new])).
      assert (Hlink : (pcell ← deref_upvalue a;
                       set_upvalue a (Upvalue.mk (Upvalue.location pcell) (Upvalue.closed pcell)
                                        (Some n))) (with_upvalueCells (cells ++ [new]) vm)
                      = Ok tt (with_upvalueCells cells' vm)).
      { unfold deref_upvalue, deref.
        mstep by (simpl upvalueCells; rewrite lookup_app_l by (by eapply lookup_lt_Some);
                  rewrite Hpcell; reflexivity).
        reflexivity. }
      mstep by (exact Hlink).
      eexists _, (above0 ++ [a]), below. split; [done|]. split; [reflexivity|].
      assert (Hsame : ∀ u, u ∈ (above0 ++ [a]) ++ below →
                           locationOf cells' u = locationOf cells u).
      { intros u Hu. pose proof (Hold u Hu) as Hlt. unfold locationOf, cells'.
        destruct (decide (u = a)) as [->|Hne].
        - rewrite list_lookup_insert_eq by (rewrite length_app; simpl; lia).
          by rewrite Hpcell.
        - rewrite list_lookup_insert_ne by done. by rewrite lookup_app_l. }
      assert (Hnew : cells' !! n = Some new).
      { unfold cells'. rewrite list_lookup_insert_ne.
        - by rewrite lookup_app_r, Nat.sub_diag.
        - intros ->. specialize (Hold n Ha). lia. }
      split_and!.
      * split; simpl.
        -- rewrite <- !app_assoc in *. simpl in *. by apply openList_link.
        -- rewrite fmap_app, fmap_cons. apply decreasing_app. split_and!.
           ++ rewrite (fmap_locationOf_ext cells); [done|].
              intros u Hu. apply Hsame. apply elem_of_app. by left.
           ++ simpl. split.
              ** assert (locationOf cells' n = loc) as ->.
                 { unfold locationOf. by rewrite Hnew. }
                 rewrite Forall_fmap.
                 apply (Forall_locationOf_ext (λ z, z < loc) cells); [|done].
                 intros u Hu. apply Hsame. apply elem_of_app. by right.
              ** rewrite (fmap_locationOf_ext cells); [done|].
                 intros u Hu. apply Hsame. apply elem_of_app. by right.
           ++ intros x y Hx Hy.
              apply list_elem_of_fmap in Hx as (u & -> & Hu).
              assert (Hxu : loc < locationOf cells' u).
              { rewrite Hsame by (apply elem_of_app; by left).
                by eapply Forall_forall in Habove. }
              apply elem_of_cons in Hy as [->|Hy].
              ** unfold locationOf at 1. rewrite Hnew. simpl. lia.
              ** apply list_elem_of_fmap in Hy as (v & -> & Hv).
                 rewrite Hsame by (apply elem_of_app; by right).
                 eapply Forall_forall in Hlow; [|exact Hv]. simpl in Hlow. lia.
      * split; [by eexists _, _|]. intros u cell Hu. simpl. fold cells'. fold cells in Hu.
        pose proof (lookup_lt_Some _ _ _ Hu) as Hlt.
        destruct (decide (u = a)) as [->|Hne].
        -- eexists. unfold cells'.
           rewrite list_lookup_insert_eq by (rewrite length_app; simpl; lia).
           split; [done|]. simpl. by assert (cell = pcell) as -> by congruence.
        -- exists cell. unfold cells'. rewrite list_lookup_insert_ne by done.
           by rewrite lookup_app_l.
      * exact Hnew.
Qed.

Lemma decreasing_inj (cells : list Upvalue.t) (l : list nat) (u v : nat) :
  decreasing (locationOf cells <$> l) → u ∈ l → v ∈ l →
  locationOf cells u = locationOf cells v → u = v.
Proof.
  induction l as [|x l IH]; simpl; [intros _ Hu; by apply elem_of_nil in Hu|].
  intros [Hall Hdec] Hu Hv Heq.
  rewrite Forall_fmap, Forall_forall in Hall.
  apply elem_of_cons in Hu as [->|Hu]; apply elem_of_cons in Hv as [->|Hv]; try done.
  - specialize (Hall v Hv). simpl in Hall. lia.
  - specialize (Hall u Hu). simpl in Hall. lia.
  - by apply IH.
Qed.

Lemma upvaluesExtended_refl (vm : VM) : upvaluesExtended vm vm.
Proof.
  split; [exists (upvalueCells vm), (openUpvalues vm); by destruct vm|].
  intros u cell Hu. by exists cell.
Qed.

(** X11. While the open upvalues are linked from the highest stack slot
    down, [captureUpvalue] answers a cell of the slot asked for and keeps the
    list so: the cell is in the list, which has the cells it had and at most
    this one more; no cell changes its slot or its closed value, and nothing
    but the cells and the head of the list changes. Capturing the same slot
    again answers the same cell and changes nothing, so all closures that
    capture a variable share its cell. *)
Theorem captured_slot_has_one_cell (vm : VM) (l : list nat) (loc : Z) :
  openSorted vm l →
  ∃ u vm' l',
    captureUpvalue loc vm = Ok u vm'
    ∧ openSorted vm' l'
    ∧ (∀ v, v ∈ l' ↔ v = u ∨ v ∈ l)
    ∧ Upvalue.location <$> upvalueCells vm' !! u = Some loc
    ∧ upvaluesExtended vm vm'
    ∧ captureUpvalue loc vm' = Ok u vm'.
Proof.
  intros Hsorted.
  destruct (captureUpvalue_spec vm l loc Hsorted)
    as [(u & Hu & Hloc & Hcap)|(Hnone & vm' & above & below & -> & Hcap & Hsorted' & Hext & Hnew)].
  - exists u, vm, l. split_and!; try done.
    + intros v. split; [by right|]. by intros [->|].
    + destruct Hsorted as [Hopen _].
      destruct (openList_lookup _ _ _ _ Hopen Hu) as [c Hc].
      unfold locationOf in Hloc. rewrite Hc in *. simpl in *. by rewrite Hloc.
    + apply upvaluesExtended_refl.
  - set (n := length (upvalueCells vm)) in *.
    assert (Hn : n ∈ above ++ n :: below) by (apply elem_of_app; right; apply elem_of_cons; by left).
    assert (Hlocn : locationOf (upvalueCells vm') n = loc) by (unfold locationOf; by rewrite Hnew).
    exists n, vm', (above ++ n :: below). split_and!; try done.
    + intros v. rewrite !elem_of_app, elem_of_cons. tauto.
    + by rewrite Hnew.
    + destruct (captureUpvalue_spec vm' _ loc Hsorted')
        as [(u & Hu & Hloc & Hcap')|(Hnone' & _)].
      * destruct Hsorted' as [_ Hdec].
        assert (u = n) as ->; [|done].
        eapply decreasing_inj; [exact Hdec|done|done|]. by rewrite Hloc.
      * eapply Forall_forall in Hnone'; [|exact Hn]. done.
Qed.

Lemma captured_slot_has_one_cell_witness :
  ∃ u vm' l',
    captureUpvalue 1 vmOneOpen = Ok u vm'
    ∧ openSorted vm' l'
    ∧ (∀ v, v ∈ l' ↔ v = u ∨ v ∈ [0%nat])
    ∧ Upvalue.location <$> upvalueCells vm' !! u = Some 1
    ∧ upvaluesExtended vmOneOpen vm'
    ∧ captureUpvalue 1 vm' = Ok u vm'.
Proof.
  apply (captured_slot_has_one_cell vmOneOpen [0%nat] 1).
  split.
  - econstructor; [reflexivity|]. constructor.
  - simpl. split; [constructor|exact I].
Defined.

Lemma openList_app_r (cells : list Upvalue.t) (a b : list nat) :
  ∀ h, openList cells h (a ++ b) → openList cells (head b) b.
Proof.
  induction a as [|x a IH]; intros h Hopen; simpl in *.
  - by rewrite <- (openList_head _ _ _ Hopen).
  - inversion Hopen; subst. by eapply IH.
Qed.

Lemma stackRead_slot (i : Z) (vm : VM) : stackRead i vm = Ok (slotValue vm i) vm.
Proof. unfold stackRead, slotValue. mstep. unfold id. by destruct (i <? 0). Qed.

Lemma with_same (vm : VM) :
  with_openUpvalues (openUpvalues vm) (with_upvalueCells (upvalueCells vm) vm) = vm.
Proof. by destruct vm. Qed.

Lemma closeUpvaluesLoop_spec (n : Z) (l : list nat) :
  ∀ (vm : VM) (fuel : nat),
    openSorted vm l → (length l ≤ fuel)%nat →
    ∃ closing remaining cells',
      l = closing ++ remaining
      ∧ Forall (λ u, n ≤ locationOf (upvalueCells vm) u) closing
      ∧ Forall (λ u, locationOf (upvalueCells vm) u < n) remaining
      ∧ closeUpvaluesLoop fuel n vm
        = Ok tt (with_openUpvalues (head remaining) (with_upvalueCells cells' vm))
      ∧ (∀ u, u ∉ closing → cells' !! u = upvalueCells vm !! u)
      ∧ (∀ u c, u ∈ closing → upvalueCells vm !! u = Some c →
                cells' !! u = Some (closedOver vm c)).
Proof.
  induction l as [|u l IH]; intros vm fuel [Hopen Hdec] Hfuel.
  - inversion Hopen as [Hhead|]; subst. exists [], [], (upvalueCells vm).
    split_and!; try done.
    + change (head []) with (@None nat). rewrite Hhead, with_same.
      destruct fuel; simpl; unfold mbind, M_bind, gets; by rewrite <- Hhead.
    + intros u c Hu. by apply elem_of_nil in Hu.
  - inversion Hopen as [|u' c rest Hc Hrest Hhead]; subst.
    pose proof (decreasing_NoDup _ _ Hdec) as Hnd. apply NoDup_cons in Hnd as [Hnotin Hnd].
    simpl in Hdec. destruct Hdec as [Hbelow Hdec].
    assert (Hlocu : locationOf (upvalueCells vm) u = Upvalue.location c)
      by (unfold locationOf; by rewrite Hc).
    rewrite Hlocu in Hbelow.
    destruct (Z.leb_spec n (Upvalue.location c)) as [Hge|Hlt].
    + destruct fuel as [|fuel]; [simpl in Hfuel; lia|].
      set (cells1 := <[u := closedOver vm c]> (upvalueCells vm)).
      set (vm1 := with_openUpvalues (Upvalue.next c) (with_upvalueCells cells1 vm)).
      assert (Hsame : ∀ v, v ≠ u → cells1 !! v = upvalueCells vm !! v).
      { intros v Hv. unfold cells1. by rewrite list_lookup_insert_ne. }
      assert (Hsorted1 : openSorted vm1 l).
      { split; simpl.
        - eapply openList_ext; [exact Hrest|]. intros v Hv. apply Hsame. by intros ->.
        - rewrite (fmap_locationOf_ext (upvalueCells vm)); [done|].
          intros v Hv. unfold locationOf. rewrite Hsame; [done|]. by intros ->. }
      destruct (IH vm1 fuel Hsorted1 ltac:(simpl in Hfuel; lia))
        as (closing & remaining & cells' & -> & Hcl & Hrem & Hloop & Hother & Hclosed).
      exists (u :: closing), remaining, cells'. split_and!.
      * done.
      * constructor; [lia|].
        apply (Forall_locationOf_ext (λ z, n ≤ z) cells1); [|exact Hcl].
        intros v Hv. unfold locationOf. symmetry. rewrite Hsame; [done|].
        intros ->. apply Hnotin. apply elem_of_app. by left.
      * apply (Forall_locationOf_ext (λ z, z < n) cells1); [|exact Hrem].
        intros v Hv. unfold locationOf. symmetry. rewrite Hsame; [done|].
        intros ->. apply Hnotin. apply elem_of_app. by right.
      * cbn [closeUpvaluesLoop]. mstep. rewrite <- Hhead. cbv beta iota.
        unfold deref_upvalue, deref. mstep by (rewrite Hc; reflexivity).
        rewrite Z.geb_leb. destruct (Z.leb_spec n (Upvalue.location c)); [|lia].
        mstep by (apply stackRead_slot). unfold set_upvalue. mstep. mstep.
        fold (closedOver vm c). fold cells1. 
        change (with_openUpvalues (Upvalue.next c) (with_upvalueCells cells1 vm)) with vm1.
        rewrite Hloop. reflexivity.
      * intros v Hv. rewrite Hother.
        -- apply Hsame. intros ->. apply Hv. apply elem_of_cons. by left.
        -- intros Hin. apply Hv. apply elem_of_cons. by right.
      * intros v c' Hv Hc'. apply elem_of_cons in Hv as [->|Hv].
        -- assert (c' = c) as -> by congruence.
           rewrite Hother by (intros Hin; apply Hnotin; apply elem_of_app; by left).
           simpl. unfold cells1. apply list_lookup_insert_eq. by eapply lookup_lt_Some.
        -- rewrite (Hclosed v c' Hv); [done|]. simpl. rewrite Hsame; [done|].
           intros ->. apply Hnotin. apply elem_of_app. by left.
    + exists [], (u :: l), (upvalueCells vm). split_and!; try done.
      * constructor; [lia|]. rewrite Forall_fmap in Hbelow.
        eapply Forall_impl; [exact Hbelow|]. simpl. intros x Hx. lia.
      * change (head (u :: l)) with (Some u). rewrite Hhead, with_same.
        destruct fuel; cbn [closeUpvaluesLoop]; (mstep; rewrite <- Hhead; cbv beta iota;
          unfold deref_upvalue, deref; mstep by (rewrite Hc; reflexivity);
          rewrite Z.geb_leb; by destruct (Z.leb_spec n (Upvalue.location c)); [lia|]).
      * intros v c' Hv. by apply elem_of_nil in Hv.
Qed.

(** The cells behind the closed ones are the open list, still in order. *)
Lemma openSorted_remaining (vm : VM) (closing remaining : list nat) (cells' : list Upvalue.t) :
  openSorted vm (closing ++ remaining) →
  (∀ u, u ∉ closing → cells' !! u = upvalueCells vm !! u) →
  (∀ u, u ∈ remaining → cells' !! u = upvalueCells vm !! u)
  ∧ openSorted (with_openUpvalues (head remaining) (with_upvalueCells cells' vm)) remaining.
Proof.
  intros [Hopen Hdec] Hother.
  pose proof (decreasing_NoDup _ _ Hdec) as Hnd.
  apply NoDup_app in Hnd as (_ & Hdisjoint & _).
  assert (Hsame : ∀ u, u ∈ remaining → cells' !! u = upvalueCells vm !! u).
  { intros u Hu. apply Hother. intros Hin. by apply (Hdisjoint u). }
  split; [exact Hsame|]. split; simpl.
  - eapply openList_ext; [by eapply openList_app_r|]. exact Hsame.
  - rewrite fmap_app in Hdec. apply decreasing_app in Hdec as (_ & Hdec & _).
    rewrite (fmap_locationOf_ext (upvalueCells vm)); [done|].
    intros u Hu. unfold locationOf. by rewrite Hsame.
Qed.

(** X12. While the open upvalues are linked from the highest stack slot
    down, [closeUpvalues] closes exactly the cells whose slot is at or above
    the given one, which are the first of the list: each gets the value of
    its slot as its closed value and -1 as its slot, and keeps its link. The
    cells of lower slots stay open and become the list, again linked from the
    highest slot down; no other cell changes, and nothing but the cells and
    the head of the list changes. *)
Theorem closeUpvalues_closes_from_the_slot_up (vm : VM) (l : list nat) (n : Z) :
  openSorted vm l →
  ∃ closing remaining cells',
    l = closing ++ remaining
    ∧ Forall (λ u, n ≤ locationOf (upvalueCells vm) u) closing
    ∧ Forall (λ u, locationOf (upvalueCells vm) u < n) remaining
    ∧ closeUpvalues n vm
      = Ok tt (with_openUpvalues (head remaining) (with_upvalueCells cells' vm))
    ∧ openSorted (with_openUpvalues (head remaining) (with_upvalueCells cells' vm)) remaining
    ∧ (∀ u, u ∉ closing → cells' !! u = upvalueCells vm !! u)
    ∧ (∀ u c, u ∈ closing → upvalueCells vm !! u = Some c →
              cells' !! u = Some (closedOver vm c)).
Proof.
  intros Hsorted. pose proof Hsorted as [Hopen Hdec].
  pose proof (decreasing_NoDup _ _ Hdec) as Hnd.
  pose proof (openList_length _ _ _ Hopen Hnd) as Hlen.
  destruct (closeUpvaluesLoop_spec n l vm (length (upvalueCells vm)) Hsorted Hlen)
    as (closing & remaining & cells' & -> & Hcl & Hrem & Hloop & Hother & Hclosed).
  exists closing, remaining, cells'. split_and!; try done.
  by apply (openSorted_remaining vm closing remaining cells').
Qed.

Lemma closeUpvalues_closes_from_the_slot_up_witness :
  ∃ closing remaining cells',
    [1%nat; 0%nat] = closing ++ remaining
    ∧ Forall (λ u, 1 ≤ locationOf (upvalueCells vmTwoOpen) u) closing
    ∧ Forall (λ u, locationOf (upvalueCells vmTwoOpen) u < 1) remaining
    ∧ closeUpvalues 1 vmTwoOpen
      = Ok tt (with_openUpvalues (head remaining) (with_upvalueCells cells' vmTwoOpen))
    ∧ openSorted (with_openUpvalues (head remaining) (with_upvalueCells cells' vmTwoOpen))
        remaining
    ∧ (∀ u, u ∉ closing → cells' !! u = upvalueCells vmTwoOpen !! u)
    ∧ (∀ u c, u ∈ closing → upvalueCells vmTwoOpen !! u = Some c →
              cells' !! u = Some (closedOver vmTwoOpen c)).
Proof.
  apply (closeUpvalues_closes_from_the_slot_up vmTwoOpen [1%nat; 0%nat] 1).
  split.
  - econstructor; [reflexivity|]. econstructor; [reflexivity|]. constructor.
  - simpl. split_and!; try done. constructor; [done|constructor].
Defined.

(** ** Calls and returns *)

Lemma peek_at (vm : VM) (below args : list Value) (v : Value) :
  stack vm = below ++ v :: args → peek (Z.of_nat (length args)) vm = Ok v vm.
Proof.
  intros Hst. unfold peek. mstep. rewrite Hst, length_app.
  change (length (v :: args)) with (S (length args)).
  destruct (Z.leb_spec (Z.of_nat (length below + S (length args))) (Z.of_nat (length args)));
    [lia|].
  unfold index. destruct (Z.ltb_spec (Z.of_nat (length below + S (length args)) - 1
                                      - Z.of_nat (length args)) 0); [lia|].
  replace (Z.to_nat (Z.of_nat (length below + S (length args)) - 1 - Z.of_nat (length args)))
    with (length below) by lia.
  rewrite (list_lookup_middle below args v (length below) eq_refl). reflexivity.
Qed.

Lemma closeUpvalues_below (vm : VM) (l : list nat) (n : Z) :
  openSorted vm l →
  ∃ vm' remaining,
    closeUpvalues n vm = Ok tt vm'
    ∧ (∃ cells h, vm' = with_openUpvalues h (with_upvalueCells cells vm))
    ∧ openSorted vm' remaining
    ∧ Forall (λ u, locationOf (upvalueCells vm') u < n) remaining.
Proof.
  intros Hsorted. pose proof Hsorted as [Hopen Hdec].
  pose proof (decreasing_NoDup _ _ Hdec) as Hnd.
  pose proof (openList_length _ _ _ Hopen Hnd) as Hlen.
  destruct (closeUpvaluesLoop_spec n l vm (length (upvalueCells vm)) Hsorted Hlen)
    as (closing & remaining & cells' & -> & Hcl & Hrem & Hloop & Hother & _).
  destruct (openSorted_remaining vm closing remaining cells' Hsorted Hother)
    as [Hsame Hsorted'].
  eexists _, remaining. split; [exact Hloop|]. split; [by eexists _, _|]. split; [done|].
  apply (Forall_locationOf_ext (λ z, z < n) (upvalueCells vm)); [|done].
  intros u Hu. simpl. unfold locationOf. by rewrite Hsame.
Qed.

(** X13. A call of a closure that is neither a generator nor async, with as
    many arguments as its arity and below the frame limit, pushes a frame
    for it whose base is the slot of the callee and leaves the stack as it
    is. When that frame later returns, with the stack grown above its base,
    the frames are those before the call and the stack is the part below the
    callee with the result on top: callee, arguments and locals are gone.
    The open upvalues are still linked from the highest slot down, and none
    of them refers to a slot that was discarded. *)
Theorem call_and_return_leave_the_result (vm : VM) (a : nat) (fr : CallFrame.t) (c : nat)
    (cl : Closure.t) (below args : list Value) :
  currentFrame vm = Some a →
  frames vm !! a = Some fr →
  index (FunctionObject.bytecode (CallFrame.func fr)) (CallFrame.ip fr)
  = Some (Z.of_nat (length args)) →
  stack vm = below ++ VClosure c :: args →
  closures vm !! c = Some cl →
  FunctionObject.arity (Closure.func cl) = Z.of_nat (length args) →
  FunctionObject.isGenerator (Closure.func cl) = false →
  FunctionObject.isAsync (Closure.func cl) = false →
  Z.of_nat (length (callFrames vm)) ≠ MAX_CALL_FRAMES vm →
  ∃ vm1,
    InstructionHandlers.OP_CALL vm = Ok OK vm1
    ∧ callFrames vm1 = callFrames vm ++ [length (frames vm)]
    ∧ currentFrame vm1 = Some (length (frames vm))
    ∧ frames vm1 !! length (frames vm)
      = Some (CallFrame.mk (Closure.func cl) 0 (Z.of_nat (length below)) c None)
    ∧ stack vm1 = stack vm
    ∧ ∀ vm2 fr2 locals result l,
        callFrames vm2 = callFrames vm1 →
        frames vm2 !! length (frames vm) = Some fr2 →
        CallFrame.stackBase fr2 = Z.of_nat (length below) →
        CallFrame.asyncPromise fr2 = None →
        stack vm2 = below ++ locals ++ [result] →
        openSorted (with_stack (below ++ locals) vm2) l →
        ∃ vm3 remaining,
          InstructionHandlers.OP_RETURN vm2 = Ok OK vm3
          ∧ stack vm3 = below ++ [result]
          ∧ callFrames vm3 = callFrames vm
          ∧ openSorted vm3 remaining
          ∧ Forall (λ u, locationOf (upvalueCells vm3) u < Z.of_nat (length below)) remaining.
Proof.
  intros Hcur Hfr Hop Hst Hcl Harity Hgen Hasync Hmax.
  pose proof (lookup_lt_Some _ _ _ Hfr) as Hlt.
  eexists. split; [|split_and!].
  - unfold InstructionHandlers.OP_CALL.
    mstep by (by eapply readOperand_at).
    mstep by (by eapply (peek_at _ below args)).
    unfold deref_closure, deref. mstep by (simpl; rewrite Hcl; reflexivity).
    mstep. rewrite Harity, Z.eqb_refl. cbn [negb]. cbv iota.
    unfold id.
    change (callFrames (atIp a fr (CallFrame.ip fr + 1) vm)) with (callFrames vm).
    change (MAX_CALL_FRAMES (atIp a fr (CallFrame.ip fr + 1) vm)) with (MAX_CALL_FRAMES vm).
    destruct (Z.eqb_spec (Z.of_nat (length (callFrames vm))) (MAX_CALL_FRAMES vm)); [done|].
    rewrite Hgen, Hasync. mstep. mstep. reflexivity.
  - unfold atIp. simpl. by rewrite length_insert.
  - unfold atIp. simpl. by rewrite length_insert.
  - unfold atIp. simpl. rewrite lookup_app_r by (rewrite length_insert; lia).
    rewrite length_insert, Nat.sub_diag. simpl. rewrite Hst, length_app. simpl length.
    do 3 f_equal. lia.
  - reflexivity.
  - unfold atIp. simpl. rewrite length_insert.
    intros vm2 fr2 locals result l Hfrs2 Hfr2 Hbase Hnoasync Hst2 Hsorted.
    destruct (closeUpvalues_below _ l (Z.of_nat (length below)) Hsorted)
      as (vmc & remaining & Hclose & (cells & h & ->) & Hsorted' & Hlow).
    eexists _, remaining. split; [|split_and!].
    + unfold InstructionHandlers.OP_RETURN.
      mstep by (apply (pop_snoc _ (below ++ locals)); by rewrite <- app_assoc).
      mstep. change (callFrames (with_stack (below ++ locals) vm2)) with (callFrames vm2).
      rewrite Hfrs2, last_snoc.
      unfold deref_frame, deref. mstep by (simpl; rewrite Hfr2; reflexivity).
      rewrite Hnoasync. mstep. rewrite Hbase. mstep by (exact Hclose).
      mstep. mstep by (apply setStackLength_resized; lia). mstep. reflexivity.
    + simpl. unfold resized. rewrite Nat2Z.id, take_app_length.
      replace (length below - length (below ++ locals))%nat with 0%nat
        by (rewrite length_app; lia).
      by rewrite app_nil_r.
    + simpl. rewrite Hfrs2. by rewrite removelast_last.
    + destruct Hsorted' as [Ho Hd]. split; simpl in *; done.
    + exact Hlow.
Qed.

Lemma call_and_return_leave_the_result_witness :
  ∃ vm1, InstructionHandlers.OP_CALL vmCalling = Ok OK vm1
    ∧ callFrames vm1 = [0%nat; 1%nat]
    ∧ ∃ vm3, InstructionHandlers.OP_RETURN (with_stack (stack vm1 ++ [VStr "r"]) vm1) = Ok OK vm3
        ∧ stack vm3 = [VClosure 0; VStr "r"]
        ∧ callFrames vm3 = [0%nat].
Proof.
  destruct (call_and_return_leave_the_result vmCalling 0 (CallFrame.mk callFunction 1 0 0 None)
              0 (Closure.mk callFunction [] VUndefined) [VClosure 0] [])
    as (vm1 & Hcall & Hfrs & Hcur & Hfr & Hst & Hret); try reflexivity; [simpl; lia|].
  exists vm1. split; [exact Hcall|]. split; [exact Hfrs|].
  assert (Hopen : openUpvalues vm1 = None).
  { vm_compute in Hcall. by injection Hcall as <-. }
  destruct (Hret (with_stack (stack vm1 ++ [VStr "r"]) vm1) (CallFrame.mk callFunction 0 1 0 None)
              [VClosure 0] (VStr "r") []) as (vm3 & remaining & Hreturn & Hst3 & Hfrs3 & _).
  - reflexivity.
  - exact Hfr.
  - reflexivity.
  - reflexivity.
  - simpl. by rewrite Hst.
  - split; simpl; [|exact I]. rewrite Hopen. constructor.
  - by exists vm3.
Defined.

(** ** Errors with and without a handler *)

(** X14. A handler set up by [setupTry] unwinds to the state of its setup:
    when an error is raised later, with this handler on top again, the
    frames of the setup still below the frames pushed since, and no async
    frame taking the error, [runtimeError] removes the handler and the
    frames pushed since the setup, cuts the stack to its height at the setup
    and pushes the message, and continues the frame of the setup at the
    catch address. Where the stack only grew since the setup, it is the
    stack of the setup with the message on top. The error flag is not set. *)
Theorem try_unwinds_to_its_setup (vm0 vmS vm1 : VM) (catchIp : Z) (message : Value)
    (rejectPromise : bool) (a : nat) (fr : CallFrame.t) (pushedFrames : list nat) :
  setupTry catchIp vm0 = Ok tt vmS →
  last (callFrames vm0) = Some a →
  exceptionHandlers vm1 = exceptionHandlers vmS →
  callFrames vm1 = callFrames vm0 ++ pushedFrames →
  frames vm1 !! a = Some fr →
  Forall (frameResolves vm1) (callFrames vm1) →
  (rejectPromise = true → noAsyncFrame vm1) →
  ∃ vm',
    runtimeError message rejectPromise vm1 = Ok tt vm'
    ∧ exceptionHandlers vm' = exceptionHandlers vm0
    ∧ callFrames vm' = callFrames vm0
    ∧ currentFrame vm' = Some a
    ∧ stack vm' = resized (Z.of_nat (length (stack vm0))) (stack vm1) ++ [message]
    ∧ (∀ pushed, stack vm1 = stack vm0 ++ pushed → stack vm' = stack vm0 ++ [message])
    ∧ frames vm' = <[a := CallFrame.with_ip catchIp fr]> (frames vm1)
    ∧ hasError vm' = hasError vm1.
Proof.
  intros Hsetup Hlast Hhandlers Hfrs Hfr Hres Hno.
  unfold setupTry in Hsetup. unfold_m. injection Hsetup as <-.
  simpl in Hhandlers. unfold id in Hhandlers.
  set (h := ExceptionHandler.mk catchIp (Z.of_nat (length (stack vm0)))
              (Z.of_nat (length (callFrames vm0)) - 1)) in *.
  assert (Hne : (0 < length (callFrames vm0))%nat).
  { destruct (callFrames vm0); [done|simpl; lia]. }
  assert (Htop : handlerOnTop vm1 (exceptionHandlers vm0) h a fr).
  { split_and!; [done|simpl; lia|simpl; lia| |done]. simpl. rewrite Hfrs.
    rewrite lookup_app_l by lia. rewrite last_lookup in Hlast. rewrite <- Hlast. f_equal. lia. }
  destruct (runtimeError_caught vm1 message rejectPromise _ h a fr Hres Hno Htop)
    as (vm' & Herr & He & Hf & Hc & Hs & Hfr' & Hh & _).
  exists vm'. split_and!; try done.
  - rewrite Hf, Hfrs. simpl.
    replace (Z.to_nat (Z.of_nat (length (callFrames vm0)) - 1 + 1))
      with (length (callFrames vm0)) by lia.
    by rewrite take_app_length.
  - intros pushed Hpushed. rewrite Hs, Hpushed. simpl. unfold resized.
    rewrite Nat2Z.id, take_app_length.
    replace (length (stack vm0) - length (stack vm0 ++ pushed))%nat with 0%nat
      by (rewrite length_app; lia).
    by rewrite app_nil_r.
Qed.


Lemma vmAtTry_resolves (vm : VM) :
  frames vm = frames vmAtTry → closures vm = closures vmAtTry →
  callFrames vm = [0%nat] →
  Forall (frameResolves vm) (callFrames vm) ∧ noAsyncFrame vm.
Proof.
  intros Hf Hc Hfrs. rewrite Hfrs. split.
  - constructor; [|constructor]. unfold frameResolves. rewrite Hf, Hc. by eexists _, _.
  - intros a. rewrite Hfrs. intros ->%list_elem_of_singleton.
    unfold asyncPromiseOf. by rewrite Hf, Hc.
Qed.

Lemma try_unwinds_to_its_setup_witness :
  ∃ vm', runtimeError (VStr "boom") true vmErrorInTry = Ok tt vm'
    ∧ exceptionHandlers vm' = []
    ∧ callFrames vm' = [0%nat]
    ∧ stack vm' = [VClosure 0; VStr "boom"]
    ∧ CallFrame.ip <$> frames vm' !! 0%nat = Some 9
    ∧ hasError vm' = false.
Proof.
  destruct (vmAtTry_resolves vmErrorInTry eq_refl eq_refl eq_refl) as [Hres Hno].
  destruct (try_unwinds_to_its_setup vmAtTry _ vmErrorInTry 9 (VStr "boom") true 0
              (CallFrame.mk jumpFunction 0 0 0 None) [] eq_refl eq_refl eq_refl eq_refl eq_refl
              Hres (λ _, Hno))
    as (vm' & Herr & Hh & Hf & _ & _ & Hst & Hfr & He).
  exists vm'. split_and!; try done.
  - by apply (Hst [VNull]).
  - by rewrite Hfr.
Defined.


(** ** Properties and the prototype chain *)

Lemma protoChain_fun (objs : list Obj.t) (v : Value) (l1 l2 : list nat) :
  protoChain objs v l1 → protoChain objs v l2 → l1 = l2.
Proof.
  intros H1. revert l2. induction H1 as [v Hv|a o rest Ho _ IH]; intros l2 H2.
  - by inversion H2; subst.
  - inversion H2 as [? Hv|a' o' rest' Ho' Hrest']; subst; [done|].
    assert (o' = o) as -> by congruence. f_equal. by apply IH.
Qed.

Lemma protoChain_suffix (objs : list Obj.t) (v : Value) (pre : list nat) (a : nat)
    (post : list nat) :
  protoChain objs v (pre ++ a :: post) → protoChain objs (VObject a) (a :: post).
Proof.
  revert v. induction pre as [|x pre IH]; intros v Hchain; simpl in *.
  - by inversion Hchain; subst; econstructor.
  - inversion Hchain; subst. by eapply IH.
Qed.

Lemma protoChain_NoDup (objs : list Obj.t) (v : Value) (l : list nat) :
  protoChain objs v l → NoDup l.
Proof.
  induction 1 as [v Hv|a o rest Ho Hrest IH]; [constructor|].
  constructor; [|done]. intros Hin.
  apply list_elem_of_split in Hin as (pre & post & ->).
  pose proof (protoChain_suffix _ _ _ _ _ Hrest) as Hsuffix.
  assert (Hsame : a :: pre ++ a :: post = a :: post).
  { eapply protoChain_fun; [|exact Hsuffix]. by econstructor. }
  apply (f_equal length) in Hsame. simpl in Hsame. rewrite length_app in Hsame.
  simpl in Hsame. lia.
Qed.

Lemma protoChain_length (objs : list Obj.t) (v : Value) (l : list nat) :
  protoChain objs v l → (length l ≤ length objs)%nat.
Proof.
  intros Hchain. pose proof (protoChain_NoDup _ _ _ Hchain) as Hnd.
  assert (Hsub : l ⊆+ seq 0 (length objs)).
  { apply NoDup_submseteq; [done|]. intros a Ha. apply elem_of_seq. split; [lia|]. simpl.
    clear Hnd. induction Hchain as [|b o rest Ho _ IH]; [by apply elem_of_nil in Ha|].
    apply elem_of_cons in Ha as [->|Ha]; [by eapply lookup_lt_Some|by apply IH]. }
  apply submseteq_length in Hsub. by rewrite length_seq in Hsub.
Qed.

(** The loop of the property read on a chain of VM objects. *)
Lemma lookupChain_walks (vm : VM) (who name : string) (v : Value) (chain : list nat) :
  protoChain (objects vm) v chain →
  Forall (lacks (objects vm) "hasOwnProperty") chain →
  ∀ fuel, (length chain ≤ fuel)%nat →
    lookupChain who fuel v name vm = Ok (inherited (objects vm) chain name) vm.
Proof.
  induction 1 as [v Hv|a o rest Ho Hrest IH]; intros Hplain fuel Hfuel.
  - destruct fuel; simpl; by rewrite Hv.
  - apply Forall_cons in Hplain as [Ha Hplain]. specialize (Ha o Ho).
    assert (Hstep : ∀ f, lookupChain who f (VObject a) name vm
                         = match Obj.properties o !! name with
                           | Some x => Ok (Some x) vm
                           | None => match f with
                                     | O => Diverge
                                     | S f' => lookupChain who f' (Obj.prototype o) name vm
                                     end
                           end).
    { intros f. destruct f; simpl; unfold mbind, M_bind, deref_object, deref;
        rewrite Ho, Ha; by destruct (Obj.properties o !! name). }
    rewrite Hstep. simpl. rewrite Ho.
    destruct (Obj.properties o !! name) as [x|]; [done|].
    destruct fuel as [|fuel]; [simpl in Hfuel; lia|].
    apply IH; [done|]. simpl in Hfuel. lia.
Qed.

Lemma nameConstant_at (vm : VM) (a : nat) (fr : CallFrame.t) (i : Z) (name : string) :
  currentFrame vm = Some a →
  frames vm !! a = Some fr →
  index (FunctionObject.constants (CallFrame.func fr)) i = Some (VStr name) →
  nameConstant i (operandRead a fr vm) = Ok name (operandRead a fr vm).
Proof.
  intros Hcur Hfr Hname.
  unfold nameConstant, constant, theCurrentFrame, operandRead, atIp.
  pose proof (lookup_lt_Some _ _ _ Hfr) as Hlt.
  unfold_m. simpl. rewrite Hcur. simpl. rewrite list_lookup_insert_eq by done. simpl.
  rewrite Hname. reflexivity.
Qed.

Lemma get_property_found (vm : VM) (a : nat) (fr : CallFrame.t) (name : string)
    (st : list Value) (o : nat) (found : option Value) :
  nameOperand vm a fr name →
  stack vm = st ++ [VObject o] →
  inVMObject name = false →
  (∀ vm', objects vm' = objects vm → closures vm' = closures vm →
          lookupChain "currentObject" (chainFuel vm') (VObject o) name vm' = Ok found vm') →
  InstructionHandlers.OP_GET_PROPERTY_PROTO vm
  = Ok OK (with_stack (st ++ [default VUndefined found]) (operandRead a fr vm)).
Proof.
  intros (Hcur & Hfr & i & Hi & Hconst) Hst Hname Hfound.
  unfold InstructionHandlers.OP_GET_PROPERTY_PROTO.
  mstep by (by eapply readOperand_at). fold (operandRead a fr vm).
  mstep by (by eapply nameConstant_at).
  mstep by (by apply (pop_snoc _ st)).
  rewrite Hname. mstep. unfold id.
  mstep by (apply Hfound; reflexivity).
  mstep. reflexivity.
Qed.

Lemma lookupChain_inherited (vm : VM) (who name : string) (o : nat) (chain : list nat) :
  protoChain (objects vm) (VObject o) chain →
  Forall (lacks (objects vm) "hasOwnProperty") chain →
  ∀ vm', objects vm' = objects vm → closures vm' = closures vm →
    lookupChain who (chainFuel vm') (VObject o) name vm'
    = Ok (inherited (objects vm) chain name) vm'.
Proof.
  intros Hchain Hplain vm' Hobjs Hcls. rewrite <- Hobjs in *.
  apply (lookupChain_walks vm' who name (VObject o) chain); [done|done|].
  apply protoChain_length in Hchain. unfold chainFuel. lia.
Qed.

(** X16. Reading a property of a VM object whose name the object wrappers
    do not answer themselves, along a prototype chain on which no object has
    an own property [hasOwnProperty]: OP_GET_PROPERTY_PROTO pops the object
    and pushes the own property of the nearest object of the chain that has
    one, the object itself coming first, and [undefined] where none has.
    Nothing but the stack and the instruction pointer changes. *)
Theorem property_read_walks_the_chain (vm : VM) (a : nat) (fr : CallFrame.t) (name : string)
    (st : list Value) (o : nat) (chain : list nat) :
  nameOperand vm a fr name →
  stack vm = st ++ [VObject o] →
  inVMObject name = false →
  protoChain (objects vm) (VObject o) chain →
  Forall (lacks (objects vm) "hasOwnProperty") chain →
  InstructionHandlers.OP_GET_PROPERTY_PROTO vm
  = Ok OK (with_stack (st ++ [default VUndefined (inherited (objects vm) chain name)])
             (operandRead a fr vm)).
Proof.
  intros Hop Hst Hname Hchain Hplain.
  apply (get_property_found vm a fr name st o); [done|done|done|].
  by apply lookupChain_inherited.
Qed.

Lemma protoChain_ext (objs objs' : list Obj.t) (v : Value) (l : list nat) :
  protoChain objs v l →
  (∀ a o, objs !! a = Some o →
          ∃ o', objs' !! a = Some o' ∧ Obj.prototype o' = Obj.prototype o) →
  protoChain objs' v l.
Proof.
  induction 1 as [v Hv|a o rest Ho _ IH]; intros Hsame; [by constructor|].
  destruct (Hsame a o Ho) as (o' & Ho' & Hproto).
  econstructor; [exact Ho'|]. rewrite Hproto. by apply IH.
Qed.

Lemma propertySet_lookup (o : nat) (name : string) (value : Value) (objs : list Obj.t)
    (a : nat) (obj : Obj.t) :
  objs !! a = Some obj →
  ∃ obj', propertySet o name value objs !! a = Some obj'
          ∧ Obj.prototype obj' = Obj.prototype obj
          ∧ Obj.properties obj'
            = if decide (a = o) then <[name := value]> (Obj.properties obj)
              else Obj.properties obj.
Proof.
  intros Ha. unfold propertySet. destruct (decide (a = o)) as [->|Hne].
  - rewrite Ha. eexists. split; [apply list_lookup_insert_eq; by eapply lookup_lt_Some|done].
  - destruct (objs !! o); [|by exists obj]. exists obj. by rewrite list_lookup_insert_ne.
Qed.

Lemma set_property_at (vm : VM) (a : nat) (fr : CallFrame.t) (name : string)
    (st : list Value) (o : nat) (value : Value) :
  nameOperand vm a fr name →
  stack vm = st ++ [VObject o; value] →
  name ≠ "__proto__" →
  is_Some (objects vm !! o) →
  InstructionHandlers.OP_SET_PROPERTY_PROTO vm
  = Ok OK (with_stack (st ++ [value])
             (with_objects (propertySet o name value (objects vm)) (operandRead a fr vm))).
Proof.
  intros (Hcur & Hfr & i & Hi & Hconst) Hst Hname [obj Hobj].
  unfold InstructionHandlers.OP_SET_PROPERTY_PROTO.
  mstep by (by eapply readOperand_at). fold (operandRead a fr vm).
  mstep by (by eapply nameConstant_at).
  mstep by (apply (pop_snoc _ (st ++ [VObject o])); simpl; by rewrite Hst, <- app_assoc).
  mstep by (by apply (pop_snoc _ st)).
  rewrite bool_decide_eq_false_2 by done.
  unfold deref_object, deref. mstep by (simpl; rewrite Hobj; reflexivity).
  unfold set_object. mstep. mstep. unfold propertySet. rewrite Hobj. reflexivity.
Qed.

(** X17. Writing a property and reading it back, for a name that the object
    wrapper does not answer itself (not [properties], [prototype] or a key
    of [Object.prototype]) and a prototype chain on which no object has an
    own property [hasOwnProperty]: OP_SET_PROPERTY_PROTO on a VM object pops
    object and value, makes the value an own property of the object, leaves
    every prototype link and every other object as they are, and pushes the
    value. A later read of that name on the object answers the value
    written, whatever its prototypes hold under the name: the own property
    shadows them. *)
Theorem property_write_then_read (vm : VM) (a : nat) (fr : CallFrame.t) (name : string)
    (st : list Value) (o : nat) (value : Value) (chain : list nat) :
  nameOperand vm a fr name →
  stack vm = st ++ [VObject o; value] →
  inVMObject name = false →
  protoChain (objects vm) (VObject o) chain →
  Forall (lacks (objects vm) "hasOwnProperty") chain →
  ∃ vm1,
    InstructionHandlers.OP_SET_PROPERTY_PROTO vm = Ok OK vm1
    ∧ stack vm1 = st ++ [value]
    ∧ objects vm1 = propertySet o name value (objects vm)
    ∧ protoChain (objects vm1) (VObject o) chain
    ∧ ∀ vm2 a2 fr2 st2,
        objects vm2 = objects vm1 →
        nameOperand vm2 a2 fr2 name →
        stack vm2 = st2 ++ [VObject o] →
        InstructionHandlers.OP_GET_PROPERTY_PROTO vm2
        = Ok OK (with_stack (st2 ++ [value]) (operandRead a2 fr2 vm2)).
Proof.
  intros Hop Hst Hname Hchain Hplain.
  assert (Hproto : name ≠ "__proto__").
  { intros ->. by vm_compute in Hname. }
  assert (Hhop : name ≠ "hasOwnProperty").
  { intros ->. by vm_compute in Hname. }
  inversion Hchain as [? Hfalsy|o' obj rest Hobj Hrest]; subst; [done|].
  assert (Hchain' : protoChain (propertySet o name value (objects vm)) (VObject o) (o :: rest)).
  { eapply protoChain_ext; [exact Hchain|]. intros b ob Hb.
    destruct (propertySet_lookup o name value _ b ob Hb) as (ob' & Hb' & Hp & _).
    by exists ob'. }
  eexists. split; [by apply set_property_at|]. split_and!; try done.
  intros vm2 a2 fr2 st2 Hobjs Hop2 Hst2. simpl in Hobjs.
  rewrite (get_property_found vm2 a2 fr2 name st2 o (Some value)); try done.
  intros vm' Hobjs' Hcls'.
  rewrite (lookupChain_inherited vm2 "currentObject" name o (o :: rest)); try done.
  - do 2 f_equal. rewrite Hobjs. simpl.
    destruct (propertySet_lookup o name value _ o obj Hobj) as (obj' & -> & _ & Hprops).
    rewrite Hprops, decide_True by done. by rewrite lookup_insert_eq.
  - by rewrite Hobjs.
  - rewrite Hobjs. apply Forall_forall. intros b Hb ob' Hob'.
    rewrite Forall_forall in Hplain.
    destruct (lookup_lt_is_Some_2 (objects vm) b) as [ob Hob].
    { apply lookup_lt_Some in Hob'. unfold propertySet in Hob'. rewrite Hobj in Hob'.
      by rewrite length_insert in Hob'. }
    destruct (propertySet_lookup o name value _ b ob Hob) as (ob2 & Hob2 & _ & Hprops).
    assert (ob2 = ob') as -> by congruence. rewrite Hprops.
    specialize (Hplain b Hb ob Hob).
    destruct (decide (b = o)); [by rewrite lookup_insert_ne|done].
Qed.

Lemma lookupChain_own_hasOwnProperty (vm : VM) (fuel : nat) (o : nat) (obj : Obj.t)
    (v : Value) (name who : string) :
  objects vm !! o = Some obj →
  Obj.properties obj !! "hasOwnProperty" = Some v →
  noHostValue v →
  lookupChain who fuel (VObject o) name vm = Throw (notAFunction who) vm.
Proof.
  intros Hobj Hv Hno.
  destruct fuel; simpl; unfold mbind, M_bind, deref_object, deref; rewrite Hobj, Hv;
    (destruct v; try done; by destruct (Hno h)).
Qed.

Lemma lookupChain_inherited_hasOwnProperty (vm : VM) (c o : nat) (child obj : Obj.t)
    (v : Value) (name who : string) :
  objects vm !! c = Some child →
  Obj.prototype child = VObject o →
  Obj.properties child !! "hasOwnProperty" = None →
  Obj.properties child !! name = None →
  objects vm !! o = Some obj →
  Obj.properties obj !! "hasOwnProperty" = Some v →
  noHostValue v →
  lookupChain who (chainFuel vm) (VObject c) name vm = Throw (notAFunction who) vm.
Proof.
  intros Hchild Hproto Hhop Hname Hobj Hv Hno.
  assert (Hfuel : ∃ f, chainFuel vm = S f).
  { unfold chainFuel. apply lookup_lt_Some in Hobj.
    destruct (length (objects vm)); [lia|]. by eexists. }
  destruct Hfuel as [f ->]. simpl. unfold mbind, M_bind, deref_object, deref.
  rewrite Hchild, Hhop, Hname, Hproto.
  by apply (lookupChain_own_hasOwnProperty vm f o obj v).
Qed.

Lemma get_property_throws (vm : VM) (a : nat) (fr : CallFrame.t) (name : string)
    (st : list Value) (o : nat) (e : string) :
  nameOperand vm a fr name →
  stack vm = st ++ [VObject o] →
  inVMObject name = false →
  (∀ vm', objects vm' = objects vm → closures vm' = closures vm →
          lookupChain "currentObject" (chainFuel vm') (VObject o) name vm' = Throw e vm') →
  InstructionHandlers.OP_GET_PROPERTY_PROTO vm = Throw e (with_stack st (operandRead a fr vm)).
Proof.
  intros (Hcur & Hfr & i & Hi & Hconst) Hst Hname Hthrow.
  unfold InstructionHandlers.OP_GET_PROPERTY_PROTO.
  mstep by (by eapply readOperand_at). fold (operandRead a fr vm).
  mstep by (by eapply nameConstant_at).
  mstep by (by apply (pop_snoc _ st)).
  rewrite Hname. mstep. unfold id.
  unfold mbind at 1. unfold M_bind. by rewrite Hthrow.
Qed.

(** X18. An own property named [hasOwnProperty] breaks reading: once
    OP_SET_PROPERTY_PROTO has stored a value that is no value of the host
    (so no host function) under that name in a VM object, OP_GET_PROPERTY_PROTO of any name the object
    wrappers do not answer themselves, on that object or on an object that
    has it as its prototype and no own property of the name or of
    [hasOwnProperty], raises the TypeError of the host for calling what is
    no function, "currentObject.properties.hasOwnProperty is not a
    function". It is no runtime error of the VM: no handler is consulted
    and the error flag is not set. *)
Theorem own_hasOwnProperty_breaks_reads (vm : VM) (a : nat) (fr : CallFrame.t)
    (st : list Value) (o : nat) (value : Value) :
  nameOperand vm a fr "hasOwnProperty" →
  stack vm = st ++ [VObject o; value] →
  is_Some (objects vm !! o) →
  noHostValue value →
  ∃ vm1,
    InstructionHandlers.OP_SET_PROPERTY_PROTO vm = Ok OK vm1
    ∧ objects vm1 = propertySet o "hasOwnProperty" value (objects vm)
    ∧ ∀ vm2 a2 fr2 st2 name,
        objects vm2 = objects vm1 →
        nameOperand vm2 a2 fr2 name →
        inVMObject name = false →
        (stack vm2 = st2 ++ [VObject o] →
         InstructionHandlers.OP_GET_PROPERTY_PROTO vm2
         = Throw (notAFunction "currentObject") (with_stack st2 (operandRead a2 fr2 vm2)))
        ∧ (∀ c child,
             stack vm2 = st2 ++ [VObject c] →
             objects vm2 !! c = Some child →
             Obj.prototype child = VObject o →
             Obj.properties child !! "hasOwnProperty" = None →
             Obj.properties child !! name = None →
             InstructionHandlers.OP_GET_PROPERTY_PROTO vm2
             = Throw (notAFunction "currentObject") (with_stack st2 (operandRead a2 fr2 vm2))).
Proof.
  intros Hop Hst [obj Hobj] Hno.
  eexists. split; [by apply set_property_at|]. split; [done|].
  intros vm2 a2 fr2 st2 name Hobjs Hop2 Hname. simpl in Hobjs.
  destruct (propertySet_lookup o "hasOwnProperty" value _ o obj Hobj)
    as (obj' & Hobj' & _ & Hprops).
  rewrite decide_True in Hprops by done. rewrite <- Hobjs in Hobj'.
  assert (Hv : Obj.properties obj' !! "hasOwnProperty" = Some value)
    by (by rewrite Hprops, lookup_insert_eq).
  split.
  - intros Hst2. apply (get_property_throws vm2 a2 fr2 name st2 o); [done|done|done|].
    intros vm' Hobjs' _. apply (lookupChain_own_hasOwnProperty vm' _ o obj' value); [|done|done].
    by rewrite Hobjs'.
  - intros c child Hst2 Hchild Hproto Hhop Hnone.
    apply (get_property_throws vm2 a2 fr2 name st2 c); [done|done|done|].
    intros vm' Hobjs' _.
    apply (lookupChain_inherited_hasOwnProperty vm' c o child obj' value); try done.
    + by rewrite Hobjs'.
    + by rewrite Hobjs'.
Qed.

Lemma twoObjects_chain (objs : list Obj.t) :
  (∀ a o, twoObjects !! a = Some o →
          ∃ o', objs !! a = Some o' ∧ Obj.prototype o' = Obj.prototype o) →
  protoChain objs (VObject 1) [1%nat; 0%nat].
Proof.
  intros Hsame. apply (protoChain_ext twoObjects); [|done].
  econstructor; [reflexivity|]. econstructor; [reflexivity|]. by constructor.
Qed.

Lemma property_read_walks_the_chain_witness :
  InstructionHandlers.OP_GET_PROPERTY_PROTO (vmReading twoObjects)
  = Ok OK (with_stack [VClosure 0; VStr "inherited"]
             (operandRead 0 (CallFrame.mk propertyFunction 1 0 0 None) (vmReading twoObjects))).
Proof.
  apply (property_read_walks_the_chain (vmReading twoObjects) 0
           (CallFrame.mk propertyFunction 1 0 0 None) "x" [VClosure 0] 1 [1%nat; 0%nat]).
  - split_and!; [done|done|]. by exists 0.
  - reflexivity.
  - reflexivity.
  - apply twoObjects_chain. intros a o Ho. by exists o.
  - repeat constructor; by intros o [= <-].
Defined.

Lemma property_write_then_read_witness :
  ∃ vm1, InstructionHandlers.OP_SET_PROPERTY_PROTO (vmWriting 3 1) = Ok OK vm1
    ∧ stack vm1 = [VClosure 0; VStr "own"]
    ∧ InstructionHandlers.OP_GET_PROPERTY_PROTO (vmReading (objects vm1))
      = Ok OK (with_stack [VClosure 0; VStr "own"]
                 (operandRead 0 (CallFrame.mk propertyFunction 1 0 0 None)
                    (vmReading (objects vm1)))).
Proof.
  destruct (property_write_then_read (vmWriting 3 1) 0
              (CallFrame.mk propertyFunction 3 0 0 None) "x" [VClosure 0] 1 (VStr "own")
              [1%nat; 0%nat]) as (vm1 & Hset & Hst & Hobjs & _ & Hget).
  - split_and!; [done|done|]. by exists 0.
  - reflexivity.
  - reflexivity.
  - apply twoObjects_chain. intros a o Ho. by exists o.
  - repeat constructor; by intros o [= <-].
  - exists vm1. split; [done|]. split; [done|].
    apply (Hget (vmReading (objects vm1)) 0%nat (CallFrame.mk propertyFunction 1 0 0 None)
             [VClosure 0]); [done| |done].
    split_and!; [done|done|]. by exists 0.
Defined.

Lemma own_hasOwnProperty_breaks_reads_witness :
  ∃ vm1, InstructionHandlers.OP_SET_PROPERTY_PROTO (vmWriting 5 0) = Ok OK vm1
    ∧ InstructionHandlers.OP_GET_PROPERTY_PROTO (vmReading (objects vm1))
      = Throw (notAFunction "currentObject")
          (with_stack [VClosure 0]
             (operandRead 0 (CallFrame.mk propertyFunction 1 0 0 None)
                (vmReading (objects vm1)))).
Proof.
  destruct (own_hasOwnProperty_breaks_reads (vmWriting 5 0) 0
              (CallFrame.mk propertyFunction 5 0 0 None) [VClosure 0] 0 (VStr "own"))
    as (vm1 & Hset & Hobjs & Hget).
  - split_and!; [done|done|]. by exists 1.
  - reflexivity.
  - by eexists.
  - by intros h.
  - exists vm1. split; [done|].
    destruct (Hget (vmReading (objects vm1)) 0%nat (CallFrame.mk propertyFunction 1 0 0 None)
                [VClosure 0] "x" eq_refl) as [_ Hchild]; [|done|].
    { split_and!; [done|done|]. by exists 0. }
    apply (Hchild 1%nat (Obj.mk ∅ (VObject 0))); try done.
    simpl. by rewrite Hobjs.
Defined.

(** ** Variables of enclosing functions *)

Lemma sameCode_refl (s : CompilerState.t) : sameCode s s.
Proof. by repeat split. Qed.

Lemma lastIndexOf_names (name : string) (l1 l2 : list Local.t) :
  Local.name <$> l1 = Local.name <$> l2 →
  ∀ i, lastIndexOf name l1 i = lastIndexOf name l2 i.
Proof.
  revert l2. induction l1 as [|x l1 IH]; intros [|y l2] Hnames i; try done.
  simpl in Hnames. injection Hnames as Hxy Hrest.
  change (lastIndexOf name (x :: l1) i)
    with (if lastIndexOf name l1 (i + 1) =? -1
          then (if bool_decide (Local.name x = name) then i else -1)
          else lastIndexOf name l1 (i + 1)).
  change (lastIndexOf name (y :: l2) i)
    with (if lastIndexOf name l2 (i + 1) =? -1
          then (if bool_decide (Local.name y = name) then i else -1)
          else lastIndexOf name l2 (i + 1)).
  by rewrite (IH l2 Hrest), Hxy.
Qed.

Lemma sameCode_resolveLocal (s s' : CompilerState.t) (name : string) :
  sameCode s s' → resolveLocal s' name = resolveLocal s name.
Proof. intros (_ & _ & _ & _ & Hnames & _). by apply lastIndexOf_names. Qed.

Lemma addUpvalue_slot (index : Z) (isLocal : bool) (s s' : CompilerState.t) (slot : Z) :
  addUpvalue index isLocal s = COk slot s' →
  0 ≤ slot
  ∧ CompilerState.upvalues s' !! Z.to_nat slot = Some (UpvalueDesc.mk index isLocal)
  ∧ sameCode s s'.
Proof.
  unfold addUpvalue. intros Hadd.
  destruct (findIndex _ _) as [i|] eqn:Hi.
  - injection Hadd as <- <-. destruct (findIndex_Some _ _ _ Hi) as ([ui ul] & Hu & Hp & _).
    simpl in Hp. apply andb_true_iff in Hp as [Hpi Hpl].
    apply Z.eqb_eq in Hpi. apply bool_decide_eq_true in Hpl. subst.
    rewrite Nat2Z.id. split_and!; [lia|done|apply sameCode_refl].
  - destruct (_ >? 255); [done|]. injection Hadd as <- <-. simpl. rewrite Nat2Z.id.
    split_and!; [lia|by rewrite lookup_app_r, Nat.sub_diag|].
    repeat split; simpl; try done. by apply prefix_app_r.
Qed.

Lemma markCaptured_spec (i : Z) (s : CompilerState.t) (l : Local.t) :
  0 ≤ i →
  CompilerState.locals s !! Z.to_nat i = Some l →
  sameCode s (markCaptured i s)
  ∧ CompilerState.locals (markCaptured i s) !! Z.to_nat i
    = Some (Local.mk (Local.name l) (Local.depth l) true).
Proof.
  intros Hi Hl. unfold markCaptured. split.
  - repeat split; simpl; try done.
    + apply list_eq. intros j. rewrite !list_lookup_fmap.
      destruct (decide (j = Z.to_nat i)) as [->|Hne].
      * rewrite list_lookup_alter_eq, Hl. done.
      * by rewrite list_lookup_alter_ne.
    + apply list_eq. intros j. rewrite !list_lookup_fmap.
      destruct (decide (j = Z.to_nat i)) as [->|Hne].
      * rewrite list_lookup_alter_eq, Hl. done.
      * by rewrite list_lookup_alter_ne.
  - simpl. by rewrite list_lookup_alter_eq, Hl.
Qed.

Lemma resolveUpvalue_cons (name : string) (current enclosing : CompilerState.t)
    (outer : list CompilerState.t) :
  resolveUpvalue name (current :: enclosing :: outer)
  = if negb (resolveLocal enclosing name =? -1) then
      match addUpvalue (resolveLocal enclosing name) true current with
      | COk i current' =>
          COk i (current' :: markCaptured (resolveLocal enclosing name) enclosing :: outer)
      | CError e => CError e
      | COutside what => COutside what
      end
    else
      match resolveUpvalue name (enclosing :: outer) with
      | COk upvalue enclosingChain' =>
          if negb (upvalue =? -1) then
            match addUpvalue upvalue false current with
            | COk i current' => COk i (current' :: enclosingChain')
            | CError e => CError e
            | COutside what => COutside what
            end
          else COk (-1) (current :: enclosingChain')
      | CError e => CError e
      | COutside what => COutside what
      end.
Proof. reflexivity. Qed.

(** X19. [resolveUpvalue] finds the variable in the nearest enclosing
    function that declares it. It answers -1, and changes nothing, exactly
    when no enclosing function has a local of the name. Otherwise the slot
    it answers is an upvalue of the current function that stands for the
    variable: the innermost local of that name in the nearest enclosing
    function that has one is marked as captured, the function just inside it
    refers to that local, and every function further in refers to the
    upvalue of the function around it. Besides the upvalues added and the
    local marked, the compiler states of the chain are as before. *)
Theorem resolveUpvalue_links_the_chain (name : string) (chain chain' : list CompilerState.t)
    (slot : Z) :
  resolveUpvalue name chain = COk slot chain' →
  Forall2 sameCode chain chain'
  ∧ ((slot = -1 ∧ chain' = chain
      ∧ Forall (λ s, resolveLocal s name = -1) (tail chain))
     ∨ capturedFrom name chain' slot).
Proof.
  revert chain' slot. induction chain as [|current enclosingChain IH]; intros chain' slot.
  - intros [= <- <-]. split; [constructor|]. left. split_and!; [done|done|constructor].
  - destruct enclosingChain as [|enclosing outer].
    + intros [= <- <-]. split; [repeat constructor; apply sameCode_refl|]. left.
      split_and!; [done|done|constructor].
    + rewrite resolveUpvalue_cons.
      destruct (Z.eqb_spec (resolveLocal enclosing name) (-1)) as [Hnone|Hsome]; cbn [negb].
      * (* not a local of the enclosing function *)
        destruct (resolveUpvalue name (enclosing :: outer)) as [upvalue enclosingChain'|e|what]
          eqn:Hrec; [|done|done].
        destruct (IH enclosingChain' upvalue eq_refl) as [Hsame Hcases].
        destruct (Z.eqb_spec upvalue (-1)) as [->|Hup]; cbn [negb].
        -- intros [= <- <-].
           destruct Hcases as [(_ & -> & Hrest)|Hcap]; [|inversion Hcap; lia].
           split; [constructor; [apply sameCode_refl|done]|]. left.
           split_and!; [done|done|]. simpl. simpl in Hrest. by constructor.
        -- destruct (addUpvalue upvalue false current) as [i current'|e|what] eqn:Hadd; [|done|done].
           intros [= <- <-]. destruct (addUpvalue_slot _ _ _ _ _ Hadd) as (Hi & Hlook & Hcode).
           split; [by constructor|]. right.
           destruct Hcases as [(Hup' & _)|Hcap]; [done|].
           inversion Hsame as [|? enclosing' ? outer' Hhead Htail]; subst.
           eapply capturedFrom_outer; [done|done| |done].
           by rewrite (sameCode_resolveLocal enclosing enclosing').
      * (* a local of the enclosing function *)
        destruct (addUpvalue (resolveLocal enclosing name) true current) as [i current'|e|what]
          eqn:Hadd; [|done|done].
        intros [= <- <-]. destruct (addUpvalue_slot _ _ _ _ _ Hadd) as (Hi & Hlook & Hcode).
        destruct (lastIndexOf_spec name (CompilerState.locals enclosing) 0 ltac:(lia))
          as [[Hminus _]|(Hle & l & Hl & Hname & _)]; [done|].
        cbn zeta in Hle, Hl. rewrite Z.sub_0_r in Hl. fold (resolveLocal enclosing name) in *.
        destruct (markCaptured_spec (resolveLocal enclosing name) enclosing l Hle Hl)
          as [Hmark Hflag].
        split.
        -- constructor; [done|]. constructor; [done|].
           apply Forall2_same_length_lookup. split; [done|].
           intros j x y Hx Hy. assert (x = y) as -> by congruence. apply sameCode_refl.
        -- right. eapply capturedFrom_local; [done|done| |done|exact Hflag|done|done].
           by apply sameCode_resolveLocal.
Qed.

Lemma resolveUpvalue_links_the_chain_witness :
  ∃ chain', resolveUpvalue "x" nestedStates = COk 0 chain'
            ∧ Forall2 sameCode nestedStates chain'
            ∧ capturedFrom "x" chain' 0.
Proof.
  eexists. split; [reflexivity|].
  match goal with
  | |- Forall2 _ _ ?c ∧ _ =>
      destruct (resolveUpvalue_links_the_chain "x" nestedStates c 0 eq_refl)
        as [Hsame [(Hminus & _)|Hcap]]
  end.
  - discriminate Hminus.
  - by split.
Defined.

(** ** Object literals and instances *)

Lemma pairValues_snoc (pairs : list (string * Value)) (k : string) (v : Value) :
  pairValues (pairs ++ [(k, v)]) = pairValues pairs ++ [VStr k; v].
Proof. unfold pairValues. by rewrite flat_map_app. Qed.

Lemma filled_list_to_map (pairs : list (string * Value)) :
  filled pairs ∅ = list_to_map pairs.
Proof. induction pairs as [|[k v] pairs IH]; simpl; [done|]. by rewrite IH. Qed.

Lemma fillObject_spec (o : nat) (below : list Value) (pairs : list (string * Value)) :
  ∀ (vm : VM) (props : gmap string Value) (proto : Value),
    objects vm !! o = Some (Obj.mk props proto) →
    stack vm = below ++ pairValues pairs →
    Forall (λ kv, kv.1 ≠ "__proto__") pairs →
    InstructionHandlers.fillObject (length pairs) o vm
    = Ok tt (with_stack below
               (with_objects (<[o := Obj.mk (filled pairs props) proto]> (objects vm)) vm)).
Proof.
  induction pairs as [|[k v] pairs IH] using rev_ind; intros vm props proto Hobj Hst Hkeys.
  - simpl in *. rewrite app_nil_r in Hst. rewrite <- Hst.
    rewrite list_insert_id by done. by destruct vm.
  - rewrite pairValues_snoc in Hst. apply Forall_app in Hkeys as [Hkeys Hk].
    rewrite Forall_singleton in Hk. simpl in Hk.
    rewrite length_app. simpl length. rewrite Nat.add_1_r.
    cbn [InstructionHandlers.fillObject].
    assert (Hp1 : pop vm = Ok v (with_stack (below ++ pairValues pairs ++ [VStr k]) vm)).
    { apply pop_snoc. rewrite Hst. by rewrite <- !app_assoc. }
    mstep by (exact Hp1).
    mstep by (apply (pop_snoc _ (below ++ pairValues pairs) (VStr k)); simpl;
              by rewrite <- !app_assoc).
    rewrite bool_decide_eq_false_2 by done.
    unfold deref_object, deref. mstep by (simpl; rewrite Hobj; reflexivity).
    unfold set_object. mstep.
    pose proof (lookup_lt_Some _ _ _ Hobj) as Hlt.
    erewrite IH; [|by apply list_lookup_insert_eq|reflexivity|done].
    simpl. rewrite list_insert_insert_eq. unfold filled. rewrite foldr_app. reflexivity.
Qed.

(** X20. OP_NEW_OBJECT with the keys and values of its pairs on the stack,
    no key being [__proto__], pops them all and pushes a new object without
    prototype whose properties are the pairs. Where a key occurs more than
    once, the value of the pair that was pushed first is the one kept. No
    other object changes. *)
Theorem new_object_keeps_the_first_of_equal_keys (vm : VM) (a : nat) (fr : CallFrame.t)
    (below : list Value) (pairs : list (string * Value)) :
  currentFrame vm = Some a →
  frames vm !! a = Some fr →
  index (FunctionObject.bytecode (CallFrame.func fr)) (CallFrame.ip fr)
  = Some (Z.of_nat (length pairs)) →
  stack vm = below ++ pairValues pairs →
  Forall (λ kv, kv.1 ≠ "__proto__") pairs →
  InstructionHandlers.OP_NEW_OBJECT vm
  = Ok OK (with_stack (below ++ [VObject (length (objects vm))])
             (with_objects (objects vm ++ [Obj.mk (list_to_map pairs) VNull])
                (atIp a fr (CallFrame.ip fr + 1) vm)))
  ∧ ∀ k v v' before between after,
      pairs = before ++ (k, v) :: between ++ (k, v') :: after →
      k ∉ before.*1 →
      (list_to_map pairs : gmap string Value) !! k = Some v.
Proof.
  intros Hcur Hfr Hcount Hst Hkeys. split.
  - unfold InstructionHandlers.OP_NEW_OBJECT.
    mstep by (by eapply readOperand_at).
    unfold new_object. mstep. rewrite Nat2Z.id.
    mstep by (apply (fillObject_spec _ below pairs _ ∅ VNull); [|done|done];
              simpl; by rewrite lookup_app_r, Nat.sub_diag).
    mstep. simpl. rewrite filled_list_to_map.
    rewrite insert_app_r_alt, Nat.sub_diag by done. reflexivity.
  - intros k v v' before between after -> Hbefore.
    rewrite list_to_map_app. rewrite lookup_union_r.
    + simpl. by rewrite lookup_insert_eq.
    + by apply not_elem_of_list_to_map_1.
Qed.

Lemma new_object_keeps_the_first_of_equal_keys_witness :
  InstructionHandlers.OP_NEW_OBJECT vmLiteral
  = Ok OK (with_stack [VClosure 0; VObject 0]
             (with_objects [Obj.mk (list_to_map [("a", VStr "first"); ("a", VStr "second")])
                              VNull]
                (atIp 0 (CallFrame.mk literalFunction 1 0 0 None) 2 vmLiteral)))
  ∧ (list_to_map [("a", VStr "first"); ("a", VStr "second")] : gmap string Value) !! "a"
    = Some (VStr "first").
Proof.
  destruct (new_object_keeps_the_first_of_equal_keys vmLiteral 0
              (CallFrame.mk literalFunction 1 0 0 None) [VClosure 0]
              [("a", VStr "first"); ("a", VStr "second")] eq_refl eq_refl eq_refl eq_refl)
    as [Hnew Hfirst].
  - by repeat constructor.
  - split; [exact Hnew|].
    apply (Hfirst "a" (VStr "first") (VStr "second") [] [] []); [done|]. apply not_elem_of_nil.
Defined.

Lemma stackWrite_within (vm : VM) (i : Z) (v : Value) :
  0 ≤ i < Z.of_nat (length (stack vm)) →
  stackWrite i v vm = Ok tt (with_stack (<[Z.to_nat i := v]> (stack vm)) vm).
Proof.
  intros Hi. unfold stackWrite. mstep. unfold id.
  destruct (Z.ltb_spec i 0); [lia|].
  by destruct (Z.ltb_spec i (Z.of_nat (length (stack vm)))); [|lia].
Qed.

Lemma ensurePrototype_spec (vm : VM) (c : nat) (cl : Closure.t) :
  closures vm !! c = Some cl →
  ensurePrototype c vm
  = Ok (prototypeFor vm cl)
       (if truthy (Closure.prototype cl) then vm
        else with_closures
               (<[c := Closure.mk (Closure.func cl) (Closure.upvalues cl)
                         (VObject (length (objects vm)))]> (closures vm))
               (with_objects (objects vm ++ [emptyObject VNull]) vm)).
Proof.
  intros Hcl. unfold ensurePrototype, prototypeFor, deref_closure, deref.
  mstep by (rewrite Hcl; reflexivity).
  destruct (truthy (Closure.prototype cl)); [done|].
  unfold new_object. mstep. unfold set_closure. mstep. reflexivity.
Qed.

Lemma ensurePrototype_again (vm : VM) (c : nat) (cl : Closure.t) :
  closures vm !! c = Some cl →
  truthy (Closure.prototype cl) = true →
  ensurePrototype c vm = Ok (Closure.prototype cl) vm.
Proof.
  intros Hcl Hproto. rewrite (ensurePrototype_spec vm c cl Hcl).
  unfold prototypeFor. by rewrite Hproto.
Qed.

(** X21. OP_NEW on a class makes an instance of the class's prototype: the
    closure keeps the prototype it has, or gets a new empty object as its
    prototype where it has none; a new object without properties whose
    prototype is that one replaces the class on the stack, below the
    arguments, and a frame for the constructor is pushed with that slot as
    its base, whatever the arity of the constructor. From then on
    [ensurePrototype] answers the same prototype for the class and changes
    nothing, so all instances of a class share one prototype object. *)
Theorem instances_share_the_prototype (vm : VM) (a : nat) (fr : CallFrame.t) (c : nat)
    (cl : Closure.t) (below args : list Value) :
  currentFrame vm = Some a →
  frames vm !! a = Some fr →
  index (FunctionObject.bytecode (CallFrame.func fr)) (CallFrame.ip fr)
  = Some (Z.of_nat (length args)) →
  stack vm = below ++ VClosure c :: args →
  closures vm !! c = Some cl →
  ∃ vm1 instance,
    InstructionHandlers.OP_NEW vm = Ok OK vm1
    ∧ stack vm1 = below ++ VObject instance :: args
    ∧ objects vm1 !! instance = Some (emptyObject (prototypeFor vm cl))
    ∧ closures vm1 !! c
      = Some (Closure.mk (Closure.func cl) (Closure.upvalues cl) (prototypeFor vm cl))
    ∧ truthy (prototypeFor vm cl) = true
    ∧ callFrames vm1 = callFrames vm ++ [length (frames vm)]
    ∧ frames vm1 !! length (frames vm)
      = Some (CallFrame.mk (Closure.func cl) 0 (Z.of_nat (length below)) c None)
    ∧ ∀ vm2, closures vm2 !! c = closures vm1 !! c →
             ensurePrototype c vm2 = Ok (prototypeFor vm cl) vm2.
Proof.
  intros Hcur Hfr Hcount Hst Hcl.
  pose proof (lookup_lt_Some _ _ _ Hfr) as Hlt.
  pose proof (lookup_lt_Some _ _ _ Hcl) as Hltc.
  set (vm0 := atIp a fr (CallFrame.ip fr + 1) vm).
  assert (Hproto : truthy (prototypeFor vm cl) = true).
  { unfold prototypeFor. by destruct (truthy (Closure.prototype cl)) eqn:E. }
  assert (Hcl' : ∀ vmx, closures vmx !! c
                        = Some (Closure.mk (Closure.func cl) (Closure.upvalues cl)
                                  (prototypeFor vm cl)) →
                        ensurePrototype c vmx = Ok (prototypeFor vm cl) vmx).
  { intros vmx Hx. by rewrite (ensurePrototype_again vmx c _ Hx). }
  destruct (truthy (Closure.prototype cl)) eqn:Hhas.
  - (* the class has its prototype *)
    assert (Hsame : prototypeFor vm cl = Closure.prototype cl)
      by (unfold prototypeFor; by rewrite Hhas).
    eexists _, (length (objects vm)). split; [|split_and!].
    + unfold InstructionHandlers.OP_NEW.
      mstep by (by eapply readOperand_at).
      mstep by (by eapply (peek_at _ below args)).
      unfold deref_closure, deref. mstep by (simpl; rewrite Hcl; reflexivity).
      mstep by (apply (ensurePrototype_spec _ c cl); exact Hcl).
      rewrite Hhas. unfold new_object. mstep. mstep.
      simpl stack. rewrite Hst, length_app.
      change (length (VClosure c :: args)) with (S (length args)).
      replace (Z.of_nat (length below + S (length args)) - 1 - Z.of_nat (length args))
        with (Z.of_nat (length below)) by lia.
      mstep by (apply stackWrite_within; simpl; rewrite Hst, length_app; simpl; lia).
      mstep. reflexivity.
    + simpl. rewrite Nat2Z.id, Hst. rewrite insert_app_r_alt by lia. by rewrite Nat.sub_diag.
    + simpl. rewrite lookup_app_r, Nat.sub_diag by done. simpl.
      unfold prototypeFor. by rewrite Hhas.
    + simpl. rewrite Hcl, Hsame. by destruct cl.
    + done.
    + unfold atIp. simpl. by rewrite length_insert.
    + unfold atIp. simpl. rewrite lookup_app_r by (rewrite length_insert; lia).
      rewrite length_insert, Nat.sub_diag. reflexivity.
    + simpl. intros vm2 Hvm2. apply Hcl'. rewrite Hvm2, Hcl, Hsame. by destruct cl.
  - (* the class gets a prototype *)
    assert (Hsame : prototypeFor vm cl = VObject (length (objects vm)))
      by (unfold prototypeFor; by rewrite Hhas).
    eexists _, (S (length (objects vm))). split; [|split_and!].
    + unfold InstructionHandlers.OP_NEW.
      mstep by (by eapply readOperand_at).
      mstep by (by eapply (peek_at _ below args)).
      unfold deref_closure, deref. mstep by (simpl; rewrite Hcl; reflexivity).
      mstep by (apply (ensurePrototype_spec _ c cl); exact Hcl).
      rewrite Hhas. unfold new_object. mstep. mstep.
      simpl stack. rewrite Hst, length_app.
      change (length (VClosure c :: args)) with (S (length args)).
      replace (Z.of_nat (length below + S (length args)) - 1 - Z.of_nat (length args))
        with (Z.of_nat (length below)) by lia.
      mstep by (apply stackWrite_within; simpl; rewrite Hst, length_app; simpl; lia).
      mstep. reflexivity.
    + simpl. rewrite Nat2Z.id, Hst. rewrite insert_app_r_alt by lia.
      rewrite Nat.sub_diag. simpl. rewrite length_app. simpl. by rewrite Nat.add_1_r.
    + simpl. rewrite lookup_app_r by (rewrite length_app; simpl; lia).
      rewrite length_app. simpl. replace (S (length (objects vm)) - (length (objects vm) + 1))%nat
        with 0%nat by lia. simpl. unfold prototypeFor. by rewrite Hhas.
    + simpl. rewrite list_lookup_insert_eq by done. by rewrite Hsame.
    + done.
    + unfold atIp. simpl. by rewrite length_insert.
    + unfold atIp. simpl. rewrite lookup_app_r by (rewrite length_insert; lia).
      rewrite length_insert, Nat.sub_diag. reflexivity.
    + simpl. intros vm2 Hvm2. apply Hcl'. rewrite Hvm2.
      rewrite list_lookup_insert_eq by done. by rewrite Hsame.
Qed.

Lemma instances_share_the_prototype_witness :
  ∃ vm1 instance,
    InstructionHandlers.OP_NEW vmInstantiating = Ok OK vm1
    ∧ stack vm1 = [VClosure 0; VObject instance]
    ∧ objects vm1 !! instance = Some (emptyObject (VObject 0))
    ∧ ensurePrototype 0 vm1 = Ok (VObject 0) vm1.
Proof.
  destruct (instances_share_the_prototype vmInstantiating 0
              (CallFrame.mk newFunction 1 0 0 None) 0 (Closure.mk newFunction [] VUndefined)
              [VClosure 0] [] eq_refl eq_refl eq_refl eq_refl eq_refl)
    as (vm1 & instance & Hnew & Hst & Hobj & Hcl & _ & _ & _ & Hagain).
  exists vm1, instance. split_and!; try done. by apply Hagain.
Defined.

(** ** Locals and globals *)

Lemma theCurrentFrame_read (vm : VM) (a : nat) (fr : CallFrame.t) :
  currentFrame vm = Some a → frames vm !! a = Some fr →
  theCurrentFrame (operandRead a fr vm)
  = Ok (a, CallFrame.with_ip (CallFrame.ip fr + 1) fr) (operandRead a fr vm).
Proof.
  intros Hcur Hfr. pose proof (lookup_lt_Some _ _ _ Hfr) as Hlt.
  unfold theCurrentFrame, operandRead, atIp. unfold_m. simpl. rewrite Hcur. simpl.
  by rewrite list_lookup_insert_eq.
Qed.

Lemma stackWrite_written (vm : VM) (i : Z) (v : Value) :
  0 ≤ i → stackWrite i v vm = Ok tt (with_stack (written i v (stack vm)) vm).
Proof.
  intros Hi. unfold stackWrite, written. mstep. unfold id.
  destruct (Z.ltb_spec i 0); [lia|].
  by destruct (Z.ltb_spec i (Z.of_nat (length (stack vm)))).
Qed.

Lemma written_lookup (i : Z) (v : Value) (st : list Value) :
  0 ≤ i → written i v st !! Z.to_nat i = Some v.
Proof.
  intros Hi. unfold written. destruct (Z.ltb_spec i (Z.of_nat (length st))).
  - apply list_lookup_insert_eq. lia.
  - rewrite lookup_app_r by lia. rewrite lookup_app_r by (rewrite length_replicate; lia).
    rewrite length_replicate. by rewrite Nat.sub_diag.
Qed.

(** X22. Writing a local and reading it back: OP_SET_LOCAL stores the value
    on top of the stack in the slot of the local, counted from the base of
    the frame, and leaves it on top; a slot beyond the end of the stack
    extends the stack, the slots in between reading as [undefined]. Nothing
    but the stack and the instruction pointer changes. OP_GET_LOCAL of that
    slot, in the same frame and on that stack, pushes the value written. *)
Theorem local_write_then_read (vm : VM) (a : nat) (fr : CallFrame.t) (slot : Z)
    (st : list Value) (v : Value) :
  byteOperand vm a fr slot →
  0 ≤ CallFrame.stackBase fr + slot →
  stack vm = st ++ [v] →
  InstructionHandlers.OP_SET_LOCAL vm
  = Ok OK (with_stack (written (CallFrame.stackBase fr + slot) v (st ++ [v]))
             (operandRead a fr vm))
  ∧ ∀ vm2 a2 fr2,
      byteOperand vm2 a2 fr2 slot →
      CallFrame.stackBase fr2 = CallFrame.stackBase fr →
      stack vm2 = written (CallFrame.stackBase fr + slot) v (st ++ [v]) →
      InstructionHandlers.OP_GET_LOCAL vm2
      = Ok OK (with_stack (stack vm2 ++ [v]) (operandRead a2 fr2 vm2)).
Proof.
  intros (Hcur & Hfr & Hslot) Hbase Hst. split.
  - unfold InstructionHandlers.OP_SET_LOCAL.
    mstep by (by eapply readOperand_at). fold (operandRead a fr vm).
    mstep by (by apply theCurrentFrame_read).
    mstep by (by apply (peek0_snoc _ st)).
    mstep by (apply stackWrite_written; simpl; lia).
    simpl stack. by rewrite Hst.
  - intros vm2 a2 fr2 (Hcur2 & Hfr2 & Hslot2) Hbase2 Hst2.
    unfold InstructionHandlers.OP_GET_LOCAL.
    mstep by (by eapply readOperand_at). fold (operandRead a2 fr2 vm2).
    mstep by (by apply theCurrentFrame_read).
    simpl CallFrame.stackBase. rewrite Hbase2.
    assert (Hread : stackRead (CallFrame.stackBase fr + slot) (operandRead a2 fr2 vm2)
                    = Ok v (operandRead a2 fr2 vm2)).
    { unfold stackRead. mstep. unfold id.
      destruct (Z.ltb_spec (CallFrame.stackBase fr + slot) 0); [lia|].
      simpl stack. by rewrite Hst2, written_lookup. }
    mstep by (exact Hread). mstep. reflexivity.
Qed.

(** X23. Defining, reading and assigning a global: OP_DEFINE_GLOBAL binds
    the name to the value on top of the stack, replacing a binding there is,
    and leaves the value on the stack. OP_GET_GLOBAL of a name that is bound
    pushes its value, and OP_SET_GLOBAL rebinds it to the value on top,
    which stays there. For a name that is not bound both raise the runtime
    error of an undefined variable and leave the globals as they are:
    assigning does not define. *)
Theorem global_define_then_read (vm : VM) (a : nat) (fr : CallFrame.t) (name : string)
    (st : list Value) (v : Value) :
  nameOperand vm a fr name →
  stack vm = st ++ [v] →
  InstructionHandlers.OP_DEFINE_GLOBAL vm
  = Ok OK (with_globals (<[name := v]> (globals vm)) (operandRead a fr vm))
  ∧ (∀ bound, globals vm !! name = Some bound →
       InstructionHandlers.OP_GET_GLOBAL vm
       = Ok OK (with_stack (stack vm ++ [bound]) (operandRead a fr vm))
       ∧ InstructionHandlers.OP_SET_GLOBAL vm
         = Ok OK (with_globals (<[name := v]> (globals vm)) (operandRead a fr vm)))
  ∧ (globals vm !! name = None →
       InstructionHandlers.OP_GET_GLOBAL vm
       = fail (undefinedVariable name) (operandRead a fr vm)
       ∧ InstructionHandlers.OP_SET_GLOBAL vm
         = fail (undefinedVariable name) (operandRead a fr vm))
  ∧ ∀ vm2 a2 fr2,
      globals vm2 = <[name := v]> (globals vm) →
      nameOperand vm2 a2 fr2 name →
      InstructionHandlers.OP_GET_GLOBAL vm2
      = Ok OK (with_stack (stack vm2 ++ [v]) (operandRead a2 fr2 vm2)).
Proof.
  intros Hop Hst.
  assert (Hget : ∀ vmx ax frx bound,
            nameOperand vmx ax frx name → globals vmx !! name = Some bound →
            InstructionHandlers.OP_GET_GLOBAL vmx
            = Ok OK (with_stack (stack vmx ++ [bound]) (operandRead ax frx vmx))).
  { intros vmx ax frx bound (Hcur & Hfr & i & Hi & Hconst) Hbound.
    unfold InstructionHandlers.OP_GET_GLOBAL.
    mstep by (by eapply readOperand_at). fold (operandRead ax frx vmx).
    mstep by (by eapply nameConstant_at).
    mstep. unfold id. change (globals (operandRead ax frx vmx)) with (globals vmx).
    rewrite Hbound. mstep. reflexivity. }
  destruct Hop as (Hcur & Hfr & i & Hi & Hconst).
  split_and!.
  - unfold InstructionHandlers.OP_DEFINE_GLOBAL.
    mstep by (by eapply readOperand_at). fold (operandRead a fr vm).
    mstep by (by eapply nameConstant_at).
    mstep by (by apply (peek0_snoc _ st)).
    mstep. reflexivity.
  - intros bound Hbound. split.
    + apply Hget; [|done]. split_and!; [done|done|]. by exists i.
    + unfold InstructionHandlers.OP_SET_GLOBAL.
      mstep by (by eapply readOperand_at). fold (operandRead a fr vm).
      mstep by (by eapply nameConstant_at).
      mstep. unfold id. change (globals (operandRead a fr vm)) with (globals vm). rewrite Hbound.
      mstep by (by apply (peek0_snoc _ st)).
      mstep. reflexivity.
  - intros Hnone. split.
    + unfold InstructionHandlers.OP_GET_GLOBAL.
      mstep by (by eapply readOperand_at). fold (operandRead a fr vm).
      mstep by (by eapply nameConstant_at).
      mstep. unfold id. change (globals (operandRead a fr vm)) with (globals vm). by rewrite Hnone.
    + unfold InstructionHandlers.OP_SET_GLOBAL.
      mstep by (by eapply readOperand_at). fold (operandRead a fr vm).
      mstep by (by eapply nameConstant_at).
      mstep. unfold id. change (globals (operandRead a fr vm)) with (globals vm). by rewrite Hnone.
  - intros vm2 a2 fr2 Hglobals Hop2. apply Hget; [done|].
    by rewrite Hglobals, lookup_insert_eq.
Qed.

Lemma local_write_then_read_witness :
  InstructionHandlers.OP_SET_LOCAL vmLocalWrite
  = Ok OK (with_stack [VClosure 0; VStr "v"; VUndefined; VStr "v"]
             (operandRead 0 (CallFrame.mk localFunction 1 0 0 None) vmLocalWrite))
  ∧ InstructionHandlers.OP_GET_LOCAL vmLocalRead
    = Ok OK (with_stack [VClosure 0; VStr "v"; VUndefined; VStr "v"; VStr "v"]
               (operandRead 0 (CallFrame.mk localFunction 3 0 0 None) vmLocalRead)).
Proof.
  destruct (local_write_then_read vmLocalWrite 0 (CallFrame.mk localFunction 1 0 0 None) 3
              [VClosure 0] (VStr "v")) as [Hset Hget].
  - by split_and!.
  - simpl. lia.
  - reflexivity.
  - split; [exact Hset|].
    apply (Hget vmLocalRead 0%nat (CallFrame.mk localFunction 3 0 0 None));
      [by split_and!|done|done].
Defined.

Lemma global_define_then_read_witness :
  InstructionHandlers.OP_DEFINE_GLOBAL vmGlobalDefine
  = Ok OK (with_globals (<["g" := VStr "v"]> nativeGlobals)
             (operandRead 0 (CallFrame.mk globalFunction 1 0 0 None) vmGlobalDefine))
  ∧ InstructionHandlers.OP_GET_GLOBAL vmGlobalRead
    = Ok OK (with_stack [VClosure 0; VStr "v"; VStr "v"]
               (operandRead 0 (CallFrame.mk globalFunction 3 0 0 None) vmGlobalRead))
  ∧ InstructionHandlers.OP_SET_GLOBAL vmGlobalDefine
    = fail "Undefined variable 'g'."
        (operandRead 0 (CallFrame.mk globalFunction 1 0 0 None) vmGlobalDefine).
Proof.
  destruct (global_define_then_read vmGlobalDefine 0 (CallFrame.mk globalFunction 1 0 0 None)
              "g" [VClosure 0] (VStr "v")) as (Hdefine & _ & Hunbound & Hread).
  - split_and!; [done|done|]. by exists 0.
  - reflexivity.
  - split_and!; [exact Hdefine| |].
    + apply (Hread vmGlobalRead 0%nat (CallFrame.mk globalFunction 3 0 0 None)); [done|].
      split_and!; [done|done|]. by exists 0.
    + by apply Hunbound.
Defined.

(** ** Native names *)

(** X24. A name of NATIVE_GLOBALS that is neither a local nor a variable of
    an enclosing function is compiled by [emitGetVariable] to OP_GET_NATIVE
    with the name as a new constant. In a VM whose globals are those of a
    new VM, OP_GET_NATIVE pushes the native object for [console], [Object]
    and [Promise]; for [Math], [performance] and [Date], which the compiler
    treats as native as well but the VM never binds, it raises the runtime
    error that the native object was not found. *)
Theorem native_names_the_vm_does_not_bind (name : string) :
  name ∈ NATIVE_GLOBALS →
  (∀ current enclosing,
     resolveLocal current name = -1 →
     resolveUpvalue name (current :: enclosing) = COk (-1) (current :: enclosing) →
     emitGetVariable name (current :: enclosing)
     = COk tt (CompilerState.with_bytecode
                 (CompilerState.bytecode current
                  ++ [Opcodes.OP_GET_NATIVE; Z.of_nat (length (CompilerState.constants current))])
                 (CompilerState.with_constants
                    (CompilerState.constants current ++ [VStr name]) current)
               :: enclosing))
  ∧ (∀ vm a fr,
       nameOperand vm a fr name →
       globals vm = nativeGlobals →
       InstructionHandlers.OP_GET_NATIVE vm
       = if bool_decide (name ∈ boundNatives)
         then Ok OK (with_stack (stack vm ++ [default VUndefined (nativeGlobals !! name)])
                       (operandRead a fr vm))
         else fail (nativeNotFound name) (operandRead a fr vm))
  ∧ (name ∈ boundNatives ∨ name ∈ ["Math"; "performance"; "Date"]).
Proof.
  intros Hnative. split_and!.
  - intros current enclosing Hlocal Hup.
    unfold emitGetVariable. unfold mbind at 1. unfold CM_bind, currentState.
    rewrite Hlocal. change (negb (-1 =? -1)) with false. cbv iota.
    unfold mbind at 1. unfold CM_bind. rewrite Hup.
    change (negb (-1 =? -1)) with false. cbv iota. rewrite (bool_decide_eq_true_2 _ Hnative).
    unfold mbind, CM_bind, onCurrent, addConstant, emitBytes. simpl.
    replace (Z.of_nat (length (CompilerState.constants current ++ [VStr name])) - 1)
      with (Z.of_nat (length (CompilerState.constants current)))
      by (rewrite length_app; simpl; lia).
    reflexivity.
  - intros vm a fr (Hcur & Hfr & i & Hi & Hconst) Hglobals.
    unfold InstructionHandlers.OP_GET_NATIVE.
    mstep by (by eapply readOperand_at). fold (operandRead a fr vm).
    mstep by (by eapply nameConstant_at).
    mstep. unfold id. change (globals (operandRead a fr vm)) with (globals vm).
    rewrite Hglobals.
    unfold NATIVE_GLOBALS in Hnative.
    repeat (apply elem_of_cons in Hnative as [->|Hnative]; [by vm_compute|]).
    by apply elem_of_nil in Hnative.
  - unfold NATIVE_GLOBALS in Hnative. unfold boundNatives.
    repeat (apply elem_of_cons in Hnative as [->|Hnative];
            [first [left; by repeat constructor|right; by repeat constructor]|]).
    by apply elem_of_nil in Hnative.
Qed.

Lemma native_names_the_vm_does_not_bind_witness :
  emitGetVariable "Math" [CompilerState.make "<script>"]
  = COk tt [CompilerState.with_bytecode [Opcodes.OP_GET_NATIVE; 0]
              (CompilerState.with_constants [VStr "Math"] (CompilerState.make "<script>"))]
  ∧ reportsOf (@runProgram exampleHost 10 mentionsMath)
    = [mkErrorReport (VStr "Native object 'Math' not found.") "<script>"].
Proof.
  assert (Hmath : "Math" ∈ NATIVE_GLOBALS) by (by repeat constructor).
  destruct (native_names_the_vm_does_not_bind "Math" Hmath) as (Hemit & _ & _).
  split; [exact (Hemit (CompilerState.make "<script>") [] eq_refl eq_refl)|].
  vm_compute. reflexivity.
Defined.

(** ** Calls of async functions *)

Lemma pop_last (vm : VM) (st : list Value) (v : Value) :
  stack vm = st ++ [v] → pop vm = Ok v (with_stack st vm).
Proof. apply pop_snoc. Qed.

Lemma topValues_at (vm : VM) (below args : list Value) :
  stack vm = below ++ args → topValues (Z.of_nat (length args)) vm = Ok args vm.
Proof.
  intros Hst. unfold topValues. mstep. rewrite Hst, length_app.
  replace (Z.to_nat (Z.of_nat (length below + length args) - Z.of_nat (length args)))
    with (length below) by lia.
  by rewrite drop_app_length.
Qed.

Lemma dropValues_at (vm : VM) (below dropped : list Value) (n : Z) :
  stack vm = below ++ dropped → n = Z.of_nat (length dropped) →
  dropValues n vm = Ok tt (with_stack below vm).
Proof.
  intros Hst ->. unfold dropValues. mstep.
  rewrite (setStackLength_resized vm) by (rewrite Hst, length_app; lia).
  unfold resized. rewrite Hst, length_app.
  replace (Z.to_nat (Z.of_nat (length below + length dropped) - Z.of_nat (length dropped)))
    with (length below) by lia.
  rewrite take_app_length.
  replace (length below - (length below + length dropped))%nat with 0%nat by lia.
  by rewrite app_nil_r.
Qed.

Lemma forEach_push (args : list Value) (vm : VM) :
  forEach args push vm = Ok tt (with_stack (stack vm ++ args) vm).
Proof.
  revert vm. induction args as [|x args IH]; intros vm; simpl.
  - rewrite app_nil_r. by destruct vm.
  - mstep. rewrite IH. simpl. by rewrite <- app_assoc.
Qed.

(** X25. A call of an async function does not run it. OP_CALL, given as
    many arguments as the arity, raises the runtime error of a stack
    overflow where the call frames are as many as the frame limit, as for
    any closure; otherwise it replaces callee and arguments by a new
    pending promise and queues the call with the arguments, and no frame is
    pushed. When the microtask runs, callee and arguments are pushed on
    whatever the stack holds then and a frame is pushed for them that
    carries the promise. When that frame executes OP_RETURN, with the open
    upvalues linked from the highest slot down, the fulfilment of the
    promise with the result is queued, the frame is popped and the stack is
    cut to the base of the frame, with the result pushed onto it; the open
    upvalues stay linked in that order, and none of them refers to a slot
    from the base of the frame on. *)
Theorem async_call_runs_in_a_microtask (c : nat) (cl : Closure.t) (args : list Value) (p : nat) :
  FunctionObject.arity (Closure.func cl) = Z.of_nat (length args) →
  FunctionObject.isGenerator (Closure.func cl) = false →
  FunctionObject.isAsync (Closure.func cl) = true →
  (∀ vm a fr below,
     currentFrame vm = Some a →
     frames vm !! a = Some fr →
     index (FunctionObject.bytecode (CallFrame.func fr)) (CallFrame.ip fr)
     = Some (Z.of_nat (length args)) →
     stack vm = below ++ VClosure c :: args →
     closures vm !! c = Some cl →
     p = length (promises vm) →
     InstructionHandlers.OP_CALL vm
     = if Z.of_nat (length (callFrames vm)) =? MAX_CALL_FRAMES vm
       then fail "Stack overflow." (atIp a fr (CallFrame.ip fr + 1) vm)
       else Ok OK (with_stack (below ++ [VPromise p])
                     (with_microtaskQueue (microtaskQueue vm ++ [AsyncCallTask c (Some p) args])
                        (with_promises (promises vm ++ [PromiseV1.fresh])
                           (atIp a fr (CallFrame.ip fr + 1) vm)))))
  ∧ (∀ vm,
       closures vm !! c = Some cl →
       runMicrotask (AsyncCallTask c (Some p) args) vm
       = Ok tt (with_callFrames (callFrames vm ++ [length (frames vm)])
                  (with_frames (frames vm ++ [CallFrame.mk (Closure.func cl) 0
                                                (Z.of_nat (length (stack vm))) c (Some p)])
                     (with_stack (stack vm ++ VClosure c :: args) vm))))
  ∧ (∀ vm frs f fr below locals result l,
       callFrames vm = frs ++ [f] →
       frames vm !! f = Some fr →
       CallFrame.func fr = Closure.func cl →
       CallFrame.asyncPromise fr = Some p →
       CallFrame.stackBase fr = Z.of_nat (length below) →
       stack vm = below ++ locals ++ [result] →
       openSorted (with_stack (below ++ locals) vm) l →
       ∃ cells h remaining,
         let vm' :=
           with_stack (below ++ [result])
             (with_callFrames frs
                (with_openUpvalues h
                   (with_upvalueCells cells
                      (with_microtaskQueue (microtaskQueue vm ++ [ResolveInternalTask p result])
                         vm)))) in
         InstructionHandlers.OP_RETURN vm = Ok OK vm'
         ∧ openSorted vm' remaining
         ∧ Forall (λ u, locationOf cells u < Z.of_nat (length below)) remaining).
Proof.
  intros Harity Hgen Hasync. split_and!.
  - intros vm a fr below Hcur Hfr Hop Hst Hcl ->.
    unfold InstructionHandlers.OP_CALL.
    mstep by (by eapply readOperand_at).
    mstep by (by eapply (peek_at _ below args)).
    unfold deref_closure, deref. mstep by (simpl; rewrite Hcl; reflexivity).
    mstep. rewrite Harity, Z.eqb_refl. cbn [negb]. cbv iota. unfold id.
    change (callFrames (atIp a fr (CallFrame.ip fr + 1) vm)) with (callFrames vm).
    change (MAX_CALL_FRAMES (atIp a fr (CallFrame.ip fr + 1) vm)) with (MAX_CALL_FRAMES vm).
    destruct (Z.eqb_spec (Z.of_nat (length (callFrames vm))) (MAX_CALL_FRAMES vm));
      [reflexivity|].
    rewrite Hgen, Hasync. unfold new_promise. mstep.
    mstep by (apply (topValues_at _ (below ++ [VClosure c]) args); simpl;
              by rewrite Hst, <- app_assoc).
    set (vm0 := with_promises (promises vm ++ [PromiseV1.fresh])
                  (atIp a fr (CallFrame.ip fr + 1) vm)).
    assert (Hpop : ∃ top rest, pop vm0 = Ok top (with_stack rest vm0)
                               ∧ rest ++ [top] = below ++ VClosure c :: args).
    { destruct args as [|x args _] using rev_ind.
      - exists (VClosure c), below. split; [|done]. by apply pop_last.
      - exists x, (below ++ VClosure c :: args). split; [|by rewrite <- app_assoc].
        apply pop_last. simpl. by rewrite Hst, <- app_assoc. }
    destruct Hpop as (top & rest & Hpop & Hrest).
    mstep by (exact Hpop).
    assert (Hlen : length rest = (length below + length args)%nat).
    { apply (f_equal length) in Hrest. rewrite !length_app in Hrest. simpl in Hrest. lia. }
    assert (Hbelow : rest = below ++ drop (length below) rest).
    { rewrite <- (take_drop (length below) rest) at 1. f_equal.
      apply (f_equal (take (length below))) in Hrest.
      rewrite take_app_le in Hrest by lia. by rewrite take_app_length in Hrest. }
    mstep by (apply (dropValues_at _ below (drop (length below) rest)); [exact Hbelow|];
              rewrite length_drop; lia).
    mstep. mstep. reflexivity.
  - intros vm Hcl. unfold runMicrotask.
    mstep. mstep by (apply forEach_push).
    unfold deref_closure, deref. mstep by (simpl; rewrite Hcl; reflexivity).
    mstep. unfold new_frame. mstep. simpl.
    rewrite !length_app. simpl length.
    replace (Z.of_nat (length (stack vm) + 1 + length args) - 1 - Z.of_nat (length args))
      with (Z.of_nat (length (stack vm))) by lia.
    unfold modify. by rewrite <- app_assoc.
  - intros vm frs f fr below locals result l Hfrs Hfr Hfunc Hpromise Hbase Hst Hsorted.
    set (vmq := with_microtaskQueue (microtaskQueue vm ++ [ResolveInternalTask p result])
                  (with_stack (below ++ locals) vm)).
    destruct (closeUpvalues_below vmq l (Z.of_nat (length below)) Hsorted)
      as (vmc & remaining & Hclose & (cells & h & ->) & Hsorted' & Hlow).
    exists cells, h, remaining. cbv zeta. split_and!.
    + unfold InstructionHandlers.OP_RETURN.
      mstep by (apply (pop_last _ (below ++ locals) result); by rewrite Hst, <- app_assoc).
      mstep. change (callFrames (with_stack (below ++ locals) vm)) with (callFrames vm).
      rewrite Hfrs, last_snoc.
      unfold deref_frame, deref. mstep by (simpl; rewrite Hfr; reflexivity).
      rewrite Hpromise, Hfunc, Hasync. mstep.
      rewrite Hbase. mstep by (exact Hclose).
      mstep. mstep by (apply setStackLength_resized; lia). mstep.
      simpl. rewrite Hfrs, removelast_last. unfold resized.
      rewrite Nat2Z.id, take_app_length.
      replace (length below - length (below ++ locals))%nat with 0%nat
        by (rewrite length_app; lia).
      by rewrite app_nil_r.
    + exact Hsorted'.
    + exact Hlow.
Qed.

Lemma async_call_runs_in_a_microtask_witness :
  ∃ vm1 vm2,
    InstructionHandlers.OP_CALL vmCallingAsync = Ok OK vm1
    ∧ stack vm1 = [VClosure 0; VPromise 0]
    ∧ callFrames vm1 = [0%nat]
    ∧ microtaskQueue vm1 = [AsyncCallTask 1 (Some 0%nat) []]
    ∧ runMicrotask (AsyncCallTask 1 (Some 0%nat) []) vm1 = Ok tt vm2
    ∧ stack vm2 = [VClosure 0; VPromise 0; VClosure 1]
    ∧ callFrames vm2 = [0%nat; 1%nat].
Proof.
  destruct (async_call_runs_in_a_microtask 1 (Closure.mk asyncFunction [] VUndefined) [] 0
              eq_refl eq_refl eq_refl) as (Hcall & Htask & _).
  eexists _, _. split.
  - exact (Hcall vmCallingAsync 0%nat (CallFrame.mk callFunction 1 0 0 None) [VClosure 0]
             eq_refl eq_refl eq_refl eq_refl eq_refl eq_refl).
  - split_and!;
      [reflexivity|reflexivity|reflexivity|refine (Htask _ _); reflexivity
      |reflexivity|reflexivity].
Defined.

(** ** Closures and the variables they capture *)

Lemma cellsExtended_refl (cells : list Upvalue.t) : cellsExtended cells cells.
Proof. intros u c Hc. by exists c. Qed.

Lemma cellsExtended_trans (c1 c2 c3 : list Upvalue.t) :
  cellsExtended c1 c2 → cellsExtended c2 c3 → cellsExtended c1 c3.
Proof.
  intros H12 H23 u c Hc. destruct (H12 u c Hc) as (c' & Hc' & Hl & Hv).
  destruct (H23 u c' Hc') as (c'' & Hc'' & Hl' & Hv'). exists c''.
  split_and!; [done|congruence|congruence].
Qed.

Lemma capturing_again (a : nat) (fr : CallFrame.t) (ip ip' : Z) (cells cells' : list Upvalue.t)
    (h h' : option nat) (vm : VM) :
  with_openUpvalues h'
    (with_upvalueCells cells'
       (atIp a (CallFrame.with_ip ip fr) ip' (capturing a fr ip cells h vm)))
  = capturing a fr ip' cells' h' vm.
Proof. unfold capturing, atIp. simpl. by rewrite list_insert_insert_eq. Qed.

Lemma capturing_frame (a : nat) (fr : CallFrame.t) (ip : Z) (cells : list Upvalue.t)
    (h : option nat) (vm : VM) :
  currentFrame vm = Some a → frames vm !! a = Some fr →
  currentFrame (capturing a fr ip cells h vm) = Some a
  ∧ frames (capturing a fr ip cells h vm) !! a = Some (CallFrame.with_ip ip fr).
Proof.
  intros Hcur Hfr. split; [done|]. simpl. apply list_lookup_insert_eq.
  by eapply lookup_lt_Some.
Qed.

Lemma capturing_same (a : nat) (fr : CallFrame.t) (ip : Z) (cells : list Upvalue.t)
    (h : option nat) (vm : VM) :
  capturing a (CallFrame.with_ip ip fr) ip cells h (capturing a fr ip cells h vm)
  = capturing a fr ip cells h vm.
Proof. unfold capturing, atIp. simpl. by rewrite list_insert_insert_eq. Qed.

(** [captureUpvalue] on an open list that is in order. *)
Lemma captureUpvalue_cell (vm : VM) (l : list nat) (loc : Z) :
  openSorted vm l →
  ∃ u cells' h' l',
    captureUpvalue loc vm = Ok u (with_openUpvalues h' (with_upvalueCells cells' vm))
    ∧ openSorted (with_openUpvalues h' (with_upvalueCells cells' vm)) l'
    ∧ (∀ v, v ∈ l → v ∈ l')
    ∧ u ∈ l'
    ∧ Upvalue.location <$> cells' !! u = Some loc
    ∧ cellsExtended (upvalueCells vm) cells'.
Proof.
  intros Hsorted.
  destruct (captureUpvalue_spec vm l loc Hsorted)
    as [(u & Hu & Hloc & Hcap)|(_ & vm' & above & below & -> & Hcap & Hsorted' & Hext & Hnew)].
  - exists u, (upvalueCells vm), (openUpvalues vm), l.
    rewrite with_same. split_and!; try done.
    + destruct Hsorted as [Hopen _]. destruct (openList_lookup _ _ _ _ Hopen Hu) as [c Hc].
      unfold locationOf in Hloc. rewrite Hc in *. simpl in *. by rewrite Hloc.
    + apply cellsExtended_refl.
  - destruct Hext as [(cells' & h' & ->) Hext].
    exists (length (upvalueCells vm)), cells', h', (above ++ length (upvalueCells vm) :: below).
    split_and!; try done.
    + intros v. rewrite !elem_of_app, elem_of_cons. tauto.
    + apply elem_of_app. right. apply elem_of_cons. by left.
    + simpl in Hnew. by rewrite Hnew.
Qed.

Lemma readByte_capturing (vm : VM) (a : nat) (fr : CallFrame.t) (ip : Z)
    (cells : list Upvalue.t) (h : option nat) :
  currentFrame vm = Some a → frames vm !! a = Some fr →
  readByte (capturing a fr ip cells h vm)
  = Ok (index (FunctionObject.bytecode (CallFrame.func fr)) ip)
       (capturing a fr (ip + 1) cells h vm).
Proof.
  intros Hcur Hfr. pose proof (lookup_lt_Some _ _ _ Hfr) as Hlt.
  unfold readByte, theCurrentFrame, set_frame, capturing, atIp. unfold_m. simpl.
  rewrite Hcur. simpl. rewrite list_lookup_insert_eq by done. simpl.
  by rewrite list_insert_insert_eq.
Qed.

Lemma theCurrentFrame_capturing (vm : VM) (a : nat) (fr : CallFrame.t) (ip : Z)
    (cells : list Upvalue.t) (h : option nat) :
  currentFrame vm = Some a → frames vm !! a = Some fr →
  theCurrentFrame (capturing a fr ip cells h vm)
  = Ok (a, CallFrame.with_ip ip fr) (capturing a fr ip cells h vm).
Proof.
  intros Hcur Hfr. pose proof (lookup_lt_Some _ _ _ Hfr) as Hlt.
  unfold theCurrentFrame, capturing, atIp. unfold_m. simpl. rewrite Hcur. simpl.
  by rewrite list_lookup_insert_eq.
Qed.

Lemma frameUpvalue_capturing (vm : VM) (a : nat) (fr : CallFrame.t) (cl : Closure.t) (ip : Z)
    (cells : list Upvalue.t) (h : option nat) (slot : Z) :
  currentFrame vm = Some a → frames vm !! a = Some fr →
  closures vm !! CallFrame.closure fr = Some cl →
  frameUpvalue slot (capturing a fr ip cells h vm)
  = Ok (default None (index (Closure.upvalues cl) slot)) (capturing a fr ip cells h vm).
Proof.
  intros Hcur Hfr Hcl. unfold frameUpvalue.
  mstep by (by apply theCurrentFrame_capturing).
  unfold_m. simpl. rewrite Hcl. reflexivity.
Qed.

Lemma upvalueBytes_cons (d : UpvalueDesc.t) (ds : list UpvalueDesc.t) :
  upvalueBytes (d :: ds)
  = (if UpvalueDesc.isLocal d then 1 else 0) :: UpvalueDesc.index d :: upvalueBytes ds.
Proof. reflexivity. Qed.

Lemma index_drop {A} (l rest : list A) (i : Z) (x : A) :
  0 ≤ i → drop (Z.to_nat i) l = x :: rest →
  index l i = Some x ∧ drop (Z.to_nat (i + 1)) l = rest.
Proof.
  intros Hi Hdrop. unfold index. destruct (Z.ltb_spec i 0); [lia|]. split.
  - pose proof (lookup_drop l (Z.to_nat i) 0) as Hl.
    rewrite Hdrop, Nat.add_0_r in Hl. by rewrite <- Hl.
  - replace (Z.to_nat (i + 1)) with (Z.to_nat i + 1)%nat by lia.
    rewrite <- drop_drop, Hdrop. reflexivity.
Qed.

Lemma capturedBy_later (cells cells' : list Upvalue.t) (l l' : list nat) (fr : CallFrame.t)
    (cl : Closure.t) (d : UpvalueDesc.t) (u : option nat) :
  cellsExtended cells cells' → (∀ v, v ∈ l → v ∈ l') →
  capturedBy cells l fr cl d u → capturedBy cells' l' fr cl d u.
Proof.
  intros Hext Hsub. unfold capturedBy. destruct (UpvalueDesc.isLocal d); [|done].
  intros (c & -> & Hc & Hloc). exists c. split_and!; [done|by apply Hsub|].
  destruct (cells !! c) as [cell|] eqn:Hcell; [|done].
  destruct (Hext c cell Hcell) as (cell' & -> & Hl & _). simpl in *. congruence.
Qed.

(** The descriptors [ds], read from [ip] on, give the closure one upvalue
    each. *)
Lemma captureAll_spec (vm : VM) (a : nat) (fr : CallFrame.t) (cl : Closure.t) :
  currentFrame vm = Some a → frames vm !! a = Some fr →
  closures vm !! CallFrame.closure fr = Some cl →
  ∀ (ds : list UpvalueDesc.t) (ip : Z) (cells : list Upvalue.t) (h : option nat)
    (l : list nat) (later : list Z),
    0 ≤ ip →
    drop (Z.to_nat ip) (FunctionObject.bytecode (CallFrame.func fr)) = upvalueBytes ds ++ later →
    openSorted (capturing a fr ip cells h vm) l →
    ∃ us cells' h' l',
      InstructionHandlers.captureAll (length ds) (capturing a fr ip cells h vm)
      = Ok us (capturing a fr (ip + 2 * Z.of_nat (length ds)) cells' h' vm)
      ∧ openSorted (capturing a fr (ip + 2 * Z.of_nat (length ds)) cells' h' vm) l'
      ∧ (∀ v, v ∈ l → v ∈ l')
      ∧ cellsExtended cells cells'
      ∧ Forall2 (capturedBy cells' l' fr cl) ds us.
Proof.
  intros Hcur Hfr Hcl ds.
  induction ds as [|d ds IH]; intros ip cells h l later Hip Hcode Hsorted.
  - exists [], cells, h, l. simpl. rewrite Z.add_0_r.
    split_and!; [done|done|done|apply cellsExtended_refl|constructor].
  - rewrite upvalueBytes_cons in Hcode. simpl in Hcode.
    destruct (index_drop _ _ _ _ Hip Hcode) as [Hflag Hcode1].
    destruct (index_drop _ _ (ip + 1) _ ltac:(lia) Hcode1) as [Hindex Hcode2].
    replace (ip + 1 + 1) with (ip + 2) in Hcode2 by lia.
    assert (∃ u cells1 h1 l1,
      (if bool_decide (Some (if UpvalueDesc.isLocal d then 1 else 0) = Some 1)
       then u ← captureUpvalue (CallFrame.stackBase (CallFrame.with_ip (ip + 2) fr)
                                + UpvalueDesc.index d); mret (Some u)
       else frameUpvalue (UpvalueDesc.index d)) (capturing a fr (ip + 2) cells h vm)
      = Ok u (capturing a fr (ip + 2) cells1 h1 vm)
      ∧ openSorted (capturing a fr (ip + 2) cells1 h1 vm) l1
      ∧ (∀ v, v ∈ l → v ∈ l1)
      ∧ cellsExtended cells cells1
      ∧ capturedBy cells1 l1 fr cl d u) as (u & cells1 & h1 & l1 & Hu & Hs1 & Hsub1 & Hext1 & Hcap1).
    { unfold capturedBy. destruct (UpvalueDesc.isLocal d).
      - rewrite bool_decide_eq_true_2 by done.
        destruct (captureUpvalue_cell (capturing a fr (ip + 2) cells h vm) l
                    (CallFrame.stackBase fr + UpvalueDesc.index d) Hsorted)
          as (c & cells1 & h1 & l1 & Hc & Hs1 & Hsub1 & Hin & Hloc & Hext1).
        exists (Some c), cells1, h1, l1. split_and!; try done.
        + mstep by (exact Hc). reflexivity.
        + by exists c.
      - rewrite bool_decide_eq_false_2 by done.
        exists (default None (index (Closure.upvalues cl) (UpvalueDesc.index d))), cells, h, l.
        split_and!; try done; [|apply cellsExtended_refl].
        by apply frameUpvalue_capturing. }
    destruct (IH (ip + 2) cells1 h1 l1 later ltac:(lia) Hcode2 Hs1)
      as (us & cells' & h' & l' & Hrest & Hs' & Hsub' & Hext' & Hall).
    replace (ip + 2 + 2 * Z.of_nat (length ds))
      with (ip + 2 * Z.of_nat (length (d :: ds))) in * by (simpl length; lia).
    exists (u :: us), cells', h', l'. split_and!.
    + change (InstructionHandlers.captureAll (length (d :: ds))) with
        (isLocal ← readByte;
         index ← readOperand;
         '(_, frame) ← theCurrentFrame;
         u ← (if bool_decide (isLocal = Some 1)
              then u ← captureUpvalue (CallFrame.stackBase frame + index); mret (Some u)
              else frameUpvalue index);
         rest ← InstructionHandlers.captureAll (length ds);
         mret (u :: rest)).
      mstep by (by apply readByte_capturing). rewrite Hflag.
      assert (readOperand (capturing a fr (ip + 1) cells h vm)
              = Ok (UpvalueDesc.index d) (capturing a fr (ip + 2) cells h vm)) as Hop.
      { unfold readOperand. mstep by (by apply readByte_capturing).
        rewrite Hindex. by replace (ip + 1 + 1) with (ip + 2) by lia. }
      mstep by (exact Hop).
      mstep by (by apply theCurrentFrame_capturing).
      mstep by (exact Hu).
      mstep by (exact Hrest). reflexivity.
    + done.
    + auto.
    + by eapply cellsExtended_trans.
    + constructor; [|done]. by eapply capturedBy_later.
Qed.

Lemma capturing_start (vm : VM) (a : nat) (fr : CallFrame.t) (ip : Z) :
  capturing a fr ip (upvalueCells vm) (openUpvalues vm) vm = atIp a fr ip vm.
Proof. by destruct vm. Qed.

(** X26. OP_CLOSURE reads back what [emitClosure] wrote behind the opcode:
    the index of the function among the constants and two bytes for each
    upvalue the compiler recorded for the function. While the open upvalues
    are linked from the highest stack slot down, the closure it pushes has
    one upvalue for each of them, in their order: for a local of the
    function around it an open cell of the slot [stackBase + index], the
    cell that is open for this slot already where there is one, and
    otherwise the upvalue of the running closure at the index. The
    instruction pointer ends behind the last of the bytes; the open list is
    still in order and has lost no cell, and no cell has changed its slot or
    its closed value. *)
Theorem closure_captures_what_the_compiler_recorded (vm : VM) (a : nat) (fr : CallFrame.t)
    (cl : Closure.t) (func : FunctionObject) (funcIndex : Z) (later : list Z) (l : list nat) :
  currentFrame vm = Some a →
  frames vm !! a = Some fr →
  closures vm !! CallFrame.closure fr = Some cl →
  0 ≤ CallFrame.ip fr →
  drop (Z.to_nat (CallFrame.ip fr)) (FunctionObject.bytecode (CallFrame.func fr))
  = funcIndex :: upvalueBytes (FunctionObject.upvalues func) ++ later →
  index (FunctionObject.constants (CallFrame.func fr)) funcIndex = Some (VFunctionObject func) →
  FunctionObject.upvalueCount func = Z.of_nat (length (FunctionObject.upvalues func)) →
  openSorted vm l →
  ∃ us cells' h' l',
    InstructionHandlers.OP_CLOSURE vm
    = Ok OK (with_stack (stack vm ++ [VClosure (length (closures vm))])
               (with_closures (closures vm ++ [Closure.mk func us VUndefined])
                  (capturing a fr
                     (CallFrame.ip fr + 1 + 2 * Z.of_nat (length (FunctionObject.upvalues func)))
                     cells' h' vm)))
    ∧ Forall2 (capturedBy cells' l' fr cl) (FunctionObject.upvalues func) us
    ∧ (∀ i d v, FunctionObject.upvalues func !! i = Some d → UpvalueDesc.isLocal d = true →
                v ∈ l →
                locationOf (upvalueCells vm) v = CallFrame.stackBase fr + UpvalueDesc.index d →
                us !! i = Some (Some v))
    ∧ openList cells' h' l'
    ∧ decreasing (locationOf cells' <$> l')
    ∧ (∀ v, v ∈ l → v ∈ l')
    ∧ cellsExtended (upvalueCells vm) cells'.
Proof.
  intros Hcur Hfr Hcl Hip Hcode Hconst Hcount Hsorted.
  destruct (index_drop _ _ _ _ Hip Hcode) as [Hindex Hcode1].
  destruct (captureAll_spec vm a fr cl Hcur Hfr Hcl (FunctionObject.upvalues func)
              (CallFrame.ip fr + 1) (upvalueCells vm) (openUpvalues vm) l later
              ltac:(lia) Hcode1)
    as (us & cells' & h' & l' & Hall & [Hopen Hdec] & Hsub & Hext & Hcap).
  { rewrite capturing_start. exact Hsorted. }
  exists us, cells', h', l'. split_and!; try done.
  - unfold InstructionHandlers.OP_CLOSURE.
    mstep by (by apply readOperand_at).
    rewrite <- capturing_start.
    assert (constant funcIndex
              (capturing a fr (CallFrame.ip fr + 1) (upvalueCells vm) (openUpvalues vm) vm)
            = Ok (VFunctionObject func)
                 (capturing a fr (CallFrame.ip fr + 1) (upvalueCells vm) (openUpvalues vm) vm))
      as Hc.
    { unfold constant. mstep by (by apply theCurrentFrame_capturing).
      simpl. by rewrite Hconst. }
    mstep by (exact Hc).
    rewrite Hcount, Nat2Z.id.
    mstep by (exact Hall).
    reflexivity.
  - intros i d v Hd Hlocal Hv Hloc.
    destruct (Forall2_lookup_l _ _ _ _ _ Hcap Hd) as (u & Hu & Hby).
    unfold capturedBy in Hby. rewrite Hlocal in Hby.
    destruct Hby as (c & -> & Hc & Hlocc).
    rewrite Hu. do 2 f_equal.
    apply (decreasing_inj cells' l'); [done|done|by apply Hsub|].
    unfold locationOf at 1. rewrite Hlocc. simpl. rewrite <- Hloc.
    destruct Hsorted as [Hopen0 _].
    destruct (openList_lookup _ _ _ _ Hopen0 Hv) as [cell Hcell].
    destruct (Hext v cell Hcell) as (cell' & Hcell' & Hl & _).
    unfold locationOf. rewrite Hcell, Hcell'. simpl. congruence.
Qed.

Lemma closure_captures_what_the_compiler_recorded_witness :
  ∃ us cells' h',
    InstructionHandlers.OP_CLOSURE vmClosing
    = Ok OK (with_stack [VClosure 0; VStr "y"; VClosure 1]
               (with_closures [Closure.mk outerFunction [Some 0%nat] VUndefined;
                               Closure.mk innerFunction us VUndefined]
                  (capturing 0 (CallFrame.mk outerFunction 1 0 0 None) 6 cells' h' vmClosing)))
    ∧ ∃ c, us = [Some c; Some 0%nat] ∧ Upvalue.location <$> cells' !! c = Some 1.
Proof.
  destruct (closure_captures_what_the_compiler_recorded vmClosing 0
              (CallFrame.mk outerFunction 1 0 0 None)
              (Closure.mk outerFunction [Some 0%nat] VUndefined) innerFunction 0
              [Opcodes.OP_RETURN] [])
    as (us & cells' & h' & l' & Hrun & Hcap & _); try reflexivity; [simpl; lia| |].
  - split; simpl; [constructor|exact I].
  - exists us, cells', h'. split; [exact Hrun|].
    apply Forall2_cons_inv_l in Hcap as (u1 & us1 & (c & -> & _ & Hloc) & Hcap & ->).
    apply Forall2_cons_inv_l in Hcap as (u2 & us2 & -> & Hcap & ->).
    apply Forall2_nil_inv_l in Hcap as ->.
    exists c. by split.
Defined.

(** ** The code of an if statement *)

Lemma compileStatement_if (test : Expr) (consequent : Statement) :
  compileStatement (IfStatement test consequent None)
  = (compileExpr test;;
     thenJump ← onCurrent (emitJump Opcodes.OP_JUMP_IF_FALSE);
     onCurrent (emitByte Opcodes.OP_POP);;
     compileStatement consequent;;
     onCurrent (patchJump thenJump);;
     onCurrent (emitByte Opcodes.OP_POP)).
Proof. reflexivity. Qed.

Lemma cm_bind_ok {A B} (m : CM A) (k : A → CM B) (chain chain' : list CompilerState.t) (a : A) :
  m chain = COk a chain' → (m ≫= k) chain = k a chain'.
Proof. intros Hm. unfold mbind, CM_bind. by rewrite Hm. Qed.

Lemma jump_if_false_at (vm : VM) (a : nat) (fr : CallFrame.t) (st : list Value) (v : Value) :
  currentFrame vm = Some a → frames vm !! a = Some fr → stack vm = st ++ [v] →
  InstructionHandlers.OP_JUMP_IF_FALSE vm
  = Ok OK (atIp a fr (if isFalsy vm v
                      then CallFrame.ip fr + 2
                           + shortAt (FunctionObject.bytecode (CallFrame.func fr)) (CallFrame.ip fr)
                      else CallFrame.ip fr + 2) vm).
Proof.
  intros Hcur Hfr Hst. unfold InstructionHandlers.OP_JUMP_IF_FALSE.
  mstep by (by apply readShort_at).
  mstep by (by apply (peek0_snoc _ st v)).
  mstep. unfold id. rewrite (isFalsy_arrays vm) by done.
  destruct (isFalsy vm v).
  - by mstep by (by apply jumpBy_at).
  - reflexivity.
Qed.

(** Patching the placeholder of a jump with the length of the code emitted
    behind it. *)
Lemma patchJump_placeholder (s2 : CompilerState.t) (code : list Z) (instruction x y : Z)
    (emitted : list Z) :
  CompilerState.bytecode s2 = code ++ [instruction; x; y] ++ emitted →
  Z.of_nat (length emitted) ≤ 0xFFFF →
  let distance := Z.of_nat (length emitted) in
  patchJump (Z.of_nat (length code) + 1) s2
  = COk tt (CompilerState.with_bytecode
              (code ++ [instruction; highByte distance; lowByte distance] ++ emitted) s2).
Proof.
  intros Hcode Hfit distance.
  rewrite patchJump_inside
    by (rewrite ?Hcode; repeat (rewrite ?length_app; simpl); lia).
  cbv zeta.
  assert (Hjump : Z.of_nat (length (CompilerState.bytecode s2)) - (Z.of_nat (length code) + 1) - 2
                  = distance).
  { rewrite Hcode. repeat (rewrite ?length_app; simpl). unfold distance. lia. }
  rewrite Hjump. destruct (Z.gtb_spec distance 65535) as [Hbig|_]; [unfold distance in Hbig; lia|].
  do 2 f_equal. rewrite Hcode.
  replace (Z.to_nat (Z.of_nat (length code) + 1 + 1)) with (length code + 2)%nat by lia.
  replace (Z.to_nat (Z.of_nat (length code) + 1)) with (length code + 1)%nat by lia.
  rewrite !insert_app_r. reflexivity.
Qed.

(** X27. [if (test) consequent] without [else], where compiling the parts
    appends [testCode] and [consCode] and [consCode] is shorter than 0xFFFF
    bytes: the code emitted is the test, OP_JUMP_IF_FALSE, the OP_POP of the
    condition, the consequent, and one more OP_POP directly behind the
    consequent, with no jump in between. On a falsy condition
    OP_JUMP_IF_FALSE continues at that last OP_POP, the last byte emitted; on
    any other condition it continues at the first OP_POP, from where the
    code runs through the consequent into the last OP_POP as well.
    OP_JUMP_IF_FALSE itself takes nothing off the stack. *)
Theorem if_without_else_ends_in_the_pop_of_the_jump (test : Expr) (consequent : Statement)
    (s s1 s3 : CompilerState.t) (enclosing enclosing1 enclosing3 : list CompilerState.t)
    (testCode consCode : list Z) :
  compileExpr test (s :: enclosing) = COk tt (s1 :: enclosing1) →
  CompilerState.bytecode s1 = CompilerState.bytecode s ++ testCode →
  compileStatement consequent (consequentStart s1 :: enclosing1) = COk tt (s3 :: enclosing3) →
  CompilerState.bytecode s3 = CompilerState.bytecode (consequentStart s1) ++ consCode →
  Z.of_nat (length consCode) < 0xFFFF →
  let code := CompilerState.bytecode s ++ ifCode testCode consCode in
  let jump := Z.of_nat (length (CompilerState.bytecode s ++ testCode)) + 1 in
  compileStatement (IfStatement test consequent None) (s :: enclosing)
  = COk tt (CompilerState.with_bytecode code s3 :: enclosing3)
  ∧ index code (jump + 2) = Some Opcodes.OP_POP
  ∧ drop (Z.to_nat (jump + 3)) code = consCode ++ [Opcodes.OP_POP]
  ∧ ∀ vm a fr later st v,
      currentFrame vm = Some a → frames vm !! a = Some fr →
      FunctionObject.bytecode (CallFrame.func fr) = code ++ later →
      CallFrame.ip fr = jump →
      stack vm = st ++ [v] →
      InstructionHandlers.OP_JUMP_IF_FALSE vm
      = Ok OK (atIp a fr (if isFalsy vm v then Z.of_nat (length code) - 1 else jump + 2) vm).
Proof.
  intros Htest Hcode1 Hcons Hcode3 Hfit code jump.
  set (distance := Z.of_nat (length consCode) + 1).
  destruct (short_coding distance ltac:(unfold distance; lia)) as (Hdec & Hhi & Hlo).
  set (before := CompilerState.bytecode s ++ testCode) in *.
  assert (Hshape : code = (before ++ [Opcodes.OP_JUMP_IF_FALSE])
                          ++ [highByte distance; lowByte distance]
                          ++ Opcodes.OP_POP :: consCode ++ [Opcodes.OP_POP]).
  { unfold code, ifCode, before. fold distance. by rewrite <- !app_assoc. }
  assert (Hjumplen : jump = Z.of_nat (length (before ++ [Opcodes.OP_JUMP_IF_FALSE]))).
  { unfold jump. rewrite length_app. simpl. lia. }
  split_and!.
  - rewrite compileStatement_if.
    erewrite cm_bind_ok by exact Htest.
    assert (onCurrent (emitJump Opcodes.OP_JUMP_IF_FALSE) (s1 :: enclosing1)
            = COk jump (CompilerState.with_bytecode
                          (before ++ [Opcodes.OP_JUMP_IF_FALSE; 0xff; 0xff]) s1 :: enclosing1))
      as Hemit.
    { unfold onCurrent, emitJump, emitByte, emitBytes, getState.
      unfold mbind, mret, CS_bind, CS_ret. simpl. rewrite Hcode1. fold before.
      rewrite <- !app_assoc. simpl. do 2 f_equal.
      unfold jump. rewrite !length_app. simpl. lia. }
    erewrite cm_bind_ok by exact Hemit.
    assert (onCurrent (emitByte Opcodes.OP_POP)
              (CompilerState.with_bytecode
                 (before ++ [Opcodes.OP_JUMP_IF_FALSE; 0xff; 0xff]) s1 :: enclosing1)
            = COk tt (consequentStart s1 :: enclosing1)) as Hpop.
    { unfold onCurrent, emitByte, consequentStart. simpl. rewrite Hcode1. fold before.
      by rewrite <- !app_assoc. }
    erewrite cm_bind_ok by exact Hpop.
    erewrite cm_bind_ok by exact Hcons.
    assert (CompilerState.bytecode s3
            = before ++ [Opcodes.OP_JUMP_IF_FALSE; 0xff; 0xff] ++ Opcodes.OP_POP :: consCode)
      as Hcode3'.
    { rewrite Hcode3. unfold consequentStart. simpl. rewrite Hcode1. fold before.
      by rewrite <- !app_assoc. }
    assert (onCurrent (patchJump jump) (s3 :: enclosing3)
            = COk tt (CompilerState.with_bytecode
                        (before ++ [Opcodes.OP_JUMP_IF_FALSE; highByte distance; lowByte distance]
                         ++ Opcodes.OP_POP :: consCode) s3 :: enclosing3)) as Hpatch.
    { unfold onCurrent, jump.
      rewrite (patchJump_placeholder s3 before Opcodes.OP_JUMP_IF_FALSE 0xff 0xff
                 (Opcodes.OP_POP :: consCode) Hcode3')
        by (simpl length; lia).
      cbv zeta. replace (Z.of_nat (length (Opcodes.OP_POP :: consCode))) with distance
        by (unfold distance; simpl length; lia).
      reflexivity. }
    erewrite cm_bind_ok by exact Hpatch.
    assert (code = (before ++ [Opcodes.OP_JUMP_IF_FALSE; highByte distance; lowByte distance]
                           ++ Opcodes.OP_POP :: consCode) ++ [Opcodes.OP_POP]) as ->.
    { unfold code, ifCode, before. fold distance. by rewrite <- !app_assoc. }
    reflexivity.
  - rewrite Hshape, Hjumplen. unfold index.
    destruct (Z.ltb_spec (Z.of_nat (length (before ++ [Opcodes.OP_JUMP_IF_FALSE])) + 2) 0); [lia|].
    replace (Z.to_nat (Z.of_nat (length (before ++ [Opcodes.OP_JUMP_IF_FALSE])) + 2))
      with (length (before ++ [Opcodes.OP_JUMP_IF_FALSE]) + 2)%nat by lia.
    by rewrite lookup_app_r, Nat.add_comm, Nat.add_sub by lia.
  - rewrite Hshape, Hjumplen.
    replace (Z.to_nat (Z.of_nat (length (before ++ [Opcodes.OP_JUMP_IF_FALSE])) + 3))
      with (length (before ++ [Opcodes.OP_JUMP_IF_FALSE]) + 3)%nat by lia.
    by rewrite drop_app_add.
  - intros vm a fr later st v Hcur Hfr Hfunc Hip Hst.
    rewrite (jump_if_false_at vm a fr st v) by done.
    destruct (isFalsy vm v); [|by rewrite Hip].
    f_equal. rewrite Hfunc, Hip, Hshape, Hjumplen.
    rewrite <- !app_assoc. rewrite (app_assoc before).
    rewrite (shortAt_app (before ++ [Opcodes.OP_JUMP_IF_FALSE])), Hdec.
    repeat (rewrite ?length_app; simpl). unfold distance. f_equal. lia.
Qed.

Lemma if_without_else_ends_in_the_pop_of_the_jump_witness :
  compileStatement (IfStatement (BooleanLiteral true) (BlockStatement []) None)
    [CompilerState.make "f"]
  = COk tt [CompilerState.with_bytecode
              [Opcodes.OP_PUSH_TRUE; Opcodes.OP_JUMP_IF_FALSE; 0; 1; Opcodes.OP_POP;
               Opcodes.OP_POP] (CompilerState.make "f")]
  ∧ returned (@runProgram exampleHost 20 (returnsLocalAfterIf true)) = Some VUndefined
  ∧ returned (@runProgram exampleHost 20 (returnsLocalAfterIf false)) = Some (VStr "kept").
Proof.
  split; [|split; vm_compute; reflexivity].
  pose proof (if_without_else_ends_in_the_pop_of_the_jump (BooleanLiteral true) (BlockStatement [])
                (CompilerState.make "f")
                (CompilerState.with_bytecode [Opcodes.OP_PUSH_TRUE] (CompilerState.make "f"))
                (consequentStart
                   (CompilerState.with_bytecode [Opcodes.OP_PUSH_TRUE] (CompilerState.make "f")))
                [] [] [] [Opcodes.OP_PUSH_TRUE] []
                eq_refl eq_refl eq_refl eq_refl) as Hif.
  destruct (Hif ltac:(simpl; lia)) as [Hcompile _].
  exact Hcompile.
Defined.

(** ** Open upvalues and the locals they stand for *)

Lemma get_upvalue_open (vm : VM) (a : nat) (fr : CallFrame.t) (slot : Z) (u : nat)
    (cell : Upvalue.t) :
  upvalueOperand vm a fr slot u cell →
  Upvalue.closed cell = VNull →
  InstructionHandlers.OP_GET_UPVALUE vm
  = Ok OK (with_stack (stack vm ++ [slotValue vm (Upvalue.location cell)]) (operandRead a fr vm)).
Proof.
  intros Hop Hopen. pose proof Hop as (Hcur & Hfr & Hslot & _ & Hcell).
  unfold InstructionHandlers.OP_GET_UPVALUE.
  mstep by (by eapply readOperand_at).
  mstep by (by eapply frameUpvalue_at).
  assert (deref_upvalue u (atIp a fr (CallFrame.ip fr + 1) vm)
          = Ok cell (atIp a fr (CallFrame.ip fr + 1) vm)) as Hderef.
  { unfold_m. simpl. by rewrite Hcell. }
  mstep by (exact Hderef). rewrite Hopen.
  assert ((v ← stackRead (Upvalue.location cell); push v) (atIp a fr (CallFrame.ip fr + 1) vm)
          = Ok tt (with_stack (stack vm ++ [slotValue vm (Upvalue.location cell)])
                     (atIp a fr (CallFrame.ip fr + 1) vm))) as Hpush.
  { mstep by (apply stackRead_slot). reflexivity. }
  mstep by (exact Hpush). reflexivity.
Qed.

(** X28. An upvalue that is still open stands for the stack slot of its
    local: OP_GET_UPVALUE pushes what is in the slot, and OP_SET_UPVALUE
    stores the value on top of the stack in the slot, leaves it on top and
    does not touch the cell. Afterwards OP_GET_LOCAL of that slot in the
    function that owns the local, and OP_GET_UPVALUE through the cell from
    any closure that holds it, push the value written: while the variable is
    in scope, the function and its closures see one value. *)
Theorem open_upvalue_is_the_local (vm : VM) (a : nat) (fr : CallFrame.t) (slot : Z) (u : nat)
    (cell : Upvalue.t) (st : list Value) (v : Value) :
  upvalueOperand vm a fr slot u cell →
  Upvalue.closed cell = VNull →
  0 ≤ Upvalue.location cell →
  stack vm = st ++ [v] →
  let loc := Upvalue.location cell in
  let st' := written loc v (st ++ [v]) in
  InstructionHandlers.OP_GET_UPVALUE vm
  = Ok OK (with_stack (st ++ [v; default VUndefined ((st ++ [v]) !! Z.to_nat loc)])
             (operandRead a fr vm))
  ∧ InstructionHandlers.OP_SET_UPVALUE vm = Ok OK (with_stack st' (operandRead a fr vm))
  ∧ (∀ vm2 a2 fr2 slot2,
       byteOperand vm2 a2 fr2 slot2 →
       CallFrame.stackBase fr2 + slot2 = loc →
       stack vm2 = st' →
       InstructionHandlers.OP_GET_LOCAL vm2
       = Ok OK (with_stack (st' ++ [v]) (operandRead a2 fr2 vm2)))
  ∧ (∀ vm2 a2 fr2 slot2,
       upvalueOperand vm2 a2 fr2 slot2 u cell →
       stack vm2 = st' →
       InstructionHandlers.OP_GET_UPVALUE vm2
       = Ok OK (with_stack (st' ++ [v]) (operandRead a2 fr2 vm2))).
Proof.
  intros Hop Hopen Hloc Hst loc st'.
  pose proof Hop as (Hcur & Hfr & Hslot & _ & Hcell).
  assert (Hread : ∀ vm2, stack vm2 = st' → slotValue vm2 loc = v).
  { intros vm2 Hst2. unfold slotValue. destruct (Z.ltb_spec loc 0); [unfold loc in *; lia|].
    rewrite Hst2. unfold st'. by rewrite written_lookup. }
  split_and!.
  - rewrite (get_upvalue_open vm a fr slot u cell Hop Hopen). do 2 f_equal.
    rewrite Hst, <- app_assoc. simpl. do 3 f_equal. unfold slotValue.
    destruct (Z.ltb_spec (Upvalue.location cell) 0); [lia|]. by rewrite Hst.
  - unfold InstructionHandlers.OP_SET_UPVALUE.
    mstep by (by eapply readOperand_at).
    mstep by (by eapply frameUpvalue_at).
    assert (deref_upvalue u (atIp a fr (CallFrame.ip fr + 1) vm)
            = Ok cell (atIp a fr (CallFrame.ip fr + 1) vm)) as Hderef.
    { unfold_m. simpl. by rewrite Hcell. }
    mstep by (exact Hderef). rewrite Hopen.
    assert ((w ← peek 0; stackWrite (Upvalue.location cell) w)
              (atIp a fr (CallFrame.ip fr + 1) vm)
            = Ok tt (with_stack st' (atIp a fr (CallFrame.ip fr + 1) vm))) as Hwrite.
    { mstep by (by apply (peek0_snoc _ st v)).
      rewrite stackWrite_written by done. simpl stack. by rewrite Hst. }
    mstep by (exact Hwrite). reflexivity.
  - intros vm2 a2 fr2 slot2 (Hcur2 & Hfr2 & Hslot2) Hbase2 Hst2.
    unfold InstructionHandlers.OP_GET_LOCAL.
    mstep by (by eapply readOperand_at). fold (operandRead a2 fr2 vm2).
    mstep by (by apply theCurrentFrame_read).
    simpl CallFrame.stackBase. rewrite Hbase2.
    mstep by (apply stackRead_slot).
    unfold push. unfold_m. simpl.
    change (slotValue (operandRead a2 fr2 vm2) loc) with (slotValue vm2 loc).
    by rewrite (Hread vm2 Hst2), Hst2.
  - intros vm2 a2 fr2 slot2 Hop2 Hst2.
    rewrite (get_upvalue_open vm2 a2 fr2 slot2 u cell Hop2 Hopen).
    fold loc. by rewrite (Hread vm2 Hst2), Hst2.
Qed.

Lemma open_upvalue_is_the_local_witness :
  InstructionHandlers.OP_SET_UPVALUE vmAssigning
  = Ok OK (with_stack [VClosure 0; VStr "new"; VStr "new"]
             (operandRead 0 (CallFrame.mk assignFunction 1 0 0 None) vmAssigning)).
Proof.
  destruct (open_upvalue_is_the_local vmAssigning 0 (CallFrame.mk assignFunction 1 0 0 None) 0 0
              (Upvalue.mk 1 VNull None) [VClosure 0; VStr "old"] (VStr "new"))
    as (_ & Hset & _).
  - split_and!; try reflexivity. by eexists.
  - reflexivity.
  - simpl. lia.
  - reflexivity.
  - exact Hset.
Defined.

(** ** Method calls *)

Lemma atIp_again (a : nat) (fr : CallFrame.t) (ip ip' : Z) (vm : VM) :
  atIp a (CallFrame.with_ip ip fr) ip' (atIp a fr ip vm) = atIp a fr ip' vm.
Proof. unfold atIp. simpl. by rewrite list_insert_insert_eq. Qed.

Lemma atIp_frame (a : nat) (fr : CallFrame.t) (ip : Z) (vm : VM) :
  frames vm !! a = Some fr → frames (atIp a fr ip vm) !! a = Some (CallFrame.with_ip ip fr).
Proof. intros Hfr. simpl. apply list_lookup_insert_eq. by eapply lookup_lt_Some. Qed.

Lemma nameConstant_atIp (vm : VM) (a : nat) (fr : CallFrame.t) (ip i : Z) (name : string) :
  currentFrame vm = Some a →
  frames vm !! a = Some fr →
  index (FunctionObject.constants (CallFrame.func fr)) i = Some (VStr name) →
  nameConstant i (atIp a fr ip vm) = Ok name (atIp a fr ip vm).
Proof.
  intros Hcur Hfr Hname.
  unfold nameConstant, constant, theCurrentFrame, atIp.
  pose proof (lookup_lt_Some _ _ _ Hfr) as Hlt.
  unfold_m. simpl. rewrite Hcur. simpl. rewrite list_lookup_insert_eq by done. simpl.
  rewrite Hname. reflexivity.
Qed.

(** OP_CALL_METHOD on a VM object, up to the method found on its chain. *)
Lemma call_method_found (vm : VM) (a : nat) (fr : CallFrame.t) (name : string)
    (below args : list Value) (o : nat) (chain : list nat) :
  methodOperands vm a fr name (Z.of_nat (length args)) →
  stack vm = below ++ VObject o :: args →
  name ∉ objectPrototypeKeys →
  protoChain (objects vm) (VObject o) chain →
  Forall (lacks (objects vm) "hasOwnProperty") chain →
  let vm1 := with_stack below (atIp a fr (CallFrame.ip fr + 2) vm) in
  InstructionHandlers.OP_CALL_METHOD vm
  = match inherited (objects vm) chain name with
    | Some method =>
        InstructionHandlers.callFoundMethod name (Z.of_nat (length args)) (VObject o) args
          method vm1
    | None => fail (methodNotFound name) vm1
    end.
Proof.
  intros (Hcur & Hfr & Hcount & i & Hi & Hconst) Hst Hname Hchain Hplain vm1.
  unfold InstructionHandlers.OP_CALL_METHOD.
  mstep by (by eapply readOperand_at).
  assert (readOperand (atIp a fr (CallFrame.ip fr + 1) vm)
          = Ok (Z.of_nat (length args)) (atIp a fr (CallFrame.ip fr + 2) vm)) as Hsecond.
  { rewrite (readOperand_at _ a (CallFrame.with_ip (CallFrame.ip fr + 1) fr)
               (Z.of_nat (length args))); [|done|by apply atIp_frame|done].
    simpl CallFrame.ip. rewrite atIp_again. do 2 f_equal. lia. }
  mstep by (exact Hsecond).
  mstep by (by apply nameConstant_atIp).
  mstep by (by apply (peek_at _ below args (VObject o))).
  assert (topValues (Z.of_nat (length args)) (atIp a fr (CallFrame.ip fr + 2) vm)
          = Ok args (atIp a fr (CallFrame.ip fr + 2) vm)) as Htop.
  { apply (topValues_at _ (below ++ [VObject o])). simpl. by rewrite Hst, <- app_assoc. }
  mstep by (exact Htop).
  assert (dropValues (Z.of_nat (length args) + 1) (atIp a fr (CallFrame.ip fr + 2) vm)
          = Ok tt vm1) as Hdrop.
  { apply (dropValues_at _ below (VObject o :: args)); [done|]. simpl length. lia. }
  mstep by (exact Hdrop).
  rewrite bool_decide_eq_false_2 by done.
  mstep. unfold id.
  mstep by (by apply (lookupChain_inherited vm "current" name o chain)).
  by destruct (inherited (objects vm) chain name).
Qed.

(** X29. A method call on a VM object whose chain has no own property
    [hasOwnProperty], for a name that is no key of the host's object
    prototype: the receiver and the arguments are taken off the stack and the
    method is the own property of that name of the first object on the
    prototype chain that has one. Where this is the closure of a function
    that is neither async nor a generator and the arguments are as many as
    its arity, receiver and arguments are pushed again and a frame of the
    function is pushed whose base is the slot of the receiver, so that the
    receiver is the local 0 of the method. With another number of arguments
    the call fails with the numbers expected and given; where no object of
    the chain has the property, or the property found is no closure (even if
    an object further up the chain has a method of that name), it fails as
    a method not found. In both failures the receiver and the arguments are
    off the stack. *)
Theorem method_call_binds_the_receiver (vm : VM) (a : nat) (fr : CallFrame.t) (name : string)
    (below args : list Value) (o : nat) (chain : list nat) :
  methodOperands vm a fr name (Z.of_nat (length args)) →
  stack vm = below ++ VObject o :: args →
  name ∉ objectPrototypeKeys →
  protoChain (objects vm) (VObject o) chain →
  Forall (lacks (objects vm) "hasOwnProperty") chain →
  let vm1 := with_stack below (atIp a fr (CallFrame.ip fr + 2) vm) in
  (∀ m cl,
     inherited (objects vm) chain name = Some (VClosure m) →
     closures vm !! m = Some cl →
     FunctionObject.isAsync (Closure.func cl) = false →
     FunctionObject.isGenerator (Closure.func cl) = false →
     InstructionHandlers.OP_CALL_METHOD vm
     = if Z.of_nat (length args) =? FunctionObject.arity (Closure.func cl)
       then Ok OK (framePushed
                     (CallFrame.mk (Closure.func cl) 0 (Z.of_nat (length below)) m None)
                     (with_stack (below ++ VObject o :: args) vm1))
       else fail (methodArity name (FunctionObject.arity (Closure.func cl))
                    (Z.of_nat (length args))) vm1)
  ∧ ((∀ m, inherited (objects vm) chain name ≠ Some (VClosure m)) →
     InstructionHandlers.OP_CALL_METHOD vm = fail (methodNotFound name) vm1).
Proof.
  intros Hop Hst Hname Hchain Hplain vm1.
  pose proof (call_method_found vm a fr name below args o chain Hop Hst Hname Hchain Hplain)
    as Hcall. cbv zeta in Hcall. fold vm1 in Hcall.
  split.
  - intros m cl Hfound Hcl Hasync Hgen. rewrite Hcall, Hfound.
    unfold InstructionHandlers.callFoundMethod.
    assert (deref_closure m vm1 = Ok cl vm1) as Hderef.
    { unfold_m. simpl. by rewrite Hcl. }
    mstep by (exact Hderef).
    destruct (Z.eqb_spec (Z.of_nat (length args)) (FunctionObject.arity (Closure.func cl)));
      [|reflexivity].
    rewrite Hasync, Hgen. change (negb true) with false. cbv iota.
    mstep.
    mstep.
    mstep by (apply forEach_push).
    mstep. simpl. unfold framePushed. simpl. rewrite <- app_assoc. reflexivity.
  - intros Hnone. rewrite Hcall.
    destruct (inherited (objects vm) chain name) as [method|]; [|reflexivity].
    destruct method; try reflexivity. exfalso. by eapply Hnone.
Qed.

Lemma method_call_binds_the_receiver_witness :
  InstructionHandlers.OP_CALL_METHOD (vmCallingMethod [VStr "x"])
  = Ok OK (framePushed (CallFrame.mk methodFunction 0 1 1 None)
             (atIp 0 (CallFrame.mk (callerFunction 1) 1 0 0 None) 3 (vmCallingMethod [VStr "x"])))
  ∧ InstructionHandlers.OP_CALL_METHOD (vmCallingMethod [])
    = fail "Expected 1 args for method 'm' but got 0."
        (with_stack [VClosure 0]
           (atIp 0 (CallFrame.mk (callerFunction 0) 1 0 0 None) 3 (vmCallingMethod []))).
Proof.
  assert (Hchain : protoChain instanceAndPrototype (VObject 0) [0%nat; 1%nat]).
  { econstructor; [reflexivity|]. econstructor; [reflexivity|]. by constructor. }
  assert (Hplain : Forall (lacks instanceAndPrototype "hasOwnProperty") [0%nat; 1%nat]).
  { repeat constructor; intros o Ho; by injection Ho as <-. }
  assert (Hname : "m" ∉ objectPrototypeKeys).
  { intros Hin. by vm_compute in Hin; repeat (apply elem_of_cons in Hin as [Hin|Hin]; [done|]);
      apply elem_of_nil in Hin. }
  assert (Hop : ∀ args, methodOperands (vmCallingMethod args) 0
                           (CallFrame.mk (callerFunction (Z.of_nat (length args))) 1 0 0 None)
                           "m" (Z.of_nat (length args))).
  { intros args. split_and!; try reflexivity. by exists 0. }
  split.
  - destruct (method_call_binds_the_receiver (vmCallingMethod [VStr "x"]) 0
                (CallFrame.mk (callerFunction 1) 1 0 0 None) "m" [VClosure 0] [VStr "x"] 0
                [0%nat; 1%nat] (Hop [VStr "x"]) eq_refl Hname Hchain Hplain) as [Hcall _].
    exact (Hcall 1%nat (Closure.mk methodFunction [] VUndefined)
             eq_refl eq_refl eq_refl eq_refl).
  - destruct (method_call_binds_the_receiver (vmCallingMethod []) 0
                (CallFrame.mk (callerFunction 0) 1 0 0 None) "m" [VClosure 0] [] 0
                [0%nat; 1%nat] (Hop []) eq_refl Hname Hchain Hplain) as [Hcall _].
    exact (Hcall 1%nat (Closure.mk methodFunction [] VUndefined)
             eq_refl eq_refl eq_refl eq_refl).
Defined.
